(** * pycheops.dataset: parameter handling, priors, posterior evaluation
      and the ensemble-sampler driver

    A shallow embedding of the model-fitting core of [pycheops/dataset.py]:
    [_kw_to_Parameter], [_log_prior], [_log_posterior_jitter],
    [_log_posterior_SHOTerm], the residual function [_chisq_prior] with the
    post-processing of [lmfit_transit], and the walker set-up and sampling
    phases of [emcee_sampler].

    Numbers.  A Python/NumPy float is modelled as an extended real
    ([pyfloat]): a finite real, one of the two infinities, or NaN.
    Comparisons involving NaN are false, as in IEEE 754.  Rounding, overflow
    of finite results and the sign of zero are not modelled.

    Objects.  [Parameters] objects are mutable and are passed by reference;
    they live in a store indexed by locations, so that [params.copy()]
    allocates and an assignment to [parcopy[p].value] writes to the store. *)

From Stdlib Require Import Reals Lra Lia ZArith String List Bool.
From stdpp Require Import gmap strings list.
From stdpp Require Import pretty.

(* ================================================================== *)
(** * Part I: definitions                                              *)
(* ================================================================== *)

(** ** Floats *)

Inductive pyfloat : Type :=
| Fin (r : R)
| PInf
| NInf
| NaN.

Definition Rltb (a b : R) : bool := if Rlt_dec a b then true else false.
Definition Reqb (a b : R) : bool := if Req_dec_T a b then true else false.

(** [x < y] on floats. *)
Definition flt (x y : pyfloat) : bool :=
  match x, y with
  | NaN, _ | _, NaN => false
  | Fin a, Fin b => Rltb a b
  | Fin _, PInf => true
  | Fin _, NInf => false
  | PInf, _ => false
  | NInf, NInf => false
  | NInf, _ => true
  end.

(** [x > y], [x <= y], [x >= y] and [x == y]. *)
Definition fgt (x y : pyfloat) : bool := flt y x.

Definition feq (x y : pyfloat) : bool :=
  match x, y with
  | Fin a, Fin b => Reqb a b
  | PInf, PInf => true
  | NInf, NInf => true
  | _, _ => false
  end.

Definition fle (x y : pyfloat) : bool := flt x y || feq x y.
Definition fge (x y : pyfloat) : bool := fle y x.

(** [np.isfinite] and [np.isnan] on a scalar. *)
Definition isfinite (x : pyfloat) : bool :=
  match x with Fin _ => true | _ => false end.

Definition isnan (x : pyfloat) : bool :=
  match x with NaN => true | _ => false end.

Definition fneg (x : pyfloat) : pyfloat :=
  match x with
  | Fin a => Fin (- a)
  | PInf => NInf
  | NInf => PInf
  | NaN => NaN
  end.

Definition fadd (x y : pyfloat) : pyfloat :=
  match x, y with
  | NaN, _ | _, NaN => NaN
  | Fin a, Fin b => Fin (a + b)
  | PInf, NInf | NInf, PInf => NaN
  | PInf, _ | _, PInf => PInf
  | NInf, _ | _, NInf => NInf
  end.

Definition fsub (x y : pyfloat) : pyfloat := fadd x (fneg y).

(** The infinity carrying the sign of [a]; NaN for zero. *)
Definition signed_inf (a : R) : pyfloat :=
  if Rltb 0 a then PInf else if Rltb a 0 then NInf else NaN.

Definition fmul (x y : pyfloat) : pyfloat :=
  match x, y with
  | NaN, _ | _, NaN => NaN
  | Fin a, Fin b => Fin (a * b)
  | Fin a, PInf | PInf, Fin a => signed_inf a
  | Fin a, NInf | NInf, Fin a => signed_inf (- a)
  | PInf, PInf | NInf, NInf => PInf
  | PInf, NInf | NInf, PInf => NaN
  end.

(** NumPy division: a non-zero finite number over zero is an infinity,
    [0/0] and [inf/inf] are NaN, a finite number over an infinity is zero. *)
Definition fdiv (x y : pyfloat) : pyfloat :=
  match x, y with
  | NaN, _ | _, NaN => NaN
  | Fin a, Fin b => if Reqb b 0 then signed_inf a else Fin (a / b)
  | Fin _, PInf | Fin _, NInf => Fin 0
  | PInf, Fin b => if Rltb b 0 then NInf else PInf
  | NInf, Fin b => if Rltb b 0 then PInf else NInf
  | PInf, _ | NInf, _ => NaN
  end.

(** [np.sqrt], [np.log], [np.exp], [np.log10]. *)
Definition fsqrt (x : pyfloat) : pyfloat :=
  match x with
  | Fin a => if Rltb a 0 then NaN else Fin (sqrt a)
  | PInf => PInf
  | NInf | NaN => NaN
  end.

Definition flog (x : pyfloat) : pyfloat :=
  match x with
  | Fin a => if Rltb 0 a then Fin (ln a) else if Rltb a 0 then NaN else NInf
  | PInf => PInf
  | NInf | NaN => NaN
  end.

Definition fexp (x : pyfloat) : pyfloat :=
  match x with
  | Fin a => Fin (exp a)
  | PInf => PInf
  | NInf => Fin 0
  | NaN => NaN
  end.

Definition flog10 (x : pyfloat) : pyfloat := fdiv (flog x) (Fin (ln 10)).

(** [x ** n] for an integer literal [n >= 0]: repeated multiplication. *)
Fixpoint fpow_nat (x : pyfloat) (n : nat) : pyfloat :=
  match n with
  | O => Fin 1
  | S O => x
  | S m => fmul x (fpow_nat x m)
  end.

(** [x ** y] for a positive float literal [y] that is not an integer
    (NumPy: NaN for a negative base). *)
Definition fpow_real (x : pyfloat) (y : R) : pyfloat :=
  match x with
  | Fin a => if Rltb 0 a then Fin (Rpower a y)
             else if Rltb a 0 then NaN else Fin 0
  | PInf => PInf
  | NInf | NaN => NaN
  end.

Definition fpi : pyfloat := Fin PI.

(** Arrays are lists; element-wise operations pair the entries up. *)
Definition arr_sub (a b : list pyfloat) : list pyfloat := zip_with fsub a b.
Definition arr_div (a b : list pyfloat) : list pyfloat := zip_with fdiv a b.
Definition arr_sum (a : list pyfloat) : pyfloat := foldl fadd (Fin 0) a.

(** [False in np.isfinite(a)]. *)
Definition has_nonfinite (a : list pyfloat) : bool :=
  existsb (fun x => negb (isfinite x)) a.

(** [a.std()]: the population standard deviation; NaN for an empty array. *)
Definition arr_mean (a : list pyfloat) : pyfloat :=
  fdiv (arr_sum a) (Fin (INR (length a))).

Definition arr_std (a : list pyfloat) : pyfloat :=
  let m := arr_mean a in
  fsqrt (arr_mean (map (fun x => fpow_nat (fsub x m) 2) a)).

(** ** The geometric prior on (D, W, b) *)

Definition _log_prior (D W b : pyfloat) : pyfloat :=
  if flt D (Fin 2e-6) || fgt D (Fin 0.2) then NInf
  else if flt b (Fin 0) || fgt b (Fin 1) then NInf
  else if flt W (Fin 1e-4) then NInf
  else
    let k := fsqrt D in
    let aR := fdiv (fsqrt (fsub (fpow_nat (fadd (Fin 1) k) 2) (fpow_nat b 2)))
                   (fmul fpi W) in
    if flt aR (Fin 2) then NInf
    else fsub (fsub (fneg (flog (fmul (fmul (Fin 2) k) W))) (flog k)) (flog aR).

(** ** Exceptions and results *)

Inductive exn : Type :=
| ValueError (msg : string)
| KeyError (key : string)
| IndexError
| TypeError (msg : string)
| ReferenceError
| NameError (name : string)
| ZeroDivisionError.

Inductive result (A : Type) : Type :=
| Ret (a : A)
| Raise (e : exn).
Arguments Ret {A} a.
Arguments Raise {A} e.

Definition rbind {A B : Type} (r : result A) (f : A -> result B) : result B :=
  match r with
  | Ret a => f a
  | Raise e => Raise e
  end.

Notation "'let?' x ':=' r 'in' k" := (rbind r (fun x => k))
  (at level 10, x pattern, r at level 100, k at level 200).

(** ** Parameters (the parts of lmfit's [Parameter] and [Parameters]
       classes that the module relies on) *)

(** A value with an uncertainty ([uncertainties.UFloat]): [u.n] and [u.s]. *)
Record UFloat : Type := ufloat { u_n : pyfloat; u_s : pyfloat }.

(** Constraint expressions, as parsed from the strings given to
    [params.add(..., expr=...)]. *)
Inductive Expr : Type :=
| EVar (x : string)
| ENum (c : R)
| EPi
| EAdd (a b : Expr)
| ESub (a b : Expr)
| EMul (a b : Expr)
| EDiv (a b : Expr)
| EPowInt (a : Expr) (n : nat)
| EPowFloat (a : Expr) (y : R)
| ESqrt (a : Expr)
| ELog10 (a : Expr)
| EExp (a : Expr).

(** A number is a Python number ([float], [int]) or a NumPy scalar: the
    two differ when an expression divides by zero, which raises
    [ZeroDivisionError] between Python numbers and gives an infinity or NaN
    as soon as a NumPy scalar takes part.  [num_native] tells a Python
    number. *)
Record number : Type := mkNum { num_val : pyfloat; num_native : bool }.

Definition python (x : pyfloat) : number := mkNum x true.
Definition numpy (x : pyfloat) : number := mkNum x false.

Record Param : Type := mkParam {
  p_name : string;
  p_val : pyfloat;               (* the stored value, [_val] *)
  p_vary : bool;
  p_min : pyfloat;
  p_max : pyfloat;
  p_expr : option Expr;
  p_user_data : option UFloat;   (* [None] or a [UFloat] prior *)
  p_stderr : option pyfloat;     (* [None] until a fit reports it *)
  p_native : bool;               (* [_val] is a Python number *)
  p_min_native : bool;           (* [min] is a Python number *)
  p_max_native : bool            (* [max] is a Python number *)
}.

(** A value assigned to a parameter "gets set to the limiting value if out
    of range" (comment in [_log_posterior_jitter]). *)
Definition clip (lo hi v : pyfloat) : pyfloat :=
  if fgt v hi then hi else if flt v lo then lo else v.

(** The same on numbers: a value out of range is replaced by the bound
    itself. *)
Definition clip_number (lo hi v : number) : number :=
  if fgt (num_val v) (num_val hi) then hi
  else if flt (num_val v) (num_val lo) then lo
  else v.

(** [np.isclose(a, b, atol=1e-13, rtol=1e-13)] on scalars. *)
Definition isclose (a b : pyfloat) : bool :=
  match a, b with
  | Fin x, Fin y => negb (Rltb (1e-13 + 1e-13 * Rabs y) (Rabs (x - y)))
  | PInf, PInf | NInf, NInf => true
  | _, _ => false
  end.

Definition min_equals_max (name : string) : exn :=
  ValueError ("Parameter '" ++ name ++ "' has min == max").

(** [Parameter(name=, value=, vary=, min=, max=, expr=, user_data=)]: the
    constructor of lmfit, with its check of the bounds ([_init_bounds]):
    bounds given in the wrong order are exchanged, bounds that coincide
    raise [ValueError], and the value is limited to the bounds.  A
    parameter with an expression is never varied. *)
Definition Parameter_new (name : string) (value : number) (vary : bool)
    (lo hi : number) (expr : option Expr) (user_data : option UFloat)
    : result Param :=
  let swap := fgt (num_val lo) (num_val hi) in
  let lo' := if swap then hi else lo in
  let hi' := if swap then lo else hi in
  if isclose (num_val lo') (num_val hi') then Raise (min_equals_max name)
  else
    let v := clip_number lo' hi' value in
    Ret {| p_name := name;
           p_val := num_val v;
           p_vary := match expr with Some _ => false | None => vary end;
           p_min := num_val lo';
           p_max := num_val hi';
           p_expr := expr;
           p_user_data := user_data;
           p_stderr := None;
           p_native := num_native v;
           p_min_native := num_native lo';
           p_max_native := num_native hi' |}.

(** [Parameters] is an ordered dictionary from names to parameters. *)
Definition Parameters : Type := list (string * Param).

Fixpoint getitem (ps : Parameters) (k : string) : option Param :=
  match ps with
  | [] => None
  | (k', p) :: rest => if String.eqb k' k then Some p else getitem rest k
  end.

(** [params[k] = p]: replaces the entry in place, or appends a new one. *)
Fixpoint setitem (ps : Parameters) (k : string) (p : Param) : Parameters :=
  match ps with
  | [] => [(k, p)]
  | (k', p') :: rest =>
      if String.eqb k' k then (k, p) :: rest else (k', p') :: setitem rest k p
  end.

Definition keys (ps : Parameters) : list string := map fst ps.

(** Evaluation of a constraint expression in an environment. *)
Fixpoint eval_expr (env : string -> pyfloat) (e : Expr) : pyfloat :=
  match e with
  | EVar x => env x
  | ENum c => Fin c
  | EPi => fpi
  | EAdd a b => fadd (eval_expr env a) (eval_expr env b)
  | ESub a b => fsub (eval_expr env a) (eval_expr env b)
  | EMul a b => fmul (eval_expr env a) (eval_expr env b)
  | EDiv a b => fdiv (eval_expr env a) (eval_expr env b)
  | EPowInt a n => fpow_nat (eval_expr env a) n
  | EPowFloat a y => fpow_real (eval_expr env a) y
  | ESqrt a => fsqrt (eval_expr env a)
  | ELog10 a => flog10 (eval_expr env a)
  | EExp a => fexp (eval_expr env a)
  end.

(** [par.value]: the stored value, or for a parameter with an expression
    the expression evaluated on the current values of the parameters it
    names, limited to the bounds.  lmfit refuses expressions that name
    unknown symbols or are cyclic when they are installed; here such a read
    gives NaN. *)
Fixpoint getval (fuel : nat) (ps : Parameters) (k : string) : pyfloat :=
  match fuel with
  | O => NaN
  | S fuel' =>
      match getitem ps k with
      | None => NaN
      | Some p =>
          match p_expr p with
          | None => p_val p
          | Some e => clip (p_min p) (p_max p) (eval_expr (getval fuel' ps) e)
          end
      end
  end.

Definition value_of (ps : Parameters) (k : string) : pyfloat :=
  getval (length ps) ps k.

(** The value of an entry [p] of [ps]. *)
Definition param_value (ps : Parameters) (p : Param) : pyfloat :=
  match p_expr p with
  | None => p_val p
  | Some e => clip (p_min p) (p_max p) (eval_expr (value_of ps) e)
  end.

(** [par.value = v], for an entry [v] of a NumPy array. *)
Definition set_value (p : Param) (v : pyfloat) : Param :=
  {| p_name := p_name p;
     p_val := clip (p_min p) (p_max p) v;
     p_vary := p_vary p;
     p_min := p_min p;
     p_max := p_max p;
     p_expr := p_expr p;
     p_user_data := p_user_data p;
     p_stderr := p_stderr p;
     p_native :=
       if fgt v (p_max p) then p_max_native p
       else if flt v (p_min p) then p_min_native p
       else false;
     p_min_native := p_min_native p;
     p_max_native := p_max_native p |}.

(** Whether the value of an expression is a Python number: it is when
    every operand is one, and never when a function of NumPy ([sqrt],
    [log10], [exp]) is applied. *)
Fixpoint native_expr (native : string -> bool) (e : Expr) : bool :=
  match e with
  | EVar x => native x
  | ENum _ | EPi => true
  | EAdd a b | ESub a b | EMul a b | EDiv a b =>
      native_expr native a && native_expr native b
  | EPowInt a _ | EPowFloat a _ => native_expr native a
  | ESqrt _ | ELog10 _ | EExp _ => false
  end.

(** Whether [par.value] is a Python number: the stored value, or for a
    parameter with an expression the value of the expression, or the bound
    that replaces it. *)
Fixpoint getnative (fuel : nat) (ps : Parameters) (k : string) : bool :=
  match fuel with
  | O => false
  | S fuel' =>
      match getitem ps k with
      | None => false
      | Some p =>
          match p_expr p with
          | None => p_native p
          | Some e =>
              let v := eval_expr (getval fuel' ps) e in
              if fgt v (p_max p) then p_max_native p
              else if flt v (p_min p) then p_min_native p
              else native_expr (getnative fuel' ps) e
          end
      end
  end.

Definition native_of (ps : Parameters) (k : string) : bool :=
  getnative (length ps) ps k.

(** The evaluation of an expression when a parameter that carries it is
    installed in [ps] (lmfit evaluates it with asteval and raises the error
    of the evaluation, if any): a name that is no parameter of [ps] raises
    [NameError]; a division of Python numbers by zero raises
    [ZeroDivisionError]; everything else is the arithmetic of
    [eval_expr].  (A negative Python number to a power that is no integer is
    a complex number in Python; here it is NaN as for NumPy scalars.) *)
Fixpoint asteval (ps : Parameters) (e : Expr) : result number :=
  let binop (f : pyfloat -> pyfloat -> pyfloat) (a b : Expr) :=
    let? x := asteval ps a in
    let? y := asteval ps b in
    Ret (mkNum (f (num_val x) (num_val y)) (num_native x && num_native y)) in
  let numpy_function (f : pyfloat -> pyfloat) (a : Expr) :=
    let? x := asteval ps a in
    Ret (numpy (f (num_val x))) in
  match e with
  | EVar x =>
      match getitem ps x with
      | Some _ => Ret (mkNum (value_of ps x) (native_of ps x))
      | None => Raise (NameError x)
      end
  | ENum c => Ret (python (Fin c))
  | EPi => Ret (python fpi)
  | EAdd a b => binop fadd a b
  | ESub a b => binop fsub a b
  | EMul a b => binop fmul a b
  | EDiv a b =>
      let? x := asteval ps a in
      let? y := asteval ps b in
      if num_native x && num_native y && feq (num_val y) (Fin 0)
      then Raise ZeroDivisionError
      else Ret (mkNum (fdiv (num_val x) (num_val y))
                      (num_native x && num_native y))
  | EPowInt a n =>
      let? x := asteval ps a in
      Ret (mkNum (fpow_nat (num_val x) n) (num_native x))
  | EPowFloat a y =>
      let? x := asteval ps a in
      Ret (mkNum (fpow_real (num_val x) y) (num_native x))
  | ESqrt a => numpy_function fsqrt a
  | ELog10 a => numpy_function flog10 a
  | EExp a => numpy_function fexp a
  end.

(** [params.add(name, value=, vary=, min=, max=, expr=)]: the new
    parameter is made, stored under its name, and its value is read, which
    evaluates its expression on the parameters that [ps] has. *)
Definition Parameters_add (ps : Parameters) (name : string) (value : number)
    (vary : bool) (lo hi : number) (expr : option Expr) : result Parameters :=
  let? p := Parameter_new name value vary lo hi expr None in
  match expr with
  | None => Ret (setitem ps name p)
  | Some e =>
      let? _ := asteval ps e in
      Ret (setitem ps name p)
  end.


(** ** Keyword arguments and [_kw_to_Parameter] *)

(** The Python values a fitting keyword can be bound to.  A tuple holds
    Python numbers; an [int] converts to a float exactly. *)
Inductive pyval : Type :=
| PyFloat (x : pyfloat)
| PyInt (z : Z)
| PyBool (b : bool)
| PyTuple (t : list pyfloat)
| PyUFloat (u : UFloat)
| PyParameter (p : Param)
| PyNone
| PyStr (s : string)
| PyList (l : list pyfloat).

(** The built-in [min] and [max] of a non-empty sequence: a running
    extreme, replaced when a later element compares strictly below
    (above) it. *)
Definition py_min (x : pyfloat) (rest : list pyfloat) : pyfloat :=
  foldl (fun m y => if flt y m then y else m) x rest.

Definition py_max (x : pyfloat) (rest : list pyfloat) : pyfloat :=
  foldl (fun m y => if fgt y m then y else m) x rest.

(** [np.median]: NaN when an entry is NaN; otherwise the middle entry of
    the sorted values, or the mean of the two middle entries. *)
Fixpoint insert_sorted (x : pyfloat) (l : list pyfloat) : list pyfloat :=
  match l with
  | [] => [x]
  | y :: l' => if flt y x then y :: insert_sorted x l' else x :: y :: l'
  end.

Definition np_sort (l : list pyfloat) : list pyfloat :=
  foldr insert_sorted [] l.

Definition np_median (l : list pyfloat) : pyfloat :=
  if existsb isnan l then NaN
  else
    let s := np_sort l in
    let n := length s in
    if Nat.even n
    then fdiv (fadd (nth (n / 2 - 1) s NaN) (nth (n / 2) s NaN)) (Fin 2)
    else nth (n / 2) s NaN.

Definition float_of_int (z : Z) : pyfloat := Fin (IZR z).

Definition unrecognised_type (name : string) : exn :=
  ValueError ("Unrecognised type for keyword argument " ++ name).

Definition _kw_to_Parameter (name : string) (kwarg : pyval) : result Param :=
  match kwarg with
  | PyFloat x =>
      Parameter_new name (python x) false (python NInf) (python PInf) None None
  | PyInt z =>
      Parameter_new name (python (float_of_int z)) false
                    (python NInf) (python PInf) None None
  | PyBool b =>
      Parameter_new name (python (float_of_int (Z.b2z b))) false
                    (python NInf) (python PInf) None None
  | PyTuple [] =>
      Raise (ValueError "min() arg is an empty sequence")
  | PyTuple (x :: rest) =>
      Parameter_new name (numpy (np_median (x :: rest))) true
                    (python (py_min x rest)) (python (py_max x rest)) None None
  | PyUFloat u =>
      Parameter_new name (python (u_n u)) true (python NInf) (python PInf)
                    None (Some u)
  | PyParameter p => Ret p
  | PyNone | PyStr _ | PyList _ => Raise (unrecognised_type name)
  end.

(** ** The object store *)

Definition loc : Type := nat.

(** The state of a celerite [GP] object that the module touches: the values
    of its named kernel parameters. *)
Definition GPstate : Type := gmap string pyfloat.

Record store : Type := mkStore {
  pheap : gmap loc Parameters;   (* the [Parameters] objects *)
  gheap : gmap loc GPstate       (* the [GP] objects *)
}.

(** Computations that read and write the store and may raise. *)
Definition M (A : Type) : Type := store -> result A * store.

Definition ret {A : Type} (a : A) : M A := fun s => (Ret a, s).
Definition raise {A : Type} (e : exn) : M A := fun s => (Raise e, s).
Definition bind {A B : Type} (m : M A) (f : A -> M B) : M B :=
  fun s =>
    match m s with
    | (Ret a, s') => f a s'
    | (Raise e, s') => (Raise e, s')
    end.

Notation "'let*' x ':=' m 'in' k" := (bind m (fun x => k))
  (at level 10, x pattern, m at level 100, k at level 200).

(** Dereference a [Parameters] object. *)
Definition read_params (l : loc) : M Parameters :=
  fun s =>
    match pheap s !! l with
    | Some ps => (Ret ps, s)
    | None => (Raise ReferenceError, s)
    end.

Definition write_params (l : loc) (ps : Parameters) : M unit :=
  fun s => (Ret tt, mkStore (<[l := ps]> (pheap s)) (gheap s)).

(** [params.copy()]: a new object with the same entries. *)
Definition Parameters_copy (l : loc) : M loc :=
  let* ps := read_params l in
  fun s =>
    let l' := fresh (dom (pheap s)) in
    (Ret l', mkStore (<[l' := ps]> (pheap s)) (gheap s)).

(** [params[k]] on a stored object. *)
Definition getitem_at (l : loc) (k : string) : M Param :=
  let* ps := read_params l in
  match getitem ps k with
  | Some p => ret p
  | None => raise (KeyError k)
  end.

(** [params[k].value = v] on a stored object. *)
Definition set_value_at (l : loc) (k : string) (v : pyfloat) : M unit :=
  let* ps := read_params l in
  match getitem ps k with
  | Some p => write_params l (setitem ps k (set_value p v))
  | None => raise (KeyError k)
  end.

(** [gp.set_parameter(name, v)]. *)
Definition gp_set_parameter (g : loc) (name : string) (v : pyfloat) : M unit :=
  fun s =>
    match gheap s !! g with
    | Some st => (Ret tt, mkStore (pheap s) (<[g := <[name := v]> st]> (gheap s)))
    | None => (Raise ReferenceError, s)
    end.

Definition read_gp (g : loc) : M GPstate :=
  fun s =>
    match gheap s !! g with
    | Some st => (Ret st, s)
    | None => (Raise ReferenceError, s)
    end.


(** ** Target functions for the sampler *)

(** An lmfit model: [model.eval(params, t=time)] reads the parameter values
    and returns the predicted flux at the given times. *)
Definition Model : Type := Parameters -> list pyfloat -> list pyfloat.

(** What a target function returns: a log-probability, or the model
    prediction when [return_fit] is set. *)
Inductive retval : Type :=
| RFloat (x : pyfloat)
| RArray (a : list pyfloat).

(** Control flow of a block that may execute a [return]. *)
Inductive flow (A : Type) : Type :=
| Continue (a : A)
| Return (v : retval).
Arguments Continue {A} a.
Arguments Return {A} v.

(** The loop [for i, p in enumerate(vn)]: the range check on [pos[i]] and
    the assignment [parcopy[p].value = v]. *)
Fixpoint assign_proposal (parcopy : loc) (vn : list string)
    (pos : list pyfloat) (i : nat) : M (flow unit) :=
  match vn with
  | [] => ret (Continue tt)
  | p :: vn' =>
      match pos !! i with
      | None => raise IndexError
      | Some v =>
          let* par := getitem_at parcopy p in
          if flt v (p_min par) || fgt v (p_max par)
          then ret (Return (RFloat NInf))
          else
            let* _ := set_value_at parcopy p v in
            assign_proposal parcopy vn' pos (S i)
      end
  end.

(** The Gaussian prior term [-0.5*((u.n - v)/u.s)**2]. *)
Definition gaussian_prior_term (u : UFloat) (v : pyfloat) : pyfloat :=
  fmul (Fin (-0.5)) (fpow_nat (fdiv (fsub (u_n u) v) (u_s u)) 2).

(** The loop [for p in parcopy]: range and NaN checks on every parameter,
    and the accumulation of the Gaussian priors into [lnprior]. *)
Fixpoint prior_loop (pc : Parameters) (entries : list (string * Param))
    (lnprior : pyfloat) : flow pyfloat :=
  match entries with
  | [] => Continue lnprior
  | (_, p) :: rest =>
      let v := param_value pc p in
      if flt v (p_min p) || fgt v (p_max p) then Return (RFloat NInf)
      else if isnan v then Return (RFloat NInf)
      else
        match p_user_data p with
        | Some u => prior_loop pc rest (fadd lnprior (gaussian_prior_term u v))
        | None => prior_loop pc rest lnprior
        end
  end.

(** [ps[k]] on a value: the entry, or [KeyError]. *)
Definition item (ps : Parameters) (k : string) : result Param :=
  match getitem ps k with
  | Some p => Ret p
  | None => Raise (KeyError k)
  end.

(** A computation that only produces a result. *)
Definition lift {A : Type} (r : result A) : M A := fun s => (r, s).

(** The statements that [_log_posterior_jitter] and
    [_log_posterior_SHOTerm] have in common after the assignment loop, from
    [fit = model.eval(parcopy, t=time)] to the second
    [if not np.isfinite(lnprior)].  They only read the working copy, whose
    entries at that point are [pc]. *)
Definition posterior_checks (pc : Parameters) (model : Model)
    (time : list pyfloat) (return_fit : bool)
    : result (flow (list pyfloat * pyfloat)) :=
  let fit := model pc time in
  if return_fit then Ret (Return (RArray fit))
  else if has_nonfinite fit then Ret (Return (RFloat NInf))
  else
    let? D := item pc "D" in
    let? W := item pc "W" in
    let? b := item pc "b" in
    let lnprior :=
      _log_prior (param_value pc D) (param_value pc W) (param_value pc b) in
    if negb (isfinite lnprior) then Ret (Return (RFloat NInf))
    else
      match prior_loop pc pc lnprior with
      | Return v => Ret (Return v)
      | Continue lnprior =>
          if negb (isfinite lnprior) then Ret (Return (RFloat NInf))
          else Ret (Continue (fit, lnprior))
      end.

(** The common part of the two target functions: the working copy, the
    assignment loop and the checks.  On [Continue] it hands on the working
    copy, the fit and the log-prior. *)
Definition posterior_head (pos : list pyfloat) (model : Model)
    (time : list pyfloat) (params : loc) (vn : list string)
    (return_fit : bool) : M (flow (loc * list pyfloat * pyfloat)) :=
  let* parcopy := Parameters_copy params in
  let* r := assign_proposal parcopy vn pos 0 in
  match r with
  | Return v => ret (Return v)
  | Continue _ =>
      let* pc := read_params parcopy in
      let* c := lift (posterior_checks pc model time return_fit) in
      match c with
      | Return v => ret (Return v)
      | Continue (fit, lnprior) => ret (Continue (parcopy, fit, lnprior))
      end
  end.

(** [parcopy[k].value] on a stored object. *)
Definition value_at (l : loc) (k : string) : M pyfloat :=
  let* ps := read_params l in
  let* p := lift (item ps k) in
  ret (param_value ps p).

(** The white-noise likelihood
    [-0.5*(np.sum((flux-fit)**2/s2 + np.log(2*np.pi*s2)))]
    with [s2 = flux_err**2 + jitter**2]. *)
Definition jitter_lnlike (flux fit flux_err : list pyfloat) (jitter : pyfloat)
    : pyfloat :=
  let s2 := map (fun e => fadd (fpow_nat e 2) (fpow_nat jitter 2)) flux_err in
  let chi := zip_with fdiv (map (fun r => fpow_nat r 2) (arr_sub flux fit)) s2 in
  let norm := map (fun v => flog (fmul (fmul (Fin 2) fpi) v)) s2 in
  fmul (Fin (-0.5)) (arr_sum (zip_with fadd chi norm)).

Definition _log_posterior_jitter (pos : list pyfloat) (model : Model)
    (time flux flux_err : list pyfloat) (params : loc) (vn : list string)
    (return_fit : bool) : M retval :=
  let* h := posterior_head pos model time params vn return_fit in
  match h with
  | Return v => ret v
  | Continue (parcopy, fit, lnprior) =>
      let* log_sigma := value_at parcopy "log_sigma" in
      let jitter := fexp log_sigma in
      let lnlike := jitter_lnlike flux fit flux_err jitter in
      ret (RFloat (fadd lnlike lnprior))
  end.

(** A celerite [GP] object: its place in the store and its
    [log_likelihood] method, a function of the kernel parameters currently
    set and of the residuals. *)
Record GP : Type := mkGP {
  gp_ref : loc;
  gp_log_likelihood : GPstate -> list pyfloat -> pyfloat
}.

Definition _log_posterior_SHOTerm (pos : list pyfloat) (model : Model)
    (time flux flux_err : list pyfloat) (params : loc) (vn : list string)
    (gp : GP) (return_fit : bool) : M retval :=
  let* h := posterior_head pos model time params vn return_fit in
  match h with
  | Return v => ret v
  | Continue (parcopy, fit, lnprior) =>
      let resid := arr_sub flux fit in
      let* log_S0 := value_at parcopy "log_S0" in
      let* _ := gp_set_parameter (gp_ref gp) "kernel:terms[0]:log_S0" log_S0 in
      let* log_Q := value_at parcopy "log_Q" in
      let* _ := gp_set_parameter (gp_ref gp) "kernel:terms[0]:log_Q" log_Q in
      let* log_omega0 := value_at parcopy "log_omega0" in
      let* _ := gp_set_parameter (gp_ref gp) "kernel:terms[0]:log_omega0" log_omega0 in
      let* log_sigma := value_at parcopy "log_sigma" in
      let* _ := gp_set_parameter (gp_ref gp) "kernel:terms[1]:log_sigma" log_sigma in
      let* st := read_gp (gp_ref gp) in
      ret (RFloat (fadd (gp_log_likelihood gp st resid) lnprior))
  end.


(** ** [Dataset.emcee_sampler]: the free-parameter vectors *)

(** The scale appended to [vs] for a varied parameter. *)
Definition walker_scale (p : Param) : pyfloat :=
  match p_stderr p with
  | None =>
      match p_user_data p with
      | None => fmul (Fin 0.1) (fsub (p_max p) (p_min p))
      | Some u => u_s u
      end
  | Some stderr =>
      if isfinite stderr then stderr
      else fmul (Fin 0.1) (fsub (p_max p) (p_min p))
  end.

(** The loop [for p in params] that fills [vv], [vs] and [vn]. *)
Fixpoint collect_free (ps : Parameters) (entries : list (string * Param))
    (vv vs : list pyfloat) (vn : list string)
    : list pyfloat * list pyfloat * list string :=
  match entries with
  | [] => (vv, vs, vn)
  | (k, p) :: rest =>
      if p_vary p
      then collect_free ps rest (vv ++ [param_value ps p])
                        (vs ++ [walker_scale p]) (vn ++ [k])
      else collect_free ps rest vv vs vn
  end.

Definition free_vectors (ps : Parameters)
    : list pyfloat * list pyfloat * list string :=
  collect_free ps ps [] [] [].

(** ** [Dataset.emcee_sampler]: the starting positions of the walkers *)

(** The state of NumPy's random generator as far as the driver sees it:
    entry [j] of the vector returned by call number [call] of
    [np.random.randn]. *)
Definition RandomState : Type := nat -> nat -> pyfloat.

Definition randn (rng : RandomState) (call n : nat) : list pyfloat :=
  map (rng call) (seq 0 n).

(** [vv + vs*z*init_scale]. *)
Definition start_position (vv vs z : list pyfloat) (init_scale : pyfloat)
    : list pyfloat :=
  zip_with fadd vv (map (fun x => fmul x init_scale) (zip_with fmul vs z)).

(** A loop run with a bound on its iterations either finishes, with a
    value or an exception, or uses the bound up. *)
Inductive outcome (A : Type) : Type :=
| Finished (r : result A)
| OutOfFuel.
Arguments Finished {A} r.
Arguments OutOfFuel {A}.

(** A target function with its arguments bound, as the sampler calls it. *)
Definition TargetFunction : Type := list pyfloat -> M retval.

(** The loop [while lnlike_i == -np.inf] for one walker.  [call] counts the
    calls of [np.random.randn] made so far; each iteration takes one unit
    of [fuel].  On exit the position, the next call number and the fuel
    left are handed on. *)
Fixpoint walker_start (fuel : nat) (log_posterior_func : TargetFunction)
    (vv vs : list pyfloat) (init_scale : pyfloat) (rng : RandomState)
    (call : nat) (s : store) : outcome (list pyfloat * nat * nat) * store :=
  match fuel with
  | O => (OutOfFuel, s)
  | S fuel' =>
      let pos_i := start_position vv vs (randn rng call (length vv)) init_scale in
      match log_posterior_func pos_i s with
      | (Ret (RFloat lnlike_i), s') =>
          if feq lnlike_i NInf
          then walker_start fuel' log_posterior_func vv vs init_scale rng
                            (S call) s'
          else (Finished (Ret (pos_i, S call, fuel')), s')
      | (Ret (RArray _), s') =>
          (Finished (Raise (ValueError
             "The truth value of an array is ambiguous")), s')
      | (Raise e, s') => (Finished (Raise e), s')
      end
  end.

(** The loop [for i in range(nwalkers)]: a copy of the parameters that is
    not used again, the search for a starting position, and
    [pos.append(pos_i)]. *)
Fixpoint init_walkers (nwalkers : nat) (fuel : nat)
    (log_posterior_func : TargetFunction) (params : loc)
    (vv vs : list pyfloat) (init_scale : pyfloat) (rng : RandomState)
    (call : nat) (pos : list (list pyfloat)) (s : store)
    : outcome (list (list pyfloat) * nat) * store :=
  match nwalkers with
  | O => (Finished (Ret (pos, call)), s)
  | S nwalkers' =>
      match Parameters_copy params s with
      | (Raise e, s1) => (Finished (Raise e), s1)
      | (Ret _, s1) =>
          match walker_start fuel log_posterior_func vv vs init_scale rng
                             call s1 with
          | (OutOfFuel, s2) => (OutOfFuel, s2)
          | (Finished (Raise e), s2) => (Finished (Raise e), s2)
          | (Finished (Ret (pos_i, call', fuel')), s2) =>
              init_walkers nwalkers' fuel' log_posterior_func params vv vs
                           init_scale rng call' (pos ++ [pos_i]) s2
          end
      end
  end.

(** ** [Dataset.emcee_sampler]: burn-in, production and the flat chain *)

(** The positions of the walkers: one row per walker, one column per free
    parameter. *)
Definition Ensemble : Type := list (list pyfloat).

(** One proposal of the sampler's move for the whole ensemble, with the
    evaluations of the target function and the random numbers it takes;
    the argument counts the proposals made by the sampler so far. *)
Definition Move : Type := nat -> Ensemble -> Ensemble.

(** emcee's [EnsembleSampler], as far as the driver uses it: its
    dimensions, its move, the steps stored by its backend, and the number
    of proposals it has made. *)
Record Sampler : Type := mkSampler {
  smp_nwalkers : nat;
  smp_ndim : nat;
  smp_move : Move;
  smp_chain : list Ensemble;
  smp_proposals : nat
}.

Definition EnsembleSampler (nwalkers ndim : nat) (move : Move) : Sampler :=
  mkSampler nwalkers ndim move [] 0.

(** [sampler.reset()]. *)
Definition sampler_reset (sm : Sampler) : Sampler :=
  mkSampler (smp_nwalkers sm) (smp_ndim sm) (smp_move sm) [] (smp_proposals sm).

Definition shape_ok (nwalkers ndim : nat) (e : Ensemble) : bool :=
  (length e =? nwalkers)%nat && forallb (fun row => (length row =? ndim)%nat) e.

(** The inner loop of [sample]: [yield_step] proposals, each stored when
    [store] is set and [(i + 1) % checkpoint_step == 0]. *)
Fixpoint sample_proposals (yield_step : nat) (store : bool)
    (checkpoint_step : nat) (i : nat) (state : Ensemble) (sm : Sampler)
    : nat * Ensemble * Sampler :=
  match yield_step with
  | O => (i, state, sm)
  | S yield_step' =>
      let state' := smp_move sm (smp_proposals sm) state in
      let chain' :=
        if store && ((i + 1) mod checkpoint_step =? 0)%nat
        then smp_chain sm ++ [state'] else smp_chain sm in
      let sm' := mkSampler (smp_nwalkers sm) (smp_ndim sm) (smp_move sm)
                           chain' (S (smp_proposals sm)) in
      sample_proposals yield_step' store checkpoint_step (i + 1) state' sm'
  end.

(** The outer loop of [sample]: [iterations] rounds of [yield_step]
    proposals; the state after each round is yielded, and the last state
    yielded is what [run_mcmc] returns ([None] if there was no round). *)
Fixpoint sample_rounds (iterations : nat) (yield_step : nat) (store : bool)
    (checkpoint_step : nat) (i : nat) (state : Ensemble)
    (results : option Ensemble) (sm : Sampler) : option Ensemble * Sampler :=
  match iterations with
  | O => (results, sm)
  | S iterations' =>
      let '(i', state', sm') :=
        sample_proposals yield_step store checkpoint_step i state sm in
      sample_rounds iterations' yield_step store checkpoint_step i' state'
                    (Some state') sm'
  end.

(** [sampler.run_mcmc(initial_state, nsteps, thin_by=, store=,
    skip_initial_state_check=True)]: "the total number of proposals is
    nsteps * thin_by". *)
Definition run_mcmc (sm : Sampler) (initial_state : Ensemble)
    (nsteps thin_by : nat) (store : bool) : result (option Ensemble * Sampler) :=
  if negb (shape_ok (smp_nwalkers sm) (smp_ndim sm) initial_state)
  then Raise (ValueError "incompatible input dimensions")
  else if (thin_by =? 0)%nat
  then Raise (ValueError "Invalid thinning argument")
  else Ret (sample_rounds nsteps thin_by store thin_by 0 initial_state None sm).

(** [sampler.get_chain(flat=True)]: the stored steps, one after the other. *)
Definition get_chain_flat (sm : Sampler) : list (list pyfloat) :=
  concat (smp_chain sm).

(** [a.reshape((-1, ncols))] on an array given by its rows. *)
Fixpoint chunks (ncols : nat) (fuel : nat) (flat : list pyfloat)
    : list (list pyfloat) :=
  match fuel with
  | O => []
  | S fuel' =>
      match flat with
      | [] => []
      | _ => take ncols flat :: chunks ncols fuel' (drop ncols flat)
      end
  end.

Definition reshape_rows (rows : list (list pyfloat)) (ncols : nat)
    : result (list (list pyfloat)) :=
  let flat := concat rows in
  if (ncols =? 0)%nat || negb (length flat mod ncols =? 0)%nat
  then Raise (ValueError "cannot reshape array")
  else Ret (chunks ncols (length flat) flat).

(** What the sampling phases leave in the result. *)
Record Sampled : Type := mkSampled {
  flatchain : list (list pyfloat);   (* [result.chain] *)
  nfev : nat;                        (* [result.nfev] *)
  proposals : nat                    (* proposals made in the production phase *)
}.

(** From [sampler = EnsembleSampler(...)] to
    [flatchain = sampler.get_chain(flat=True).reshape((-1, len(vn)))],
    with [result.nfev = nwalkers*steps*thin]. *)
Definition sampling_phases (nwalkers n_varys : nat) (move : Move)
    (pos : Ensemble) (burn steps thin : nat) (len_vn : nat) : result Sampled :=
  let sampler := EnsembleSampler nwalkers n_varys move in
  let? burnt := run_mcmc sampler pos burn 1 false in
  match fst burnt with
  | None => Raise (TypeError "cannot unpack non-iterable NoneType object")
  | Some pos =>
      let sampler := sampler_reset (snd burnt) in
      let before := smp_proposals sampler in
      let? produced := run_mcmc sampler pos steps thin true in
      let sampler := snd produced in
      let? flatchain := reshape_rows (get_chain_flat sampler) len_vn in
      Ret (mkSampled flatchain (nwalkers * steps * thin)
                     (smp_proposals sampler - before))
  end.

(** ** [Dataset.lmfit_transit] and [Dataset.lmfit_eclipse]: derived
       parameters *)

(** ['sqrt(D)'] *)
Definition expr_k : Expr := ESqrt (EVar "D").

(** ['sqrt((1+k)**2-b**2)/W/pi'] *)
Definition expr_aR : Expr :=
  EDiv (EDiv (ESqrt (ESub (EPowInt (EAdd (ENum 1) (EVar "k")) 2)
                          (EPowInt (EVar "b") 2)))
             (EVar "W"))
       EPi.

(** ['sqrt(1 - (b/aR)**2)'] *)
Definition expr_sini : Expr :=
  ESqrt (ESub (ENum 1) (EPowInt (EDiv (EVar "b") (EVar "aR")) 2)).

(** ['log10(4.3275e-4*((1+k)**2-b**2)**1.5/W**3/P**2)'] *)
Definition expr_logrho : Expr :=
  ELog10
    (EDiv (EDiv (EMul (ENum 4.3275e-4)
                      (EPowFloat (ESub (EPowInt (EAdd (ENum 1) (EVar "k")) 2)
                                       (EPowInt (EVar "b") 2))
                                 1.5))
                (EPowInt (EVar "W") 3))
          (EPowInt (EVar "P") 2)).

(** ['f_c**2 + f_s**2'] *)
Definition expr_e : Expr :=
  EAdd (EPowInt (EVar "f_c") 2) (EPowInt (EVar "f_s") 2).

(** ['(1-h_2)**2'] *)
Definition expr_q_1 : Expr := EPowInt (ESub (ENum 1) (EVar "h_2")) 2.

(** ['(h_1-h_2)/(1-h_2)'] *)
Definition expr_q_2 : Expr :=
  EDiv (ESub (EVar "h_1") (EVar "h_2")) (ESub (ENum 1) (EVar "h_2")).

(** [params[k].user_data = u]. *)
Definition set_user_data (ps : Parameters) (k : string) (u : option UFloat)
    : Parameters :=
  match getitem ps k with
  | Some p =>
      setitem ps k
        {| p_name := p_name p; p_val := p_val p; p_vary := p_vary p;
           p_min := p_min p; p_max := p_max p; p_expr := p_expr p;
           p_user_data := u; p_stderr := p_stderr p;
           p_native := p_native p; p_min_native := p_min_native p;
           p_max_native := p_max_native p |}
  | None => ps
  end.

(** [params.add(name, expr=, min=, max=)] with bounds written as literals
    (minus and plus infinity when they are left out); no value is given,
    which the constructor takes as minus infinity. *)
Definition add_derived (params : Parameters) (name : string) (lo hi : pyfloat)
    (expr : Expr) : result Parameters :=
  Parameters_add params name (python NInf) true (python lo) (python hi)
                 (Some expr).

(** The block of [lmfit_transit] that installs the derived parameters on
    the set [params] built from the keywords. *)
Definition transit_derived (params : Parameters) (logrhoprior : option UFloat)
    : result Parameters :=
  let? params := add_derived params "k" (Fin 0) (Fin 1) expr_k in
  let? params := add_derived params "aR" (Fin 1) PInf expr_aR in
  let? params := add_derived params "sini" NInf PInf expr_sini in
  let? params := add_derived params "logrho" (Fin (-9)) (Fin 6) expr_logrho in
  let params := set_user_data params "logrho" logrhoprior in
  let? params := add_derived params "e" (Fin 0) (Fin 1) expr_e in
  let? params := add_derived params "q_1" (Fin 0) (Fin 1) expr_q_1 in
  add_derived params "q_2" (Fin 0) (Fin 1) expr_q_2.

(** The corresponding block of [lmfit_eclipse]. *)
Definition eclipse_derived (params : Parameters) : result Parameters :=
  let? params := add_derived params "k" (Fin 0) (Fin 1) expr_k in
  let? params := add_derived params "aR" (Fin 1) PInf expr_aR in
  let? params := add_derived params "sini" NInf PInf expr_sini in
  add_derived params "e" (Fin 0) (Fin 1) expr_e.

(** ** [Dataset.lmfit_transit]: the residuals and the result *)

(** The loop of [_chisq_prior] that appends one residual for each parameter
    whose [user_data] is a [UFloat]. *)
Fixpoint append_priors (params : Parameters) (entries : list (string * Param))
    (r : list pyfloat) : list pyfloat :=
  match entries with
  | [] => r
  | (_, p) :: rest =>
      match p_user_data p with
      | Some u =>
          append_priors params rest
            (r ++ [fdiv (fsub (u_n u) (param_value params p)) (u_s u)])
      | None => append_priors params rest r
      end
  end.

Definition _chisq_prior (model : Model) (time flux flux_err : list pyfloat)
    (params : Parameters) : list pyfloat :=
  let r := arr_div (arr_sub flux (model params time)) flux_err in
  append_priors params params r.

(** lmfit's [minimize]: from the objective function and the starting
    parameters to the parameters at the end of the fit. *)
Definition Minimizer : Type :=
  (Parameters -> list pyfloat) -> Parameters -> Parameters.

(** The fields of the result that [lmfit_transit] sets or moves. *)
Record MinimizerResult : Type := mkResult {
  res_params : Parameters;
  res_residual : list pyfloat;
  res_bestfit : list pyfloat;
  res_rms : pyfloat;
  res_prior_residual : option (list pyfloat);
  res_npriors : option Z
}.

(** [a[-n:]] and [a[:-n]] for [n > 0]. *)
Definition slice_last (n : nat) (a : list pyfloat) : list pyfloat :=
  drop (length a - n) a.
Definition slice_but_last (n : nat) (a : list pyfloat) : list pyfloat :=
  take (length a - n) a.

(** From [result = minimize(_chisq_prior, params, ...)] to [return result].
    The residual of lmfit's result is the value of the objective function
    at the parameters of the result. *)
Definition lmfit_finish (minimize : Minimizer) (model : Model)
    (time flux flux_err : list pyfloat) (params : Parameters)
    : MinimizerResult :=
  let best := minimize (_chisq_prior model time flux flux_err) params in
  let residual := _chisq_prior model time flux flux_err best in
  let fit := model best time in
  let rms := arr_std (arr_sub flux fit) in
  let npriors := (Z.of_nat (length residual) - Z.of_nat (length time))%Z in
  if (0 <? npriors)%Z
  then mkResult best (slice_but_last (Z.to_nat npriors) residual) fit rms
                (Some (slice_last (Z.to_nat npriors) residual)) (Some npriors)
  else mkResult best residual fit rms None None.

(** ** Statements on a parameter set under construction *)

(** A block of statements that reads and updates one [Parameters] object
    and may raise: it maps the entries of the object to an outcome and the
    entries left. *)
Definition PS (A : Type) : Type := Parameters -> result A * Parameters.

Definition pret {A : Type} (a : A) : PS A := fun ps => (Ret a, ps).
Definition plift {A : Type} (r : result A) : PS A := fun ps => (r, ps).
Definition pbind {A B : Type} (m : PS A) (f : A -> PS B) : PS B :=
  fun ps =>
    match m ps with
    | (Ret a, ps') => f a ps'
    | (Raise e, ps') => (Raise e, ps')
    end.

Notation "'let+' x ':=' m 'in' k" := (pbind m (fun x => k))
  (at level 10, x pattern, m at level 100, k at level 200).

(** [params.add(name, value=, vary=, min=, max=, expr=)]: when the
    constructor raises, the set is as before; when the evaluation of the
    expression raises, the new parameter is in the set already. *)
Definition params_add (name : string) (value : number) (vary : bool)
    (lo hi : number) (expr : option Expr) : PS unit :=
  fun ps =>
    match Parameter_new name value vary lo hi expr None with
    | Raise e => (Raise e, ps)
    | Ret p =>
        match expr with
        | None => (Ret tt, setitem ps name p)
        | Some e =>
            match asteval ps e with
            | Ret _ => (Ret tt, setitem ps name p)
            | Raise err => (Raise err, setitem ps name p)
            end
        end
    end.

(** [params[k] = p]. *)
Definition params_set (k : string) (p : Param) : PS unit :=
  fun ps => (Ret tt, setitem ps k p).

(** [params[k].value]. *)
Definition params_value (k : string) : PS pyfloat :=
  fun ps => (let? p := item ps k in Ret (param_value ps p), ps).

(** [list(params.keys())], also [params.valuesdict().keys()]: the names at
    the time of the call. *)
Definition params_keys : PS (list string) := fun ps => (Ret (keys ps), ps).

(** [k in names]. *)
Definition contains (names : list string) (k : string) : bool :=
  existsb (String.eqb k) names.

(** [params[k].stderr = v]. *)
Definition set_stderr (p : Param) (v : pyfloat) : Param :=
  {| p_name := p_name p; p_val := p_val p; p_vary := p_vary p;
     p_min := p_min p; p_max := p_max p; p_expr := p_expr p;
     p_user_data := p_user_data p; p_stderr := Some v;
     p_native := p_native p; p_min_native := p_min_native p;
     p_max_native := p_max_native p |}.

Definition params_set_stderr (k : string) (v : pyfloat) : PS unit :=
  fun ps =>
    match getitem ps k with
    | Some p => (Ret tt, setitem ps k (set_stderr p v))
    | None => (Raise (KeyError k), ps)
    end.

(** The statement
    [if kw is None: <default> else: params[name] = _kw_to_Parameter(name, kw)]
    and its variant with [elif]. *)
Definition default_or_keyword (name : string) (kw : pyval) (default : PS unit)
    : PS unit :=
  match kw with
  | PyNone => default
  | _ =>
      let+ p := plift (_kw_to_Parameter name kw) in
      params_set name p
  end.

(** The statement
    [if kw is not None: params[name] = _kw_to_Parameter(name, kw)]. *)
Definition optional_keyword (name : string) (kw : pyval) : PS unit :=
  default_or_keyword name kw (pret tt).

(** The block on a stored object. *)
Definition at_loc {A : Type} (l : loc) (m : PS A) : M A :=
  fun s =>
    match pheap s !! l with
    | Some ps =>
        (fst (m ps), mkStore (<[l := snd (m ps)]> (pheap s)) (gheap s))
    | None => (Raise ReferenceError, s)
    end.

(** ** NumPy reductions used for the default parameters *)

(** The built-in [min] and [max] of a sequence. *)
Definition builtin_min (l : list pyfloat) : result pyfloat :=
  match l with
  | [] => Raise (ValueError "min() arg is an empty sequence")
  | x :: rest => Ret (py_min x rest)
  end.

Definition builtin_max (l : list pyfloat) : result pyfloat :=
  match l with
  | [] => Raise (ValueError "max() arg is an empty sequence")
  | x :: rest => Ret (py_max x rest)
  end.

(** [np.nanmedian]: the median of the entries that are not NaN. *)
Definition np_nanmedian (l : list pyfloat) : pyfloat :=
  np_median (List.filter (fun x => negb (isnan x)) l).

(** [np.ptp]: the greatest minus the least entry; NaN when an entry is NaN. *)
Definition np_ptp (l : list pyfloat) : result pyfloat :=
  match l with
  | [] =>
      Raise (ValueError
        "zero-size array to reduction operation maximum which has no identity")
  | x :: rest =>
      Ret (if existsb isnan l then NaN else fsub (py_max x rest) (py_min x rest))
  end.

(** ** [Dataset.lmfit_transit] and [Dataset.lmfit_eclipse]: the parameter
       set built from the keywords *)

(** The keyword arguments of a call: the value bound to each name, [None]
    for a keyword that is not given. *)
Definition Keywords : Type := string -> pyval.

(** The keywords that add a parameter only when they are given, in the
    order of the statements that test them. *)
Definition optional_keywords : list string :=
  [ "dfdbg"; "dfdcontam"; "dfdx"; "dfdy"; "d2fdx2"; "d2fdy2"; "dfdt"; "d2fdt2";
    "dfdsinphi"; "dfdcosphi"; "dfdsin2phi"; "dfdcos2phi"; "dfdsin3phi";
    "dfdcos3phi"; "glint_scale" ]%string.

Fixpoint optional_parameters (kw : Keywords) (names : list string) : PS unit :=
  match names with
  | [] => pret tt
  | name :: rest =>
      let+ _ := optional_keyword name (kw name) in
      optional_parameters kw rest
  end.

(** The default of T_0: the median of the times, between the first and the
    last of them. *)
Definition default_T_0 (time : list pyfloat) : PS unit :=
  let value := np_nanmedian time in
  let+ lo := plift (builtin_min time) in
  let+ hi := plift (builtin_max time) in
  params_add "T_0" (numpy value) true (numpy lo) (numpy hi) None.

Definition default_D (flux : list pyfloat) : PS unit :=
  let+ m := plift (builtin_min flux) in
  params_add "D" (numpy (fsub (Fin 1) m)) true
             (python (Fin 0)) (python (Fin 0.5)) None.

Definition default_W (time : list pyfloat) (_P : pyfloat) : PS unit :=
  let+ ptp := plift (np_ptp time) in
  params_add "W" (numpy (fdiv (fdiv ptp (Fin 2)) _P)) true
             (numpy (fdiv (fdiv ptp (Fin (INR (length time)))) _P))
             (numpy (fdiv ptp _P)) None.

Definition default_c (flux : list pyfloat) : PS unit :=
  let+ lo := plift (builtin_min flux) in
  let+ hi := plift (builtin_max flux) in
  params_add "c" (python (Fin 1)) true
             (numpy (fdiv lo (Fin 2))) (numpy (fmul (Fin 2) hi)) None.

(** [params.add(name=, value=, vary=, min=, max=)] with the value and the
    bounds written as literals (minus and plus infinity when left out). *)
Definition add_literal (name : string) (value : pyfloat) (vary : bool)
    (lo hi : pyfloat) : PS unit :=
  params_add name (python value) vary (python lo) (python hi) None.

(** The statements of [lmfit_transit] from [params = Parameters()] to the
    last keyword.  (The assignment [k = np.sqrt(params['D'].value)] binds a
    name that is not used again.) *)
Definition transit_keywords (time flux : list pyfloat) (kw : Keywords)
    : PS unit :=
  let+ _ := default_or_keyword "T_0" (kw "T_0") (default_T_0 time) in
  let+ _ := default_or_keyword "P" (kw "P")
              (add_literal "P" (Fin 1) false NInf PInf) in
  let+ _P := params_value "P" in
  let+ _ := default_or_keyword "D" (kw "D") (default_D flux) in
  let+ _ := default_or_keyword "W" (kw "W") (default_W time _P) in
  let+ _ := default_or_keyword "b" (kw "b")
              (add_literal "b" (Fin 0.5) true (Fin 0) (Fin 1)) in
  let+ _ := default_or_keyword "f_c" (kw "f_c")
              (add_literal "f_c" (Fin 0) false NInf PInf) in
  let+ _ := default_or_keyword "f_s" (kw "f_s")
              (add_literal "f_s" (Fin 0) false NInf PInf) in
  let+ _ := default_or_keyword "h_1" (kw "h_1")
              (add_literal "h_1" (Fin 0.7224) false NInf PInf) in
  let+ _ := default_or_keyword "h_2" (kw "h_2")
              (add_literal "h_2" (Fin 0.6713) false NInf PInf) in
  let+ _ := default_or_keyword "c" (kw "c") (default_c flux) in
  optional_parameters kw optional_keywords.

(** The prior on logrho: [params['logrho'].user_data = logrhoprior] stores
    whatever the keyword is bound to, and only a [UFloat] is used as a
    prior afterwards. *)
Definition prior_of (kwarg : pyval) : option UFloat :=
  match kwarg with
  | PyUFloat u => Some u
  | _ => None
  end.

(** The parameter set that [lmfit_transit] hands to the minimizer. *)
Definition transit_parameters (time flux : list pyfloat) (kw : Keywords)
    : result Parameters :=
  match transit_keywords time flux kw [] with
  | (Ret _, params) => transit_derived params (prior_of (kw "logrhoprior"))
  | (Raise e, _) => Raise e
  end.

(** The same for [lmfit_eclipse]. *)
Definition eclipse_keywords (time flux : list pyfloat) (kw : Keywords)
    : PS unit :=
  let+ _ := default_or_keyword "T_0" (kw "T_0") (default_T_0 time) in
  let+ _ := default_or_keyword "P" (kw "P")
              (add_literal "P" (Fin 1) false NInf PInf) in
  let+ _P := params_value "P" in
  let+ _ := default_or_keyword "D" (kw "D") (default_D flux) in
  let+ _ := default_or_keyword "W" (kw "W") (default_W time _P) in
  let+ _ := default_or_keyword "b" (kw "b")
              (add_literal "b" (Fin 0.5) true (Fin 0) (Fin 1)) in
  let+ _ := default_or_keyword "L" (kw "L")
              (add_literal "L" (Fin 0.001) true (Fin 0) (Fin 1)) in
  let+ _ := default_or_keyword "f_c" (kw "f_c")
              (add_literal "f_c" (Fin 0) false NInf PInf) in
  let+ _ := default_or_keyword "f_s" (kw "f_s")
              (add_literal "f_s" (Fin 0) false NInf PInf) in
  let+ _ := default_or_keyword "c" (kw "c") (default_c flux) in
  let+ _ := default_or_keyword "a_c" (kw "a_c")
              (add_literal "a_c" (Fin 0) false NInf PInf) in
  optional_parameters kw optional_keywords.

Definition eclipse_parameters (time flux : list pyfloat) (kw : Keywords)
    : result Parameters :=
  match eclipse_keywords time flux kw [] with
  | (Ret _, params) => eclipse_derived params
  | (Raise e, _) => Raise e
  end.

(** ** [Dataset.emcee_sampler]: the noise parameters *)

(** ['exp(log_sigma)*1e6'] *)
Definition expr_sigma_w : Expr := EMul (EExp (EVar "log_sigma")) (ENum 1e6).

(** The default of log_sigma, under [elif log_sigma is None]. *)
Definition default_log_sigma : PS unit :=
  let+ names := params_keys in
  if negb (contains names "log_sigma")
  then
    let+ _ := add_literal "log_sigma" (Fin (-10)) true (Fin (-16)) (Fin (-1)) in
    params_set_stderr "log_sigma" (Fin 1)
  else pret tt.

(** From [k = params.valuesdict().keys()] to
    [params.add('sigma_w', expr='exp(log_sigma)*1e6')]. *)
Definition emcee_noise_parameters (add_shoterm : bool)
    (log_sigma log_omega0 log_S0 log_Q : pyval) : PS unit :=
  let+ k := params_keys in
  let+ _ :=
    if add_shoterm
    then
      let+ _ :=
        if contains k "log_S0" then pret tt
        else default_or_keyword "log_S0" log_S0
               (add_literal "log_S0" (Fin (-12)) true (Fin (-30)) (Fin 0)) in
      let+ _ :=
        if contains k "log_omega0" then pret tt
        else default_or_keyword "log_omega0" log_omega0
               (add_literal "log_omega0" (Fin 3) true (Fin (-2.3)) (Fin 8)) in
      let+ names := params_keys in
      if contains names "log_Q" then pret tt
      else default_or_keyword "log_Q" log_Q
             (params_add "log_Q"
                         (numpy (flog (fdiv (Fin 1) (fsqrt (Fin 2))))) false
                         (python NInf) (python PInf) None)
    else pret tt in
  let+ _ :=
    if contains k "log_sigma" then pret tt
    else default_or_keyword "log_sigma" log_sigma default_log_sigma in
  params_add "sigma_w" (python NInf) true (python NInf) (python PInf)
             (Some expr_sigma_w).

(** The parameters that the sampler works on: a copy of those of the last
    least-squares fit when [params] is [None], the object given otherwise,
    with the noise parameters added to it. *)
Definition emcee_parameters (params : option loc) (lmfit_params : loc)
    (add_shoterm : bool) (log_sigma log_omega0 log_S0 log_Q : pyval) : M loc :=
  let* params :=
    match params with
    | None => Parameters_copy lmfit_params
    | Some l => ret l
    end in
  let* _ := at_loc params
              (emcee_noise_parameters add_shoterm log_sigma log_omega0 log_S0
                                      log_Q) in
  ret params.

(** ** [Dataset.emcee_sampler]: the choice of the target function *)

(** [GP(kernel, mean=0, fit_mean=False)] followed by
    [gp.compute(time, flux_err)]: a new GP object whose kernel parameters
    are [st]; its log-likelihood is celerite's, for the times and the
    errors given. *)
Definition new_GP (log_likelihood : GPstate -> list pyfloat -> pyfloat)
    (st : GPstate) : M GP :=
  fun s =>
    let g := fresh (dom (gheap s)) in
    (Ret (mkGP g log_likelihood), mkStore (pheap s) (<[g := st]> (gheap s))).

(** From [p = list(params.keys())] to [args += (return_fit, )]: the target
    function with its arguments bound, and the GP object or [None]. *)
Definition emcee_target
    (celerite : list pyfloat -> list pyfloat -> GPstate -> list pyfloat -> pyfloat)
    (model : Model) (time flux flux_err : list pyfloat) (params : loc)
    (vn : list string) : M (TargetFunction * option GP) :=
  let* ps := read_params params in
  let p := keys ps in
  if contains p "log_S0" && contains p "log_omega0" && contains p "log_Q"
  then
    let* log_S0 := value_at params "log_S0" in
    let* log_Q := value_at params "log_Q" in
    let* log_omega0 := value_at params "log_omega0" in
    let* log_sigma := value_at params "log_sigma" in
    let kernel : GPstate :=
      <["kernel:terms[1]:log_sigma" := log_sigma]>
        (<["kernel:terms[0]:log_omega0" := log_omega0]>
           (<["kernel:terms[0]:log_Q" := log_Q]>
              (<["kernel:terms[0]:log_S0" := log_S0]> ∅))) in
    let* gp := new_GP (celerite time flux_err) kernel in
    ret (fun pos =>
           _log_posterior_SHOTerm pos model time flux flux_err params vn gp false,
         Some gp)
  else
    ret (fun pos =>
           _log_posterior_jitter pos model time flux flux_err params vn false,
         None).

(** ** The light curve of a dataset: [mask_data] and [clip_outliers] *)

(** A value of the dictionary [self.lc]: a NumPy array, or something else
    (the table, the header, the reference time, the name of the
    aperture). *)
Inductive lcval : Type :=
| LcArray (a : list pyfloat)
| LcOther (repr : string).

Definition LightCurve : Type := list (string * lcval).

(** [lc[k]]. *)
Fixpoint lc_get (lc : LightCurve) (k : string) : result lcval :=
  match lc with
  | [] => Raise (KeyError k)
  | (k', v) :: rest => if String.eqb k' k then Ret v else lc_get rest k
  end.

(** The attributes of a [Dataset] object that masking reads and writes:
    [self.lc], and [self.lc_unmask] once it is set. *)
Record Dataset : Type := mkDataset {
  ds_lc : LightCurve;
  ds_lc_unmask : option LightCurve
}.

(** [a[m]] for a Boolean array [m]: the entries of [a] at the places where
    [m] is true.  The two arrays must have the same length. *)
Fixpoint select (m : list bool) (a : list pyfloat) : list pyfloat :=
  match m, a with
  | b :: m', x :: a' => if b then x :: select m' a' else select m' a'
  | _, _ => []
  end.

Definition bool_index (a : list pyfloat) (m : list bool)
    : result (list pyfloat) :=
  if (length a =? length m)%nat then Ret (select m a) else Raise IndexError.

(** The loop
    [for k in self.lc: if isinstance(self.lc[k], np.ndarray):
       self.lc[k] = self.lc[k][m]]
    over the entries [todo] that are still to be visited; [done] holds the
    entries visited.  An exception leaves the entries not yet visited as
    they are. *)
Fixpoint index_arrays (m : list bool) (done todo : LightCurve)
    : result unit * LightCurve :=
  match todo with
  | [] => (Ret tt, done)
  | (k, LcArray a) :: rest =>
      match bool_index a m with
      | Ret a' => index_arrays m (done ++ [(k, LcArray a')]) rest
      | Raise e => (Raise e, done ++ todo)
      end
  | (k, LcOther v) :: rest => index_arrays m (done ++ [(k, LcOther v)]) rest
  end.

(** [return self.lc['time'], self.lc['flux'], self.lc['flux_err']]. *)
Definition light_curve_triple (lc : LightCurve)
    : result (lcval * lcval * lcval) :=
  let? time := lc_get lc "time" in
  let? flux := lc_get lc "flux" in
  let? flux_err := lc_get lc "flux_err" in
  Ret (time, flux, flux_err).

(** [Dataset.mask_data(mask)]: what it returns, and the object afterwards. *)
Definition mask_data (mask : list bool) (ds : Dataset)
    : result (lcval * lcval * lcval) * Dataset :=
  let lc_unmask := ds_lc ds in
  let run := index_arrays (map negb mask) [] (ds_lc ds) in
  let ds' := mkDataset (snd run) (Some lc_unmask) in
  match fst run with
  | Ret _ => (light_curve_triple (snd run), ds')
  | Raise e => (Raise e, ds')
  end.

(** [abs] on a float. *)
Definition fabs (x : pyfloat) : pyfloat :=
  match x with
  | Fin a => Fin (Rabs a)
  | PInf | NInf => PInf
  | NaN => NaN
  end.

(** [abs(medfilt(flux-1, width)+1-flux)], for SciPy's median filter
    [medfilt]. *)
Definition deviations (medfilt : list pyfloat -> nat -> list pyfloat)
    (flux : list pyfloat) (width : nat) : list pyfloat :=
  map fabs
    (zip_with fsub
       (map (fun x => fadd x (Fin 1))
            (medfilt (map (fun x => fsub x (Fin 1)) flux) width))
       flux).

(** [Dataset.clip_outliers(clip, width)]. *)
Definition clip_outliers (medfilt : list pyfloat -> nat -> list pyfloat)
    (clip : pyfloat) (width : nat) (ds : Dataset)
    : result (lcval * lcval * lcval) * Dataset :=
  match lc_get (ds_lc ds) "flux" with
  | Raise e => (Raise e, ds)
  | Ret (LcOther _) => (Raise (TypeError "unsupported operand type(s) for -"), ds)
  | Ret (LcArray flux) =>
      let d := deviations medfilt flux width in
      let mad := arr_mean d in
      let ok := map (fun x => flt x (fmul clip mad)) d in
      let run := index_arrays ok [] (ds_lc ds) in
      let ds' := mkDataset (snd run) (ds_lc_unmask ds) in
      match fst run with
      | Ret _ => (light_curve_triple (snd run), ds')
      | Raise e => (Raise e, ds')
      end
  end.

(** ** [_make_labels] *)

(** The label that one pass of the loop appends for [key]; [bjd_ref] is an
    [int], formatted in decimal. *)
Definition label_of (key : string) (bjd_ref : Z) : string :=
  if String.eqb key "T_0" then "T$_0-" ++ pretty bjd_ref ++ "$"
  else if String.eqb key "h_1" then "$h_1$"
  else if String.eqb key "h_2" then "$h_2$"
  else if String.eqb key "dfdbg" then "$df\,/\,d{\rm (bg)}$"
  else if String.eqb key "dfdcontam" then "$df\,/\,d{\rm (contam)}$"
  else if String.eqb key "dfdx" then "$df\,/\,dx$"
  else if String.eqb key "d2fdx2" then "$d^2f\,/\,dx^2$"
  else if String.eqb key "dfdy" then "$df\,/\,dy$"
  else if String.eqb key "d2fdy2" then "$d^2f\,/\,dy^2$"
  else if String.eqb key "dfdt" then "$df\,/\,dt$"
  else if String.eqb key "d2fdt2" then "$d^2f\,/\,dt^2$"
  else if String.eqb key "dfdsinphi" then "$df\,/\,d\sin(\phi)$"
  else if String.eqb key "dfdcosphi" then "$df\,/\,d\cos(\phi)$"
  else if String.eqb key "dfdsin2phi" then "$df\,/\,d\sin(2\phi)$"
  else if String.eqb key "dfdcos2phi" then "$df\,/\,d\cos(2\phi)$"
  else if String.eqb key "dfdsin3phi" then "$df\,/\,d\sin(3\phi)$"
  else if String.eqb key "dfdcos3phi" then "$df\,/\,d\cos(3\phi)$"
  else if String.eqb key "log_sigma" then "$\log\sigma$"
  else if String.eqb key "log_omega0" then "$\log\omega_0$"
  else if String.eqb key "log_S0" then "$\log{\rm S}_0$"
  else if String.eqb key "log_Q" then "$\log{\rm Q}$"
  else if String.eqb key "sigma_w" then "$\sigma_w$ [ppm]"
  else if String.eqb key "logrho" then "$\log\rho_{\star}$"
  else if String.eqb key "aR" then "a\,/\,R$_{\star}$"
  else if String.eqb key "sini" then "\sin i"
  else key.

(** The loop [for key in plotkeys], with the labels appended so far. *)
Fixpoint labels_loop (plotkeys : list string) (bjd_ref : Z)
    (labels : list string) : list string :=
  match plotkeys with
  | [] => labels
  | key :: rest => labels_loop rest bjd_ref (labels ++ [label_of key bjd_ref])
  end.

Definition _make_labels (plotkeys : list string) (bjd_ref : Z) : list string :=
  labels_loop plotkeys bjd_ref [].

(** ** [_make_interp] *)

(** The object that [interp1d(t, z, bounds_error=False,
    fill_value=(z[0], z[-1]))] makes: the abscissae, the ordinates and the
    two values used to the left and to the right of the abscissae.  The two
    arrays must have the same length. *)
Record Interp : Type := mkInterp {
  interp_t : list pyfloat;
  interp_z : list pyfloat;
  interp_fill : pyfloat * pyfloat
}.

Definition interp1d (t z : list pyfloat) (fill_value : pyfloat * pyfloat)
    : result Interp :=
  if (length t =? length z)%nat then Ret (mkInterp t z fill_value)
  else Raise (ValueError
    "x and y arrays must be equal in length along interpolation axis.").

(** [z[0]] and [z[-1]]. *)
Definition first_entry (z : list pyfloat) : result pyfloat :=
  match z with
  | [] => Raise IndexError
  | x :: _ => Ret x
  end.

Definition last_entry (z : list pyfloat) : result pyfloat :=
  match last z with
  | None => Raise IndexError
  | Some x => Ret x
  end.

(** [scale] is [None] or a string. *)
Definition _make_interp (t x : list pyfloat) (scale : option string)
    : result Interp :=
  let? z :=
    match scale with
    | None => Ret x
    | Some s =>
        if String.eqb s "max" then
          let? m := builtin_min x in
          let? ptp := np_ptp x in
          Ret (map (fun v => fdiv (fsub v m) ptp) x)
        else if String.eqb s "range" then
          let m := np_median x in
          let? ptp := np_ptp x in
          Ret (map (fun v => fdiv (fsub v m) ptp) x)
        else Raise (ValueError "scale must be None, max or range")
    end in
  let? z0 := first_entry z in
  let? z1 := last_entry z in
  interp1d t z (z0, z1).

(** ** [Dataset.get_lightcurve]: the arrays of the light curve *)

(** A row of the light-curve table of the data reduction pipeline, with
    the columns that [get_lightcurve] reads. *)
Record Row : Type := mkRow {
  EVENT : Z;
  BJD_TIME : pyfloat;
  FLUX : pyfloat;
  FLUXERR : pyfloat;
  CENTROID_X : pyfloat;
  CENTROID_Y : pyfloat;
  LOCATION_X : pyfloat;
  LOCATION_Y : pyfloat;
  ROLL_ANGLE : pyfloat;
  BACKGROUND : pyfloat;
  CONTA_LC : pyfloat
}.

Definition Table : Type := list Row.

(** [table[name]] for a column of floats. *)
Definition column (name : Row -> pyfloat) (table : Table) : list pyfloat :=
  map name table.

(** What an array is indexed with: a Boolean array, or the tuple of places
    that [nonzero] returns. *)
Inductive index : Type :=
| BoolIndex (m : list bool)
| IntIndex (places : list nat).

(** [m.nonzero()] on a Boolean array: the places of its true entries,
    counted from [i]. *)
Fixpoint nonzero_from (i : nat) (m : list bool) : list nat :=
  match m with
  | [] => []
  | b :: m' => if b then i :: nonzero_from (S i) m' else nonzero_from (S i) m'
  end.

Definition nonzero (m : list bool) : list nat := nonzero_from 0 m.

(** [a[places]] for an array of places. *)
Fixpoint int_index (a : list pyfloat) (places : list nat)
    : result (list pyfloat) :=
  match places with
  | [] => Ret []
  | i :: rest =>
      match a !! i with
      | None => Raise IndexError
      | Some x => let? r := int_index a rest in Ret (x :: r)
      end
  end.

(** [a[ok]]. *)
Definition getitems (a : list pyfloat) (ok : index) : result (list pyfloat) :=
  match ok with
  | BoolIndex m => bool_index a m
  | IntIndex places => int_index a places
  end.

(** [np.nanmin]: the least of the entries that are not NaN. *)
Definition np_nanmin (l : list pyfloat) : result pyfloat :=
  match l with
  | [] =>
      Raise (ValueError
        "zero-size array to reduction operation fmin which has no identity")
  | _ :: _ =>
      Ret (match List.filter (fun x => negb (isnan x)) l with
           | [] => NaN
           | x :: rest => py_min x rest
           end)
  end.

(** The eight arrays that [reject_highpoints] cuts. *)
Record Arrays : Type := mkArrays {
  a_time : list pyfloat;
  a_flux : list pyfloat;
  a_flux_err : list pyfloat;
  a_xoff : list pyfloat;
  a_yoff : list pyfloat;
  a_roll_angle : list pyfloat;
  a_bg : list pyfloat;
  a_contam : list pyfloat
}.

(** The statements under [if reject_highpoints], up to [contam = contam[ok]]. *)
Definition cut_arrays (a : Arrays) (ok : index) : result Arrays :=
  let? time := getitems (a_time a) ok in
  let? flux := getitems (a_flux a) ok in
  let? flux_err := getitems (a_flux_err a) ok in
  let? xoff := getitems (a_xoff a) ok in
  let? yoff := getitems (a_yoff a) ok in
  let? roll_angle := getitems (a_roll_angle a) ok in
  let? bg := getitems (a_bg a) ok in
  let? contam := getitems (a_contam a) ok in
  Ret (mkArrays time flux flux_err xoff yoff roll_angle bg contam).

(** [get_lightcurve] from [ok = (table['EVENT'] == 0) | (table['EVENT'] ==
    100)] to [self.lc = {...}], given the reference time
    [bjd_ref = np.int(bjd[0])]: the dictionary stored in [self.lc]. *)
Definition lightcurve_arrays (table : Table) (bjd_ref : Z)
    (reject_highpoints : bool) (aperture : string) : result LightCurve :=
  let ok :=
    BoolIndex (map (fun r => (EVENT r =? 0)%Z || (EVENT r =? 100)%Z) table) in
  let? bjd := getitems (column BJD_TIME table) ok in
  let time := map (fun b => fsub b (float_of_int bjd_ref)) bjd in
  let? flux := getitems (column FLUX table) ok in
  let? flux_err := getitems (column FLUXERR table) ok in
  let fluxmed := np_nanmedian flux in
  let? cx := getitems (column CENTROID_X table) ok in
  let? lx := getitems (column LOCATION_X table) ok in
  let xoff := arr_sub cx lx in
  let? cy := getitems (column CENTROID_Y table) ok in
  let? ly := getitems (column LOCATION_Y table) ok in
  let yoff := arr_sub cy ly in
  let? roll_angle := getitems (column ROLL_ANGLE table) ok in
  let? bg := getitems (column BACKGROUND table) ok in
  let? contam := getitems (column CONTA_LC table) ok in
  let a := mkArrays time flux flux_err xoff yoff roll_angle bg contam in
  let? cut :=
    if reject_highpoints
    then
      let? least := np_nanmin flux in
      let C_cut := fsub (fmul (Fin 2) (np_nanmedian flux)) least in
      let ok := IntIndex (nonzero (map (fun f => flt f C_cut) flux)) in
      let? a := cut_arrays a ok in
      Ret (a, ok)
    else Ret (a, ok) in
  let a := fst cut in
  let ok := snd cut in
  let flux := map (fun f => fdiv f fluxmed) (a_flux a) in
  let flux_err := map (fun f => fdiv f fluxmed) (a_flux_err a) in
  let? centroid_x := getitems (column CENTROID_X table) ok in
  let? centroid_y := getitems (column CENTROID_Y table) ok in
  Ret [ ("time", LcArray (a_time a)); ("flux", LcArray flux);
        ("flux_err", LcArray flux_err); ("bjd_ref", LcOther (pretty bjd_ref));
        ("table", LcOther "table"); ("header", LcOther "header");
        ("xoff", LcArray (a_xoff a)); ("yoff", LcArray (a_yoff a));
        ("bg", LcArray (a_bg a)); ("contam", LcArray (a_contam a));
        ("centroid_x", LcArray centroid_x); ("centroid_y", LcArray centroid_y);
        ("roll_angle", LcArray (a_roll_angle a));
        ("aperture", LcOther aperture) ]%string.

(** ** Vocabulary of the statements *)

(** The parameter object with the given attributes, its value limited to
    the bounds; the value and the bounds are Python numbers.  It is what
    the constructor returns for bounds in order that do not coincide. *)
Definition Parameter_object (name : string) (value : pyfloat) (vary : bool)
    (lo hi : pyfloat) (expr : option Expr) (user_data : option UFloat) : Param :=
  {| p_name := name;
     p_val := clip lo hi value;
     p_vary := match expr with Some _ => false | None => vary end;
     p_min := lo;
     p_max := hi;
     p_expr := expr;
     p_user_data := user_data;
     p_stderr := None;
     p_native := true;
     p_min_native := true;
     p_max_native := true |}.


(** The scaled semi-major axis implied by (D, W, b). *)
Definition implied_aR (d w b : R) : R :=
  (sqrt ((1 + sqrt d) ^ 2 - b ^ 2) / (PI * w))%R.

(** The region on which [_log_prior] is finite. *)
Definition prior_support (d w b : R) : Prop :=
  (2e-6 <= d <= 0.2 /\ 1e-4 <= w /\ 0 <= b <= 1 /\ 2 <= implied_aR d w b)%R.

(** The same region with the depth restricted to the open interval. *)
Definition prior_support_open (d w b : R) : Prop :=
  (2e-6 < d < 0.2 /\ 1e-4 <= w /\ 0 <= b <= 1 /\ 2 <= implied_aR d w b)%R.

Definition prior_value (d w b : R) : R :=
  (- ln (2 * sqrt d * w) - ln (sqrt d) - ln (implied_aR d w b))%R.

(** The support as a predicate on floats: only finite triples are in it. *)
Definition in_support (D W b : pyfloat) : Prop :=
  match D, W, b with
  | Fin d, Fin w, Fin bb => prior_support d w bb
  | _, _, _ => False
  end.

(** [s'] keeps every [Parameters] object that [s] holds. *)
Definition extends (s s' : store) : Prop :=
  forall l ps, pheap s !! l = Some ps -> pheap s' !! l = Some ps.

(** A computation that never writes to the store. *)
Definition readonly {A : Type} (m : M A) : Prop :=
  forall s, snd (m s) = s.

(** A computation that leaves the [Parameters] objects alone. *)
Definition keeps_params {A : Type} (m : M A) : Prop :=
  forall s, pheap (snd (m s)) = pheap s.

(** A small parameter set for examples: depth, width and impact parameter
    free within bounds, a jitter term, and the derived radius ratio. *)
Definition example_params : Parameters :=
  [ ("D", Parameter_object "D" (Fin 0.01) true (Fin 0) (Fin 0.5) None None);
    ("W", Parameter_object "W" (Fin 0.1) true (Fin 0.01) (Fin 0.3) None None);
    ("b", Parameter_object "b" (Fin 0.3) true (Fin 0) (Fin 1) None None);
    ("log_sigma",
      Parameter_object "log_sigma" (Fin (-10)) true (Fin (-16)) (Fin (-1)) None None);
    ("k", Parameter_object "k" NInf true (Fin 0) (Fin 1) (Some (ESqrt (EVar "D"))) None) ]%string.

(** A store holding [example_params] at location 0 and a GP object with no
    kernel parameter set yet at location 0 of the GP heap. *)
Definition example_store : store :=
  mkStore {[ 0%nat := example_params ]} {[ 0%nat := ∅ ]}.

(** A model whose prediction is the constant 1 at every time. *)
Definition unit_model : Model := fun _ time => map (fun _ => Fin 1) time.

(** A model whose prediction is NaN at every time. *)
Definition nan_model : Model := fun _ time => map (fun _ => NaN) time.

Definition example_gp : GP := mkGP 0%nat (fun _ _ => Fin 0).

(** The range test of the target functions, [(v < p.min) or (v > p.max)]. *)
Definition out_of_range (p : Param) (v : pyfloat) : bool :=
  flt v (p_min p) || fgt v (p_max p).

(** The assignment loop as a function of the entries of the working copy:
    the entries it leaves, and whether every component passed the range
    test. *)
Fixpoint assign_pure (pc : Parameters) (vn : list string) (vs : list pyfloat)
    : Parameters * bool :=
  match vn, vs with
  | k :: vn', v :: vs' =>
      match getitem pc k with
      | Some p =>
          if out_of_range p v then (pc, false)
          else assign_pure (setitem pc k (set_value p v)) vn' vs'
      | None => (pc, true)
      end
  | _, _ => (pc, true)
  end.

(** The parameter set at the proposal [vs] for the free parameters [vn]. *)
Definition with_values (ps : Parameters) (vn : list string) (vs : list pyfloat)
    : Parameters :=
  fst (assign_pure ps vn vs).

(** [vs] is a vector for the free parameters [vn] of [ps]: one component
    for each name, and each name a key of [ps]. *)
Definition proposal_for (ps : Parameters) (vn : list string)
    (vs : list pyfloat) : Prop :=
  Forall2 (fun k _ => is_Some (getitem ps k)) vn vs.

(** Component [i] of the proposal is outside the bounds of its parameter. *)
Definition component_out_of_range (ps : Parameters) (vn : list string)
    (vs : list pyfloat) : Prop :=
  exists i k v p,
    vn !! i = Some k /\ vs !! i = Some v /\ getitem ps k = Some p /\
    out_of_range p v = true.

(** Every component of the proposal passes the range test. *)
Definition components_in_range (ps : Parameters) (vn : list string)
    (vs : list pyfloat) : Prop :=
  Forall2 (fun k v => exists p, getitem ps k = Some p /\ out_of_range p v = false)
          vn vs.

(** Some parameter of [pc], free, fixed or derived, has a value outside its
    bounds or a NaN value. *)
Definition parameter_rejected (pc : Parameters) : Prop :=
  exists k p,
    (k, p) ∈ pc /\
    (out_of_range p (param_value pc p) = true \/ isnan (param_value pc p) = true).

(** The free parameters of [example_params] addressed by the examples, a
    proposal inside the bounds and one whose depth is above its maximum. *)
Definition example_vn : list string := ["D"; "W"; "b"]%string.
Definition example_pos : list pyfloat := [Fin 0.02; Fin 0.1; Fin 0.3].
Definition example_pos_out : list pyfloat := [Fin 1; Fin 0.1; Fin 0.3].



(** The types [_kw_to_Parameter] tests for with [isinstance]; [bool] is a
    subclass of [int]. *)
Definition recognised (kwarg : pyval) : bool :=
  match kwarg with
  | PyFloat _ | PyInt _ | PyBool _ | PyTuple _ | PyUFloat _ | PyParameter _ => true
  | PyNone | PyStr _ | PyList _ => false
  end.



(** Ten per cent of the width of the bound interval. *)
Definition tenth_of_bounds (p : Param) : pyfloat :=
  fmul (Fin 0.1) (fsub (p_max p) (p_min p)).

(** The varied entries of a parameter set, in order. *)
Definition varied (ps : Parameters) : list (string * Param) :=
  List.filter (fun kp => p_vary (snd kp)) ps.

(** A free parameter on [-1, 1] with the Gaussian prior 0 +/- 1 whose
    standard error the optimizer reported as NaN. *)
Definition example_nan_stderr : Param :=
  {| p_name := "dfdx"; p_val := Fin 0; p_vary := true;
     p_min := Fin (-1); p_max := Fin 1; p_expr := None;
     p_user_data := Some (ufloat (Fin 0) (Fin 1));
     p_stderr := Some NaN;
     p_native := true; p_min_native := true; p_max_native := true |}.

(** The same parameter before any fit, and with a finite standard error. *)
Definition example_no_stderr : Param :=
  {| p_name := "dfdx"; p_val := Fin 0; p_vary := true;
     p_min := Fin (-1); p_max := Fin 1; p_expr := None;
     p_user_data := Some (ufloat (Fin 0) (Fin 1));
     p_stderr := None;
     p_native := true; p_min_native := true; p_max_native := true |}.

Definition example_finite_stderr : Param :=
  {| p_name := "dfdx"; p_val := Fin 0; p_vary := true;
     p_min := Fin (-1); p_max := Fin 1; p_expr := None;
     p_user_data := Some (ufloat (Fin 0) (Fin 1));
     p_stderr := Some (Fin 0.25);
     p_native := true; p_min_native := true; p_max_native := true |}.

(** The free-parameter vectors of [example_params]. *)
Definition example_vv : list pyfloat := fst (fst (free_vectors example_params)).
Definition example_vs : list pyfloat := snd (fst (free_vectors example_params)).
Definition example_free : list string := snd (free_vectors example_params).

(** A random generator that always draws 0. *)
Definition zero_rng : RandomState := fun _ _ => Fin 0.

(** The independent-noise target function as the driver binds it, on a
    model that predicts NaN, and on a model that predicts 1. *)
Definition nan_target : TargetFunction :=
  fun pos => _log_posterior_jitter pos nan_model [Fin 0] [Fin 1] [Fin 1]
               0%nat example_free false.

(** The draws of the walker loop: call number [call] of [np.random.randn]
    gives the position [drawn vv vs init_scale rng call]. *)
Definition drawn (vv vs : list pyfloat) (init_scale : pyfloat)
    (rng : RandomState) (call : nat) : list pyfloat :=
  start_position vv vs (randn rng call (length vv)) init_scale.

(** The loop stopped within the bound, with a value or with an exception. *)
Definition terminated {A : Type} (o : outcome A) : Prop :=
  match o with
  | Finished _ => True
  | OutOfFuel => False
  end.

(** A target function that is 0 everywhere. *)
Definition flat_target : TargetFunction := fun _ => ret (RFloat (Fin 0)).

(** The store holds [example_params] at location 0. *)
Definition holds_example (s : store) : Prop :=
  pheap s !! 0%nat = Some example_params.

(** Every stored step has [nwalkers] rows of [ndim] columns. *)
Definition chain_ok (nwalkers ndim : nat) (chain : list Ensemble) : Prop :=
  Forall (fun e => shape_ok nwalkers ndim e = true) chain.

(** The move keeps the number of walkers and of columns. *)
Definition keeps_shape (nwalkers ndim : nat) (move : Move) : Prop :=
  forall n e, shape_ok nwalkers ndim e = true ->
              shape_ok nwalkers ndim (move n e) = true.

(** A move that leaves every walker where it is. *)
Definition still_move : Move := fun _ e => e.

(** Thirty-two walkers on one free parameter, all at 0. *)
Definition example_walkers : Ensemble := replicate 32 [Fin 0].

(** The data part of the residual vector, [(flux - model)/flux_err]. *)
Definition data_residuals (model : Model) (time flux flux_err : list pyfloat)
    (params : Parameters) : list pyfloat :=
  arr_div (arr_sub flux (model params time)) flux_err.

(** The prior part: [(u.n - value)/u.s] for each parameter that carries a
    Gaussian prior, in the order of the parameter set. *)
Fixpoint prior_residuals (params : Parameters) (entries : list (string * Param))
    : list pyfloat :=
  match entries with
  | [] => []
  | (_, p) :: rest =>
      match p_user_data p with
      | Some u =>
          fdiv (fsub (u_n u) (param_value params p)) (u_s u)
            :: prior_residuals params rest
      | None => prior_residuals params rest
      end
  end.

(** The arrays of the light curve and the output of the model have one
    entry per time stamp. *)
Definition aligned (model : Model) (time flux flux_err : list pyfloat) : Prop :=
  length flux = length time /\ length flux_err = length time /\
  forall ps, length (model ps time) = length time.

(** The root mean square of an array. *)
Definition root_mean_square (a : list pyfloat) : pyfloat :=
  fsqrt (arr_mean (map (fun x => fpow_nat x 2) a)).

(** A minimizer that stops where it starts. *)
Definition idle_minimizer : Minimizer := fun _ params => params.

(** A parameter set with one free parameter under the prior 0 +/- 1. *)
Definition example_prior_params : Parameters :=
  [ ("c", Parameter_object "c" (Fin 1) true (Fin 0) (Fin 2) None None);
    ("dfdx", Parameter_object "dfdx" (Fin 0.5) true NInf PInf None
               (Some (ufloat (Fin 0) (Fin 1)))) ]%string.

(** A light curve of two points. *)
Definition example_time : list pyfloat := [Fin 0; Fin 1].
Definition example_flux : list pyfloat := [Fin 2; Fin 4].
Definition example_flux_err : list pyfloat := [Fin 2; Fin 2].

(** The formulas of the derived quantities as the specification writes
    them, on floats. *)
Definition spec_k (D : pyfloat) : pyfloat := fsqrt D.

Definition spec_aR (k b W : pyfloat) : pyfloat :=
  fdiv (fsqrt (fsub (fpow_nat (fadd (Fin 1) k) 2) (fpow_nat b 2))) (fmul W fpi).

Definition spec_sini (b aR : pyfloat) : pyfloat :=
  fsqrt (fsub (Fin 1) (fpow_nat (fdiv b aR) 2)).

Definition spec_logrho (k b W P : pyfloat) : pyfloat :=
  flog10
    (fdiv (fdiv (fmul (Fin 4.3275e-4)
                      (fpow_real (fsub (fpow_nat (fadd (Fin 1) k) 2)
                                       (fpow_nat b 2)) 1.5))
                (fpow_nat W 3))
          (fpow_nat P 2)).

Definition spec_e (f_c f_s : pyfloat) : pyfloat :=
  fadd (fpow_nat f_c 2) (fpow_nat f_s 2).

Definition spec_q_1 (h_2 : pyfloat) : pyfloat := fpow_nat (fsub (Fin 1) h_2) 2.

Definition spec_q_2 (h_1 h_2 : pyfloat) : pyfloat :=
  fdiv (fsub h_1 h_2) (fsub (Fin 1) h_2).

(** The derived parameters of the transit fit and of the eclipse fit, with
    their expressions. *)
Definition transit_exprs : list (string * Expr) :=
  [ ("k", expr_k); ("aR", expr_aR); ("sini", expr_sini);
    ("logrho", expr_logrho); ("e", expr_e); ("q_1", expr_q_1);
    ("q_2", expr_q_2) ]%string.

Definition eclipse_exprs : list (string * Expr) :=
  [ ("k", expr_k); ("aR", expr_aR); ("sini", expr_sini); ("e", expr_e) ]%string.

(** The parameters of a transit fit before the derived ones are installed:
    depth, width and impact parameter free, the rest fixed. *)
Definition example_base : Parameters :=
  [ ("T_0", Parameter_object "T_0" (Fin 0) true (Fin (-0.5)) (Fin 0.5) None None);
    ("P", Parameter_object "P" (Fin 1) false NInf PInf None None);
    ("D", Parameter_object "D" (Fin 0.01) true (Fin 0) (Fin 0.5) None None);
    ("W", Parameter_object "W" (Fin 0.1) true (Fin 0.01) (Fin 0.3) None None);
    ("b", Parameter_object "b" (Fin 0.3) true (Fin 0) (Fin 1) None None);
    ("f_c", Parameter_object "f_c" (Fin 0) false NInf PInf None None);
    ("f_s", Parameter_object "f_s" (Fin 0) false NInf PInf None None);
    ("h_1", Parameter_object "h_1" (Fin 0.7224) false NInf PInf None None);
    ("h_2", Parameter_object "h_2" (Fin 0.6713) false NInf PInf None None);
    ("c", Parameter_object "c" (Fin 1) true (Fin 0.5) (Fin 2) None None) ]%string.

(** A proposal for the five free parameters of [example_base]. *)
Definition example_proposal : list pyfloat :=
  [Fin 0; Fin 0.02; Fin 0.1; Fin 0.3; Fin 1].

(** The first of [names] that is no key of [ps]. *)
Definition first_missing (ps : Parameters) (names : list string) : option string :=
  List.find (fun k => match getitem ps k with None => true | Some _ => false end)
            names.

(** A proposal with one component too few, and names of which the second is
    no parameter of [example_params]. *)
Definition example_pos_short : list pyfloat := [Fin 0.02; Fin 0.1].
Definition example_vn_unknown : list string := ["D"; "ecosw"; "b"]%string.

(** [example_params] without the impact parameter. *)
Definition example_params_no_b : Parameters :=
  [ ("D", Parameter_object "D" (Fin 0.01) true (Fin 0) (Fin 0.5) None None);
    ("W", Parameter_object "W" (Fin 0.1) true (Fin 0.01) (Fin 0.3) None None);
    ("log_sigma",
      Parameter_object "log_sigma" (Fin (-10)) true (Fin (-16)) (Fin (-1)) None None) ]%string.

Definition example_store_no_b : store :=
  mkStore {[ 0%nat := example_params_no_b ]} {[ 0%nat := ∅ ]}.

(** The value read for the parameter [k] of [pc]; NaN stands for a missing
    parameter. *)
Definition item_value (pc : Parameters) (k : string) : pyfloat :=
  match getitem pc k with
  | Some p => param_value pc p
  | None => NaN
  end.




(** The kernel parameters that [_log_posterior_SHOTerm] sets on the GP
    object, read from the parameter set [pc]. *)
Definition kernel_parameters (pc : Parameters) (st : GPstate) : GPstate :=
  <["kernel:terms[1]:log_sigma" := item_value pc "log_sigma"]>
    (<["kernel:terms[0]:log_omega0" := item_value pc "log_omega0"]>
       (<["kernel:terms[0]:log_Q" := item_value pc "log_Q"]>
          (<["kernel:terms[0]:log_S0" := item_value pc "log_S0"]> st))).

(** [example_params] with the three parameters of the SHO kernel, a store
    that holds it, and a proposal for D, W and b. *)
Definition example_params_gp : Parameters :=
  example_params ++
  [ ("log_S0", Parameter_object "log_S0" (Fin (-12)) true (Fin (-30)) (Fin 0) None None);
    ("log_omega0",
      Parameter_object "log_omega0" (Fin 3) true (Fin (-2.3)) (Fin 8) None None);
    ("log_Q", Parameter_object "log_Q" (Fin (-0.35)) false NInf PInf None None) ]%string.

Definition example_store_gp : store :=
  mkStore {[ 0%nat := example_params_gp ]} {[ 0%nat := ∅ ]}.

Definition example_pos_04 : list pyfloat := [Fin 0.04; Fin 0.1; Fin 0.3].


(** The names of the derived parameters that only the transit fit installs. *)
Definition transit_only : list string := ["logrho"; "q_1"; "q_2"]%string.

(** A parameter set in which the eccentricity terms are both 1, so that
    the derived eccentricity [f_c**2 + f_s**2] exceeds its maximum. *)
Definition example_hyperbolic : Parameters :=
  [ ("f_c", Parameter_object "f_c" (Fin 1) true (Fin (-1)) (Fin 1) None None);
    ("f_s", Parameter_object "f_s" (Fin 1) true (Fin (-1)) (Fin 1) None None);
    ("e", Parameter_object "e" NInf true (Fin 0) (Fin 1) (Some expr_e) None) ]%string.

(** An exception that is a [ValueError]. *)
Definition is_ValueError (e : exn) : Prop := exists msg, e = ValueError msg.

(** The keyword [name] is given. *)
Definition given (kw : Keywords) (name : string) : bool :=
  match kw name with
  | PyNone => false
  | _ => true
  end.

(** The parameters that a transit fit and an eclipse fit always have, in
    the order in which they are added. *)
Definition transit_names : list string :=
  ["T_0"; "P"; "D"; "W"; "b"; "f_c"; "f_s"; "h_1"; "h_2"; "c"]%string.

Definition eclipse_names : list string :=
  ["T_0"; "P"; "D"; "W"; "b"; "L"; "f_c"; "f_s"; "c"; "a_c"]%string.

(** The assignments [params[n] = p] for the pairs [(n, p)] of [entries],
    one after the other. *)
Definition set_all (entries : list (string * Param)) (ps : Parameters)
    : Parameters :=
  foldl (fun acc np => setitem acc (fst np) (snd np)) ps entries.

(** Keywords for examples: a depth given as an interval, a fixed period, a
    decorrelation coefficient with a Gaussian prior; and keywords with an
    impact parameter given as a string. *)
Definition example_keywords : Keywords :=
  fun name =>
    if String.eqb name "D" then PyTuple [Fin 0.001; Fin 0.01]
    else if String.eqb name "P" then PyFloat (Fin 2.5)
    else if String.eqb name "dfdx" then PyUFloat (ufloat (Fin 0) (Fin 1))
    else PyNone.


(** The jitter parameter that [emcee_sampler] adds when there is none and
    the keyword is not given. *)
Definition default_log_sigma_parameter : Param :=
  set_stderr
    (Parameter_object "log_sigma" (Fin (-10)) true (Fin (-16)) (Fin (-1)) None None)
    (Fin 1).

(** The parameter sigma_w that [emcee_sampler] installs. *)
Definition sigma_w_parameter : Param :=
  Parameter_object "sigma_w" NInf true NInf PInf (Some expr_sigma_w) None.

(** [example_params] with the noise parameters of a run with
    [add_shoterm], and a store that holds it. *)
Definition example_emcee_params : Parameters :=
  snd (emcee_noise_parameters true PyNone PyNone PyNone PyNone example_params).

Definition example_emcee_store : store :=
  mkStore {[ 0%nat := example_emcee_params ]} ∅.

(** A stand-in for celerite's log-likelihood. *)
Definition zero_likelihood
    : list pyfloat -> list pyfloat -> GPstate -> list pyfloat -> pyfloat :=
  fun _ _ _ _ => Fin 0.

(** Every array of the light curve has [n] entries. *)
Definition arrays_of_length (n : nat) (lc : LightCurve) : Prop :=
  forall k a, (k, LcArray a) ∈ lc -> length a = n.

(** The light curve with every array indexed by the Boolean array [m]. *)
Definition indexed (m : list bool) (lc : LightCurve) : LightCurve :=
  map (fun kv => match snd kv with
                 | LcArray a => (fst kv, LcArray (select m a))
                 | LcOther v => (fst kv, LcOther v)
                 end) lc.

(** The number of places where [m] is true. *)
Definition count_true (m : list bool) : nat :=
  length (List.filter (fun b : bool => b) m).

(** A light curve of three points for examples, and a median filter that
    returns its input. *)
Definition example_lc : LightCurve :=
  [ ("time", LcArray [Fin 0; Fin 1; Fin 2]);
    ("flux", LcArray [Fin 1; Fin 0.99; Fin 1]);
    ("flux_err", LcArray [Fin 0.001; Fin 0.001; Fin 0.001]);
    ("aperture", LcOther "OPTIMAL") ]%string.

Definition example_lc_nan : LightCurve :=
  [ ("time", LcArray [Fin 0; Fin 1; Fin 2]);
    ("flux", LcArray [Fin 1; NaN; Fin 1]);
    ("flux_err", LcArray [Fin 0.001; Fin 0.001; Fin 0.001]);
    ("aperture", LcOther "OPTIMAL") ]%string.

Definition identity_filter : list pyfloat -> nat -> list pyfloat :=
  fun x _ => x.

(** The keys for which [_make_labels] has a label of its own. *)
Definition labelled_keys : list string :=
  [ "T_0"; "h_1"; "h_2"; "dfdbg"; "dfdcontam"; "dfdx"; "d2fdx2"; "dfdy";
    "d2fdy2"; "dfdt"; "d2fdt2"; "dfdsinphi"; "dfdcosphi"; "dfdsin2phi";
    "dfdcos2phi"; "dfdsin3phi"; "dfdcos3phi"; "log_sigma"; "log_omega0";
    "log_S0"; "log_Q"; "sigma_w"; "logrho"; "aR"; "sini" ]%string.

(** [lo] is the least and [hi] the greatest of the numbers [l]. *)
Definition least (lo : R) (l : list R) : Prop :=
  lo ∈ l /\ forall y, y ∈ l -> (lo <= y)%R.

Definition greatest (hi : R) (l : list R) : Prop :=
  hi ∈ l /\ forall y, y ∈ l -> (y <= hi)%R.

(** The rows of the table without an event flag (EVENT is 0 or 100). *)
Definition event_free (r : Row) : bool :=
  (EVENT r =? 0)%Z || (EVENT r =? 100)%Z.

Definition rows_ok (table : Table) : Table := List.filter event_free table.

(** The threshold of [reject_highpoints] for the rows [rows]:
    twice the median of the fluxes minus the least flux. *)
Definition flux_cut (rows : Table) : pyfloat :=
  fsub (fmul (Fin 2) (np_nanmedian (map FLUX rows)))
       (match List.filter (fun x => negb (isnan x)) (map FLUX rows) with
        | [] => NaN
        | x :: rest => py_min x rest
        end).

(** The places, among the rows [rows], of those whose flux is below the
    threshold. *)
Definition kept_places (rows : Table) : list nat :=
  nonzero (map (fun r => flt (FLUX r) (flux_cut rows)) rows).

(** The values of [f] on the rows at the places [places]. *)
Definition at_places {A : Type} (f : Row -> A) (rows : Table)
    (places : list nat) : list A :=
  omap (fun i => f <$> rows !! i) places.

(** A table of four rows of which the first has an event flag. *)
Definition example_row (event : Z) (flux centroid_x : R) : Row :=
  mkRow event (Fin 2458000.5) (Fin flux) (Fin 1) (Fin centroid_x) (Fin 0)
        (Fin 0) (Fin 0) (Fin 0) (Fin 0) (Fin 0).

Definition example_table : Table :=
  [ example_row 1 1 10; example_row 0 1 20; example_row 0 2 30;
    example_row 0 3 40 ].

(** The offsets of the centroid from the target location in a row. *)
Definition x_offset (r : Row) : pyfloat := fsub (CENTROID_X r) (LOCATION_X r).

Definition y_offset (r : Row) : pyfloat := fsub (CENTROID_Y r) (LOCATION_Y r).

(** Two reals that [np.isclose] with the tolerances of lmfit tells apart. *)
Definition apart (a b : R) : Prop :=
  (1e-13 + 1e-13 * Rabs b < Rabs (a - b))%R.

(** The set [ps] with the derived parameter [name] stored in it. *)
Definition with_derived (ps : Parameters) (name : string) (lo hi : pyfloat)
    (e : Expr) : Parameters :=
  setitem ps name (Parameter_object name NInf true lo hi (Some e) None).

(** The set that the block of [lmfit_transit] leaves when no expression
    fails, and the same for [lmfit_eclipse]. *)
Definition transit_installed (params : Parameters)
    (logrhoprior : option UFloat) : Parameters :=
  let params := with_derived params "k" (Fin 0) (Fin 1) expr_k in
  let params := with_derived params "aR" (Fin 1) PInf expr_aR in
  let params := with_derived params "sini" NInf PInf expr_sini in
  let params := with_derived params "logrho" (Fin (-9)) (Fin 6) expr_logrho in
  let params := set_user_data params "logrho" logrhoprior in
  let params := with_derived params "e" (Fin 0) (Fin 1) expr_e in
  let params := with_derived params "q_1" (Fin 0) (Fin 1) expr_q_1 in
  with_derived params "q_2" (Fin 0) (Fin 1) expr_q_2.

Definition eclipse_installed (params : Parameters) : Parameters :=
  let params := with_derived params "k" (Fin 0) (Fin 1) expr_k in
  let params := with_derived params "aR" (Fin 1) PInf expr_aR in
  let params := with_derived params "sini" NInf PInf expr_sini in
  with_derived params "e" (Fin 0) (Fin 1) expr_e.

(** The parameters that the expressions of the derived parameters name,
    other than derived parameters. *)
Definition transit_inputs : list string :=
  [ "D"; "W"; "b"; "P"; "f_c"; "f_s"; "h_1"; "h_2" ]%string.

Definition eclipse_inputs : list string :=
  [ "D"; "W"; "b"; "f_c"; "f_s" ]%string.

(** [x] is a parameter of [ps] without expression. *)
Definition plain (ps : Parameters) (x : string) : Prop :=
  exists p, getitem ps x = Some p /\ p_expr p = None.

(** The names that occur in an expression. *)
Fixpoint names_of (e : Expr) : list string :=
  match e with
  | EVar x => [x]
  | ENum _ | EPi => []
  | EAdd a b | ESub a b | EMul a b | EDiv a b => names_of a ++ names_of b
  | EPowInt a _ | EPowFloat a _ | ESqrt a | ELog10 a | EExp a => names_of a
  end.

(** The value of [e] may be a Python number, whatever its operands are:
    no function of NumPy is applied last on the way to it. *)
Definition maybe_native (e : Expr) : bool := native_expr (fun _ => true) e.

(** The value of [e] is not zero when the parameters [nonzero] are not:
    [e] is pi, one of these parameters, or a power of such. *)
Fixpoint nonzero_expr (nonzero : list string) (e : Expr) : bool :=
  match e with
  | EPi => true
  | EVar x => contains nonzero x
  | EPowInt a _ => nonzero_expr nonzero a
  | _ => false
  end.

(** No division in [e] can be one of Python numbers by zero: in each, the
    dividend or the divisor is a NumPy scalar whatever the parameters are,
    or the divisor is not zero when the parameters [nonzero] are not. *)
Fixpoint division_safe (nonzero : list string) (e : Expr) : bool :=
  match e with
  | EVar _ | ENum _ | EPi => true
  | EAdd a b | ESub a b | EMul a b =>
      division_safe nonzero a && division_safe nonzero b
  | EDiv a b =>
      division_safe nonzero a && division_safe nonzero b &&
      (negb (maybe_native a) || negb (maybe_native b) || nonzero_expr nonzero b)
  | EPowInt a _ | EPowFloat a _ | ESqrt a | ELog10 a | EExp a =>
      division_safe nonzero a
  end.

(** The value read for [x] with fuel [d] is the value read with any more
    fuel. *)
Definition settled (ps : Parameters) (d : nat) (x : string) : Prop :=
  forall m, (d <= m)%nat -> getval m ps x = getval d ps x.


(* END OF VOCABULARY *)

(* ================================================================== *)
(** * Part II: properties                                              *)
(* ================================================================== *)

(** ** Deciding comparisons on reals *)

Lemma Rltb_true (a b : R) : (a < b)%R -> Rltb a b = true.
Proof. intros H. unfold Rltb. destruct (Rlt_dec a b); [reflexivity | contradiction]. Qed.

Lemma Rltb_false (a b : R) : (~ a < b)%R -> Rltb a b = false.
Proof. intros H. unfold Rltb. destruct (Rlt_dec a b); [contradiction | reflexivity]. Qed.

Lemma Rltb_lt (a b : R) : Rltb a b = true <-> (a < b)%R.
Proof. unfold Rltb. destruct (Rlt_dec a b); split; intros; try easy. Qed.

Lemma Rltb_ge (a b : R) : Rltb a b = false <-> (b <= a)%R.
Proof.
  unfold Rltb. destruct (Rlt_dec a b); split; intros; try easy; lra.
Qed.

Lemma Reqb_true (a b : R) : a = b -> Reqb a b = true.
Proof. intros H. unfold Reqb. destruct (Req_dec_T a b); [reflexivity | contradiction]. Qed.

Lemma Reqb_false (a b : R) : a <> b -> Reqb a b = false.
Proof. intros H. unfold Reqb. destruct (Req_dec_T a b); [contradiction | reflexivity]. Qed.

(** Evaluate comparisons between closed real expressions. *)
Ltac rdecide :=
  repeat match goal with
    | |- context [Rltb ?a ?b] =>
        first [ rewrite (Rltb_true a b) by lra | rewrite (Rltb_false a b) by lra ]
    | |- context [Reqb ?a ?b] =>
        first [ rewrite (Reqb_true a b) by lra | rewrite (Reqb_false a b) by lra ]
    end.

(** ** [_log_prior] *)

Section LogPrior.
Local Open Scope R_scope.

Lemma radicand_pos (d b : R) :
  0 <= d -> 0 <= b <= 1 -> 0 <= (1 + sqrt d) * (1 + sqrt d) - b * b.
Proof.
  intros Hd Hb. pose proof (sqrt_pos d). nra.
Qed.

Lemma fsqrt_radicand (d b : R) :
  0 <= d -> 0 <= b <= 1 ->
  fsqrt (fsub (fpow_nat (fadd (Fin 1) (Fin (sqrt d))) 2) (fpow_nat (Fin b) 2))
  = Fin (sqrt ((1 + sqrt d) ^ 2 - b ^ 2)).
Proof.
  intros Hd Hb. pose proof (radicand_pos d b Hd Hb) as Hrad.
  cbn [fadd fpow_nat fmul fsub fneg fsqrt].
  rewrite Rltb_false by lra. do 2 f_equal. ring.
Qed.

Lemma implied_aR_eval (d w b : R) :
  0 <= d -> 0 <= b <= 1 -> 0 < w ->
  fdiv (fsqrt (fsub (fpow_nat (fadd (Fin 1) (fsqrt (Fin d))) 2)
                    (fpow_nat (Fin b) 2)))
       (fmul fpi (Fin w))
  = Fin (implied_aR d w b).
Proof.
  intros Hd Hb Hw. cbn [fsqrt]. rewrite (Rltb_false d 0) by lra.
  rewrite fsqrt_radicand by assumption.
  cbn [fpi fmul fdiv]. rewrite Reqb_false by (pose proof PI_RGT_0; nra).
  reflexivity.
Qed.

Lemma log_prior_finite_inputs (d w b : R) :
  prior_support d w b ->
  _log_prior (Fin d) (Fin w) (Fin b) = Fin (prior_value d w b).
Proof.
  intros (Hd & Hw & Hb & HaR).
  unfold _log_prior, fgt. cbn [flt orb].
  rewrite (Rltb_false d) by lra. rewrite (Rltb_false 0.2) by lra.
  rewrite (Rltb_false b) by lra. rewrite (Rltb_false 1) by lra.
  rewrite (Rltb_false w) by lra. cbn [orb].
  assert (Hk : 0 < sqrt d) by (apply sqrt_lt_R0; lra).
  rewrite implied_aR_eval by lra.
  cbn [flt]. rewrite (Rltb_false _ 2) by lra.
  cbn [fsqrt]. rewrite (Rltb_false d 0) by lra.
  cbn [flog fmul fsub fneg fadd].
  rewrite (Rltb_true 0 (2 * sqrt d * w)) by nra.
  rewrite (Rltb_true 0 (sqrt d)) by lra.
  rewrite (Rltb_true 0 (implied_aR d w b)) by lra.
  cbn [fneg fadd]. unfold prior_value. f_equal.
Qed.

Lemma log_prior_rejects_finite (d w b : R) :
  ~ prior_support d w b -> _log_prior (Fin d) (Fin w) (Fin b) = NInf.
Proof.
  intros Hns. unfold _log_prior, fgt. cbn [flt].
  destruct (Rlt_dec d 2e-6) as [H1 | H1];
    [rewrite (Rltb_true _ _ H1); reflexivity | rewrite (Rltb_false _ _ H1)].
  destruct (Rlt_dec 0.2 d) as [H2 | H2];
    [rewrite (Rltb_true _ _ H2); reflexivity | rewrite (Rltb_false _ _ H2)].
  destruct (Rlt_dec b 0) as [H3 | H3];
    [rewrite (Rltb_true _ _ H3); reflexivity | rewrite (Rltb_false _ _ H3)].
  destruct (Rlt_dec 1 b) as [H4 | H4];
    [rewrite (Rltb_true _ _ H4); reflexivity | rewrite (Rltb_false _ _ H4)].
  destruct (Rlt_dec w 1e-4) as [H5 | H5];
    [rewrite (Rltb_true _ _ H5); reflexivity | rewrite (Rltb_false _ _ H5)].
  cbn [orb]. rewrite implied_aR_eval by lra. cbn [flt].
  destruct (Rlt_dec (implied_aR d w b) 2) as [H6 | H6];
    [rewrite (Rltb_true _ _ H6); reflexivity | exfalso].
  apply Hns. unfold prior_support. lra.
Qed.

Lemma log_prior_rejects_nan_free (D W b : pyfloat) :
  isnan D = false -> isnan W = false -> isnan b = false ->
  ~ in_support D W b -> _log_prior D W b = NInf.
Proof.
  intros HD HW Hb Hns.
  destruct D as [d | | |]; try discriminate; try reflexivity.
  destruct b as [bb | | |]; try discriminate.
  - destruct W as [w | | |]; try discriminate.
    + apply log_prior_rejects_finite. exact Hns.
    + (* W = +inf: the implied aR is 0 *)
      unfold _log_prior, fgt. cbn [flt].
      destruct (Rlt_dec d 2e-6) as [H1 | H1];
        [rewrite (Rltb_true _ _ H1); reflexivity | rewrite (Rltb_false _ _ H1)].
      destruct (Rlt_dec 0.2 d) as [H2 | H2];
        [rewrite (Rltb_true _ _ H2); reflexivity | rewrite (Rltb_false _ _ H2)].
      destruct (Rlt_dec bb 0) as [H3 | H3];
        [rewrite (Rltb_true _ _ H3); reflexivity | rewrite (Rltb_false _ _ H3)].
      destruct (Rlt_dec 1 bb) as [H4 | H4];
        [rewrite (Rltb_true _ _ H4); reflexivity | rewrite (Rltb_false _ _ H4)].
      cbn [orb fsqrt]. rewrite (Rltb_false d 0) by lra.
      rewrite fsqrt_radicand by lra.
      cbn [fpi fmul]. unfold signed_inf.
      rewrite (Rltb_true 0 PI) by apply PI_RGT_0.
      cbn [fdiv flt]. rewrite Rltb_true by lra. reflexivity.
    + unfold _log_prior, fgt. cbn [flt].
      repeat (destruct (Rltb _ _); cbn [orb]; try reflexivity).
  - unfold _log_prior, fgt. cbn [flt].
    repeat (destruct (Rltb _ _); cbn [orb]; try reflexivity).
  - unfold _log_prior, fgt. cbn [flt].
    repeat (destruct (Rltb _ _); cbn [orb]; try reflexivity).
Qed.

Lemma implied_aR_ge_2 (d w b : R) :
  0 <= d -> 0 <= b -> b * b <= 0.36 -> 0 < w <= 0.1 -> 2 <= implied_aR d w b.
Proof.
  intros Hd Hb Hbb Hw. unfold implied_aR.
  pose proof (sqrt_pos d) as Hk.
  assert (HX : 0.8 * 0.8 <= (1 + sqrt d) ^ 2 - b ^ 2) by nra.
  assert (Hs : 0.8 <= sqrt ((1 + sqrt d) ^ 2 - b ^ 2)).
  { rewrite <- (sqrt_square 0.8) by lra. apply sqrt_le_1_alt. exact HX. }
  pose proof PI_RGT_0 as Hpi0. pose proof PI_4 as Hpi4.
  assert (Hden : 0 < PI * w) by nra.
  apply Rmult_le_reg_r with (PI * w); [exact Hden |].
  unfold Rdiv. rewrite Rmult_assoc, Rinv_l by lra. nra.
Qed.

(** C3 (as amended): on the closed depth interval [2e-6, 0.2], with
    W >= 1e-4, b in [0, 1] and implied aR >= 2, [_log_prior] returns the
    finite value -log(2kW) - log(k) - log(aR) with k = sqrt(D); on every
    other input free of NaN it returns minus infinity. *)
Theorem log_prior_closed_support (D W b : pyfloat) :
  (forall d w bb, D = Fin d -> W = Fin w -> b = Fin bb ->
     prior_support d w bb ->
     _log_prior D W b = Fin (prior_value d w bb)) /\
  (isnan D = false -> isnan W = false -> isnan b = false ->
     ~ in_support D W b -> _log_prior D W b = NInf).
Proof.
  split.
  - intros d w bb -> -> -> Hs. apply log_prior_finite_inputs. exact Hs.
  - apply log_prior_rejects_nan_free.
Qed.

Lemma support_typical : prior_support 0.01 0.1 0.3.
Proof.
  unfold prior_support. repeat split; try lra.
  apply implied_aR_ge_2; lra.
Qed.

Lemma log_prior_closed_support_witness :
  _log_prior (Fin 0.01) (Fin 0.1) (Fin 0.3) = Fin (prior_value 0.01 0.1 0.3) /\
  _log_prior (Fin 0.5) (Fin 0.1) (Fin 0.3) = NInf.
Proof.
  split.
  - apply (proj1 (log_prior_closed_support (Fin 0.01) (Fin 0.1) (Fin 0.3))
             0.01 0.1 0.3 eq_refl eq_refl eq_refl support_typical).
  - apply (proj2 (log_prior_closed_support (Fin 0.5) (Fin 0.1) (Fin 0.3))
             eq_refl eq_refl eq_refl).
    cbn. unfold prior_support. lra.
Defined.

(** C3 (as stated) fails at the end point D = 0.2: the depth is outside the
    open interval, yet the value returned is finite.  It also fails for a
    depth that is NaN, which passes every comparison: the value returned is
    NaN, not minus infinity. *)
Lemma log_prior_open_interval_counterexample :
  (~ prior_support_open 0.2 0.1 0 /\
   _log_prior (Fin 0.2) (Fin 0.1) (Fin 0) = Fin (prior_value 0.2 0.1 0)) /\
  _log_prior NaN (Fin 0.1) (Fin 0) = NaN.
Proof.
  split; [split |].
  - unfold prior_support_open. lra.
  - apply log_prior_finite_inputs. unfold prior_support.
    repeat split; try lra. apply implied_aR_ge_2; lra.
  - unfold _log_prior, fgt. cbn [flt orb].
    rewrite (Rltb_false 0 0) by lra. rewrite (Rltb_false 1 0) by lra.
    rewrite (Rltb_false 0.1 1e-4) by lra. reflexivity.
Qed.

End LogPrior.

(** ** The store: what the target functions write *)

Section Frame.

Lemma extends_refl (s : store) : extends s s.
Proof. intros l ps H. exact H. Qed.

Lemma extends_trans (s1 s2 s3 : store) :
  extends s1 s2 -> extends s2 s3 -> extends s1 s3.
Proof. intros H12 H23 l ps H. apply H23, H12, H. Qed.

Lemma fresh_not_allocated (s : store) : pheap s !! fresh (dom (pheap s)) = None.
Proof. apply not_elem_of_dom. apply is_fresh. Qed.

Lemma Parameters_copy_run (params : loc) (s : store) (ps : Parameters) :
  pheap s !! params = Some ps ->
  Parameters_copy params s =
    (Ret (fresh (dom (pheap s))),
     mkStore (<[fresh (dom (pheap s)) := ps]> (pheap s)) (gheap s)).
Proof.
  intros H. unfold Parameters_copy, bind, read_params. rewrite H. reflexivity.
Qed.

Lemma Parameters_copy_dangling (params : loc) (s : store) :
  pheap s !! params = None ->
  Parameters_copy params s = (Raise ReferenceError, s).
Proof.
  intros H. unfold Parameters_copy, bind, read_params. rewrite H. reflexivity.
Qed.

(** Writes of the assignment loop land on the working copy only. *)
Lemma assign_proposal_footprint (parcopy : loc) (pos : list pyfloat)
    (vn : list string) :
  forall (i : nat) (s : store) (pc : Parameters),
    pheap s !! parcopy = Some pc ->
    exists r pc',
      assign_proposal parcopy vn pos i s =
        (r, mkStore (<[parcopy := pc']> (pheap s)) (gheap s)).
Proof.
  induction vn as [| p vn IH]; intros i s pc Hpc.
  - exists (Ret (Continue tt)), pc. cbn. unfold ret. f_equal.
    destruct s as [ph gh]. cbn in *. f_equal. symmetry. apply insert_id, Hpc.
  - assert (Hid : s = mkStore (<[parcopy := pc]> (pheap s)) (gheap s)).
    { destruct s as [ph gh]. cbn in *. f_equal. symmetry. apply insert_id, Hpc. }
    cbn [assign_proposal]. destruct (pos !! i) as [v |].
    2:{ exists (Raise IndexError), pc. unfold raise. f_equal. exact Hid. }
    unfold bind at 1. unfold getitem_at, bind, read_params. rewrite Hpc.
    destruct (getitem pc p) as [par |] eqn:Hget.
    2:{ exists (Raise (KeyError p)), pc. unfold raise. f_equal. exact Hid. }
    unfold ret at 1.
    destruct (flt v (p_min par) || fgt v (p_max par)).
    { exists (Ret (Return (RFloat NInf))), pc. unfold ret. f_equal. exact Hid. }
    unfold set_value_at, bind, read_params, write_params. rewrite Hpc, Hget.
    set (s1 := mkStore _ _).
    destruct (IH (S i) s1 (setitem pc p (set_value par v))) as (r & pc' & Hrun).
    { unfold s1. cbn. apply lookup_insert_eq. }
    exists r, pc'. rewrite Hrun. f_equal. unfold s1. cbn. f_equal.
    apply insert_insert_eq.
Qed.

End Frame.

Section ReadOnly.

Lemma readonly_ret {A : Type} (a : A) : readonly (ret a).
Proof. intros s. reflexivity. Qed.

Lemma readonly_raise {A : Type} (e : exn) : readonly (@raise A e).
Proof. intros s. reflexivity. Qed.

Lemma readonly_bind {A B : Type} (m : M A) (f : A -> M B) :
  readonly m -> (forall a, readonly (f a)) -> readonly (bind m f).
Proof.
  intros Hm Hf s. unfold bind. specialize (Hm s).
  destruct (m s) as [[a | e] s1]; cbn in *; subst s1.
  - apply Hf.
  - reflexivity.
Qed.

Lemma readonly_read_params (l : loc) : readonly (read_params l).
Proof. intros s. unfold read_params. destruct (pheap s !! l); reflexivity. Qed.

Lemma readonly_getitem_at (l : loc) (k : string) : readonly (getitem_at l k).
Proof.
  unfold getitem_at. apply readonly_bind; [apply readonly_read_params |].
  intros ps. destruct (getitem ps k); [apply readonly_ret | apply readonly_raise].
Qed.

Lemma readonly_lift {A : Type} (r : result A) : readonly (lift r).
Proof. intros s. reflexivity. Qed.

Lemma readonly_value_at (l : loc) (k : string) : readonly (value_at l k).
Proof.
  unfold value_at. apply readonly_bind; [apply readonly_read_params |].
  intros ps. apply readonly_bind; [apply readonly_lift |].
  intros p. apply readonly_ret.
Qed.

Lemma readonly_read_gp (g : loc) : readonly (read_gp g).
Proof. intros s. unfold read_gp. destruct (gheap s !! g); reflexivity. Qed.

Lemma readonly_keeps_params {A : Type} (m : M A) : readonly m -> keeps_params m.
Proof. intros H s. rewrite H. reflexivity. Qed.

Lemma keeps_params_bind {A B : Type} (m : M A) (f : A -> M B) :
  keeps_params m -> (forall a, keeps_params (f a)) -> keeps_params (bind m f).
Proof.
  intros Hm Hf s. unfold bind. specialize (Hm s).
  destruct (m s) as [[a | e] s1]; cbn in *.
  - rewrite Hf. exact Hm.
  - exact Hm.
Qed.

Lemma keeps_params_gp_set_parameter (g : loc) (name : string) (v : pyfloat) :
  keeps_params (gp_set_parameter g name v).
Proof.
  intros s. unfold gp_set_parameter. destruct (gheap s !! g); reflexivity.
Qed.

End ReadOnly.

Create HintDb store.

#[local] Hint Resolve readonly_ret readonly_raise readonly_read_params
  readonly_getitem_at readonly_lift readonly_value_at readonly_read_gp : store.

Section PosteriorFrame.

Variables (pos : list pyfloat) (model : Model) (time flux flux_err : list pyfloat).
Variables (params : loc) (vn : list string) (return_fit : bool).

(** The checks that follow the assignment loop only read the store: all
    that a call leaves behind is its working copy, at a new location. *)
Lemma posterior_head_run (s s' : store)
    (r : result (flow (loc * list pyfloat * pyfloat))) :
  posterior_head pos model time params vn return_fit s = (r, s') ->
  s' = s \/
  exists pc', s' = mkStore (<[fresh (dom (pheap s)) := pc']> (pheap s)) (gheap s).
Proof.
  unfold posterior_head. unfold bind at 1.
  destruct (pheap s !! params) as [ps |] eqn:Hps.
  2:{ rewrite (Parameters_copy_dangling _ _ Hps). intros [= _ <-]. left. reflexivity. }
  rewrite (Parameters_copy_run _ _ _ Hps).
  set (l' := fresh (dom (pheap s))).
  set (s1 := mkStore (<[l' := ps]> (pheap s)) (gheap s)).
  destruct (assign_proposal_footprint l' pos vn 0 s1 ps) as (r1 & pc' & Hrun).
  { unfold s1. cbn. apply lookup_insert_eq. }
  unfold bind at 1. rewrite Hrun.
  assert (Hs2 : mkStore (<[l' := pc']> (pheap s1)) (gheap s1)
                = mkStore (<[l' := pc']> (pheap s)) (gheap s)).
  { unfold s1. cbn. f_equal. apply insert_insert_eq. }
  rewrite Hs2. set (s2 := mkStore _ _).
  intros E. right. exists pc'.
  destruct r1 as [[[] | v] | e]; try (injection E as _ <-; reflexivity).
  match type of E with ?m s2 = _ => assert (Hro : readonly m) end.
  { apply readonly_bind; [auto with store |]. intros pc.
    apply readonly_bind; [auto with store |].
    intros [[fit lnprior] | v]; auto with store. }
  specialize (Hro s2). rewrite E in Hro. cbn in Hro. exact Hro.
Qed.

Lemma posterior_head_store (s : store) :
  snd (posterior_head pos model time params vn return_fit s) = s \/
  exists pc',
    snd (posterior_head pos model time params vn return_fit s) =
      mkStore (<[fresh (dom (pheap s)) := pc']> (pheap s)) (gheap s).
Proof.
  destruct (posterior_head pos model time params vn return_fit s) as [r s'] eqn:E.
  apply posterior_head_run in E. exact E.
Qed.

Lemma posterior_head_frame (s : store) :
  extends s (snd (posterior_head pos model time params vn return_fit s)) /\
  gheap (snd (posterior_head pos model time params vn return_fit s)) = gheap s.
Proof.
  destruct (posterior_head_store s) as [-> | (pc' & ->)].
  - split; [apply extends_refl | reflexivity].
  - split; [| reflexivity]. intros l ps0 Hl. cbn.
    rewrite lookup_insert_ne; [exact Hl |].
    intros <-. rewrite fresh_not_allocated in Hl. discriminate.
Qed.

End PosteriorFrame.

Section PosteriorKeepsParams.

Variables (pos : list pyfloat) (model : Model) (time flux flux_err : list pyfloat).
Variables (params : loc) (vn : list string) (gp : GP) (return_fit : bool).

Lemma bind_keeps_params {A B : Type} (m : M A) (f : A -> M B) (s : store) :
  (forall a, keeps_params (f a)) ->
  pheap (snd (bind m f s)) = pheap (snd (m s)).
Proof.
  intros Hf. unfold bind. destruct (m s) as [[a | e] s1]; cbn.
  - apply Hf.
  - reflexivity.
Qed.

Lemma jitter_pheap (s : store) :
  pheap (snd (_log_posterior_jitter pos model time flux flux_err params vn
                return_fit s))
  = pheap (snd (posterior_head pos model time params vn return_fit s)).
Proof.
  unfold _log_posterior_jitter. apply bind_keeps_params.
  intros [[[parcopy fit] lnprior] | v]; apply readonly_keeps_params.
  - apply readonly_bind; [apply readonly_value_at |]. intros. apply readonly_ret.
  - apply readonly_ret.
Qed.

Lemma SHOTerm_pheap (s : store) :
  pheap (snd (_log_posterior_SHOTerm pos model time flux flux_err params vn
                gp return_fit s))
  = pheap (snd (posterior_head pos model time params vn return_fit s)).
Proof.
  unfold _log_posterior_SHOTerm. apply bind_keeps_params.
  intros [[[parcopy fit] lnprior] | v].
  - repeat (apply keeps_params_bind;
            [first [ apply keeps_params_gp_set_parameter
                   | apply readonly_keeps_params; auto with store ] |];
            intros ?).
    apply readonly_keeps_params, readonly_ret.
  - apply readonly_keeps_params, readonly_ret.
Qed.

(** C10: an evaluation of either target function leaves every
    [Parameters] object of the caller as it was: the proposal is assigned
    into a copy at a new location, and whatever object [ps] the store held
    at a location [l] before the call, it holds the same [ps] there
    after it. *)
Theorem log_posterior_keeps_params (s : store) (l : loc) (ps : Parameters) :
  pheap s !! l = Some ps ->
  pheap (snd (_log_posterior_jitter pos model time flux flux_err params vn
                return_fit s)) !! l = Some ps /\
  pheap (snd (_log_posterior_SHOTerm pos model time flux flux_err params vn
                gp return_fit s)) !! l = Some ps.
Proof.
  intros Hl. rewrite jitter_pheap, SHOTerm_pheap.
  split; apply (proj1 (posterior_head_frame pos model time params vn return_fit s));
    exact Hl.
Qed.

End PosteriorKeepsParams.

Lemma log_posterior_keeps_params_witness :
  pheap (snd (_log_posterior_jitter [Fin 0.02; Fin 0.1; Fin 0.3] unit_model
                [Fin 0] [Fin 1] [Fin 1] 0%nat ["D"; "W"; "b"]%string
                false example_store)) !! 0%nat = Some example_params /\
  pheap (snd (_log_posterior_SHOTerm [Fin 0.02; Fin 0.1; Fin 0.3] unit_model
                [Fin 0] [Fin 1] [Fin 1] 0%nat ["D"; "W"; "b"]%string
                example_gp false example_store)) !! 0%nat = Some example_params.
Proof.
  apply (log_posterior_keeps_params [Fin 0.02; Fin 0.1; Fin 0.3] unit_model
           [Fin 0] [Fin 1] [Fin 1] 0%nat ["D"; "W"; "b"]%string example_gp false
           example_store 0%nat example_params).
  reflexivity.
Defined.

(** ** Ordered dictionaries *)

Section Dict.

Lemma getitem_setitem_eq (ps : Parameters) (k : string) (p : Param) :
  getitem (setitem ps k p) k = Some p.
Proof.
  induction ps as [| [k' p'] ps IH]; cbn.
  - rewrite String.eqb_refl. reflexivity.
  - destruct (String.eqb_spec k' k) as [-> | Hne]; cbn.
    + rewrite String.eqb_refl. reflexivity.
    + destruct (String.eqb_spec k' k); [contradiction | exact IH].
Qed.

Lemma getitem_setitem_ne (ps : Parameters) (k k' : string) (p : Param) :
  k <> k' -> getitem (setitem ps k p) k' = getitem ps k'.
Proof.
  intros Hne. induction ps as [| [k0 p0] ps IH]; cbn.
  - destruct (String.eqb_spec k k'); [contradiction | reflexivity].
  - destruct (String.eqb_spec k0 k) as [-> | Hne0]; cbn.
    + destruct (String.eqb_spec k k'); [contradiction | reflexivity].
    + destruct (String.eqb_spec k0 k'); [reflexivity | exact IH].
Qed.

Lemma getitem_setitem (ps : Parameters) (k k' : string) (p : Param) :
  getitem (setitem ps k p) k' = if String.eqb k k' then Some p else getitem ps k'.
Proof.
  destruct (String.eqb_spec k k') as [-> | Hne].
  - apply getitem_setitem_eq.
  - apply getitem_setitem_ne, Hne.
Qed.

Lemma getitem_elem (ps : Parameters) (k : string) (p : Param) :
  getitem ps k = Some p -> (k, p) ∈ ps.
Proof.
  induction ps as [| [k' p'] ps IH]; cbn; [discriminate |].
  destruct (String.eqb_spec k' k) as [-> | Hne].
  - intros [= ->]. apply list_elem_of_here.
  - intros H. apply list_elem_of_further, IH, H.
Qed.

Lemma keys_setitem_present (ps : Parameters) (k : string) (p p0 : Param) :
  getitem ps k = Some p0 -> keys (setitem ps k p) = keys ps.
Proof.
  induction ps as [| [k' p'] ps IH]; cbn; [discriminate |].
  destruct (String.eqb_spec k' k) as [-> | Hne]; cbn.
  - reflexivity.
  - intros H. f_equal. apply IH, H.
Qed.

Lemma length_setitem_present (ps : Parameters) (k : string) (p p0 : Param) :
  getitem ps k = Some p0 -> length (setitem ps k p) = length ps.
Proof.
  intros H. rewrite <- (length_map fst (setitem ps k p)), <- (length_map fst ps).
  fold (keys (setitem ps k p)). fold (keys ps).
  f_equal. eapply keys_setitem_present, H.
Qed.

End Dict.

(** ** The assignment loop *)

Section AssignLoop.

Lemma is_Some_getitem_setitem (ps : Parameters) (k k' : string) (p : Param) :
  is_Some (getitem ps k) ->
  is_Some (getitem (setitem ps k p) k') <-> is_Some (getitem ps k').
Proof.
  intros Hk. rewrite getitem_setitem.
  destruct (String.eqb_spec k k') as [<- | Hne]; [| reflexivity].
  split; [intros _; exact Hk | intros _; eexists; reflexivity].
Qed.

Lemma proposal_for_setitem (ps : Parameters) (k : string) (p : Param)
    (vn : list string) (vs : list pyfloat) :
  is_Some (getitem ps k) ->
  proposal_for ps vn vs -> proposal_for (setitem ps k p) vn vs.
Proof.
  intros Hk H. unfold proposal_for in *.
  induction H as [| k' v vn vs Hk' _ IH]; constructor; [| exact IH].
  apply is_Some_getitem_setitem; assumption.
Qed.

Lemma store_insert_id (s : store) (l : loc) (pc : Parameters) :
  pheap s !! l = Some pc -> mkStore (<[l := pc]> (pheap s)) (gheap s) = s.
Proof.
  intros H. destruct s as [ph gh]. cbn in *. f_equal. apply insert_id, H.
Qed.

(** On a proposal with one component per free parameter the loop raises
    nothing: it computes [assign_pure] on the entries of the working copy. *)
Lemma assign_proposal_pure (parcopy : loc) (pos : list pyfloat)
    (vn : list string) :
  forall (vs : list pyfloat) (i : nat) (s : store) (pc : Parameters),
    pheap s !! parcopy = Some pc ->
    proposal_for pc vn vs ->
    drop i pos = vs ->
    assign_proposal parcopy vn pos i s =
      (Ret (if snd (assign_pure pc vn vs) then Continue tt
            else Return (RFloat NInf)),
       mkStore (<[parcopy := fst (assign_pure pc vn vs)]> (pheap s)) (gheap s)).
Proof.
  induction vn as [| k vn IH]; intros vs i s pc Hpc Hfor Hdrop.
  - cbn. unfold ret. rewrite store_insert_id by exact Hpc. reflexivity.
  - unfold proposal_for in Hfor.
    destruct vs as [| v vs']; [inversion Hfor |].
    apply Forall2_cons_1 in Hfor as [[p Hp] Hrest].
    assert (Hi : pos !! i = Some v).
    { rewrite <- (Nat.add_0_r i), <- lookup_drop, Hdrop. reflexivity. }
    assert (Hdrop' : drop (S i) pos = vs').
    { replace (S i) with (i + 1)%nat by lia. rewrite <- drop_drop, Hdrop.
      reflexivity. }
    cbn [assign_proposal assign_pure]. rewrite Hi, Hp.
    unfold bind at 1. unfold getitem_at, bind, read_params. rewrite Hpc, Hp.
    unfold ret at 1. fold (out_of_range p v).
    destruct (out_of_range p v) eqn:Hout.
    + cbn. unfold ret. rewrite store_insert_id by exact Hpc. reflexivity.
    + unfold set_value_at, bind, read_params, write_params. rewrite Hpc, Hp.
      rewrite (IH vs' (S i) _ (setitem pc k (set_value p v))).
      * cbn. rewrite insert_insert_eq. reflexivity.
      * cbn. apply lookup_insert_eq.
      * apply proposal_for_setitem; [eexists; exact Hp | exact Hrest].
      * exact Hdrop'.
Qed.

End AssignLoop.

(** ** The checks after the assignment loop *)

Section Checks.

Lemma out_of_range_set_value (p : Param) (v v' : pyfloat) :
  out_of_range (set_value p v) v' = out_of_range p v'.
Proof. reflexivity. Qed.

(** A component outside its bounds makes the loop return. *)
Lemma assign_pure_rejects (vn : list string) :
  forall (vs : list pyfloat) (pc : Parameters),
    proposal_for pc vn vs ->
    component_out_of_range pc vn vs ->
    snd (assign_pure pc vn vs) = false.
Proof.
  induction vn as [| k vn IH]; intros vs pc Hfor (i & ki & vi & pi & Hk & Hv & Hp & Hout).
  - rewrite lookup_nil in Hk. discriminate.
  - unfold proposal_for in Hfor.
    destruct vs as [| v vs]; [inversion Hfor |].
    apply Forall2_cons_1 in Hfor as [[p Hget] Hrest].
    cbn [assign_pure]. rewrite Hget.
    destruct (out_of_range p v) eqn:Hpv; [reflexivity |].
    destruct i as [| i].
    + cbn in Hk, Hv. injection Hk as <-. injection Hv as <-.
      rewrite Hget in Hp. injection Hp as <-. congruence.
    + cbn in Hk, Hv. apply IH.
      * apply proposal_for_setitem; [eexists; exact Hget | exact Hrest].
      * exists i, ki, vi.
        destruct (String.eqb_spec k ki) as [<- | Hne].
        -- exists (set_value p v). rewrite getitem_setitem_eq.
           rewrite Hget in Hp. injection Hp as <-.
           rewrite out_of_range_set_value. auto.
        -- exists pi. rewrite getitem_setitem_ne by exact Hne. auto.
Qed.

(** Components inside their bounds are all assigned. *)
Lemma assign_pure_accepts (vn : list string) :
  forall (vs : list pyfloat) (pc : Parameters),
    components_in_range pc vn vs ->
    snd (assign_pure pc vn vs) = true.
Proof.
  induction vn as [| k vn IH]; intros vs pc Hin.
  - reflexivity.
  - unfold components_in_range in Hin.
    destruct vs as [| v vs]; [inversion Hin |].
    apply Forall2_cons_1 in Hin as [(p & Hget & Hout) Hrest].
    cbn [assign_pure]. rewrite Hget, Hout. apply IH.
    unfold components_in_range.
    eapply Forall2_impl; [exact Hrest |].
    intros k' v' (p' & Hget' & Hout').
    destruct (String.eqb_spec k k') as [<- | Hne].
    + exists (set_value p v). rewrite getitem_setitem_eq.
      rewrite Hget in Hget'. injection Hget' as <-. auto.
    + exists p'. rewrite getitem_setitem_ne by exact Hne. auto.
Qed.

Lemma components_in_range_proposal (ps : Parameters) (vn : list string)
    (vs : list pyfloat) :
  components_in_range ps vn vs -> proposal_for ps vn vs.
Proof.
  intros H. eapply Forall2_impl; [exact H |].
  intros k v (p & Hget & _). eexists; exact Hget.
Qed.

(** The loop keeps the keys of the working copy. *)
Lemma is_Some_getitem_assign_pure (vn : list string) (k : string) :
  forall (vs : list pyfloat) (pc : Parameters),
    is_Some (getitem (fst (assign_pure pc vn vs)) k) <-> is_Some (getitem pc k).
Proof.
  induction vn as [| k0 vn IH]; intros vs pc; [reflexivity |].
  destruct vs as [| v vs]; [reflexivity |].
  cbn [assign_pure]. destruct (getitem pc k0) as [p |] eqn:Hget; [| reflexivity].
  destruct (out_of_range p v); [reflexivity |].
  rewrite IH. apply is_Some_getitem_setitem. eexists; exact Hget.
Qed.

Lemma item_is_Some (ps : Parameters) (k : string) :
  is_Some (getitem ps k) -> exists p, item ps k = Ret p.
Proof. intros [p Hp]. exists p. unfold item. rewrite Hp. reflexivity. Qed.

(** A parameter out of its bounds, or NaN, stops the loop over the
    parameters. *)
Lemma prior_loop_rejects (pc : Parameters) (entries : list (string * Param)) :
  forall (lnprior : pyfloat) (k : string) (p : Param),
    (k, p) ∈ entries ->
    out_of_range p (param_value pc p) = true \/ isnan (param_value pc p) = true ->
    prior_loop pc entries lnprior = Return (RFloat NInf).
Proof.
  induction entries as [| [k0 p0] entries IH]; intros lnprior k p Hin Hbad.
  - apply elem_of_nil in Hin. contradiction.
  - cbn [prior_loop]. fold (out_of_range p0 (param_value pc p0)).
    destruct (out_of_range p0 (param_value pc p0)) eqn:Hout; [reflexivity |].
    destruct (isnan (param_value pc p0)) eqn:Hnan; [reflexivity |].
    apply elem_of_cons in Hin as [[= <- <-] | Hin].
    + destruct Hbad; congruence.
    + destruct (p_user_data p0); eapply IH; eauto.
Qed.

Lemma posterior_checks_return_fit (pc : Parameters) (model : Model)
    (time : list pyfloat) :
  posterior_checks pc model time true = Ret (Return (RArray (model pc time))).
Proof. reflexivity. Qed.

Lemma posterior_checks_nonfinite (pc : Parameters) (model : Model)
    (time : list pyfloat) :
  has_nonfinite (model pc time) = true ->
  posterior_checks pc model time false = Ret (Return (RFloat NInf)).
Proof. intros H. unfold posterior_checks. rewrite H. reflexivity. Qed.

Lemma posterior_checks_rejects (pc : Parameters) (model : Model)
    (time : list pyfloat) :
  is_Some (getitem pc "D") -> is_Some (getitem pc "W") ->
  is_Some (getitem pc "b") ->
  has_nonfinite (model pc time) = true \/ parameter_rejected pc ->
  posterior_checks pc model time false = Ret (Return (RFloat NInf)).
Proof.
  intros HD HW Hb Hbad. unfold posterior_checks.
  destruct (has_nonfinite (model pc time)) eqn:Hfit; [reflexivity |].
  destruct Hbad as [Hbad | (k & p & Hin & Hbad)]; [discriminate |].
  destruct (item_is_Some _ _ HD) as [pD ->].
  destruct (item_is_Some _ _ HW) as [pW ->].
  destruct (item_is_Some _ _ Hb) as [pb ->].
  cbn [rbind]. destruct (negb _); [reflexivity |].
  rewrite (prior_loop_rejects pc pc _ k p Hin Hbad). reflexivity.
Qed.

End Checks.

(** ** What the target functions return *)

Section PosteriorResult.

Variables (pos : list pyfloat) (model : Model) (time flux flux_err : list pyfloat).
Variables (params : loc) (vn : list string) (gp : GP).

(** The value of the common part on a proposal with one component per free
    parameter. *)
Lemma posterior_head_eval (return_fit : bool) (s : store) (ps : Parameters) :
  pheap s !! params = Some ps ->
  proposal_for ps vn pos ->
  fst (posterior_head pos model time params vn return_fit s) =
    if snd (assign_pure ps vn pos)
    then
      match posterior_checks (with_values ps vn pos) model time return_fit with
      | Ret (Continue (fit, lnprior)) =>
          Ret (Continue (fresh (dom (pheap s)), fit, lnprior))
      | Ret (Return v) => Ret (Return v)
      | Raise e => Raise e
      end
    else Ret (Return (RFloat NInf)).
Proof.
  intros Hps Hfor. unfold posterior_head. unfold bind at 1.
  rewrite (Parameters_copy_run _ _ _ Hps).
  set (l' := fresh (dom (pheap s))).
  unfold bind at 1.
  rewrite (assign_proposal_pure l' pos vn pos 0 _ ps);
    [| cbn; apply lookup_insert_eq | exact Hfor | reflexivity].
  destruct (snd (assign_pure ps vn pos)); [| reflexivity].
  unfold bind at 1. unfold read_params. cbn [pheap].
  rewrite lookup_insert_eq. fold (with_values ps vn pos).
  unfold bind, lift.
  destruct (posterior_checks (with_values ps vn pos) model time return_fit)
    as [[[fit lnprior] | v] | e]; reflexivity.
Qed.

Lemma jitter_of_head_return (return_fit : bool) (s : store) (v : retval) :
  fst (posterior_head pos model time params vn return_fit s) = Ret (Return v) ->
  fst (_log_posterior_jitter pos model time flux flux_err params vn
         return_fit s) = Ret v.
Proof.
  intros H. unfold _log_posterior_jitter, bind.
  destruct (posterior_head pos model time params vn return_fit s) as [r s'].
  cbn in H. subst r. reflexivity.
Qed.

Lemma SHOTerm_of_head_return (return_fit : bool) (s : store) (v : retval) :
  fst (posterior_head pos model time params vn return_fit s) = Ret (Return v) ->
  fst (_log_posterior_SHOTerm pos model time flux flux_err params vn gp
         return_fit s) = Ret v.
Proof.
  intros H. unfold _log_posterior_SHOTerm, bind.
  destruct (posterior_head pos model time params vn return_fit s) as [r s'].
  cbn in H. subst r. reflexivity.
Qed.

Lemma head_out_of_range (return_fit : bool) (s : store) (ps : Parameters) :
  pheap s !! params = Some ps ->
  proposal_for ps vn pos ->
  component_out_of_range ps vn pos ->
  fst (posterior_head pos model time params vn return_fit s)
    = Ret (Return (RFloat NInf)).
Proof.
  intros Hps Hfor Hout. rewrite (posterior_head_eval _ _ _ Hps Hfor).
  rewrite (assign_pure_rejects _ _ _ Hfor Hout). reflexivity.
Qed.


Lemma head_rejected (s : store) (ps : Parameters) :
  pheap s !! params = Some ps ->
  proposal_for ps vn pos ->
  is_Some (getitem ps "D") -> is_Some (getitem ps "W") ->
  is_Some (getitem ps "b") ->
  has_nonfinite (model (with_values ps vn pos) time) = true \/
  parameter_rejected (with_values ps vn pos) ->
  fst (posterior_head pos model time params vn false s)
    = Ret (Return (RFloat NInf)).
Proof.
  intros Hps Hfor HD HW Hb Hbad. rewrite (posterior_head_eval _ _ _ Hps Hfor).
  destruct (snd (assign_pure ps vn pos)); [| reflexivity].
  rewrite posterior_checks_rejects; [reflexivity | | | | exact Hbad];
    unfold with_values; apply is_Some_getitem_assign_pure; assumption.
Qed.

Lemma head_return_fit (s : store) (ps : Parameters) :
  pheap s !! params = Some ps ->
  components_in_range ps vn pos ->
  fst (posterior_head pos model time params vn true s)
    = Ret (Return (RArray (model (with_values ps vn pos) time))).
Proof.
  intros Hps Hin.
  rewrite (posterior_head_eval _ _ _ Hps
             (components_in_range_proposal _ _ _ Hin)).
  rewrite (assign_pure_accepts _ _ _ Hin).
  rewrite posterior_checks_return_fit. reflexivity.
Qed.


(** C8 (as amended): for a proposal whose components all lie within the
    bounds of their parameters, both target functions called with
    [return_fit] true return the model evaluated at the proposal over the
    time array, before any prior or likelihood is computed. *)
Theorem log_posterior_return_fit (s : store) (ps : Parameters) :
  pheap s !! params = Some ps ->
  components_in_range ps vn pos ->
  fst (_log_posterior_jitter pos model time flux flux_err params vn true s)
    = Ret (RArray (model (with_values ps vn pos) time)) /\
  fst (_log_posterior_SHOTerm pos model time flux flux_err params vn gp true s)
    = Ret (RArray (model (with_values ps vn pos) time)).
Proof.
  intros Hps Hin.
  split; [apply jitter_of_head_return | apply SHOTerm_of_head_return];
    eapply head_return_fit; eassumption.
Qed.

End PosteriorResult.

(** ** The target functions on the example store *)

Section PosteriorExamples.

#[local] Arguments Rltb : simpl never.
#[local] Arguments Reqb : simpl never.

(** Evaluation of range tests on closed values. *)
Ltac range_eval :=
  unfold out_of_range, Parameter_object, set_value, clip, fgt; cbn; rdecide; cbn.

Lemma example_pos_in_range :
  components_in_range example_params example_vn example_pos.
Proof.
  unfold components_in_range, example_vn, example_pos.
  repeat (constructor; [eexists; split; [reflexivity | range_eval; reflexivity] |]).
  constructor.
Qed.


Lemma example_pos_out_proposal :
  proposal_for example_params example_vn example_pos_out.
Proof.
  unfold proposal_for, example_vn, example_pos_out.
  repeat (constructor; [eexists; reflexivity |]). constructor.
Qed.

Lemma example_pos_out_rejected :
  component_out_of_range example_params example_vn example_pos_out.
Proof.
  exists 0%nat, "D"%string, (Fin 1).
  eexists. repeat split; try reflexivity. range_eval. reflexivity.
Qed.


End PosteriorExamples.



Lemma log_posterior_return_fit_witness :
  fst (_log_posterior_jitter example_pos unit_model [Fin 0] [Fin 1] [Fin 1]
         0%nat example_vn true example_store)
    = Ret (RArray (unit_model (with_values example_params example_vn example_pos)
                     [Fin 0])) /\
  fst (_log_posterior_SHOTerm example_pos unit_model [Fin 0] [Fin 1] [Fin 1]
         0%nat example_vn example_gp true example_store)
    = Ret (RArray (unit_model (with_values example_params example_vn example_pos)
                     [Fin 0])).
Proof.
  apply (log_posterior_return_fit example_pos unit_model [Fin 0] [Fin 1] [Fin 1]
           0%nat example_vn example_gp example_store example_params eq_refl
           example_pos_in_range).
Defined.

(** C8 (as stated) fails for a proposal with a component outside its
    bounds: with [return_fit] set the function returns minus infinity, not
    the model prediction. *)
Lemma log_posterior_return_fit_counterexample :
  fst (_log_posterior_jitter example_pos_out unit_model [Fin 0] [Fin 1] [Fin 1]
         0%nat example_vn true example_store) = Ret (RFloat NInf) /\
  fst (_log_posterior_jitter example_pos_out unit_model [Fin 0] [Fin 1] [Fin 1]
         0%nat example_vn true example_store)
    <> Ret (RArray (unit_model
                      (with_values example_params example_vn example_pos_out)
                      [Fin 0])).
Proof.
  assert (H : fst (_log_posterior_jitter example_pos_out unit_model [Fin 0]
                     [Fin 1] [Fin 1] 0%nat example_vn true example_store)
              = Ret (RFloat NInf)).
  { apply jitter_of_head_return.
    apply (head_out_of_range example_pos_out unit_model [Fin 0] 0%nat example_vn
             true example_store example_params eq_refl
             example_pos_out_proposal example_pos_out_rejected). }
  split; [exact H |]. rewrite H. discriminate.
Qed.

(** ** The constructor of a parameter *)

Section Constructor.

Local Open Scope R_scope.

Lemma num_val_clip_number (lo hi v : number) :
  num_val (clip_number lo hi v) = clip (num_val lo) (num_val hi) (num_val v).
Proof.
  unfold clip_number, clip.
  destruct (fgt (num_val v) (num_val hi)); [reflexivity |].
  destruct (flt (num_val v) (num_val lo)); reflexivity.
Qed.

Lemma clip_unbounded (x : pyfloat) : clip NInf PInf x = x.
Proof. destruct x; reflexivity. Qed.

Lemma isclose_apart (a b : R) : isclose (Fin a) (Fin b) = false <-> apart a b.
Proof.
  unfold isclose, apart. rewrite negb_false_iff. apply Rltb_lt.
Qed.

Lemma isclose_not_apart (a b : R) :
  isclose (Fin a) (Fin b) = true <-> ~ apart a b.
Proof.
  rewrite <- isclose_apart. destruct (isclose (Fin a) (Fin b)); split; congruence.
Qed.

Lemma apart_neq (a b : R) : apart a b -> a <> b.
Proof.
  unfold apart. intros H ->. replace (b - b) with 0 in H by lra.
  rewrite Rabs_R0 in H. pose proof (Rabs_pos b). lra.
Qed.

Lemma not_apart_refl (a : R) : ~ apart a a.
Proof. intros H. exact (apart_neq a a H eq_refl). Qed.

(** Bounds in order that do not coincide: the constructor returns the
    parameter with the value limited to them. *)
Lemma Parameter_new_ordered (name : string) (v : number) (vary : bool)
    (lo hi : number) (e : option Expr) (u : option UFloat) :
  fgt (num_val lo) (num_val hi) = false ->
  isclose (num_val lo) (num_val hi) = false ->
  Parameter_new name v vary lo hi e u
    = Ret {| p_name := name;
             p_val := clip (num_val lo) (num_val hi) (num_val v);
             p_vary := match e with Some _ => false | None => vary end;
             p_min := num_val lo;
             p_max := num_val hi;
             p_expr := e;
             p_user_data := u;
             p_stderr := None;
             p_native := num_native (clip_number lo hi v);
             p_min_native := num_native lo;
             p_max_native := num_native hi |}.
Proof.
  intros Hord Hclose. unfold Parameter_new. cbv zeta.
  rewrite Hord, Hclose, num_val_clip_number. reflexivity.
Qed.

Lemma Parameter_new_close (name : string) (v : number) (vary : bool)
    (lo hi : number) (e : option Expr) (u : option UFloat) :
  fgt (num_val lo) (num_val hi) = false ->
  isclose (num_val lo) (num_val hi) = true ->
  Parameter_new name v vary lo hi e u = Raise (min_equals_max name).
Proof.
  intros Hord Hclose. unfold Parameter_new. cbv zeta.
  rewrite Hord, Hclose. reflexivity.
Qed.

(** With Python numbers for the value and the bounds. *)
Lemma Parameter_new_python (name : string) (v : pyfloat) (vary : bool)
    (lo hi : pyfloat) (e : option Expr) (u : option UFloat) :
  fgt lo hi = false -> isclose lo hi = false ->
  Parameter_new name (python v) vary (python lo) (python hi) e u
    = Ret (Parameter_object name v vary lo hi e u).
Proof.
  intros Hord Hclose. rewrite Parameter_new_ordered by assumption.
  unfold Parameter_object, clip_number, python. cbn [num_val num_native].
  destruct (fgt v hi); [reflexivity |]. destruct (flt v lo); reflexivity.
Qed.

(** Without bounds the constructor returns the parameter as given. *)
Lemma Parameter_new_unbounded (name : string) (v : pyfloat) (vary : bool)
    (e : option Expr) (u : option UFloat) :
  Parameter_new name (python v) vary (python NInf) (python PInf) e u
    = Ret (Parameter_object name v vary NInf PInf e u).
Proof. apply Parameter_new_python; reflexivity. Qed.

(** The only exception of the constructor. *)
Lemma Parameter_new_raises (name : string) (v : number) (vary : bool)
    (lo hi : number) (e : option Expr) (u : option UFloat) (err : exn) :
  Parameter_new name v vary lo hi e u = Raise err -> err = min_equals_max name.
Proof.
  unfold Parameter_new. cbv zeta.
  destruct (isclose _ _); [intros [= <-]; reflexivity | discriminate].
Qed.

Lemma py_min_finite (rest : list R) :
  forall acc : R,
    exists lo : R,
      py_min (Fin acc) (map Fin rest) = Fin lo /\
      lo ∈ acc :: rest /\ (forall y, y ∈ acc :: rest -> (lo <= y)%R).
Proof.
  unfold py_min. induction rest as [| y rest IH]; intros acc.
  - exists acc. cbn. split; [reflexivity |].
    split; [apply list_elem_of_here |].
    intros z Hz. apply list_elem_of_singleton in Hz as ->. lra.
  - cbn [map foldl flt]. unfold Rltb. destruct (Rlt_dec y acc) as [Hlt | Hge].
    + destruct (IH y) as (lo & -> & Hin & Hle). exists lo.
      split; [reflexivity |]. split.
      * apply elem_of_cons. right. exact Hin.
      * intros z Hz. apply elem_of_cons in Hz as [-> | Hz]; [| apply Hle, Hz].
        specialize (Hle y (list_elem_of_here _ _)). lra.
    + destruct (IH acc) as (lo & -> & Hin & Hle). exists lo.
      split; [reflexivity |]. split.
      * apply elem_of_cons in Hin as [-> | Hin];
          [apply list_elem_of_here |].
        apply elem_of_cons. right. apply elem_of_cons. right. exact Hin.
      * intros z Hz. apply elem_of_cons in Hz as [-> | Hz];
          [apply Hle, list_elem_of_here |].
        apply elem_of_cons in Hz as [-> | Hz].
        -- specialize (Hle acc (list_elem_of_here _ _)). lra.
        -- apply Hle. apply elem_of_cons. right. exact Hz.
Qed.

Lemma py_max_finite (rest : list R) :
  forall acc : R,
    exists hi : R,
      py_max (Fin acc) (map Fin rest) = Fin hi /\
      hi ∈ acc :: rest /\ (forall y, y ∈ acc :: rest -> (y <= hi)%R).
Proof.
  unfold py_max. induction rest as [| y rest IH]; intros acc.
  - exists acc. cbn. split; [reflexivity |].
    split; [apply list_elem_of_here |].
    intros z Hz. apply list_elem_of_singleton in Hz as ->. lra.
  - cbn [map foldl]. change (fgt (Fin y) (Fin acc)) with (Rltb acc y).
    unfold Rltb. destruct (Rlt_dec acc y) as [Hlt | Hge].
    + destruct (IH y) as (hi & -> & Hin & Hle). exists hi.
      split; [reflexivity |]. split.
      * apply elem_of_cons. right. exact Hin.
      * intros z Hz. apply elem_of_cons in Hz as [-> | Hz]; [| apply Hle, Hz].
        specialize (Hle y (list_elem_of_here _ _)). lra.
    + destruct (IH acc) as (hi & -> & Hin & Hle). exists hi.
      split; [reflexivity |]. split.
      * apply elem_of_cons in Hin as [-> | Hin];
          [apply list_elem_of_here |].
        apply elem_of_cons. right. apply elem_of_cons. right. exact Hin.
      * intros z Hz. apply elem_of_cons in Hz as [-> | Hz];
          [apply Hle, list_elem_of_here |].
        apply elem_of_cons in Hz as [-> | Hz].
        -- specialize (Hle acc (list_elem_of_here _ _)). lra.
        -- apply Hle. apply elem_of_cons. right. exact Hz.
Qed.

Lemma insert_sorted_finite (x : R) (l : list R) :
  exists l', insert_sorted (Fin x) (map Fin l) = map Fin l' /\ l' ≡ₚ x :: l.
Proof.
  induction l as [| y l (l' & IH & Hperm)].
  - exists [x]. split; reflexivity.
  - cbn [map insert_sorted]. destruct (flt (Fin y) (Fin x)).
    + exists (y :: l'). rewrite IH. split; [reflexivity |].
      rewrite Hperm. apply Permutation_swap.
    + exists (x :: y :: l). split; reflexivity.
Qed.

Lemma np_sort_finite (l : list R) :
  exists l', np_sort (map Fin l) = map Fin l' /\ l' ≡ₚ l.
Proof.
  unfold np_sort. induction l as [| x l (l' & IH & Hperm)].
  - exists []. split; reflexivity.
  - cbn [map foldr]. rewrite IH.
    destruct (insert_sorted_finite x l') as (l'' & -> & Hperm').
    exists l''. split; [reflexivity |]. rewrite Hperm', Hperm. reflexivity.
Qed.

Lemma existsb_isnan_finite (l : list R) : existsb isnan (map Fin l) = false.
Proof. induction l as [| x l IH]; [reflexivity | exact IH]. Qed.

Lemma nth_map_Fin (l : list R) (i : nat) :
  (i < length l)%nat ->
  exists y, nth i (map Fin l) NaN = Fin y /\ y ∈ l.
Proof.
  revert i. induction l as [| x l IH]; intros i Hi; [cbn in Hi; lia |].
  destruct i as [| i].
  - exists x. split; [reflexivity | apply list_elem_of_here].
  - destruct (IH i) as (y & Hy & Hin); [cbn in Hi; lia |].
    exists y. split; [exact Hy | apply list_elem_of_further, Hin].
Qed.

(** The median of finite numbers lies between any bounds on them. *)
Lemma np_median_finite (l : list R) (lo hi : R) :
  l <> [] ->
  (forall y, y ∈ l -> (lo <= y <= hi)%R) ->
  exists m, np_median (map Fin l) = Fin m /\ (lo <= m <= hi)%R.
Proof.
  intros Hne Hb. unfold np_median. rewrite existsb_isnan_finite.
  destruct (np_sort_finite l) as (l' & -> & Hperm).
  assert (Hlen : (0 < length l')%nat).
  { rewrite Hperm. destruct l; [congruence | cbn; lia]. }
  assert (Hb' : forall y, y ∈ l' -> (lo <= y <= hi)%R).
  { intros y Hy. apply Hb. rewrite <- Hperm. exact Hy. }
  cbv zeta. rewrite length_map.
  assert (Hhalf : (length l' / 2 < length l')%nat)
    by (apply Nat.div_lt; lia).
  destruct (nth_map_Fin l' (length l' / 2) Hhalf) as (b & -> & Hbin).
  destruct (Nat.even (length l')).
  - destruct (nth_map_Fin l' (length l' / 2 - 1)) as (a & -> & Hain); [lia |].
    cbn [fadd fdiv]. rewrite Reqb_false by lra.
    eexists. split; [reflexivity |].
    pose proof (Hb' a Hain) as Ha. pose proof (Hb' b Hbin) as Hbb. lra.
  - exists b. split; [reflexivity | apply Hb', Hbin].
Qed.

(** The conversion of a tuple of finite numbers. *)
Lemma kw_tuple_run (name : string) (x : R) (rest : list R) :
  exists lo m hi : R,
    np_median (map Fin (x :: rest)) = Fin m /\
    (lo <= m <= hi) /\
    least lo (x :: rest) /\ greatest hi (x :: rest) /\
    (apart lo hi ->
     _kw_to_Parameter name (PyTuple (map Fin (x :: rest)))
       = Ret (mkParam name (Fin m) true (Fin lo) (Fin hi) None None None
                      false true true)) /\
    (~ apart lo hi ->
     _kw_to_Parameter name (PyTuple (map Fin (x :: rest)))
       = Raise (min_equals_max name)).
Proof.
  destruct (py_min_finite rest x) as (lo & Hmin & Hlo & Hle).
  destruct (py_max_finite rest x) as (hi & Hmax & Hhi & Hge).
  assert (Hb : forall y, y ∈ x :: rest -> lo <= y <= hi).
  { intros y Hy. split; [apply Hle, Hy | apply Hge, Hy]. }
  destruct (np_median_finite (x :: rest) lo hi ltac:(discriminate) Hb)
    as (m & Hmed & Hm).
  exists lo, m, hi.
  split; [exact Hmed |]. split; [exact Hm |].
  split; [split; assumption |]. split; [split; assumption |].
  assert (Hord : fgt (Fin lo) (Fin hi) = false).
  { unfold fgt. cbn [flt]. apply Rltb_false. lra. }
  cbn [map _kw_to_Parameter]. cbn [map] in Hmed. rewrite Hmed, Hmin, Hmax.
  split; intros Hap.
  - rewrite Parameter_new_ordered;
      [| exact Hord | apply isclose_apart, Hap].
    unfold clip_number, clip, fgt, numpy, python. cbn [num_val num_native flt].
    rewrite (Rltb_false hi m) by lra. rewrite (Rltb_false m lo) by lra.
    reflexivity.
  - apply Parameter_new_close; [exact Hord | apply isclose_not_apart, Hap].
Qed.

End Constructor.

(** Two closed reals are apart. *)
Ltac apart_closed :=
  unfold apart, Rabs; repeat destruct Rcase_abs; lra.

(** ** [_kw_to_Parameter] *)

Section KwToParameter.

Local Open Scope R_scope.









End KwToParameter.


(** ** The free-parameter vectors of [emcee_sampler] *)

Section FreeVectors.

Lemma collect_free_spec (ps : Parameters) (entries : list (string * Param)) :
  forall (vv vs : list pyfloat) (vn : list string),
    collect_free ps entries vv vs vn =
      (vv ++ map (fun kp => param_value ps (snd kp))
                 (List.filter (fun kp => p_vary (snd kp)) entries),
       vs ++ map (fun kp => walker_scale (snd kp))
                 (List.filter (fun kp => p_vary (snd kp)) entries),
       vn ++ map fst (List.filter (fun kp => p_vary (snd kp)) entries)).
Proof.
  induction entries as [| [k p] entries IH]; intros vv vs vn; cbn.
  - rewrite !app_nil_r. reflexivity.
  - destruct (p_vary p); cbn.
    + rewrite IH, <- !app_assoc. reflexivity.
    + apply IH.
Qed.

Lemma free_vectors_spec (ps : Parameters) :
  free_vectors ps =
    (map (fun kp => param_value ps (snd kp)) (varied ps),
     map (fun kp => walker_scale (snd kp)) (varied ps),
     map fst (varied ps)).
Proof. unfold free_vectors. rewrite collect_free_spec. reflexivity. Qed.

(** C9 (as amended): the scale of every varied parameter is the
    optimizer's standard error when one is set and finite; when no standard
    error is set it is the sigma of the attached Gaussian prior, or 10% of
    the width of the bound interval if no prior is attached; when a
    standard error is set but not finite it is 10% of the width of the
    bound interval, whether or not a prior is attached. *)
Theorem walker_scale_fallback (ps : Parameters) :
  snd (fst (free_vectors ps)) = map (fun kp => walker_scale (snd kp)) (varied ps) /\
  forall p : Param,
    (forall stderr, p_stderr p = Some stderr -> isfinite stderr = true ->
       walker_scale p = stderr) /\
    (forall u, p_stderr p = None -> p_user_data p = Some u ->
       walker_scale p = u_s u) /\
    (p_stderr p = None -> p_user_data p = None ->
       walker_scale p = tenth_of_bounds p) /\
    (forall stderr, p_stderr p = Some stderr -> isfinite stderr = false ->
       walker_scale p = tenth_of_bounds p).
Proof.
  split; [rewrite free_vectors_spec; reflexivity |].
  intros p. unfold walker_scale, tenth_of_bounds. repeat split.
  - intros stderr -> ->. reflexivity.
  - intros u -> ->. reflexivity.
  - intros -> ->. reflexivity.
  - intros stderr -> ->. reflexivity.
Qed.

Lemma walker_scale_fallback_witness :
  walker_scale example_finite_stderr = Fin 0.25 /\
  walker_scale example_no_stderr = Fin 1 /\
  walker_scale example_nan_stderr = tenth_of_bounds example_nan_stderr.
Proof.
  pose proof (proj2 (walker_scale_fallback []) example_finite_stderr) as H1.
  pose proof (proj2 (walker_scale_fallback []) example_no_stderr) as H2.
  pose proof (proj2 (walker_scale_fallback []) example_nan_stderr) as H3.
  split; [| split].
  - apply (proj1 H1 (Fin 0.25) eq_refl eq_refl).
  - apply (proj1 (proj2 H2) (ufloat (Fin 0) (Fin 1)) eq_refl eq_refl).
  - apply (proj2 (proj2 (proj2 H3)) NaN eq_refl eq_refl).
Defined.

(** C9 (as stated) fails for a parameter with a Gaussian prior whose
    standard error is set but not finite: the scale is 10% of the bound
    width, 0.2 here, and not the sigma of the prior, 1. *)
Lemma walker_scale_counterexample :
  p_stderr example_nan_stderr = Some NaN /\
  p_user_data example_nan_stderr = Some (ufloat (Fin 0) (Fin 1)) /\
  walker_scale example_nan_stderr = Fin (0.1 * (1 + - -1)) /\
  walker_scale example_nan_stderr <> Fin 1.
Proof.
  repeat split. cbn. intros [= H]. lra.
Qed.

End FreeVectors.

(** ** The starting positions of the walkers *)

Section WalkerInit.

Variables (log_posterior_func : TargetFunction) (params : loc).
Variables (vv vs : list pyfloat) (init_scale : pyfloat) (rng : RandomState).

(** A property of the store that the copy and the target function keep. *)
Variable Inv : store -> Prop.

Hypothesis copy_ok :
  forall s, Inv s ->
    exists l s', Parameters_copy params s = (Ret l, s') /\ Inv s'.

(** While every draw is worth minus infinity the search goes on. *)
Lemma walker_start_diverges :
  (forall call s, Inv s ->
     exists s', log_posterior_func (drawn vv vs init_scale rng call) s
                  = (Ret (RFloat NInf), s') /\ Inv s') ->
  forall fuel call s, Inv s ->
    fst (walker_start fuel log_posterior_func vv vs init_scale rng call s)
      = OutOfFuel.
Proof.
  intros Hf fuel. induction fuel as [| fuel IH]; intros call s Hs.
  - reflexivity.
  - cbn [walker_start]. fold (drawn vv vs init_scale rng call).
    destruct (Hf call s Hs) as (s' & -> & Hs').
    cbn [feq]. apply IH, Hs'.
Qed.

Lemma init_walkers_diverges :
  (forall call s, Inv s ->
     exists s', log_posterior_func (drawn vv vs init_scale rng call) s
                  = (Ret (RFloat NInf), s') /\ Inv s') ->
  forall nwalkers fuel call pos s, Inv s ->
    fst (init_walkers (S nwalkers) fuel log_posterior_func params vv vs
           init_scale rng call pos s) = OutOfFuel.
Proof.
  intros Hf nwalkers fuel call pos s Hs. cbn [init_walkers].
  destruct (copy_ok s Hs) as (l & s1 & -> & Hs1).
  pose proof (walker_start_diverges Hf fuel call s1 Hs1) as Hw.
  destruct (walker_start fuel log_posterior_func vv vs init_scale rng call s1)
    as [o s2].
  cbn in Hw. subst o. reflexivity.
Qed.

(** When no draw is worth minus infinity every walker takes its first
    draw. *)
Lemma init_walkers_first_draw :
  (forall call s, Inv s ->
     exists x s', log_posterior_func (drawn vv vs init_scale rng call) s
                    = (Ret (RFloat x), s') /\ feq x NInf = false /\ Inv s') ->
  forall nwalkers fuel call pos s, Inv s -> (nwalkers <= fuel)%nat ->
    fst (init_walkers nwalkers fuel log_posterior_func params vv vs
           init_scale rng call pos s)
      = Finished (Ret (pos ++ map (fun i => drawn vv vs init_scale rng (call + i))
                                  (seq 0 nwalkers),
                       (call + nwalkers)%nat)).
Proof.
  intros Hf nwalkers.
  induction nwalkers as [| nwalkers IH]; intros fuel call pos s Hs Hfuel.
  - cbn. rewrite app_nil_r, Nat.add_0_r. reflexivity.
  - destruct fuel as [| fuel]; [lia |].
    cbn [init_walkers]. destruct (copy_ok s Hs) as (l & s1 & -> & Hs1).
    cbn [walker_start]. fold (drawn vv vs init_scale rng call).
    destruct (Hf call s1 Hs1) as (x & s2 & -> & -> & Hs2).
    rewrite IH by (auto; lia).
    do 3 f_equal.
    + rewrite <- app_assoc. f_equal. cbn [seq map app].
      rewrite Nat.add_0_r. f_equal.
      rewrite <- seq_shift, map_map. apply map_ext. intros i.
      f_equal. lia.
    + lia.
Qed.

(** C1 (as amended): the search for the starting position of a walker has
    no bound on its attempts and signals no error of its own.  A draw whose
    log-posterior differs from minus infinity is taken at once, so when no
    draw is worth minus infinity the loop over [nwalkers] walkers ends
    after [nwalkers] draws; when every draw is worth minus infinity the
    search for the first walker never ends: whatever the bound [fuel] on
    the number of attempts, it is used up. *)
Theorem walker_init_unbounded :
  ((forall call s, Inv s ->
      exists s', log_posterior_func (drawn vv vs init_scale rng call) s
                   = (Ret (RFloat NInf), s') /\ Inv s') ->
   forall nwalkers fuel call pos s, Inv s ->
     fst (init_walkers (S nwalkers) fuel log_posterior_func params vv vs
            init_scale rng call pos s) = OutOfFuel) /\
  ((forall call s, Inv s ->
      exists x s', log_posterior_func (drawn vv vs init_scale rng call) s
                     = (Ret (RFloat x), s') /\ feq x NInf = false /\ Inv s') ->
   forall nwalkers fuel call pos s, Inv s -> (nwalkers <= fuel)%nat ->
     fst (init_walkers nwalkers fuel log_posterior_func params vv vs
            init_scale rng call pos s)
       = Finished (Ret (pos ++ map (fun i => drawn vv vs init_scale rng (call + i))
                                   (seq 0 nwalkers),
                        (call + nwalkers)%nat))).
Proof.
  split; [apply init_walkers_diverges | apply init_walkers_first_draw].
Qed.

End WalkerInit.

Section WalkerInitExamples.

Lemma copy_keeps (l l0 : loc) (s : store) (ps ps0 : Parameters) :
  pheap s !! l = Some ps -> pheap s !! l0 = Some ps0 ->
  exists l' s', Parameters_copy l s = (Ret l', s') /\ pheap s' !! l0 = Some ps0.
Proof.
  intros Hl Hl0. rewrite (Parameters_copy_run _ _ _ Hl).
  eexists _, _. split; [reflexivity |]. cbn.
  rewrite lookup_insert_ne; [exact Hl0 |].
  intros <-. rewrite fresh_not_allocated in Hl0. discriminate.
Qed.

Lemma holds_example_copy (s : store) :
  holds_example s ->
  exists l s', Parameters_copy 0%nat s = (Ret l, s') /\ holds_example s'.
Proof. intros H. exact (copy_keeps _ _ _ _ _ H H). Qed.

Lemma example_draw_is_proposal (init_scale : pyfloat) (rng : RandomState)
    (call : nat) :
  proposal_for example_params example_free
    (drawn example_vv example_vs init_scale rng call).
Proof.
  unfold proposal_for. repeat (constructor; [eexists; reflexivity |]).
  constructor.
Qed.

(** On the model that predicts NaN every draw is worth minus infinity. *)
Lemma nan_target_rejects (init_scale : pyfloat) (rng : RandomState)
    (call : nat) (s : store) :
  holds_example s ->
  exists s', nan_target (drawn example_vv example_vs init_scale rng call) s
               = (Ret (RFloat NInf), s') /\ holds_example s'.
Proof.
  intros Hs. set (pos := drawn example_vv example_vs init_scale rng call).
  assert (Hfst : fst (nan_target pos s) = Ret (RFloat NInf)).
  { apply jitter_of_head_return.
    eapply head_rejected;
      [exact Hs | apply example_draw_is_proposal | | | |].
    1-3: eexists; reflexivity.
    left. reflexivity. }
  assert (Hsnd : holds_example (snd (nan_target pos s))).
  { unfold holds_example, nan_target. rewrite jitter_pheap.
    apply posterior_head_frame. exact Hs. }
  destruct (nan_target pos s) as [r s']. cbn in Hfst, Hsnd. subst r.
  exists s'. auto.
Qed.

Lemma flat_target_accepts (pos : list pyfloat) (s : store) :
  holds_example s ->
  exists x s', flat_target pos s = (Ret (RFloat x), s') /\
               feq x NInf = false /\ holds_example s'.
Proof. intros Hs. exists (Fin 0), s. auto. Qed.

Lemma holds_example_store : holds_example example_store.
Proof. reflexivity. Qed.

End WalkerInitExamples.

Lemma walker_init_unbounded_witness :
  fst (init_walkers 1 1000 nan_target 0%nat example_vv example_vs (Fin 1e-3)
         zero_rng 0 [] example_store) = OutOfFuel /\
  fst (init_walkers 2 2 flat_target 0%nat example_vv example_vs (Fin 1e-3)
         zero_rng 0 [] example_store)
    = Finished (Ret ([] ++ map (fun i => drawn example_vv example_vs (Fin 1e-3)
                                           zero_rng (0 + i))
                               (seq 0 2),
                     (0 + 2)%nat)).
Proof.
  split.
  - apply (proj1 (walker_init_unbounded nan_target 0%nat example_vv example_vs
                    (Fin 1e-3) zero_rng holds_example holds_example_copy)).
    + intros call s. apply nan_target_rejects.
    + exact holds_example_store.
  - apply (proj2 (walker_init_unbounded flat_target 0%nat example_vv example_vs
                    (Fin 1e-3) zero_rng holds_example holds_example_copy)).
    + intros call s. apply flat_target_accepts.
    + exact holds_example_store.
    + lia.
Defined.

(** C1 (as stated) fails: on the model that predicts NaN every drawn
    position has log-posterior minus infinity, and the initialization of a
    single walker does not stop, with an error or otherwise, within any
    number of attempts. *)
Lemma walker_init_counterexample :
  ~ exists fuel,
      terminated (fst (init_walkers 1 fuel nan_target 0%nat example_vv example_vs
                         (Fin 1e-3) zero_rng 0 [] example_store)).
Proof.
  intros [fuel H].
  rewrite (init_walkers_diverges nan_target 0%nat example_vv example_vs
             (Fin 1e-3) zero_rng holds_example holds_example_copy) in H.
  - exact H.
  - intros call s. apply nan_target_rejects.
  - exact holds_example_store.
Qed.

(** ** The sampling phases *)

Section Sampling.

Lemma succ_div (t i : nat) :
  (0 < t)%nat ->
  ((i + 1) / t = i / t + (if ((i + 1) mod t =? 0)%nat then 1 else 0))%nat.
Proof.
  intros Ht.
  pose proof (Nat.div_mod_eq i t) as Hi.
  pose proof (Nat.mod_upper_bound i t ltac:(lia)) as Hr.
  pose proof (Nat.div_mod_eq (i + 1) t) as Hi1.
  pose proof (Nat.mod_upper_bound (i + 1) t ltac:(lia)) as Hr1.
  destruct (Nat.eqb_spec ((i + 1) mod t) 0) as [H0 | H0]; nia.
Qed.

Variables (nwalkers ndim : nat) (move : Move).
Hypothesis move_keeps_shape : keeps_shape nwalkers ndim move.

Lemma sample_proposals_spec (store : bool) (t : nat) :
  (0 < t)%nat ->
  forall (k i : nat) (state : Ensemble) (sm : Sampler),
    smp_move sm = move ->
    shape_ok nwalkers ndim state = true ->
    chain_ok nwalkers ndim (smp_chain sm) ->
    forall i' state' sm',
      sample_proposals k store t i state sm = (i', state', sm') ->
      i' = (i + k)%nat /\
      shape_ok nwalkers ndim state' = true /\
      smp_move sm' = move /\
      smp_nwalkers sm' = smp_nwalkers sm /\
      smp_ndim sm' = smp_ndim sm /\
      smp_proposals sm' = (smp_proposals sm + k)%nat /\
      chain_ok nwalkers ndim (smp_chain sm') /\
      length (smp_chain sm') =
        (length (smp_chain sm) + (if store then (i + k) / t - i / t else 0))%nat.
Proof.
  intros Ht k. induction k as [| k IH]; intros i state sm Hmv Hst Hch i' state' sm' E.
  - cbn in E. injection E as <- <- <-. rewrite Nat.add_0_r, Nat.sub_diag.
    repeat split; auto. destruct store; lia.
  - cbn [sample_proposals] in E. rewrite Hmv in E.
    apply IH in E as (Hi & Hst' & Hmv' & Hnw & Hnd & Hprop & Hch' & Hlen);
      cbn [smp_move smp_chain smp_nwalkers smp_ndim smp_proposals] in *.
    + repeat split; auto; try lia.
      rewrite Hlen. destruct store; cbn [andb].
      * pose proof (succ_div t i Ht) as Hs.
        assert (Hmono : ((i + 1) / t <= (i + 1 + k) / t)%nat)
          by (apply Nat.Div0.div_le_mono; lia).
        replace (i + S k)%nat with (i + 1 + k)%nat by lia.
        destruct ((i + 1) mod t =? 0)%nat; rewrite ?length_app; cbn [length]; lia.
      * lia.
    + reflexivity.
    + apply move_keeps_shape, Hst.
    + destruct (store && _); [| exact Hch].
      apply Forall_app. split; [exact Hch |].
      constructor; [apply move_keeps_shape, Hst | constructor].
Qed.

Lemma sample_rounds_spec (store : bool) (t : nat) :
  (0 < t)%nat ->
  forall (n i : nat) (state : Ensemble) (results : option Ensemble) (sm : Sampler),
    smp_move sm = move ->
    shape_ok nwalkers ndim state = true ->
    chain_ok nwalkers ndim (smp_chain sm) ->
    forall results' sm',
      sample_rounds n t store t i state results sm = (results', sm') ->
      ((0 < n)%nat ->
         exists e, results' = Some e /\ shape_ok nwalkers ndim e = true) /\
      smp_move sm' = move /\
      smp_nwalkers sm' = smp_nwalkers sm /\
      smp_ndim sm' = smp_ndim sm /\
      smp_proposals sm' = (smp_proposals sm + n * t)%nat /\
      chain_ok nwalkers ndim (smp_chain sm') /\
      length (smp_chain sm') =
        (length (smp_chain sm) + (if store then (i + n * t) / t - i / t else 0))%nat.
Proof.
  intros Ht n. induction n as [| n IH]; intros i state results sm Hmv Hst Hch results' sm' E.
  - cbn in E. injection E as <- <-.
    replace (i + 0 * t)%nat with i by lia. rewrite Nat.sub_diag.
    repeat split; auto; try lia. destruct store; lia.
  - cbn [sample_rounds] in E.
    destruct (sample_proposals t store t i state sm) as [[i1 state1] sm1] eqn:E1.
    destruct (sample_proposals_spec store t Ht t i state sm Hmv Hst Hch _ _ _ E1)
      as (Hi & Hst1 & Hmv1 & Hnw1 & Hnd1 & Hprop1 & Hch1 & Hlen1).
    destruct n as [| n'].
    + cbn in E. injection E as <- <-.
      repeat split; auto; try lia.
      * intros _. eexists; split; [reflexivity | exact Hst1].
      * rewrite Hlen1. replace (i + 1 * t)%nat with (i + t)%nat by lia. reflexivity.
    + apply IH in E as (Hres & Hmv' & Hnw & Hnd & Hprop & Hch' & Hlen); auto.
      repeat split; auto; try lia.
      * intros _. apply Hres. lia.
      * rewrite Hlen, Hlen1, Hi. destruct store; [| lia].
        assert (H1 : (i / t <= (i + t) / t)%nat)
          by (apply Nat.Div0.div_le_mono; lia).
        assert (H2 : ((i + t) / t <= (i + t + S n' * t) / t)%nat)
          by (apply Nat.Div0.div_le_mono; lia).
        replace (i + S (S n') * t)%nat with (i + t + S n' * t)%nat by lia. lia.
Qed.

End Sampling.

Section SamplingPhases.

Lemma shape_ok_inv (nwalkers ndim : nat) (e : Ensemble) :
  shape_ok nwalkers ndim e = true ->
  length e = nwalkers /\ Forall (fun row => length row = ndim) e.
Proof.
  unfold shape_ok. intros H. apply andb_true_iff in H as [Hn Hrows].
  apply Nat.eqb_eq in Hn. split; [exact Hn |].
  apply Forall_forall. intros row Hin.
  rewrite forallb_forall in Hrows. apply Nat.eqb_eq, Hrows.
  apply list_elem_of_In, Hin.
Qed.

Lemma flat_chain_shape (nwalkers ndim : nat) (chain : list Ensemble) :
  chain_ok nwalkers ndim chain ->
  length (concat chain) = (nwalkers * length chain)%nat /\
  Forall (fun row => length row = ndim) (concat chain).
Proof.
  induction 1 as [| e chain He _ [IHlen IHrows]]; cbn.
  - split; [lia | constructor].
  - apply shape_ok_inv in He as [Hn Hrows]. split.
    + rewrite length_app, IHlen, Hn. lia.
    + apply Forall_app. auto.
Qed.

Lemma chunks_concat (ncols : nat) (rows : list (list pyfloat)) :
  (0 < ncols)%nat ->
  Forall (fun row => length row = ncols) rows ->
  forall fuel, (length rows <= fuel)%nat ->
    chunks ncols fuel (concat rows) = rows.
Proof.
  intros Hn. induction 1 as [| row rows Hrow _ IH]; intros fuel Hfuel.
  - destruct fuel; reflexivity.
  - destruct fuel as [| fuel]; [cbn in Hfuel; lia |].
    cbn [concat chunks].
    destruct (row ++ concat rows) as [| x rest] eqn:E.
    { destruct row; [cbn in Hrow; lia | discriminate]. }
    rewrite <- E. rewrite take_app_length' by (symmetry; exact Hrow).
    rewrite drop_app_length' by (symmetry; exact Hrow).
    f_equal. apply IH. cbn in Hfuel. lia.
Qed.

Lemma reshape_rows_id (ncols : nat) (rows : list (list pyfloat)) :
  (0 < ncols)%nat ->
  Forall (fun row => length row = ncols) rows ->
  reshape_rows rows ncols = Ret rows.
Proof.
  intros Hn Hrows. unfold reshape_rows.
  assert (Hlen : length (concat rows) = (length rows * ncols)%nat).
  { clear Hn. induction Hrows as [| row rows Hrow _ IH]; cbn; [reflexivity |].
    rewrite length_app, IH, Hrow. lia. }
  destruct (Nat.eqb_spec ncols 0) as [-> | _]; [lia |].
  rewrite Hlen, Nat.Div0.mod_mul. cbn [Nat.eqb negb orb].
  rewrite <- Hlen. rewrite chunks_concat; auto.
  rewrite Hlen. destruct ncols; [lia |]. nia.
Qed.

Variables (nwalkers n_varys : nat) (move : Move).
Hypothesis move_keeps_shape : keeps_shape nwalkers n_varys move.

Lemma run_mcmc_spec (store : bool) (t n : nat) (sm : Sampler) (state : Ensemble) :
  (0 < t)%nat ->
  smp_move sm = move -> smp_nwalkers sm = nwalkers -> smp_ndim sm = n_varys ->
  shape_ok nwalkers n_varys state = true ->
  chain_ok nwalkers n_varys (smp_chain sm) ->
  exists r sm',
    run_mcmc sm state n t store = Ret (r, sm') /\
    ((0 < n)%nat -> exists e, r = Some e /\ shape_ok nwalkers n_varys e = true) /\
    smp_move sm' = move /\ smp_nwalkers sm' = nwalkers /\
    smp_ndim sm' = n_varys /\
    smp_proposals sm' = (smp_proposals sm + n * t)%nat /\
    chain_ok nwalkers n_varys (smp_chain sm') /\
    length (smp_chain sm') =
      (length (smp_chain sm) + (if store then n else 0))%nat.
Proof.
  intros Ht Hmv Hnw Hnd Hst Hch. unfold run_mcmc.
  rewrite Hnw, Hnd, Hst. cbn [negb].
  destruct (Nat.eqb_spec t 0) as [-> | _]; [lia |].
  destruct (sample_rounds n t store t 0 state None sm) as [r sm'] eqn:E.
  destruct (sample_rounds_spec nwalkers n_varys move move_keeps_shape store t Ht
              n 0 state None sm Hmv Hst Hch r sm' E)
    as (Hres & Hmv' & Hnw' & Hnd' & Hprop & Hch' & Hlen).
  exists r, sm'. repeat split; auto; try congruence.
  rewrite Hlen. destruct store; [| reflexivity].
  cbn [Nat.add]. rewrite Nat.div_mul by lia. rewrite Nat.Div0.div_0_l. lia.
Qed.

(** The production phase stores one step for every [thin] proposals. *)
Lemma sampling_phases_spec (pos : Ensemble) (burn steps thin : nat) :
  shape_ok nwalkers n_varys pos = true ->
  (0 < burn)%nat -> (0 < thin)%nat -> (0 < n_varys)%nat ->
  exists r,
    sampling_phases nwalkers n_varys move pos burn steps thin n_varys = Ret r /\
    length (flatchain r) = (nwalkers * steps)%nat /\
    Forall (fun row => length row = n_varys) (flatchain r) /\
    proposals r = (steps * thin)%nat /\
    nfev r = (nwalkers * proposals r)%nat.
Proof.
  intros Hpos Hburn Hthin Hnv. unfold sampling_phases.
  destruct (run_mcmc_spec false 1 burn (EnsembleSampler nwalkers n_varys move) pos
              ltac:(lia) eq_refl eq_refl eq_refl Hpos ltac:(constructor))
    as (r1 & sm1 & -> & Hres1 & Hmv1 & Hnw1 & Hnd1 & Hprop1 & Hch1 & Hlen1).
  cbn [rbind fst snd].
  destruct (Hres1 Hburn) as (pos1 & -> & Hpos1).
  destruct (run_mcmc_spec true thin steps (sampler_reset sm1) pos1
              Hthin Hmv1 Hnw1 Hnd1 Hpos1 ltac:(constructor))
    as (r2 & sm2 & -> & Hres2 & Hmv2 & Hnw2 & Hnd2 & Hprop2 & Hch2 & Hlen2).
  cbn [rbind fst snd].
  destruct (flat_chain_shape _ _ _ Hch2) as [Hflat Hrows].
  unfold get_chain_flat. rewrite (reshape_rows_id _ _ Hnv Hrows).
  cbn [rbind]. eexists. split; [reflexivity |].
  cbn [flatchain proposals nfev].
  cbn [sampler_reset smp_chain smp_proposals length] in *.
  repeat split.
  - rewrite Hflat, Hlen2. reflexivity.
  - exact Hrows.
  - lia.
  - rewrite Hprop2. rewrite Nat.add_comm, Nat.add_sub. lia.
Qed.

End SamplingPhases.

(** C2 (as amended): with [thin_by=thin] the production phase makes
    [steps * thin] proposals for the ensemble and stores every [thin]-th
    of them, so the flattened chain has [nwalkers * steps] rows and one
    column per free parameter; with nwalkers=32, steps=100, thin=2 that is
    3200 rows.  [result.nfev] counts [nwalkers] evaluations for each
    proposal of the production phase. *)
Theorem sampling_chain_shape (nwalkers n_varys : nat) (move : Move)
    (pos : Ensemble) (burn steps thin : nat) :
  keeps_shape nwalkers n_varys move ->
  shape_ok nwalkers n_varys pos = true ->
  (0 < burn)%nat -> (0 < thin)%nat -> (0 < n_varys)%nat ->
  exists r,
    sampling_phases nwalkers n_varys move pos burn steps thin n_varys = Ret r /\
    length (flatchain r) = (nwalkers * steps)%nat /\
    Forall (fun row => length row = n_varys) (flatchain r) /\
    proposals r = (steps * thin)%nat /\
    nfev r = (nwalkers * proposals r)%nat.
Proof. intros Hmove. apply (sampling_phases_spec _ _ _ Hmove). Qed.

Lemma still_move_keeps_shape (nwalkers ndim : nat) :
  keeps_shape nwalkers ndim still_move.
Proof. intros n e H. exact H. Qed.

Lemma sampling_chain_shape_witness :
  exists r,
    sampling_phases 32 1 still_move example_walkers 256 100 2 1 = Ret r /\
    length (flatchain r) = (32 * 100)%nat /\
    Forall (fun row => length row = 1%nat) (flatchain r) /\
    proposals r = (100 * 2)%nat /\
    nfev r = (32 * proposals r)%nat.
Proof.
  apply (sampling_chain_shape 32 1 still_move example_walkers 256 100 2
           (still_move_keeps_shape 32 1) eq_refl); lia.
Defined.

(** C2 (as stated) fails: for nwalkers=32, steps=100, thin=2 the flattened
    chain has 3200 rows, not 32 * (100 // 2) = 1600. *)
Lemma sampling_chain_shape_counterexample :
  exists r,
    sampling_phases 32 1 still_move example_walkers 256 100 2 1 = Ret r /\
    length (flatchain r) = 3200%nat /\
    length (flatchain r) <> (32 * (100 / 2))%nat.
Proof.
  destruct (sampling_phases_spec 32 1 still_move (still_move_keeps_shape 32 1)
              example_walkers 256 100 2 eq_refl ltac:(lia) ltac:(lia) ltac:(lia))
    as (r & Hr & Hlen & _).
  exists r. split; [exact Hr |]. rewrite Hlen. split.
  - reflexivity.
  - intros H. apply (f_equal (fun n => Nat.ltb n 2000)) in H.
    vm_compute in H. discriminate.
Qed.

(** ** The residual vector of the least-squares fit *)

Section Residuals.

Variables (model : Model) (time flux flux_err : list pyfloat).

Lemma append_priors_spec (params : Parameters) (entries : list (string * Param)) :
  forall r, append_priors params entries r = r ++ prior_residuals params entries.
Proof.
  induction entries as [| [k p] entries IH]; intros r; cbn.
  - rewrite app_nil_r. reflexivity.
  - destruct (p_user_data p); rewrite IH; [rewrite <- app_assoc |]; reflexivity.
Qed.

Lemma chisq_prior_spec (params : Parameters) :
  _chisq_prior model time flux flux_err params =
    data_residuals model time flux flux_err params ++
    prior_residuals params params.
Proof. unfold _chisq_prior. apply append_priors_spec. Qed.

Lemma length_data_residuals (params : Parameters) :
  aligned model time flux flux_err ->
  length (data_residuals model time flux flux_err params) = length time.
Proof.
  intros (Hflux & Herr & Hmodel). unfold data_residuals, arr_div, arr_sub.
  rewrite !length_zip_with, Hflux, Herr, Hmodel. lia.
Qed.

(** C7 (as amended): the objective function is the data residuals
    [(flux - model(params, time))/flux_err] followed by one residual
    [(prior_mean - value)/prior_sigma] for each parameter carrying a
    Gaussian prior, in the order of the parameter set.  In the result the
    data residuals are kept as the residual vector, with one entry per
    point of the light curve; when there are priors, their number is the
    total length minus the number of points and the last that many
    entries become the prior residuals; when there are none, neither the
    prior residuals nor their number is set.  What is recorded as [rms] is
    the standard deviation of [flux - model], not divided by [flux_err]. *)
Theorem lmfit_residual_partition (minimize : Minimizer) (params : Parameters) :
  aligned model time flux flux_err ->
  let objective := _chisq_prior model time flux flux_err in
  let best := minimize objective params in
  let res := lmfit_finish minimize model time flux flux_err params in
  (forall ps,
     objective ps = data_residuals model time flux flux_err ps ++
                    prior_residuals ps ps) /\
  res_params res = best /\
  res_residual res = data_residuals model time flux flux_err best /\
  length (res_residual res) = length time /\
  res_bestfit res = model best time /\
  res_rms res = arr_std (arr_sub flux (model best time)) /\
  (prior_residuals best best <> [] ->
     res_prior_residual res = Some (prior_residuals best best) /\
     res_npriors res = Some (Z.of_nat (length (prior_residuals best best))) /\
     res_npriors res
       = Some (Z.of_nat (length (objective best)) - Z.of_nat (length time))%Z) /\
  (prior_residuals best best = [] ->
     res_prior_residual res = None /\ res_npriors res = None).
Proof.
  intros Hal. cbv zeta.
  set (best := minimize (_chisq_prior model time flux flux_err) params).
  pose proof (length_data_residuals best Hal) as Hlen.
  split; [intros ps; apply chisq_prior_spec |].
  unfold lmfit_finish. fold best. rewrite (chisq_prior_spec best).
  rewrite length_app, Hlen.
  set (data := data_residuals model time flux flux_err best) in *.
  set (priors := prior_residuals best best) in *.
  replace (Z.of_nat (length time + length priors) - Z.of_nat (length time))%Z
    with (Z.of_nat (length priors)) by lia.
  destruct priors as [| x priors'] eqn:Epriors.
  - cbn [length Z.of_nat Z.ltb Z.compare].
    cbn [res_params res_residual res_bestfit res_rms
         res_prior_residual res_npriors].
    rewrite app_nil_r. repeat split; auto;
      try (rewrite length_app, Hlen; cbn [length]; lia); contradiction.
  - assert (Hpos : (0 <? Z.of_nat (length (x :: priors')))%Z = true)
      by (apply Z.ltb_lt; cbn [length]; lia).
    rewrite Hpos. cbn [res_params res_residual res_bestfit res_rms
                        res_prior_residual res_npriors].
    rewrite Nat2Z.id. unfold slice_but_last, slice_last.
    rewrite length_app, Hlen.
    replace (length time + length (x :: priors') - length (x :: priors'))%nat
      with (length time) by lia.
    rewrite take_app_length' by (symmetry; exact Hlen).
    rewrite drop_app_length' by (symmetry; exact Hlen).
    repeat split; auto;
      try (rewrite length_app, Hlen; do 2 f_equal; lia); discriminate.
Qed.

End Residuals.

Section ResidualExamples.

Local Open Scope R_scope.

Lemma arr_mean_pair (a b : R) : arr_mean [Fin a; Fin b] = Fin ((a + b) / 2).
Proof.
  unfold arr_mean, arr_sum. cbn [foldl fadd length INR fdiv].
  rewrite Reqb_false by lra. f_equal. lra.
Qed.

Lemma half_sum_squares_nonneg (u v : R) : 0 <= (u * u + v * v) / 2.
Proof.
  pose proof (Rle_0_sqr u). pose proof (Rle_0_sqr v). unfold Rsqr in *. lra.
Qed.

Lemma arr_std_pair (a b : R) :
  arr_std [Fin a; Fin b] =
    Fin (sqrt (((a - (a + b) / 2) ^ 2 + (b - (a + b) / 2) ^ 2) / 2)).
Proof.
  unfold arr_std. rewrite arr_mean_pair.
  cbn [map fsub fneg fadd fpow_nat fmul]. rewrite arr_mean_pair.
  cbn [fsqrt].
  rewrite Rltb_false by (apply Rle_not_lt, half_sum_squares_nonneg).
  do 2 f_equal. lra.
Qed.

Lemma root_mean_square_pair (a b : R) :
  root_mean_square [Fin a; Fin b] = Fin (sqrt ((a ^ 2 + b ^ 2) / 2)).
Proof.
  unfold root_mean_square. cbn [map fpow_nat fmul]. rewrite arr_mean_pair.
  cbn [fsqrt]. rewrite Rltb_false by (apply Rle_not_lt, half_sum_squares_nonneg).
  do 2 f_equal. lra.
Qed.

Lemma example_aligned :
  aligned unit_model example_time example_flux example_flux_err.
Proof. repeat split. Qed.

Lemma example_data_residuals (ps : Parameters) :
  data_residuals unit_model example_time example_flux example_flux_err ps
    = [Fin ((2 - 1) / 2); Fin ((4 - 1) / 2)].
Proof.
  unfold data_residuals, arr_div, arr_sub, unit_model, example_time,
    example_flux, example_flux_err.
  cbn [map zip_with fsub fneg fadd fdiv].
  rewrite Reqb_false by lra. reflexivity.
Qed.

Lemma example_raw_residuals (ps : Parameters) :
  arr_sub example_flux (unit_model ps example_time) = [Fin (2 - 1); Fin (4 - 1)].
Proof. reflexivity. Qed.

Lemma Fin_sqrt_neq (x y : R) : 0 <= x -> 0 <= y -> x <> y -> Fin (sqrt x) <> Fin (sqrt y).
Proof.
  intros Hx Hy Hne [= H]. apply Hne. apply sqrt_inj; assumption.
Qed.

End ResidualExamples.

Lemma lmfit_residual_partition_witness :
  let res := lmfit_finish idle_minimizer unit_model example_time example_flux
               example_flux_err example_prior_params in
  res_residual res =
    data_residuals unit_model example_time example_flux example_flux_err
      example_prior_params /\
  length (res_residual res) = length example_time /\
  res_prior_residual res
    = Some (prior_residuals example_prior_params example_prior_params) /\
  res_npriors res = Some 1%Z /\
  res_rms res
    = arr_std (arr_sub example_flux (unit_model example_prior_params example_time)).
Proof.
  pose proof (lmfit_residual_partition unit_model example_time example_flux
                example_flux_err idle_minimizer example_prior_params
                example_aligned) as H.
  cbv zeta in H. destruct H as (_ & _ & Hres & Hlen & _ & Hrms & Hpri & _).
  destruct Hpri as (Hp & Hn & _); [discriminate |].
  cbv zeta. repeat split; assumption.
Defined.

(** C7 (as stated) fails in its last clause: on the two-point light curve
    below, with flux errors of 2, the data residuals are 0.5 and 1.5, whose
    root mean square is sqrt(1.25) and whose standard deviation is 0.5,
    while the [rms] recorded is 1, the standard deviation of [flux - fit]. *)
Lemma lmfit_rms_counterexample :
  let res := lmfit_finish idle_minimizer unit_model example_time example_flux
               example_flux_err [] in
  res_residual res = [Fin ((2 - 1) / 2); Fin ((4 - 1) / 2)] /\
  res_rms res <> root_mean_square (res_residual res) /\
  res_rms res <> arr_std (res_residual res).
Proof.
  cbv zeta.
  assert (Hres : res_residual (lmfit_finish idle_minimizer unit_model example_time
                                 example_flux example_flux_err [])
                 = [Fin ((2 - 1) / 2); Fin ((4 - 1) / 2)]).
  { unfold lmfit_finish, idle_minimizer. rewrite chisq_prior_spec.
    rewrite example_data_residuals. reflexivity. }
  assert (Hrms : res_rms (lmfit_finish idle_minimizer unit_model example_time
                            example_flux example_flux_err [])
                 = arr_std [Fin (2 - 1); Fin (4 - 1)]).
  { unfold lmfit_finish, idle_minimizer. rewrite chisq_prior_spec.
    rewrite example_data_residuals. reflexivity. }
  rewrite Hres, Hrms. split; [reflexivity |].
  rewrite root_mean_square_pair, !arr_std_pair.
  split; apply Fin_sqrt_neq; lra.
Qed.

(** ** The derived parameters *)

Section DerivedFormulas.

Local Open Scope R_scope.

(** Dividing by [W] and then by pi is dividing by [W*pi]. *)
Lemma fdiv_fdiv_pi (x W : pyfloat) :
  fdiv (fdiv x W) fpi = fdiv x (fmul W fpi).
Proof.
  pose proof PI_RGT_0 as Hpi. unfold fpi.
  destruct x as [a | | |], W as [w | | |]; cbn [fdiv fmul]; try reflexivity.
  - destruct (Req_dec_T w 0) as [-> | Hw].
    + rewrite (Reqb_true 0 0) by reflexivity.
      rewrite (Reqb_true (0 * PI) 0) by lra.
      unfold signed_inf.
      destruct (Rlt_dec 0 a) as [H1 | H1];
        [rewrite (Rltb_true _ _ H1) | rewrite (Rltb_false _ _ H1)]; cbn [fdiv].
      * rewrite Rltb_false by lra. reflexivity.
      * destruct (Rlt_dec a 0) as [H2 | H2];
          [rewrite (Rltb_true _ _ H2) | rewrite (Rltb_false _ _ H2)]; cbn [fdiv].
        -- rewrite Rltb_false by lra. reflexivity.
        -- reflexivity.
    + rewrite (Reqb_false w 0) by exact Hw. cbn [fdiv].
      rewrite (Reqb_false PI 0) by lra.
      rewrite (Reqb_false (w * PI) 0) by nra.
      f_equal. field. lra.
  - unfold signed_inf. rewrite (Rltb_true 0 PI) by lra. cbn [fdiv].
    rewrite Reqb_false by lra. f_equal. lra.
  - unfold signed_inf. rewrite (Rltb_false 0 (- PI)) by lra.
    rewrite (Rltb_true (- PI) 0) by lra. cbn [fdiv].
    rewrite Reqb_false by lra. f_equal. lra.
  - destruct (Rlt_dec w 0) as [H1 | H1];
      [rewrite (Rltb_true _ _ H1) | rewrite (Rltb_false _ _ H1)]; cbn [fdiv].
    + rewrite (Rltb_false PI 0) by lra. rewrite Rltb_true by nra. reflexivity.
    + rewrite (Rltb_false PI 0) by lra. rewrite Rltb_false by nra. reflexivity.
  - unfold signed_inf. rewrite (Rltb_true 0 PI) by lra. reflexivity.
  - unfold signed_inf. rewrite (Rltb_false 0 (- PI)) by lra.
    rewrite (Rltb_true (- PI) 0) by lra. reflexivity.
  - destruct (Rlt_dec w 0) as [H1 | H1];
      [rewrite (Rltb_true _ _ H1) | rewrite (Rltb_false _ _ H1)]; cbn [fdiv].
    + rewrite (Rltb_false PI 0) by lra. rewrite Rltb_true by nra. reflexivity.
    + rewrite (Rltb_false PI 0) by lra. rewrite Rltb_false by nra. reflexivity.
  - unfold signed_inf. rewrite (Rltb_true 0 PI) by lra. reflexivity.
  - unfold signed_inf. rewrite (Rltb_false 0 (- PI)) by lra.
    rewrite (Rltb_true (- PI) 0) by lra. reflexivity.
Qed.

(** Each expression string denotes the formula of the specification. *)
Lemma derived_formulas (env : string -> pyfloat) :
  eval_expr env expr_k = spec_k (env "D") /\
  eval_expr env expr_aR = spec_aR (env "k") (env "b") (env "W") /\
  eval_expr env expr_sini = spec_sini (env "b") (env "aR") /\
  eval_expr env expr_logrho
    = spec_logrho (env "k") (env "b") (env "W") (env "P") /\
  eval_expr env expr_e = spec_e (env "f_c") (env "f_s") /\
  eval_expr env expr_q_1 = spec_q_1 (env "h_2") /\
  eval_expr env expr_q_2 = spec_q_2 (env "h_1") (env "h_2").
Proof.
  repeat split; try reflexivity.
  unfold expr_aR, spec_aR. cbn [eval_expr]. apply fdiv_fdiv_pi.
Qed.

End DerivedFormulas.

(** ** The evaluation of an expression at installation *)

Section Asteval.

Variable ps : Parameters.

(** The only exceptions: a division of Python numbers by zero, and a name
    that is no parameter of the set. *)
Lemma asteval_raises (e : Expr) (err : exn) :
  asteval ps e = Raise err ->
  err = ZeroDivisionError \/
  exists x, err = NameError x /\ x ∈ names_of e /\ getitem ps x = None.
Proof.
  revert err.
  assert (Hbin : forall a b (f : number -> number -> result number),
            (forall err, asteval ps a = Raise err ->
               err = ZeroDivisionError \/
               exists x, err = NameError x /\ x ∈ names_of a /\ getitem ps x = None) ->
            (forall err, asteval ps b = Raise err ->
               err = ZeroDivisionError \/
               exists x, err = NameError x /\ x ∈ names_of b /\ getitem ps x = None) ->
            (forall x y err, f x y = Raise err -> err = ZeroDivisionError) ->
            forall err,
              (let? x := asteval ps a in let? y := asteval ps b in f x y)
                = Raise err ->
              err = ZeroDivisionError \/
              exists x, err = NameError x /\ x ∈ names_of a ++ names_of b /\
                        getitem ps x = None).
  { intros a b f IHa IHb Hf err.
    destruct (asteval ps a) as [x | ea] eqn:Ha; cbn [rbind].
    - destruct (asteval ps b) as [y | eb] eqn:Hb; cbn [rbind].
      + intros H. left. exact (Hf _ _ _ H).
      + intros [= <-]. destruct (IHb _ eq_refl) as [-> | (z & -> & Hin & Hz)];
          [left; reflexivity | right].
        exists z. repeat split; [apply elem_of_app; right; exact Hin | exact Hz].
    - intros [= <-]. destruct (IHa _ eq_refl) as [-> | (z & -> & Hin & Hz)];
        [left; reflexivity | right].
      exists z. repeat split; [apply elem_of_app; left; exact Hin | exact Hz]. }
  assert (Hun : forall a (f : number -> result number),
            (forall err, asteval ps a = Raise err ->
               err = ZeroDivisionError \/
               exists x, err = NameError x /\ x ∈ names_of a /\ getitem ps x = None) ->
            (forall x err, f x <> Raise err) ->
            forall err,
              (let? x := asteval ps a in f x) = Raise err ->
              err = ZeroDivisionError \/
              exists x, err = NameError x /\ x ∈ names_of a /\ getitem ps x = None).
  { intros a f IHa Hf err.
    destruct (asteval ps a) as [x | ea] eqn:Ha; cbn [rbind].
    - intros H. exfalso. exact (Hf _ _ H).
    - intros [= <-]. apply IHa. reflexivity. }
  induction e as [x | c | | a IHa b IHb | a IHa b IHb | a IHa b IHb | a IHa b IHb
                 | a IHa n | a IHa y | a IHa | a IHa | a IHa];
    intros err; cbn [asteval names_of].
  - destruct (getitem ps x) eqn:Hx; [discriminate |].
    intros [= <-]. right. exists x.
    repeat split; [apply list_elem_of_singleton; reflexivity | exact Hx].
  - discriminate.
  - discriminate.
  - apply Hbin; [exact IHa | exact IHb | discriminate].
  - apply Hbin; [exact IHa | exact IHb | discriminate].
  - apply Hbin; [exact IHa | exact IHb | discriminate].
  - apply Hbin; [exact IHa | exact IHb |].
    intros x y err'. destruct (_ && _); [intros [= <-]; reflexivity | discriminate].
  - apply Hun; [exact IHa | discriminate].
  - apply Hun; [exact IHa | discriminate].
  - apply Hun; [exact IHa | discriminate].
  - apply Hun; [exact IHa | discriminate].
  - apply Hun; [exact IHa | discriminate].
Qed.

(** What the evaluation returns is the value that a read computes. *)
Lemma asteval_value (e : Expr) (v : number) :
  asteval ps e = Ret v -> num_val v = eval_expr (value_of ps) e.
Proof.
  revert v.
  induction e as [x | c | | a IHa b IHb | a IHa b IHb | a IHa b IHb | a IHa b IHb
                 | a IHa n | a IHa y | a IHa | a IHa | a IHa];
    intros v; cbn [asteval eval_expr];
    try (destruct (asteval ps a) as [x1 | ea]; cbn [rbind]; [| discriminate];
         try (destruct (asteval ps b) as [x2 | eb]; cbn [rbind]; [| discriminate]);
         try destruct (_ && _); try discriminate;
         intros [= <-]; cbn [num_val numpy];
         rewrite <- ?(IHa _ eq_refl), <- ?(IHb _ eq_refl); reflexivity).
  - destruct (getitem ps x); [| discriminate]. intros [= <-]. reflexivity.
  - intros [= <-]. reflexivity.
  - intros [= <-]. reflexivity.
Qed.

(** An expression whose value cannot be a Python number evaluates to a
    NumPy scalar. *)
Lemma asteval_numpy (e : Expr) (v : number) :
  asteval ps e = Ret v -> maybe_native e = false -> num_native v = false.
Proof.
  unfold maybe_native. revert v.
  induction e as [x | c | | a IHa b IHb | a IHa b IHb | a IHa b IHb | a IHa b IHb
                 | a IHa n | a IHa y | a IHa | a IHa | a IHa];
    intros v; cbn [asteval native_expr]; try discriminate;
    try (destruct (asteval ps a) as [x1 | ea]; cbn [rbind]; [| discriminate];
         try (destruct (asteval ps b) as [x2 | eb]; cbn [rbind]; [| discriminate]);
         try destruct (_ && _ && _); try discriminate;
         intros [= <-] Hn; cbn [num_native numpy]; try reflexivity;
         try (apply andb_false_iff in Hn as [Hn | Hn];
                [rewrite (IHa _ eq_refl Hn) | rewrite (IHb _ eq_refl Hn)];
                [reflexivity | apply andb_false_r]);
         exact (IHa _ eq_refl Hn)).
Qed.

Lemma fmul_nonzero (x y : pyfloat) :
  feq x (Fin 0) = false -> feq y (Fin 0) = false -> feq (fmul x y) (Fin 0) = false.
Proof.
  destruct x as [a | | |], y as [b | | |]; cbn [fmul feq]; try reflexivity;
    intros Ha Hb; unfold signed_inf;
    repeat match goal with
           | |- context [Rltb ?u ?v] => destruct (Rltb u v)
           end; try reflexivity.
  apply Reqb_false. intros H.
  apply Rmult_integral in H as [-> | ->];
    [rewrite Reqb_true in Ha by reflexivity | rewrite Reqb_true in Hb by reflexivity];
    discriminate.
Qed.

Lemma fpow_nat_nonzero (x : pyfloat) (n : nat) :
  feq x (Fin 0) = false -> feq (fpow_nat x n) (Fin 0) = false.
Proof.
  intros Hx. induction n as [| n IH].
  - cbn. apply Reqb_false. lra.
  - destruct n as [| n]; [exact Hx |].
    change (fpow_nat x (S (S n))) with (fmul x (fpow_nat x (S n))).
    apply fmul_nonzero; assumption.
Qed.

Lemma nonzero_expr_sound (nonzero : list string) (e : Expr) (v : number) :
  (forall x, x ∈ nonzero -> feq (value_of ps x) (Fin 0) = false) ->
  nonzero_expr nonzero e = true ->
  asteval ps e = Ret v -> feq (num_val v) (Fin 0) = false.
Proof.
  intros Hnz. revert v. induction e; intros v; cbn [nonzero_expr asteval];
    try discriminate.
  - intros Hc. destruct (getitem ps x); [| discriminate].
    intros [= <-]. cbn [num_val]. apply Hnz.
    unfold contains in Hc. apply existsb_exists in Hc as (z & Hz & Heq).
    apply String.eqb_eq in Heq as ->. apply list_elem_of_In, Hz.
  - intros _ [= <-]. cbn [num_val python]. unfold fpi. cbn [feq].
    apply Reqb_false. pose proof PI_RGT_0. lra.
  - intros Hc. destruct (asteval ps e) as [x |]; cbn [rbind]; [| discriminate].
    intros [= <-]. cbn [num_val]. apply fpow_nat_nonzero, (IHe _ Hc eq_refl).
Qed.

(** A safe expression does not raise [ZeroDivisionError]. *)
Lemma division_safe_sound (nonzero : list string) (e : Expr) :
  (forall x, x ∈ nonzero -> feq (value_of ps x) (Fin 0) = false) ->
  division_safe nonzero e = true ->
  asteval ps e <> Raise ZeroDivisionError.
Proof.
  intros Hnz.
  assert (Hbin : forall a b (f : pyfloat -> pyfloat -> pyfloat),
            asteval ps a <> Raise ZeroDivisionError ->
            asteval ps b <> Raise ZeroDivisionError ->
            (let? x := asteval ps a in
             let? y := asteval ps b in
             Ret (mkNum (f (num_val x) (num_val y))
                        (num_native x && num_native y)))
              <> Raise ZeroDivisionError).
  { intros a b f Ha Hb.
    destruct (asteval ps a) as [x1 | ea]; cbn [rbind]; [| exact Ha].
    destruct (asteval ps b) as [x2 | eb]; cbn [rbind]; [discriminate | exact Hb]. }
  assert (Hun : forall a (f : number -> number),
            asteval ps a <> Raise ZeroDivisionError ->
            (let? x := asteval ps a in Ret (f x)) <> Raise ZeroDivisionError).
  { intros a f Ha.
    destruct (asteval ps a) as [x1 | ea]; cbn [rbind]; [discriminate | exact Ha]. }
  induction e as [x | c | | a IHa b IHb | a IHa b IHb | a IHa b IHb | a IHa b IHb
                 | a IHa n | a IHa y | a IHa | a IHa | a IHa];
    cbn [asteval division_safe]; intros Hsafe.
  - destruct (getitem ps x); discriminate.
  - discriminate.
  - discriminate.
  - apply andb_true_iff in Hsafe as [Hsa Hsb]. apply Hbin; auto.
  - apply andb_true_iff in Hsafe as [Hsa Hsb]. apply Hbin; auto.
  - apply andb_true_iff in Hsafe as [Hsa Hsb]. apply Hbin; auto.
  - apply andb_true_iff in Hsafe as [Hsafe Hdiv].
    apply andb_true_iff in Hsafe as [Hsa Hsb].
    destruct (asteval ps a) as [x1 | ea] eqn:Ha; cbn [rbind];
      [| exact (IHa Hsa)].
    destruct (asteval ps b) as [x2 | eb] eqn:Hb; cbn [rbind];
      [| exact (IHb Hsb)].
    assert (Htest : num_native x1 && num_native x2 && feq (num_val x2) (Fin 0)
                    = false).
    { apply orb_true_iff in Hdiv as [Hdiv | Hdiv];
        [apply orb_true_iff in Hdiv as [Hdiv | Hdiv] |].
      - apply negb_true_iff in Hdiv. rewrite (asteval_numpy a x1 Ha Hdiv).
        reflexivity.
      - apply negb_true_iff in Hdiv. rewrite (asteval_numpy b x2 Hb Hdiv).
        apply andb_false_iff. left. apply andb_false_r.
      - apply andb_false_iff. right.
        exact (nonzero_expr_sound nonzero b x2 Hnz Hdiv Hb). }
    rewrite Htest. discriminate.
  - apply (Hun a (fun x => mkNum (fpow_nat (num_val x) n) (num_native x))); auto.
  - apply (Hun a (fun x => mkNum (fpow_real (num_val x) y) (num_native x))); auto.
  - apply (Hun a (fun x => numpy (fsqrt (num_val x)))); auto.
  - apply (Hun a (fun x => numpy (flog10 (num_val x)))); auto.
  - apply (Hun a (fun x => numpy (fexp (num_val x)))); auto.
Qed.

(** When every name of the expression is a parameter, the only exception
    is [ZeroDivisionError]. *)
Lemma asteval_present (e : Expr) (err : exn) :
  (forall x, x ∈ names_of e -> is_Some (getitem ps x)) ->
  asteval ps e = Raise err -> err = ZeroDivisionError.
Proof.
  intros Hall H. destruct (asteval_raises e err H) as [-> | (x & _ & Hin & Hx)];
    [reflexivity |].
  destruct (Hall x Hin) as [p Hp]. congruence.
Qed.

End Asteval.

Section DerivedInstalled.

Lemma keys_setitem (ps : Parameters) (k : string) (p : Param) :
  keys (setitem ps k p) = keys ps \/
  ((k ∉ keys ps) /\ keys (setitem ps k p) = keys ps ++ [k]).
Proof.
  unfold keys. induction ps as [| [k' p'] ps IH]; cbn [setitem map fst app].
  - right. split; [apply not_elem_of_nil | reflexivity].
  - destruct (String.eqb_spec k' k) as [-> | Hne]; cbn [map fst];
      [left; reflexivity |].
    destruct IH as [-> | [Hnot ->]]; [left; reflexivity |].
    right. split; [| reflexivity].
    intros Hin. apply elem_of_cons in Hin as [-> | Hin]; [congruence | contradiction].
Qed.

Lemma NoDup_keys_setitem (ps : Parameters) (k : string) (p : Param) :
  NoDup (keys ps) -> NoDup (keys (setitem ps k p)).
Proof.
  intros Hnd. destruct (keys_setitem ps k p) as [-> | [Hnot ->]]; [exact Hnd |].
  apply NoDup_app. repeat split; [exact Hnd | | apply NoDup_singleton].
  intros x Hx Hx'. apply list_elem_of_singleton in Hx' as ->. contradiction.
Qed.


Lemma elem_getitem (ps : Parameters) (k : string) (p : Param) :
  NoDup (keys ps) -> (k, p) ∈ ps -> getitem ps k = Some p.
Proof.
  induction ps as [| [k' p'] ps IH]; intros Hnd Hin.
  - apply elem_of_nil in Hin. contradiction.
  - cbn in Hnd. apply NoDup_cons in Hnd as [Hnot Hnd].
    apply elem_of_cons in Hin as [[= -> ->] | Hin]; cbn.
    + rewrite String.eqb_refl. reflexivity.
    + destruct (String.eqb_spec k' k) as [-> | Hne]; [| apply IH; assumption].
      exfalso. apply Hnot. unfold keys.
      apply list_elem_of_fmap. exists (k, p). auto.
Qed.

Lemma varied_elem (ps : Parameters) (k : string) (p : Param) :
  (k, p) ∈ varied ps <-> (k, p) ∈ ps /\ p_vary p = true.
Proof.
  unfold varied. rewrite !list_elem_of_In, filter_In. reflexivity.
Qed.

Lemma NoDup_keys_varied (ps : Parameters) :
  NoDup (keys ps) -> NoDup (map fst (varied ps)).
Proof.
  unfold keys, varied. induction ps as [| [k p] ps IH]; intros Hnd;
    [constructor |].
  cbn [map fst] in Hnd. apply NoDup_cons in Hnd as [Hnot Hnd].
  cbn [List.filter snd]. destruct (p_vary p); [| apply IH, Hnd].
  cbn [map fst]. apply NoDup_cons. split; [| apply IH, Hnd].
  intros Hin. apply Hnot.
  apply list_elem_of_fmap in Hin as ([k' p'] & Hk & Hin). cbn in Hk. subst k'.
  apply list_elem_of_In, filter_In in Hin as [Hin _].
  apply list_elem_of_fmap. exists (k, p'). split; [reflexivity |].
  apply list_elem_of_In, Hin.
Qed.

(** A parameter that is not varied is no entry of [vn]. *)
Lemma fixed_not_free (ps : Parameters) (k : string) (p : Param) :
  NoDup (keys ps) -> getitem ps k = Some p -> p_vary p = false ->
  k ∉ snd (free_vectors ps).
Proof.
  intros Hnd Hget Hvary Hin. rewrite free_vectors_spec in Hin. cbn [snd] in Hin.
  apply list_elem_of_fmap in Hin as ([k' p'] & -> & Hin).
  unfold varied in Hin. apply list_elem_of_In, filter_In in Hin as [Hin Hv].
  apply list_elem_of_In in Hin. cbn in *.
  rewrite (elem_getitem _ _ _ Hnd Hin) in Hget. congruence.
Qed.

(** The assignment loop leaves the parameters it does not name alone. *)
Lemma getitem_assign_pure_other (vn : list string) (k : string) :
  k ∉ vn ->
  forall (vs : list pyfloat) (pc : Parameters),
    getitem (fst (assign_pure pc vn vs)) k = getitem pc k.
Proof.
  induction vn as [| k0 vn IH]; intros Hnot vs pc; [reflexivity |].
  apply not_elem_of_cons in Hnot as [Hne Hnot].
  destruct vs as [| v vs]; [reflexivity |].
  cbn [assign_pure]. destruct (getitem pc k0) as [p |]; [| reflexivity].
  destruct (out_of_range p v); [reflexivity |].
  rewrite (IH Hnot). apply getitem_setitem_ne. congruence.
Qed.


Lemma getitem_set_user_data_ne (ps : Parameters) (k k' : string)
    (u : option UFloat) :
  k <> k' -> getitem (set_user_data ps k u) k' = getitem ps k'.
Proof.
  intros Hne. unfold set_user_data.
  destruct (getitem ps k); [apply getitem_setitem_ne, Hne | reflexivity].
Qed.


Lemma getitem_eclipse_installed (base : Parameters) (name : string) (e : Expr) :
  (name, e) ∈ eclipse_exprs ->
  exists p, getitem (eclipse_installed base) name = Some p /\
            p_expr p = Some e /\ p_vary p = false.
Proof.
  intros Hin. unfold eclipse_exprs in Hin.
  unfold eclipse_installed, with_derived.
  repeat (apply elem_of_cons in Hin as [[= -> ->] | Hin]);
    [ .. | apply elem_of_nil in Hin; contradiction ].
  all: repeat first
         [ rewrite getitem_setitem_eq
         | rewrite getitem_setitem_ne by discriminate ].
  all: eexists; repeat split; reflexivity.
Qed.

Lemma getitem_transit_installed_other (base : Parameters) (u : option UFloat)
    (name : string) :
  name ∉ map fst transit_exprs ->
  getitem (transit_installed base u) name = getitem base name.
Proof.
  intros Hnot. unfold transit_exprs in Hnot. cbn [map fst] in Hnot.
  repeat (apply not_elem_of_cons in Hnot as [? Hnot]).
  unfold transit_installed, with_derived.
  repeat first
    [ rewrite getitem_setitem_ne by congruence
    | rewrite getitem_set_user_data_ne by congruence ].
  reflexivity.
Qed.

Lemma getitem_eclipse_installed_other (base : Parameters) (name : string) :
  name ∉ map fst eclipse_exprs ->
  getitem (eclipse_installed base) name = getitem base name.
Proof.
  intros Hnot. unfold eclipse_exprs in Hnot. cbn [map fst] in Hnot.
  repeat (apply not_elem_of_cons in Hnot as [? Hnot]).
  unfold eclipse_installed, with_derived.
  repeat rewrite getitem_setitem_ne by congruence.
  reflexivity.
Qed.

End DerivedInstalled.

(** ** The installation of the derived parameters *)

(** The bounds written in the module are in order and do not coincide. *)
Ltac literal_bounds :=
  first [ reflexivity
        | unfold fgt; cbn [flt]; apply Rltb_false; lra
        | apply isclose_apart; apart_closed ].

Section Installation.

Lemma add_derived_run (ps : Parameters) (name : string) (lo hi : pyfloat)
    (e : Expr) :
  fgt lo hi = false -> isclose lo hi = false ->
  add_derived ps name lo hi e
    = match asteval ps e with
      | Ret _ => Ret (with_derived ps name lo hi e)
      | Raise err => Raise err
      end.
Proof.
  intros Hord Hclose. unfold add_derived, Parameters_add.
  rewrite Parameter_new_python by assumption. cbn [rbind].
  destruct (asteval ps e); reflexivity.
Qed.

Lemma add_derived_installed (ps : Parameters) (name : string) (lo hi : pyfloat)
    (e : Expr) (ps' : Parameters) :
  fgt lo hi = false -> isclose lo hi = false ->
  add_derived ps name lo hi e = Ret ps' ->
  ps' = with_derived ps name lo hi e /\ exists v, asteval ps e = Ret v.
Proof.
  intros Hord Hclose. rewrite add_derived_run by assumption.
  destruct (asteval ps e) as [v | err]; [| discriminate].
  intros [= <-]. split; [reflexivity | exists v; reflexivity].
Qed.

(** One statement [params.add(..., expr=...)] of a run recorded in [H]. *)
Ltac derived_step H :=
  match type of H with
  | (let? _ := add_derived ?ps ?n ?lo ?hi ?e in _) = _ =>
      let ps' := fresh "ps" in
      let E := fresh "E" in
      let Hv := fresh "Hv" in
      destruct (add_derived ps n lo hi e) as [ps' | ?] eqn:E;
      [| discriminate H];
      cbn [rbind] in H;
      apply add_derived_installed in E as [-> Hv]; [| literal_bounds ..]
  | add_derived ?ps ?n ?lo ?hi ?e = _ =>
      let Hv := fresh "Hv" in
      apply add_derived_installed in H as [-> Hv]; [| literal_bounds ..]
  end.

(** When the block of [lmfit_transit] raises nothing it leaves the set
    with the seven derived parameters stored, and each expression was
    evaluated without error on the set before it. *)
Lemma transit_derived_installed (base : Parameters) (u : option UFloat)
    (ps : Parameters) :
  transit_derived base u = Ret ps -> ps = transit_installed base u.
Proof.
  intros H. unfold transit_derived in H.
  do 4 derived_step H. cbv zeta in H. do 3 derived_step H.
  reflexivity.
Qed.

Lemma eclipse_derived_installed (base ps : Parameters) :
  eclipse_derived base = Ret ps -> ps = eclipse_installed base.
Proof.
  intros H. unfold eclipse_derived in H.
  do 4 derived_step H. reflexivity.
Qed.

(** *** Reading a parameter of a set *)

Lemma value_of_plain (ps : Parameters) (x : string) (p : Param) :
  getitem ps x = Some p -> p_expr p = None -> value_of ps x = p_val p.
Proof.
  intros Hget Hexpr. unfold value_of.
  destruct ps as [| kp ps]; [discriminate |].
  cbn [length getval]. rewrite Hget, Hexpr. reflexivity.
Qed.

Lemma native_of_plain (ps : Parameters) (x : string) (p : Param) :
  getitem ps x = Some p -> p_expr p = None -> native_of ps x = p_native p.
Proof.
  intros Hget Hexpr. unfold native_of.
  destruct ps as [| kp ps]; [discriminate |].
  cbn [length getnative]. rewrite Hget, Hexpr. reflexivity.
Qed.

Lemma value_of_derived (ps : Parameters) (x : string) (p : Param) (e : Expr) :
  getitem ps x = Some p -> p_expr p = Some e ->
  exists v, value_of ps x = clip (p_min p) (p_max p) v.
Proof.
  intros Hget Hexpr. unfold value_of.
  destruct ps as [| kp ps]; [discriminate |].
  cbn [length getval]. rewrite Hget, Hexpr. eexists. reflexivity.
Qed.

Lemma clip_one_nonzero (v : pyfloat) : feq (clip (Fin 1) PInf v) (Fin 0) = false.
Proof.
  unfold clip, fgt.
  destruct v as [a | | |]; cbn [flt feq]; try reflexivity.
  - destruct (Rltb a 1) eqn:Ha; cbn [feq]; apply Reqb_false.
    + lra.
    + apply Rltb_ge in Ha. lra.
  - apply Reqb_false. lra.
Qed.

Lemma getitem_with_derived_eq (ps : Parameters) (n : string) (lo hi : pyfloat)
    (e : Expr) :
  getitem (with_derived ps n lo hi e) n
    = Some (Parameter_object n NInf true lo hi (Some e) None).
Proof. apply getitem_setitem_eq. Qed.

Lemma getitem_with_derived_ne (ps : Parameters) (n x : string) (lo hi : pyfloat)
    (e : Expr) :
  n <> x -> getitem (with_derived ps n lo hi e) x = getitem ps x.
Proof. apply getitem_setitem_ne. Qed.

(** Look [x] up in a set to which derived parameters were added. *)
Ltac lookup :=
  repeat first
    [ rewrite getitem_with_derived_eq
    | rewrite getitem_with_derived_ne by discriminate
    | rewrite getitem_set_user_data_ne by discriminate ].

Ltac lookup_in H :=
  repeat first
    [ rewrite getitem_with_derived_eq in H
    | rewrite getitem_with_derived_ne in H by discriminate
    | rewrite getitem_set_user_data_ne in H by discriminate ].

(** *** Which expressions can divide by zero *)

Lemma expr_k_safe (ps : Parameters) :
  asteval ps expr_k <> Raise ZeroDivisionError.
Proof. apply (division_safe_sound ps []); [| reflexivity]. intros x Hx. inversion Hx. Qed.

Lemma expr_aR_safe (ps : Parameters) :
  asteval ps expr_aR <> Raise ZeroDivisionError.
Proof. apply (division_safe_sound ps []); [| reflexivity]. intros x Hx. inversion Hx. Qed.

Lemma expr_e_safe (ps : Parameters) :
  asteval ps expr_e <> Raise ZeroDivisionError.
Proof. apply (division_safe_sound ps []); [| reflexivity]. intros x Hx. inversion Hx. Qed.

Lemma expr_q_1_safe (ps : Parameters) :
  asteval ps expr_q_1 <> Raise ZeroDivisionError.
Proof. apply (division_safe_sound ps []); [| reflexivity]. intros x Hx. inversion Hx. Qed.

(** The semi-major axis is read as 1 at least, or as NaN: the division by
    it in the expression of sini is none by zero. *)
Lemma expr_sini_safe (ps : Parameters) (p : Param) (e : Expr) :
  getitem ps "aR" = Some p -> p_expr p = Some e ->
  p_min p = Fin 1 -> p_max p = PInf ->
  asteval ps expr_sini <> Raise ZeroDivisionError.
Proof.
  intros Hget Hexpr Hmin Hmax.
  apply (division_safe_sound ps ["aR"%string]); [| reflexivity].
  intros x Hx. apply list_elem_of_singleton in Hx as ->.
  destruct (value_of_derived ps _ p e Hget Hexpr) as [v ->].
  rewrite Hmin, Hmax. apply clip_one_nonzero.
Qed.

Lemma expr_logrho_safe (ps : Parameters) :
  feq (value_of ps "W") (Fin 0) = false ->
  feq (value_of ps "P") (Fin 0) = false ->
  asteval ps expr_logrho <> Raise ZeroDivisionError.
Proof.
  intros HW HP.
  apply (division_safe_sound ps ["W"; "P"]%string); [| reflexivity].
  intros x Hx. apply elem_of_cons in Hx as [-> | Hx]; [exact HW |].
  apply list_elem_of_singleton in Hx as ->. exact HP.
Qed.

(** The expression of q_2 on parameters h_1 and h_2 without expression. *)
Lemma expr_q_2_run (ps : Parameters) (p1 p2 : Param) :
  getitem ps "h_1" = Some p1 -> p_expr p1 = None ->
  getitem ps "h_2" = Some p2 -> p_expr p2 = None ->
  asteval ps expr_q_2
    = if p_native p1 && p_native p2 && feq (fsub (Fin 1) (p_val p2)) (Fin 0)
      then Raise ZeroDivisionError
      else Ret (mkNum (spec_q_2 (p_val p1) (p_val p2))
                      (p_native p1 && p_native p2)).
Proof.
  intros H1 E1 H2 E2. unfold expr_q_2. cbn [asteval]. rewrite H1, H2.
  cbn [rbind num_val num_native python].
  rewrite (value_of_plain ps _ p1 H1 E1), (value_of_plain ps _ p2 H2 E2).
  rewrite (native_of_plain ps _ p1 H1 E1), (native_of_plain ps _ p2 H2 E2).
  destruct (p_native p1), (p_native p2); cbn [andb]; try reflexivity.
Qed.

(** *** The exceptions of the two blocks *)

(** One statement [params.add(..., expr=...)] of a run recorded in [H]:
    the statement raises, or the run goes on. *)
Ltac derived_case H :=
  let E := fresh "E" in
  match type of H with
  | context [add_derived ?ps ?n ?lo ?hi ?e] =>
      rewrite (add_derived_run ps n lo hi e) in H by literal_bounds;
      destruct (asteval ps e) eqn:E; cbn [rbind] in H
  end.

(** A name of the expression that is no parameter of the set: it is none
    of the derived parameters installed before, so it is missing in the
    set that the block started from. *)
Ltac missing_input Hin Hx :=
  cbn [names_of app] in Hin;
  repeat (apply elem_of_cons in Hin as [-> | Hin]);
  [ .. | apply elem_of_nil in Hin; contradiction ];
  lookup_in Hx; try discriminate Hx;
  eexists; (split; [reflexivity |]);
  (split; [unfold eclipse_inputs, transit_inputs; apply list_elem_of_In; cbn; tauto
          | exact Hx]).

(** The statement raised: [ZeroDivisionError], or [NameError] for a
    parameter that the set lacks. *)
Ltac raised H :=
  injection H as <-;
  match goal with
  | E : asteval _ _ = Raise _ |- _ =>
      let x := fresh "x" in
      let Hin := fresh "Hin" in
      let Hx := fresh "Hx" in
      destruct (asteval_raises _ _ _ E) as [-> | (x & -> & Hin & Hx)];
      [ | try right; missing_input Hin Hx ]
  end.

Lemma eclipse_derived_raises (base : Parameters) (err : exn) :
  eclipse_derived base = Raise err ->
  exists x, err = NameError x /\ x ∈ eclipse_inputs /\ getitem base x = None.
Proof.
  intros H. unfold eclipse_derived in H.
  derived_case H; [| raised H; destruct (expr_k_safe _ E)].
  derived_case H; [| raised H; destruct (expr_aR_safe _ E0)].
  derived_case H.
  2: { raised H. exfalso. revert E1.
       eapply expr_sini_safe; [lookup; reflexivity | ..]; reflexivity. }
  derived_case H; [discriminate |].
  raised H. destruct (expr_e_safe _ E2).
Qed.

(** The block of [lmfit_eclipse] raises nothing when the five parameters
    that its expressions name are in the set, whatever their values. *)
Lemma eclipse_derived_succeeds (base : Parameters) :
  (forall x, x ∈ eclipse_inputs -> is_Some (getitem base x)) ->
  eclipse_derived base = Ret (eclipse_installed base).
Proof.
  intros Hall. destruct (eclipse_derived base) as [ps | err] eqn:H.
  - apply eclipse_derived_installed in H as ->. reflexivity.
  - destruct (eclipse_derived_raises _ _ H) as (x & _ & Hin & Hx).
    destruct (Hall x Hin) as [p Hp]. congruence.
Qed.

Lemma transit_derived_raises (base : Parameters) (u : option UFloat)
    (err : exn) :
  transit_derived base u = Raise err ->
  err = ZeroDivisionError \/
  exists x, err = NameError x /\ x ∈ transit_inputs /\ getitem base x = None.
Proof.
  intros H. unfold transit_derived in H.
  do 4 (derived_case H; [| raised H; left; reflexivity]).
  cbv zeta in H.
  do 2 (derived_case H; [| raised H; left; reflexivity]).
  derived_case H; [discriminate |].
  raised H. left. reflexivity.
Qed.

(** The block of [lmfit_transit] raises nothing when the eight parameters
    that its expressions name are in the set, W and P are not zero and
    h_2 is not one. *)
Lemma transit_derived_succeeds (base : Parameters) (u : option UFloat)
    (pW pP p1 p2 : Param) :
  (forall x, x ∈ transit_inputs -> is_Some (getitem base x)) ->
  getitem base "W" = Some pW -> p_expr pW = None ->
  feq (p_val pW) (Fin 0) = false ->
  getitem base "P" = Some pP -> p_expr pP = None ->
  feq (p_val pP) (Fin 0) = false ->
  getitem base "h_1" = Some p1 -> p_expr p1 = None ->
  getitem base "h_2" = Some p2 -> p_expr p2 = None ->
  feq (fsub (Fin 1) (p_val p2)) (Fin 0) = false ->
  transit_derived base u = Ret (transit_installed base u).
Proof.
  intros Hall HW EW ZW HP EP ZP H1 E1 H2 E2 Z2.
  destruct (transit_derived base u) as [ps | err] eqn:H.
  { apply transit_derived_installed in H as ->. reflexivity. }
  exfalso.
  destruct (transit_derived_raises _ _ _ H) as [-> | (x & _ & Hin & Hx)];
    [| destruct (Hall x Hin) as [p Hp]; congruence].
  unfold transit_derived in H.
  derived_case H; [| injection H as ->; exact (expr_k_safe _ E)].
  derived_case H; [| injection H as ->; exact (expr_aR_safe _ E0)].
  derived_case H.
  2: { injection H as ->. revert E3.
       eapply expr_sini_safe; [lookup; reflexivity | ..]; reflexivity. }
  derived_case H.
  2: { injection H as ->. revert E4. apply expr_logrho_safe.
       - erewrite value_of_plain; [exact ZW | lookup; exact HW | exact EW].
       - erewrite value_of_plain; [exact ZP | lookup; exact HP | exact EP]. }
  cbv zeta in H.
  derived_case H; [| injection H as ->; exact (expr_e_safe _ E5)].
  derived_case H; [| injection H as ->; exact (expr_q_1_safe _ E6)].
  derived_case H; [discriminate |].
  injection H as ->.
  erewrite expr_q_2_run in E7;
    [| lookup; exact H1 | exact E1 | lookup; exact H2 | exact E2].
  rewrite Z2, andb_false_r in E7. discriminate.
Qed.


End Installation.

Lemma NoDup_keys_example_base : NoDup (keys example_base).
Proof.
  unfold keys, example_base. cbn [map fst].
  apply (bool_decide_unpack _). vm_compute. reflexivity.
Qed.

Section DerivedExample.

#[local] Arguments Rltb : simpl never.
#[local] Arguments Reqb : simpl never.

Lemma sqrt_004 : sqrt 0.04 = 0.2%R.
Proof.
  replace 0.04%R with (0.2 * 0.2)%R by lra. apply sqrt_square. lra.
Qed.

(** The radius ratio follows the depth: once the proposal has set D to
    0.04 the value read for k is 0.2, although nothing was assigned to k. *)
Example derived_value_follows_proposal :
  exists p,
    getitem (with_values example_params example_vn [Fin 0.04; Fin 0.1; Fin 0.3])
            "k" = Some p /\
    param_value
      (with_values example_params example_vn [Fin 0.04; Fin 0.1; Fin 0.3]) p
      = Fin 0.2.
Proof.
  eexists. split.
  - unfold with_values, example_vn, example_params.
    cbn [assign_pure getitem String.eqb Ascii.eqb Bool.eqb].
    unfold out_of_range, Parameter_object, set_value, clip, fgt; cbn; rdecide; cbn.
    reflexivity.
  - unfold param_value. cbn [p_expr p_min p_max].
    unfold with_values, example_vn, example_params.
    cbn [assign_pure getitem String.eqb Ascii.eqb Bool.eqb].
    unfold out_of_range, Parameter_object, set_value, clip, fgt; cbn; rdecide; cbn.
    rewrite (Rltb_false 0.04 0) by lra. rewrite sqrt_004. cbn.
    rewrite (Rltb_false 1 0.2) by lra. rewrite (Rltb_false 0.2 0) by lra.
    reflexivity.
Qed.

End DerivedExample.

(** ** The working copy holds the proposal *)

Section ProposalStored.

Lemma components_in_range_setitem (ps : Parameters) (k : string) (p : Param)
    (v : pyfloat) (vn : list string) (vs : list pyfloat) :
  getitem ps k = Some p ->
  components_in_range ps vn vs ->
  components_in_range (setitem ps k (set_value p v)) vn vs.
Proof.
  intros Hget Hin. unfold components_in_range in *.
  eapply Forall2_impl; [exact Hin |].
  intros k' v' (p' & Hget' & Hout').
  destruct (String.eqb_spec k k') as [<- | Hne].
  - exists (set_value p v). rewrite getitem_setitem_eq.
    rewrite Hget in Hget'. injection Hget' as <-. auto.
  - exists p'. rewrite getitem_setitem_ne by exact Hne. auto.
Qed.

Lemma set_value_in_range (p : Param) (v : pyfloat) :
  out_of_range p v = false -> p_val (set_value p v) = v.
Proof.
  unfold out_of_range, set_value, clip. cbn [p_val]. intros H.
  apply orb_false_iff in H as [-> ->]. reflexivity.
Qed.

(** After the loop, each free parameter holds its component of a proposal
    within the bounds, exactly as proposed. *)
Lemma with_values_stores (vn : list string) :
  NoDup vn ->
  forall (vs : list pyfloat) (ps : Parameters),
    components_in_range ps vn vs ->
    forall i k v, vn !! i = Some k -> vs !! i = Some v ->
      exists p, getitem (with_values ps vn vs) k = Some p /\ p_val p = v.
Proof.
  induction vn as [| k0 vn IH]; intros Hnd vs ps Hin i k v Hk Hv.
  - rewrite lookup_nil in Hk. discriminate.
  - apply NoDup_cons in Hnd as [Hnot Hnd].
    unfold components_in_range in Hin.
    destruct vs as [| v0 vs]; [inversion Hin |].
    apply Forall2_cons_1 in Hin as [(p0 & Hget & Hout) Hrest].
    unfold with_values. cbn [assign_pure]. rewrite Hget, Hout.
    destruct i as [| i]; cbn in Hk, Hv.
    + injection Hk as <-. injection Hv as <-.
      rewrite (getitem_assign_pure_other _ _ Hnot), getitem_setitem_eq.
      eexists. split; [reflexivity |].
      apply set_value_in_range, Hout.
    + apply (IH Hnd vs _ (components_in_range_setitem _ _ _ _ _ _ Hget Hrest)
                i k v Hk Hv).
Qed.

End ProposalStored.

(** ** Reading the derived parameters at a proposal *)

Section ReadingDerived.

Lemma getval_S (n : nat) (ps : Parameters) (k : string) :
  getval (S n) ps k
  = match getitem ps k with
    | None => NaN
    | Some p =>
        match p_expr p with
        | None => p_val p
        | Some e => clip (p_min p) (p_max p) (eval_expr (getval n ps) e)
        end
    end.
Proof. reflexivity. Qed.

(** An expression reads only the parameters that it names. *)
Lemma eval_expr_ext (env1 env2 : string -> pyfloat) (e : Expr) :
  (forall x, x ∈ names_of e -> env1 x = env2 x) ->
  eval_expr env1 e = eval_expr env2 e.
Proof.
  induction e as [x | c | | a IHa b IHb | a IHa b IHb | a IHa b IHb | a IHa b IHb
                 | a IHa n | a IHa y | a IHa | a IHa | a IHa];
    cbn [eval_expr names_of]; intros H; try reflexivity.
  - apply H, list_elem_of_singleton. reflexivity.
  - rewrite IHa, IHb; [reflexivity | |]; intros x Hx; apply H, elem_of_app; auto.
  - rewrite IHa, IHb; [reflexivity | |]; intros x Hx; apply H, elem_of_app; auto.
  - rewrite IHa, IHb; [reflexivity | |]; intros x Hx; apply H, elem_of_app; auto.
  - rewrite IHa, IHb; [reflexivity | |]; intros x Hx; apply H, elem_of_app; auto.
  - rewrite IHa by exact H. reflexivity.
  - rewrite IHa by exact H. reflexivity.
  - rewrite IHa by exact H. reflexivity.
  - rewrite IHa by exact H. reflexivity.
  - rewrite IHa by exact H. reflexivity.
Qed.

Variable pc : Parameters.

Lemma settled_plain (x : string) : plain pc x -> settled pc 1 x.
Proof.
  intros (p & Hget & Hexpr) m Hm. destruct m as [| m]; [lia |].
  rewrite !getval_S, Hget, Hexpr. reflexivity.
Qed.

Lemma settled_mono (d d' : nat) (x : string) :
  settled pc d x -> (d <= d')%nat -> settled pc d' x.
Proof.
  intros H Hle m Hm. rewrite (H m), (H d') by lia. reflexivity.
Qed.

(** A parameter with an expression is read one level above the parameters
    that the expression names. *)
Lemma settled_expr (d : nat) (x : string) (p : Param) (e : Expr) :
  getitem pc x = Some p -> p_expr p = Some e ->
  (forall y, y ∈ names_of e -> settled pc d y) ->
  settled pc (S d) x.
Proof.
  intros Hget Hexpr Hall m Hm. destruct m as [| m]; [lia |].
  rewrite !getval_S, Hget, Hexpr. f_equal. apply eval_expr_ext.
  intros y Hy. apply (Hall y Hy). lia.
Qed.

(** With enough parameters in the set, the value read for a parameter with
    an expression is the expression on the values read for the parameters
    that it names, limited to the bounds. *)
Lemma value_of_settled_expr (d : nat) (x : string) (p : Param) (e : Expr) :
  getitem pc x = Some p -> p_expr p = Some e ->
  (forall y, y ∈ names_of e -> settled pc d y) ->
  (d < length pc)%nat ->
  value_of pc x = clip (p_min p) (p_max p) (eval_expr (value_of pc) e).
Proof.
  intros Hget Hexpr Hall Hlen. unfold value_of at 1.
  destruct (length pc) as [| m] eqn:Hm; [lia |].
  rewrite getval_S, Hget, Hexpr. f_equal. apply eval_expr_ext.
  intros y Hy. unfold value_of. rewrite Hm.
  rewrite (Hall y Hy m), (Hall y Hy (S m)) by lia. reflexivity.
Qed.

Lemma getitem_key (x : string) : is_Some (getitem pc x) -> x ∈ keys pc.
Proof.
  intros [p Hp]. apply getitem_elem in Hp. unfold keys.
  apply list_elem_of_fmap. exists (x, p). auto.
Qed.

(** A set holds at least as many parameters as it has distinct names. *)
Lemma length_present (l : list string) :
  NoDup l -> (forall x, x ∈ l -> is_Some (getitem pc x)) ->
  (length l <= length pc)%nat.
Proof.
  intros Hnd Hall. rewrite <- (length_map fst pc). fold (keys pc).
  apply submseteq_length, NoDup_submseteq; [exact Hnd |].
  intros x Hx. apply getitem_key, Hall, Hx.
Qed.

Lemma param_value_expr (p : Param) (e : Expr) :
  p_expr p = Some e ->
  param_value pc p = clip (p_min p) (p_max p) (eval_expr (value_of pc) e).
Proof. intros H. unfold param_value. rewrite H. reflexivity. Qed.

End ReadingDerived.

(** The assignment loop keeps a parameter without expression so. *)
Lemma plain_assign_pure (vn : list string) (x : string) :
  forall (vs : list pyfloat) (pc : Parameters),
    plain pc x -> plain (fst (assign_pure pc vn vs)) x.
Proof.
  induction vn as [| k vn IH]; intros vs pc H; [exact H |].
  destruct vs as [| v vs]; [exact H |].
  cbn [assign_pure]. destruct (getitem pc k) as [p |] eqn:Hget; [| exact H].
  destruct (out_of_range p v); [exact H |].
  apply IH. destruct H as (q & Hq & Hexpr). unfold plain.
  rewrite getitem_setitem. destruct (String.eqb_spec k x) as [-> | Hne];
    [| exists q; auto].
  exists (set_value p v). split; [reflexivity |].
  cbn [set_value p_expr]. congruence.
Qed.

(** The names in the seven expressions are the eight parameters of the
    light-curve model and the derived parameters k and aR. *)
Ltac named Hy :=
  cbn [names_of app] in Hy;
  repeat (apply elem_of_cons in Hy as [-> | Hy]);
  [ .. | apply elem_of_nil in Hy; contradiction ].

Section DerivedRead.

Variable pc : Parameters.
Hypothesis have_k : exists p, getitem pc "k" = Some p /\ p_expr p = Some expr_k.
Hypothesis have_aR : exists p, getitem pc "aR" = Some p /\ p_expr p = Some expr_aR.
Hypothesis plain_D : plain pc "D".
Hypothesis plain_W : plain pc "W".
Hypothesis plain_b : plain pc "b".

Lemma settled_k : settled pc 2 "k".
Proof.
  destruct have_k as (p & Hget & Hexpr).
  apply (settled_expr pc 1 _ p expr_k Hget Hexpr).
  intros y Hy. named Hy. apply settled_plain, plain_D.
Qed.

Lemma settled_aR : settled pc 3 "aR".
Proof.
  destruct have_aR as (p & Hget & Hexpr).
  apply (settled_expr pc 2 _ p expr_aR Hget Hexpr).
  intros y Hy. named Hy;
    first [ exact settled_k
          | eapply settled_mono; [apply settled_plain; assumption | lia] ].
Qed.

(** The value read for a parameter whose expression names parameters
    without expression, k and aR. *)
Lemma value_of_derived_expr (x : string) (p : Param) (e : Expr) :
  getitem pc x = Some p -> p_expr p = Some e ->
  (forall y, y ∈ names_of e -> plain pc y \/ y = "k"%string \/ y = "aR"%string) ->
  (4 <= length pc)%nat ->
  value_of pc x = clip (p_min p) (p_max p) (eval_expr (value_of pc) e).
Proof.
  intros Hget Hexpr Hnames Hlen.
  apply (value_of_settled_expr pc 3 x p e Hget Hexpr); [| lia].
  intros y Hy. destruct (Hnames y Hy) as [Hp | [-> | ->]].
  - eapply settled_mono; [apply settled_plain, Hp | lia].
  - eapply settled_mono; [exact settled_k | lia].
  - exact settled_aR.
Qed.

End DerivedRead.

(** ** The derived parameters at a proposal *)

Section AtProposal.

Lemma length_assign_pure (vn : list string) :
  forall (vs : list pyfloat) (pc : Parameters),
    length (fst (assign_pure pc vn vs)) = length pc.
Proof.
  induction vn as [| k vn IH]; intros vs pc; [reflexivity |].
  destruct vs as [| v vs]; [reflexivity |].
  cbn [assign_pure]. destruct (getitem pc k) as [p |] eqn:Hget; [| reflexivity].
  destruct (out_of_range p v); [reflexivity |].
  rewrite IH. eapply length_setitem_present, Hget.
Qed.

Lemma NoDup_free_names (ps : Parameters) :
  NoDup (keys ps) -> NoDup (snd (free_vectors ps)).
Proof.
  intros Hnd. rewrite free_vectors_spec. cbn [snd].
  apply NoDup_keys_varied, Hnd.
Qed.

Variables (ps : Parameters) (pos : list pyfloat).
Hypothesis dictionary : NoDup (keys ps).

(** A parameter that is not varied is the same in the working copy. *)
Lemma with_values_fixed (x : string) (p : Param) :
  getitem ps x = Some p -> p_vary p = false ->
  (x ∉ snd (free_vectors ps)) /\
  getitem (with_values ps (snd (free_vectors ps)) pos) x = Some p.
Proof.
  intros Hget Hvary.
  assert (Hfree : x ∉ snd (free_vectors ps))
    by (eapply fixed_not_free; eassumption).
  split; [exact Hfree |].
  unfold with_values. rewrite (getitem_assign_pure_other _ _ Hfree). exact Hget.
Qed.

(** A parameter without expression is read as stored: as in the set when
    the loop does not name it, and as proposed when it does and the
    proposal is within the bounds. *)
Lemma input_at_proposal (x : string) :
  plain ps x ->
  plain (with_values ps (snd (free_vectors ps)) pos) x /\
  (x ∉ snd (free_vectors ps) ->
   value_of (with_values ps (snd (free_vectors ps)) pos) x = value_of ps x) /\
  (components_in_range ps (snd (free_vectors ps)) pos ->
   forall i c, snd (free_vectors ps) !! i = Some x -> pos !! i = Some c ->
     value_of (with_values ps (snd (free_vectors ps)) pos) x = c).
Proof.
  intros Hplain.
  assert (Hpc : plain (with_values ps (snd (free_vectors ps)) pos) x)
    by (apply plain_assign_pure, Hplain).
  split; [exact Hpc | split].
  - intros Hfree. destruct Hplain as (p & Hget & Hexpr).
    rewrite (value_of_plain ps x p Hget Hexpr).
    apply value_of_plain; [| exact Hexpr].
    unfold with_values. rewrite (getitem_assign_pure_other _ _ Hfree). exact Hget.
  - intros Hin i c Hi Hc.
    destruct (with_values_stores _ (NoDup_free_names ps dictionary) pos ps Hin
                i x c Hi Hc) as (p & Hget & Hval).
    destruct Hpc as (q & Hq & Hexpr).
    rewrite Hget in Hq. injection Hq as <-.
    rewrite (value_of_plain _ x p Hget Hexpr). exact Hval.
Qed.

Hypothesis have_k :
  exists q, getitem ps "k" = Some q /\ p_expr q = Some expr_k /\ p_vary q = false.
Hypothesis have_aR :
  exists q, getitem ps "aR" = Some q /\ p_expr q = Some expr_aR /\ p_vary q = false.
Hypothesis plain_D : plain ps "D".
Hypothesis plain_W : plain ps "W".
Hypothesis plain_b : plain ps "b".
Hypothesis four : (4 <= length ps)%nat.

(** A derived parameter is no entry of [vn], the loop leaves it as it is,
    and the value read for it in the working copy is its expression on
    the values read there, limited to its bounds. *)
Lemma derived_at_proposal (x : string) (p : Param) (e : Expr) :
  getitem ps x = Some p -> p_expr p = Some e -> p_vary p = false ->
  (forall y, y ∈ names_of e -> plain ps y \/ y = "k"%string \/ y = "aR"%string) ->
  (x ∉ snd (free_vectors ps)) /\
  getitem (with_values ps (snd (free_vectors ps)) pos) x = Some p /\
  value_of (with_values ps (snd (free_vectors ps)) pos) x
    = clip (p_min p) (p_max p)
           (eval_expr (value_of (with_values ps (snd (free_vectors ps)) pos)) e).
Proof.
  intros Hget Hexpr Hvary Hnames.
  destruct (with_values_fixed x p Hget Hvary) as [Hfree Hpc].
  split; [exact Hfree | split; [exact Hpc |]].
  destruct have_k as (qk & Hk & Ek & Vk). destruct have_aR as (qa & Ha & Ea & Va).
  apply value_of_derived_expr; try assumption.
  - exists qk. split; [apply (with_values_fixed _ _ Hk Vk) | exact Ek].
  - exists qa. split; [apply (with_values_fixed _ _ Ha Va) | exact Ea].
  - apply plain_assign_pure, plain_D.
  - apply plain_assign_pure, plain_W.
  - apply plain_assign_pure, plain_b.
  - intros y Hy. destruct (Hnames y Hy) as [Hp | Hd]; [left | right; exact Hd].
    apply plain_assign_pure, Hp.
  - unfold with_values. rewrite length_assign_pure. exact four.
Qed.

End AtProposal.

(** A name of the second list is none of the first. *)
Ltac other_name Hx :=
  unfold transit_inputs, eclipse_inputs, transit_only in Hx;
  repeat (apply elem_of_cons in Hx as [-> | Hx]);
  [ .. | apply elem_of_nil in Hx; contradiction ];
  cbn [map fst transit_exprs eclipse_exprs];
  let H := fresh "H" in
  intros H; repeat (apply elem_of_cons in H as [H | H]; [discriminate H |]);
  apply elem_of_nil in H; contradiction.

Ltac in_list := apply list_elem_of_In; cbn; tauto.

Section TransitRecomputed.

Variables (base : Parameters) (u : option UFloat).
Hypothesis dictionary : NoDup (keys base).
Hypothesis inputs : Forall (plain base) transit_inputs.






End TransitRecomputed.


Section TransitExample.

#[local] Arguments Rltb : simpl never.
#[local] Arguments Reqb : simpl never.


Lemma example_base_present (inputs : list string) :
  inputs = transit_inputs \/ inputs = eclipse_inputs ->
  forall x, x ∈ inputs -> is_Some (getitem example_base x).
Proof.
  intros [-> | ->] x Hx; unfold transit_inputs, eclipse_inputs in Hx;
    repeat (apply elem_of_cons in Hx as [-> | Hx]);
    try (apply elem_of_nil in Hx; contradiction);
    eexists; reflexivity.
Qed.

Lemma example_transit_derived :
  transit_derived example_base None = Ret (transit_installed example_base None).
Proof.
  eapply transit_derived_succeeds;
    [ apply example_base_present; left; reflexivity
    | reflexivity | reflexivity | | reflexivity | reflexivity |
    | reflexivity | reflexivity | reflexivity | reflexivity | ].
  all: unfold Parameter_object, clip, fgt; cbn; rdecide; cbn; rdecide; reflexivity.
Qed.



End TransitExample.


(* ================================================================== *)
(** * Part III: further properties of the code                         *)
(* ================================================================== *)

(** ** Exceptions raised by the target functions *)

Section AssignPrefix.

(** The assignment loop on a list of names whose first part [pre] is
    matched by components within the bounds: those are assigned, and the
    loop goes on with the rest of the names. *)
Lemma assign_proposal_app (parcopy : loc) (pos : list pyfloat)
    (rest : list string) (pre : list string) :
  forall (vs : list pyfloat) (i : nat) (s : store) (pc : Parameters),
    pheap s !! parcopy = Some pc ->
    components_in_range pc pre vs ->
    take (length pre) (drop i pos) = vs ->
    assign_proposal parcopy (pre ++ rest) pos i s =
      assign_proposal parcopy rest pos (i + length pre)
        (mkStore (<[parcopy := with_values pc pre vs]> (pheap s)) (gheap s)).
Proof.
  induction pre as [| k pre IH]; intros vs i s pc Hpc Hin Htake.
  - cbn [app length]. rewrite Nat.add_0_r.
    unfold with_values. cbn [assign_pure fst].
    rewrite store_insert_id by exact Hpc. reflexivity.
  - unfold components_in_range in Hin.
    destruct vs as [| v vs']; [inversion Hin |].
    apply Forall2_cons_1 in Hin as [(p & Hp & Hout) Hrest].
    assert (Hi : pos !! i = Some v).
    { rewrite <- (Nat.add_0_r i), <- lookup_drop.
      destruct (drop i pos) as [| x l]; cbn in Htake; [discriminate |].
      injection Htake as -> _. reflexivity. }
    assert (Htake' : take (length pre) (drop (S i) pos) = vs').
    { replace (S i) with (i + 1)%nat by lia. rewrite <- drop_drop.
      destruct (drop i pos) as [| x l]; cbn in Htake; [discriminate |].
      injection Htake as _ <-. reflexivity. }
    cbn [app assign_proposal]. rewrite Hi.
    unfold bind at 1. unfold getitem_at, bind, read_params. rewrite Hpc, Hp.
    unfold ret at 1. fold (out_of_range p v). rewrite Hout.
    unfold set_value_at, bind, read_params, write_params. rewrite Hpc, Hp.
    rewrite (IH vs' (S i) _ (setitem pc k (set_value p v))).
    + cbn [pheap gheap length]. rewrite insert_insert_eq.
      unfold with_values. cbn [assign_pure]. rewrite Hp, Hout.
      replace (S i + length pre)%nat with (i + S (length pre))%nat by lia.
      reflexivity.
    + cbn. apply lookup_insert_eq.
    + apply components_in_range_setitem; assumption.
    + exact Htake'.
Qed.

Lemma getitem_with_values_None (ps : Parameters) (vn : list string)
    (vs : list pyfloat) (k : string) :
  getitem ps k = None -> getitem (with_values ps vn vs) k = None.
Proof.
  intros Hnone. apply eq_None_not_Some. intros Hsome.
  apply (is_Some_getitem_assign_pure vn k vs ps) in Hsome.
  rewrite Hnone in Hsome. destruct Hsome as [x Hx]. discriminate.
Qed.

End AssignPrefix.

Section PosteriorErrors.

Variables (pos : list pyfloat) (model : Model) (time flux flux_err : list pyfloat).
Variables (params : loc) (vn : list string) (gp : GP).

(** An exception of the common part is the outcome of both functions. *)
Lemma posterior_of_head_raise (return_fit : bool) (s : store) (e : exn) :
  fst (posterior_head pos model time params vn return_fit s) = Raise e ->
  fst (_log_posterior_jitter pos model time flux flux_err params vn
         return_fit s) = Raise e /\
  fst (_log_posterior_SHOTerm pos model time flux flux_err params vn gp
         return_fit s) = Raise e.
Proof.
  intros H. unfold _log_posterior_jitter, _log_posterior_SHOTerm, bind.
  destruct (posterior_head pos model time params vn return_fit s) as [r s'].
  cbn in H. subst r. split; reflexivity.
Qed.

(** An exception of the assignment loop is the outcome of the common
    part. *)
Lemma head_of_assign_raise (return_fit : bool) (s : store) (ps : Parameters)
    (e : exn) :
  pheap s !! params = Some ps ->
  fst (assign_proposal (fresh (dom (pheap s))) vn pos 0
         (mkStore (<[fresh (dom (pheap s)) := ps]> (pheap s)) (gheap s)))
    = Raise e ->
  fst (posterior_head pos model time params vn return_fit s) = Raise e.
Proof.
  intros Hps H. unfold posterior_head. unfold bind at 1.
  rewrite (Parameters_copy_run _ _ _ Hps). unfold bind at 1.
  destruct (assign_proposal _ vn pos 0 _) as [r s'].
  cbn in H. subst r. reflexivity.
Qed.

(** A proposal with fewer components than there are free parameters makes
    both target functions raise [IndexError], at the first name without a
    component, when the components it has lie within their bounds. *)
Theorem log_posterior_short_proposal (return_fit : bool) (s : store)
    (ps : Parameters) :
  pheap s !! params = Some ps ->
  (length pos < length vn)%nat ->
  components_in_range ps (take (length pos) vn) pos ->
  fst (_log_posterior_jitter pos model time flux flux_err params vn
         return_fit s) = Raise IndexError /\
  fst (_log_posterior_SHOTerm pos model time flux flux_err params vn gp
         return_fit s) = Raise IndexError.
Proof.
  intros Hps Hlen Hin. apply posterior_of_head_raise.
  apply (head_of_assign_raise _ _ _ _ Hps).
  rewrite <- (take_drop (length pos) vn) at 1.
  destruct (drop (length pos) vn) as [| k rest] eqn:Hdrop.
  { apply (f_equal length) in Hdrop. rewrite length_drop in Hdrop.
    cbn in Hdrop. lia. }
  rewrite (assign_proposal_app _ pos (k :: rest) _ pos 0 _ ps);
    [| cbn; apply lookup_insert_eq | exact Hin |].
  2:{ rewrite drop_0, length_take. apply take_ge. lia. }
  cbn [assign_proposal].
  rewrite length_take, Nat.min_l by lia. cbn [Nat.add].
  rewrite (lookup_ge_None_2 pos (length pos)) by lia. reflexivity.
Qed.

(** A name of [vn] that is no key of the parameter set makes both target
    functions raise [KeyError] for that name, when the components before
    it lie within their bounds and the proposal has a component for it. *)
Theorem log_posterior_unknown_name (return_fit : bool) (s : store)
    (ps : Parameters) (j : nat) (k : string) (v : pyfloat) :
  pheap s !! params = Some ps ->
  vn !! j = Some k ->
  pos !! j = Some v ->
  components_in_range ps (take j vn) (take j pos) ->
  getitem ps k = None ->
  fst (_log_posterior_jitter pos model time flux flux_err params vn
         return_fit s) = Raise (KeyError k) /\
  fst (_log_posterior_SHOTerm pos model time flux flux_err params vn gp
         return_fit s) = Raise (KeyError k).
Proof.
  intros Hps Hk Hv Hin Hnone. apply posterior_of_head_raise.
  apply (head_of_assign_raise _ _ _ _ Hps).
  rewrite <- (take_drop_middle vn j k Hk) at 1.
  assert (Hj : (j < length vn)%nat) by (eapply lookup_lt_Some; exact Hk).
  rewrite (assign_proposal_app _ pos (k :: drop (S j) vn) _ (take j pos) 0 _ ps);
    [| cbn; apply lookup_insert_eq | exact Hin |].
  2:{ rewrite drop_0, length_take, Nat.min_l by lia. reflexivity. }
  cbn [assign_proposal].
  rewrite length_take, Nat.min_l by lia. cbn [Nat.add]. rewrite Hv.
  unfold bind at 1. unfold getitem_at, bind, read_params. cbn [pheap].
  rewrite lookup_insert_eq.
  rewrite (getitem_with_values_None _ _ _ _ Hnone). reflexivity.
Qed.

(** Without one of D, W and b in the parameter set, a call with
    [return_fit] false on a proposal within the bounds and a finite model
    output raises [KeyError] for the first of the three that is missing:
    the geometric prior reads all three. *)
Theorem log_posterior_needs_D_W_b (s : store) (ps : Parameters) (k : string) :
  pheap s !! params = Some ps ->
  components_in_range ps vn pos ->
  has_nonfinite (model (with_values ps vn pos) time) = false ->
  first_missing ps ["D"; "W"; "b"]%string = Some k ->
  fst (_log_posterior_jitter pos model time flux flux_err params vn
         false s) = Raise (KeyError k) /\
  fst (_log_posterior_SHOTerm pos model time flux flux_err params vn gp
         false s) = Raise (KeyError k).
Proof.
  intros Hps Hin Hfit Hmiss. apply posterior_of_head_raise.
  rewrite (posterior_head_eval pos model time params vn false s ps Hps
             (components_in_range_proposal _ _ _ Hin)).
  rewrite (assign_pure_accepts _ _ _ Hin).
  unfold posterior_checks. rewrite Hfit.
  unfold first_missing in Hmiss. cbn [List.find] in Hmiss.
  assert (Hitem : forall n, getitem ps n = None ->
            item (with_values ps vn pos) n = Raise (KeyError n)).
  { intros n Hn. unfold item.
    rewrite (getitem_with_values_None _ _ _ _ Hn). reflexivity. }
  assert (Hsome : forall n p, getitem ps n = Some p ->
            exists p', item (with_values ps vn pos) n = Ret p').
  { intros n p Hn. apply item_is_Some. unfold with_values.
    apply is_Some_getitem_assign_pure. eexists; exact Hn. }
  destruct (getitem ps "D") as [pD |] eqn:HD.
  2:{ injection Hmiss as <-. rewrite (Hitem _ HD). reflexivity. }
  destruct (Hsome _ _ HD) as [pD' ->]. cbn [rbind].
  destruct (getitem ps "W") as [pW |] eqn:HW.
  2:{ injection Hmiss as <-. rewrite (Hitem _ HW). reflexivity. }
  destruct (Hsome _ _ HW) as [pW' ->]. cbn [rbind].
  destruct (getitem ps "b") as [pb |] eqn:Hb.
  2:{ injection Hmiss as <-. rewrite (Hitem _ Hb). reflexivity. }
  discriminate.
Qed.

End PosteriorErrors.

(** Evaluation of the range tests of the examples. *)
Ltac bounds_eval :=
  unfold out_of_range, Parameter_object, set_value, clip, fgt; cbn; rdecide; cbn.

Section ErrorExamples.

#[local] Arguments Rltb : simpl never.
#[local] Arguments Reqb : simpl never.

Lemma example_pos_short_in_range :
  components_in_range example_params (take (length example_pos_short) example_vn)
                      example_pos_short.
Proof.
  unfold components_in_range, example_vn, example_pos_short. cbn [length take].
  repeat (constructor; [eexists; split; [reflexivity | bounds_eval; reflexivity] |]).
  constructor.
Qed.

Lemma example_unknown_prefix_in_range :
  components_in_range example_params (take 1 example_vn_unknown)
                      (take 1 example_pos).
Proof.
  unfold components_in_range, example_vn_unknown, example_pos. cbn [take].
  repeat (constructor; [eexists; split; [reflexivity | bounds_eval; reflexivity] |]).
  constructor.
Qed.

Lemma example_no_b_in_range :
  components_in_range example_params_no_b ["D"; "W"]%string example_pos_short.
Proof.
  unfold components_in_range, example_params_no_b, example_pos_short.
  repeat (constructor; [eexists; split; [reflexivity | bounds_eval; reflexivity] |]).
  constructor.
Qed.

End ErrorExamples.

Lemma log_posterior_short_proposal_witness :
  fst (_log_posterior_jitter example_pos_short unit_model [Fin 0] [Fin 1] [Fin 1]
         0%nat example_vn false example_store) = Raise IndexError /\
  fst (_log_posterior_SHOTerm example_pos_short unit_model [Fin 0] [Fin 1] [Fin 1]
         0%nat example_vn example_gp false example_store) = Raise IndexError.
Proof.
  apply (log_posterior_short_proposal example_pos_short unit_model [Fin 0]
           [Fin 1] [Fin 1] 0%nat example_vn example_gp false example_store
           example_params eq_refl).
  - cbn. lia.
  - exact example_pos_short_in_range.
Defined.

Lemma log_posterior_unknown_name_witness :
  fst (_log_posterior_jitter example_pos unit_model [Fin 0] [Fin 1] [Fin 1]
         0%nat example_vn_unknown false example_store)
    = Raise (KeyError "ecosw") /\
  fst (_log_posterior_SHOTerm example_pos unit_model [Fin 0] [Fin 1] [Fin 1]
         0%nat example_vn_unknown example_gp false example_store)
    = Raise (KeyError "ecosw").
Proof.
  apply (log_posterior_unknown_name example_pos unit_model [Fin 0]
           [Fin 1] [Fin 1] 0%nat example_vn_unknown example_gp false
           example_store example_params 1%nat "ecosw"%string (Fin 0.1)
           eq_refl eq_refl eq_refl example_unknown_prefix_in_range eq_refl).
Defined.

Lemma log_posterior_needs_D_W_b_witness :
  fst (_log_posterior_jitter example_pos_short unit_model [Fin 0] [Fin 1] [Fin 1]
         0%nat ["D"; "W"]%string false example_store_no_b)
    = Raise (KeyError "b") /\
  fst (_log_posterior_SHOTerm example_pos_short unit_model [Fin 0] [Fin 1] [Fin 1]
         0%nat ["D"; "W"]%string example_gp false example_store_no_b)
    = Raise (KeyError "b").
Proof.
  apply (log_posterior_needs_D_W_b example_pos_short unit_model [Fin 0]
           [Fin 1] [Fin 1] 0%nat ["D"; "W"]%string example_gp
           example_store_no_b example_params_no_b "b"%string
           eq_refl example_no_b_in_range eq_refl eq_refl).
Defined.

(** ** The value of the target functions on an accepted proposal *)

Section PriorLoop.





End PriorLoop.

Section PosteriorValue.

Variables (pos : list pyfloat) (model : Model) (time flux flux_err : list pyfloat).
Variables (params : loc) (vn : list string) (gp : GP).


Lemma value_at_item_value (l : loc) (k : string) (s : store) (pc : Parameters) :
  pheap s !! l = Some pc ->
  is_Some (getitem pc k) ->
  value_at l k s = (Ret (item_value pc k), s).
Proof.
  intros Hl [p Hp]. unfold value_at, bind, read_params, lift, item, item_value.
  rewrite Hl, Hp. reflexivity.
Qed.





(** The GP object is written only by the GP target function and only for
    a proposal that reaches the likelihood: the independent-noise function
    never writes to a GP object, and the GP function leaves it as it is
    when it returns the model output ([return_fit] true) or rejects the
    proposal for a component out of its bounds, for a non-finite model
    output, or (D, W and b being present) for a parameter out of its
    bounds or NaN. *)
Theorem gp_written_only_on_acceptance (return_fit : bool) (s : store)
    (ps : Parameters) :
  pheap s !! params = Some ps ->
  proposal_for ps vn pos ->
  gheap (snd (_log_posterior_jitter pos model time flux flux_err params vn
                return_fit s)) = gheap s /\
  (return_fit = true \/
   component_out_of_range ps vn pos \/
   has_nonfinite (model (with_values ps vn pos) time) = true \/
   (is_Some (getitem ps "D") /\ is_Some (getitem ps "W") /\
    is_Some (getitem ps "b") /\ parameter_rejected (with_values ps vn pos)) ->
   gheap (snd (_log_posterior_SHOTerm pos model time flux flux_err params vn gp
                 return_fit s)) = gheap s).
Proof.
  intros Hps Hfor. split.
  - unfold _log_posterior_jitter. unfold bind at 1.
    pose proof (posterior_head_frame pos model time params vn return_fit s)
      as [_ Hg].
    destruct (posterior_head pos model time params vn return_fit s)
      as [[[[[l fit] lnprior] | v] | e] s']; cbn [snd] in Hg; cbn;
      try exact Hg.
    unfold bind.
    pose proof (readonly_value_at l "log_sigma" s') as Hro.
    destruct (value_at l "log_sigma" s') as [[x | e] s'']; cbn in Hro;
      subst s''; exact Hg.
  - intros Hcase.
    assert (Hret : exists v,
              fst (posterior_head pos model time params vn return_fit s)
                = Ret (Return v)).
    { rewrite (posterior_head_eval pos model time params vn return_fit s ps
                 Hps Hfor).
      destruct (snd (assign_pure ps vn pos)) eqn:Hassign;
        [| eexists; reflexivity].
      destruct Hcase as [-> | [Hout | [Hbad | (HD & HW & Hb & Hrej)]]].
      + rewrite posterior_checks_return_fit. eexists; reflexivity.
      + rewrite (assign_pure_rejects _ _ _ Hfor Hout) in Hassign. discriminate.
      + destruct return_fit;
          [rewrite posterior_checks_return_fit; eexists; reflexivity |].
        rewrite posterior_checks_nonfinite by exact Hbad. eexists; reflexivity.
      + destruct return_fit;
          [rewrite posterior_checks_return_fit; eexists; reflexivity |].
        rewrite posterior_checks_rejects;
          [eexists; reflexivity | | | | right; exact Hrej];
          unfold with_values; apply is_Some_getitem_assign_pure; assumption. }
    destruct Hret as [v Hret].
    unfold _log_posterior_SHOTerm. unfold bind at 1.
    pose proof (posterior_head_frame pos model time params vn return_fit s)
      as [_ Hg].
    destruct (posterior_head pos model time params vn return_fit s) as [r s'].
    cbn in Hret. subst r. cbn. exact Hg.
Qed.

End PosteriorValue.

Section ValueExamples.

#[local] Arguments Rltb : simpl never.
#[local] Arguments Reqb : simpl never.

Lemma example_pos_04_in_range :
  components_in_range example_params_gp example_vn example_pos_04.
Proof.
  unfold components_in_range, example_vn, example_pos_04.
  repeat (constructor; [eexists; split; [reflexivity | bounds_eval; reflexivity] |]).
  constructor.
Qed.





End ValueExamples.



Lemma gp_written_only_on_acceptance_witness :
  gheap (snd (_log_posterior_jitter example_pos_04 unit_model [Fin 0] [Fin 1]
                [Fin 1] 0%nat example_vn true example_store_gp))
    = gheap example_store_gp /\
  gheap (snd (_log_posterior_SHOTerm example_pos_04 unit_model [Fin 0] [Fin 1]
                [Fin 1] 0%nat example_vn example_gp true example_store_gp))
    = gheap example_store_gp.
Proof.
  destruct (gp_written_only_on_acceptance example_pos_04 unit_model [Fin 0]
              [Fin 1] [Fin 1] 0%nat example_vn example_gp true example_store_gp
              example_params_gp eq_refl
              (components_in_range_proposal _ _ _ example_pos_04_in_range))
    as [Hj Hg].
  split; [exact Hj | apply Hg; left; reflexivity].
Defined.

(** ** The free-parameter vectors and the starting positions *)

Section FreeVectorsAligned.

(** The three vectors that [emcee_sampler] builds from the parameter set
    are aligned: they have one entry for each varied parameter, no name
    occurs twice, the names are those of the varied parameters, and entry
    [i] of [vv] and of [vs] is the value and the scale of the parameter
    named by entry [i] of [vn]. *)
Theorem free_vectors_aligned (ps : Parameters) :
  NoDup (keys ps) ->
  length (fst (fst (free_vectors ps))) = length (snd (free_vectors ps)) /\
  length (snd (fst (free_vectors ps))) = length (snd (free_vectors ps)) /\
  NoDup (snd (free_vectors ps)) /\
  (forall k, k ∈ snd (free_vectors ps) <->
             exists p, getitem ps k = Some p /\ p_vary p = true) /\
  (forall i k, snd (free_vectors ps) !! i = Some k ->
     exists p, getitem ps k = Some p /\
               fst (fst (free_vectors ps)) !! i = Some (param_value ps p) /\
               snd (fst (free_vectors ps)) !! i = Some (walker_scale p)).
Proof.
  intros Hnd. rewrite free_vectors_spec. cbn [fst snd].
  rewrite !length_map. repeat split.
  - apply NoDup_keys_varied, Hnd.
  - intros Hin. apply list_elem_of_fmap in Hin as ([k' p] & Hk & Hin).
    cbn in Hk. subst k'. apply varied_elem in Hin as [Hin Hv].
    exists p. split; [apply elem_getitem; assumption | exact Hv].
  - intros (p & Hget & Hv). apply list_elem_of_fmap. exists (k, p).
    split; [reflexivity |]. apply varied_elem.
    split; [apply getitem_elem, Hget | exact Hv].
  - intros i k Hi. rewrite list_lookup_fmap in Hi.
    destruct (varied ps !! i) as [[k' p] |] eqn:Hl; [| discriminate].
    cbn in Hi. injection Hi as ->.
    assert (Hin : (k, p) ∈ varied ps) by (eapply list_elem_of_lookup_2; exact Hl).
    apply varied_elem in Hin as [Hin Hv].
    exists p. rewrite !list_lookup_fmap, Hl. cbn.
    split; [apply elem_getitem; assumption | split; reflexivity].
Qed.

End FreeVectorsAligned.

Lemma NoDup_keys_example_params : NoDup (keys example_params).
Proof.
  unfold keys, example_params. cbn [map fst].
  apply (bool_decide_unpack _). vm_compute. reflexivity.
Qed.

Lemma free_vectors_aligned_witness :
  length (fst (fst (free_vectors example_params)))
    = length (snd (free_vectors example_params)) /\
  length (snd (fst (free_vectors example_params)))
    = length (snd (free_vectors example_params)) /\
  NoDup (snd (free_vectors example_params)).
Proof.
  destruct (free_vectors_aligned example_params NoDup_keys_example_params)
    as (H1 & H2 & H3 & _).
  split; [exact H1 | split; [exact H2 | exact H3]].
Defined.

Section WalkerPositions.

Variables (log_posterior_func : TargetFunction) (params : loc).
Variables (vv vs : list pyfloat) (init_scale : pyfloat) (rng : RandomState).

Lemma length_drawn (call : nat) :
  length vs = length vv ->
  length (drawn vv vs init_scale rng call) = length vv.
Proof.
  intros Hlen. unfold drawn, start_position, randn.
  rewrite length_zip_with, length_map, length_zip_with, length_map, length_seq.
  lia.
Qed.

(** A position that the search hands on is one of the draws made during
    the search. *)
Lemma walker_start_draw (fuel : nat) :
  forall call s pos_i call' fuel',
    fst (walker_start fuel log_posterior_func vv vs init_scale rng call s)
      = Finished (Ret (pos_i, call', fuel')) ->
    (call < call')%nat /\
    pos_i = drawn vv vs init_scale rng (call' - 1).
Proof.
  induction fuel as [| fuel IH]; intros call s pos_i call' fuel' H;
    [discriminate |].
  cbn [walker_start] in H. fold (drawn vv vs init_scale rng call) in H.
  destruct (log_posterior_func (drawn vv vs init_scale rng call) s)
    as [[[x | a] | e] s1]; try discriminate.
  destruct (feq x NInf).
  - apply IH in H as [Hlt Hpos]. split; [lia | exact Hpos].
  - cbn in H. injection H as <- <- _.
    split; [lia |]. f_equal. lia.
Qed.

Lemma init_walkers_append (nwalkers : nat) :
  forall fuel call pos s pos' call',
    fst (init_walkers nwalkers fuel log_posterior_func params vv vs init_scale
           rng call pos s) = Finished (Ret (pos', call')) ->
    exists new,
      pos' = pos ++ new /\ length new = nwalkers /\
      (call + nwalkers <= call')%nat /\
      Forall (fun row => exists c, (call <= c < call')%nat /\
                                   row = drawn vv vs init_scale rng c) new.
Proof.
  induction nwalkers as [| nwalkers IH]; intros fuel call pos s pos' call' H.
  - cbn in H. injection H as <- <-. exists []. rewrite app_nil_r.
    repeat split; [lia | constructor].
  - cbn [init_walkers] in H.
    destruct (Parameters_copy params s) as [[l | e] s1]; [| discriminate].
    destruct (walker_start fuel log_posterior_func vv vs init_scale rng call s1)
      as [[[[[pos_i call1] fuel1] | e] |] s2] eqn:Hw; try discriminate.
    pose proof (walker_start_draw fuel call s1 pos_i call1 fuel1) as Hd.
    rewrite Hw in Hd. destruct (Hd eq_refl) as [Hlt Hpos].
    apply IH in H as (new & -> & Hlen & Hcalls & Hall).
    exists (pos_i :: new). rewrite <- app_assoc. cbn [app length].
    repeat split; [congruence | lia |].
    constructor.
    + exists (call1 - 1)%nat. split; [lia | exact Hpos].
    + eapply Forall_impl; [exact Hall |].
      intros row (c & Hc & Hrow). exists c. split; [lia | exact Hrow].
Qed.

(** When the loop over the walkers ends, the list of starting positions
    has one row for each walker and one column for each free parameter,
    as the sampler requires of its initial state; every row is one of the
    positions drawn, and at least one draw was made for each walker. *)
Theorem init_walkers_positions (nwalkers fuel call : nat) (s : store)
    (pos' : list (list pyfloat)) (call' : nat) :
  fst (init_walkers nwalkers fuel log_posterior_func params vv vs init_scale
         rng call [] s) = Finished (Ret (pos', call')) ->
  length vs = length vv ->
  shape_ok nwalkers (length vv) pos' = true /\
  (call + nwalkers <= call')%nat /\
  Forall (fun row => exists c, (call <= c < call')%nat /\
                               row = drawn vv vs init_scale rng c) pos'.
Proof.
  intros H Hlen.
  apply init_walkers_append in H as (new & -> & Hn & Hcalls & Hall).
  cbn [app]. repeat split; [| exact Hcalls | exact Hall].
  unfold shape_ok. rewrite Hn, Nat.eqb_refl. cbn [andb].
  apply forallb_forall. intros row Hin. apply Nat.eqb_eq.
  rewrite Forall_forall in Hall.
  destruct (Hall row) as (c & _ & ->); [apply list_elem_of_In, Hin |].
  apply length_drawn, Hlen.
Qed.

End WalkerPositions.

Lemma init_walkers_positions_witness :
  shape_ok 2 (length example_vv)
    ([] ++ map (fun i => drawn example_vv example_vs (Fin 1e-3) zero_rng (0 + i))
               (seq 0 2)) = true /\
  (0 + 2 <= 0 + 2)%nat /\
  Forall (fun row => exists c, (0 <= c < 0 + 2)%nat /\
                               row = drawn example_vv example_vs (Fin 1e-3)
                                           zero_rng c)
         ([] ++ map (fun i => drawn example_vv example_vs (Fin 1e-3) zero_rng
                                    (0 + i))
                    (seq 0 2)).
Proof.
  apply (init_walkers_positions flat_target 0%nat example_vv example_vs
           (Fin 1e-3) zero_rng 2 2 0 example_store).
  - apply (init_walkers_first_draw flat_target 0%nat example_vv example_vs
             (Fin 1e-3) zero_rng holds_example holds_example_copy).
    + intros call s. apply flat_target_accepts.
    + exact holds_example_store.
    + lia.
  - reflexivity.
Defined.

(** ** A tuple keyword starts inside its bounds *)

Section TupleBounds.

(** A tuple of finite numbers given for a keyword, with least entry [lo],
    greatest entry [hi] and median [m]: when lmfit tells [lo] and [hi]
    apart the tuple makes a free parameter bounded by [lo] and [hi] that
    starts at [m], which lies within the bounds and is stored as it is (a
    NumPy scalar between bounds that are Python numbers); when it does not,
    as for a tuple of one entry or of equal entries, the conversion raises
    the [ValueError] of the constructor. *)
Theorem kw_tuple_within_bounds (name : string) (x : R) (rest : list R) :
  (exists lo m hi : R,
     np_median (map Fin (x :: rest)) = Fin m /\
     (lo <= m <= hi)%R /\
     least lo (x :: rest) /\ greatest hi (x :: rest) /\
     (apart lo hi ->
      _kw_to_Parameter name (PyTuple (map Fin (x :: rest)))
        = Ret (mkParam name (Fin m) true (Fin lo) (Fin hi) None None None
                       false true true)) /\
     (~ apart lo hi ->
      _kw_to_Parameter name (PyTuple (map Fin (x :: rest)))
        = Raise (min_equals_max name))) /\
  _kw_to_Parameter name (PyTuple [Fin x]) = Raise (min_equals_max name) /\
  (Forall (fun y => y = x) rest ->
   _kw_to_Parameter name (PyTuple (map Fin (x :: rest)))
     = Raise (min_equals_max name)).
Proof.
  assert (Hsame : forall rest0, Forall (fun y => y = x) rest0 ->
                  _kw_to_Parameter name (PyTuple (map Fin (x :: rest0)))
                    = Raise (min_equals_max name)).
  { intros rest0 Hall.
    destruct (kw_tuple_run name x rest0)
      as (lo & m & hi & _ & _ & [Hlo _] & [Hhi _] & _ & Hraise).
    apply Hraise.
    assert (Hx : forall y, y ∈ x :: rest0 -> y = x).
    { intros y Hy. apply elem_of_cons in Hy as [-> | Hy]; [reflexivity |].
      rewrite Forall_forall in Hall. apply Hall, Hy. }
    rewrite (Hx lo Hlo), (Hx hi Hhi). apply not_apart_refl. }
  split; [apply kw_tuple_run |].
  split; [apply (Hsame []); constructor | apply Hsame].
Qed.

End TupleBounds.

(** ** Derived parameters of the eclipse fit, and what the derived
       parameters leave alone *)

Section DerivedMore.

Lemma NoDup_keys_eclipse_installed (base : Parameters) :
  NoDup (keys base) -> NoDup (keys (eclipse_installed base)).
Proof.
  intros Hnd. unfold eclipse_installed, with_derived.
  repeat apply NoDup_keys_setitem. exact Hnd.
Qed.

Section EclipseRecomputed.

Variable base : Parameters.
Hypothesis dictionary : NoDup (keys base).
Hypothesis inputs : Forall (plain base) eclipse_inputs.

Lemma eclipse_installed_plain (x : string) :
  x ∈ eclipse_inputs -> plain (eclipse_installed base) x.
Proof.
  intros Hx. rewrite Forall_forall in inputs.
  destruct (inputs x Hx) as (p & Hget & Hexpr).
  exists p. split; [| exact Hexpr].
  rewrite getitem_eclipse_installed_other; [exact Hget |]. other_name Hx.
Qed.

Lemma eclipse_installed_entries :
  getitem (eclipse_installed base) "k"
    = Some (Parameter_object "k" NInf true (Fin 0) (Fin 1) (Some expr_k) None) /\
  getitem (eclipse_installed base) "aR"
    = Some (Parameter_object "aR" NInf true (Fin 1) PInf (Some expr_aR) None) /\
  getitem (eclipse_installed base) "sini"
    = Some (Parameter_object "sini" NInf true NInf PInf (Some expr_sini) None) /\
  getitem (eclipse_installed base) "e"
    = Some (Parameter_object "e" NInf true (Fin 0) (Fin 1) (Some expr_e) None).
Proof.
  unfold eclipse_installed.
  repeat split;
    repeat first
      [ rewrite getitem_with_derived_eq
      | rewrite getitem_with_derived_ne by discriminate ];
    reflexivity.
Qed.

Lemma eclipse_installed_four : (4 <= length (eclipse_installed base))%nat.
Proof.
  apply (length_present _ ["k"; "aR"; "sini"; "e"]%string).
  - apply (bool_decide_unpack _). vm_compute. reflexivity.
  - intros x Hx.
    destruct eclipse_installed_entries as (Hk & Ha & Hs & He).
    repeat (apply elem_of_cons in Hx as [-> | Hx]);
      [ .. | apply elem_of_nil in Hx; contradiction ];
      eexists; eassumption.
Qed.

Lemma eclipse_expr_names (name : string) (e : Expr) :
  (name, e) ∈ eclipse_exprs ->
  forall y, y ∈ names_of e ->
    plain (eclipse_installed base) y \/ y = "k"%string \/ y = "aR"%string.
Proof.
  intros Hin y Hy. unfold eclipse_exprs in Hin.
  repeat (apply elem_of_cons in Hin as [[= -> ->] | Hin]);
    [ .. | apply elem_of_nil in Hin; contradiction ];
    named Hy;
    first [ right; left; reflexivity
          | right; right; reflexivity
          | left; apply eclipse_installed_plain; in_list ].
Qed.

(** Each derived parameter of the eclipse fit at a proposal. *)
Lemma eclipse_at_proposal (pos : list pyfloat) (name : string) (e : Expr) :
  (name, e) ∈ eclipse_exprs ->
  exists p,
    getitem (eclipse_installed base) name = Some p /\
    p_expr p = Some e /\ p_vary p = false /\
    (name ∉ snd (free_vectors (eclipse_installed base))) /\
    getitem (with_values (eclipse_installed base)
               (snd (free_vectors (eclipse_installed base))) pos) name
      = Some p /\
    value_of (with_values (eclipse_installed base)
                (snd (free_vectors (eclipse_installed base))) pos) name
      = clip (p_min p) (p_max p)
             (eval_expr
                (value_of (with_values (eclipse_installed base)
                             (snd (free_vectors (eclipse_installed base))) pos))
                e).
Proof.
  intros Hin.
  destruct (getitem_eclipse_installed base name e Hin) as (p & Hget & Hexpr & Hvary).
  exists p. repeat (split; [assumption |]).
  apply (derived_at_proposal (eclipse_installed base) pos
           (NoDup_keys_eclipse_installed base dictionary)); try assumption.
  - apply (getitem_eclipse_installed base "k" expr_k). in_list.
  - apply (getitem_eclipse_installed base "aR" expr_aR). in_list.
  - apply eclipse_installed_plain. in_list.
  - apply eclipse_installed_plain. in_list.
  - apply eclipse_installed_plain. in_list.
  - exact eclipse_installed_four.
  - apply (eclipse_expr_names name e Hin).
Qed.

End EclipseRecomputed.

(** The eclipse fit installs k, aR, sini and e with the expressions of the
    transit fit and installs none of logrho, q_1 and q_2; the four are not
    varied, are no entry of the free-parameter vector, and the assignment
    loop leaves each as installed; at every proposal the value read for
    each is its formula on the values read at that proposal for D, W, b,
    f_c, f_s (and k, aR), limited to the bounds of the derived parameter;
    and the value read for each of these five is the component of the
    proposal for it when it is free and the proposal is within the bounds,
    and its value in the set when it is fixed.  The set is the one that
    the block of [lmfit_eclipse] leaves when no expression fails at
    installation, from a dictionary in which the five are parameters
    without expression. *)
Theorem eclipse_derived_parameters (base ps : Parameters) :
  NoDup (keys base) ->
  Forall (plain base) eclipse_inputs ->
  eclipse_derived base = Ret ps ->
  (forall name e, (name, e) ∈ eclipse_exprs ->
     (name ∉ snd (free_vectors ps)) /\
     forall pos, exists p,
       getitem (with_values ps (snd (free_vectors ps)) pos) name = Some p /\
       p_expr p = Some e /\ p_vary p = false /\
       param_value (with_values ps (snd (free_vectors ps)) pos) p
         = clip (p_min p) (p_max p)
                (eval_expr (value_of (with_values ps (snd (free_vectors ps)) pos))
                           e) /\
       value_of (with_values ps (snd (free_vectors ps)) pos) name
         = param_value (with_values ps (snd (free_vectors ps)) pos) p) /\
  (forall name, name ∈ transit_only -> getitem ps name = getitem base name) /\
  (forall pos,
     let v := value_of (with_values ps (snd (free_vectors ps)) pos) in
     v "k" = clip (Fin 0) (Fin 1) (spec_k (v "D")) /\
     v "aR" = clip (Fin 1) PInf (spec_aR (v "k") (v "b") (v "W")) /\
     v "sini" = spec_sini (v "b") (v "aR") /\
     v "e" = clip (Fin 0) (Fin 1) (spec_e (v "f_c") (v "f_s"))) /\
  (forall pos x, x ∈ eclipse_inputs ->
     (x ∉ snd (free_vectors ps) ->
      value_of (with_values ps (snd (free_vectors ps)) pos) x = value_of base x) /\
     (components_in_range ps (snd (free_vectors ps)) pos ->
      forall i c, snd (free_vectors ps) !! i = Some x -> pos !! i = Some c ->
        value_of (with_values ps (snd (free_vectors ps)) pos) x = c)).
Proof.
  intros Hnd Hplain Hrun. apply eclipse_derived_installed in Hrun as ->.
  pose proof (NoDup_keys_eclipse_installed base Hnd) as Hnd'.
  split; [| split; [| split]].
  - intros name e Hin.
    split.
    + destruct (eclipse_at_proposal base Hnd Hplain [] name e Hin)
        as (p & _ & _ & _ & Hfree & _). exact Hfree.
    + intros pos.
      destruct (eclipse_at_proposal base Hnd Hplain pos name e Hin)
        as (p & Hget & Hexpr & Hvary & Hfree & Hpc & Hval).
      exists p. rewrite (param_value_expr _ p e Hexpr). auto.
  - intros name Hin. apply getitem_eclipse_installed_other. other_name Hin.
  - intros pos. cbv zeta.
    destruct (eclipse_installed_entries base) as (Ek & Ea & Es & Ee).
    destruct (derived_formulas
                (value_of (with_values (eclipse_installed base)
                   (snd (free_vectors (eclipse_installed base))) pos)))
      as (Fk & Fa & Fs & _ & Fe & _).
    repeat split;
      match goal with
      | |- value_of _ ?name = _ =>
          match goal with
          | E : getitem _ name = Some _ |- _ =>
              let e := match type of E with
                       | _ = Some (Parameter_object _ _ _ _ _ (Some ?e) _) => e
                       end in
              let Hin := fresh "Hin" in
              assert (Hin : (name, e) ∈ eclipse_exprs) by in_list;
              destruct (eclipse_at_proposal base Hnd Hplain pos name e Hin)
                as (p & Hget & _ & _ & _ & _ & Hval);
              rewrite E in Hget; injection Hget as <-;
              rewrite Hval; cbn [Parameter_object p_min p_max];
              rewrite ?clip_unbounded; congruence
          end
      end.
  - intros pos x Hx.
    pose proof (eclipse_installed_plain base Hplain x Hx) as Hpx.
    destruct (input_at_proposal (eclipse_installed base) pos Hnd' x Hpx)
      as (_ & Hfixed & Hfree).
    split; [| exact Hfree].
    intros Hnot. rewrite (Hfixed Hnot).
    destruct Hpx as (p & Hget & Hexpr).
    rewrite (value_of_plain _ x p Hget Hexpr).
    symmetry. apply value_of_plain; [| exact Hexpr].
    rewrite <- Hget. symmetry. apply getitem_eclipse_installed_other. other_name Hx.
Qed.

Lemma keys_setitem_new (ps : Parameters) (k : string) (p : Param) :
  k ∉ keys ps -> keys (setitem ps k p) = keys ps ++ [k].
Proof.
  unfold keys. induction ps as [| [k' p'] ps IH]; intros Hnot; [reflexivity |].
  cbn [map fst] in Hnot. apply not_elem_of_cons in Hnot as [Hne Hnot].
  cbn [setitem]. destruct (String.eqb_spec k' k) as [-> | _]; [congruence |].
  cbn [map fst app]. rewrite IH by exact Hnot. reflexivity.
Qed.

Lemma keys_set_user_data (ps : Parameters) (k : string) (u : option UFloat) :
  keys (set_user_data ps k u) = keys ps.
Proof.
  unfold set_user_data. destruct (getitem ps k) as [p |] eqn:Hget;
    [| reflexivity].
  apply keys_setitem_present with (p0 := p). exact Hget.
Qed.

(** The keys of a parameter set to which new names were added. *)
Ltac keys_norm :=
  repeat first
    [ rewrite keys_set_user_data
    | rewrite keys_setitem_new; [| keys_fresh ] ]
with keys_fresh :=
  keys_norm;
  rewrite ?elem_of_app, ?list_elem_of_singleton;
  let Hin := fresh "Hin" in
  intros Hin; decompose [or] Hin; solve [contradiction | discriminate].

Lemma keys_transit_installed_fresh (base : Parameters) (u : option UFloat) :
  Forall (fun k => k ∉ keys base) (map fst transit_exprs) ->
  keys (transit_installed base u) = keys base ++ map fst transit_exprs.
Proof.
  intros Hnew. unfold transit_exprs in *. cbn [map fst] in *.
  repeat match goal with
         | H : Forall _ (_ :: _) |- _ => apply Forall_cons_1 in H as [? H]
         end.
  unfold transit_installed, with_derived.
  keys_norm.
  rewrite <- !app_assoc. reflexivity.
Qed.

Lemma keys_eclipse_installed_fresh (base : Parameters) :
  Forall (fun k => k ∉ keys base) (map fst eclipse_exprs) ->
  keys (eclipse_installed base) = keys base ++ map fst eclipse_exprs.
Proof.
  intros Hnew. unfold eclipse_exprs in *. cbn [map fst] in *.
  repeat match goal with
         | H : Forall _ (_ :: _) |- _ => apply Forall_cons_1 in H as [? H]
         end.
  unfold eclipse_installed, with_derived.
  keys_norm.
  rewrite <- !app_assoc. reflexivity.
Qed.

(** Installing the derived parameters of the transit fit leaves every
    other parameter as it is; the prior given as [logrhoprior] is attached
    to logrho, which is bounded by -9 and 6; and when no parameter of the
    set has the name of a derived parameter, the seven derived parameters
    come after the others, in the order k, aR, sini, logrho, e, q_1, q_2.
    The set is the one that the block leaves when no expression fails at
    installation. *)
Theorem transit_derived_keeps_base (base ps : Parameters)
    (logrhoprior : option UFloat) :
  transit_derived base logrhoprior = Ret ps ->
  (forall name, name ∉ map fst transit_exprs ->
     getitem ps name = getitem base name) /\
  (exists p, getitem ps "logrho" = Some p /\
             p_user_data p = logrhoprior /\
             p_min p = Fin (-9) /\ p_max p = Fin 6) /\
  (Forall (fun k => k ∉ keys base) (map fst transit_exprs) ->
   keys ps = keys base ++ map fst transit_exprs).
Proof.
  intros Hrun. apply transit_derived_installed in Hrun as ->.
  split; [| split].
  - apply getitem_transit_installed_other.
  - unfold transit_installed, with_derived.
    repeat rewrite getitem_setitem_ne by discriminate.
    unfold set_user_data. rewrite getitem_setitem_eq, getitem_setitem_eq.
    eexists. repeat split; reflexivity.
  - apply keys_transit_installed_fresh.
Qed.

(** A value read from a derived parameter is limited to the bounds of the
    parameter, so it never fails the range test
    [(v < min) or (v > max)] of the loop over the parameters, whatever the
    values of the parameters that its expression names: a proposal is not
    rejected for a derived quantity beyond its bounds, and only a NaN
    value of the derived parameter stops the loop. *)
Theorem derived_value_within_bounds (pc : Parameters) (p : Param) (e : Expr) :
  p_expr p = Some e ->
  flt (p_max p) (p_min p) = false ->
  out_of_range p (param_value pc p) = false /\
  (isnan (eval_expr (value_of pc) e) = false ->
   isnan (p_min p) = false -> isnan (p_max p) = false ->
   isnan (param_value pc p) = false).
Proof.
  intros Hexpr Hord. unfold param_value, out_of_range. rewrite Hexpr.
  set (v := eval_expr (value_of pc) e). unfold clip, fgt.
  split.
  - destruct (flt (p_max p) v) eqn:Hhi.
    + rewrite Hord. destruct (p_max p) as [r | | |]; cbn; try reflexivity.
      apply Rltb_false. lra.
    + destruct (flt v (p_min p)) eqn:Hlo.
      * rewrite Hord. destruct (p_min p) as [r | | |]; cbn; try reflexivity.
        rewrite Rltb_false by lra. reflexivity.
      * rewrite Hlo, Hhi. reflexivity.
  - intros Hv Hmin Hmax.
    destruct (flt (p_max p) v); [exact Hmax |].
    destruct (flt v (p_min p)); [exact Hmin | exact Hv].
Qed.

End DerivedMore.

Section EclipseExample.

#[local] Arguments Rltb : simpl never.
#[local] Arguments Reqb : simpl never.

Lemma example_base_plain_eclipse : Forall (plain example_base) eclipse_inputs.
Proof.
  unfold eclipse_inputs.
  repeat (constructor; [eexists; split; reflexivity |]). constructor.
Qed.

Lemma example_eclipse_derived :
  eclipse_derived example_base = Ret (eclipse_installed example_base).
Proof.
  apply eclipse_derived_succeeds, example_base_present. right. reflexivity.
Qed.

Lemma example_eclipse_free :
  snd (free_vectors (eclipse_installed example_base))
  = ["T_0"; "D"; "W"; "b"; "c"]%string.
Proof. rewrite free_vectors_spec. reflexivity. Qed.

Lemma example_proposal_in_range_eclipse :
  components_in_range (eclipse_installed example_base)
    ["T_0"; "D"; "W"; "b"; "c"]%string example_proposal.
Proof.
  unfold components_in_range, example_proposal.
  repeat (constructor;
          [eexists; split;
             [reflexivity
             | unfold out_of_range, Parameter_object, clip, fgt; cbn; rdecide;
               reflexivity] |]).
  constructor.
Qed.

End EclipseExample.

Lemma eclipse_derived_parameters_witness :
  exists ps,
    eclipse_derived example_base = Ret ps /\
    ("aR"%string ∉ snd (free_vectors ps)) /\
    getitem ps "logrho" = getitem example_base "logrho" /\
    value_of (with_values ps (snd (free_vectors ps)) example_proposal) "D"
      = Fin 0.02 /\
    value_of (with_values ps (snd (free_vectors ps)) example_proposal) "k"
      = clip (Fin 0) (Fin 1) (spec_k (Fin 0.02)) /\
    value_of (with_values ps (snd (free_vectors ps)) example_proposal) "f_c"
      = value_of example_base "f_c".
Proof.
  exists (eclipse_installed example_base).
  split; [exact example_eclipse_derived |].
  destruct (eclipse_derived_parameters example_base
              (eclipse_installed example_base)
              NoDup_keys_example_base example_base_plain_eclipse
              example_eclipse_derived)
    as (Hexprs & Honly & Hvalues & Hinputs).
  destruct (Hexprs "aR"%string expr_aR) as [Hfree _]; [in_list |].
  split; [exact Hfree |].
  split; [apply Honly; in_list |].
  destruct (Hvalues example_proposal) as (Hk & _).
  destruct (Hinputs example_proposal "D"%string) as [_ HD]; [in_list |].
  destruct (Hinputs example_proposal "f_c"%string) as [Hf _]; [in_list |].
  assert (ED : value_of
                 (with_values (eclipse_installed example_base)
                    (snd (free_vectors (eclipse_installed example_base)))
                    example_proposal) "D" = Fin 0.02).
  { apply (HD (eq_ind_r (fun vn => components_in_range _ vn _)
                 example_proposal_in_range_eclipse example_eclipse_free) 1%nat).
    - rewrite example_eclipse_free. reflexivity.
    - reflexivity. }
  split; [exact ED |].
  split; [rewrite Hk, ED; reflexivity |].
  apply Hf. rewrite example_eclipse_free.
  intros H. repeat (apply elem_of_cons in H as [H | H]; [discriminate H |]).
  apply elem_of_nil in H. contradiction.
Defined.

Lemma transit_derived_keeps_base_witness :
  exists ps,
    transit_derived example_base None = Ret ps /\
    getitem ps "T_0" = getitem example_base "T_0" /\
    (exists p, getitem ps "logrho" = Some p /\ p_user_data p = None /\
               p_min p = Fin (-9) /\ p_max p = Fin 6) /\
    keys ps = keys example_base ++ map fst transit_exprs.
Proof.
  exists (transit_installed example_base None).
  split; [exact example_transit_derived |].
  destruct (transit_derived_keeps_base example_base
              (transit_installed example_base None) None example_transit_derived)
    as (Hother & Hlogrho & Hkeys).
  split; [| split; [exact Hlogrho |]].
  - apply Hother. cbn [map fst transit_exprs].
    intros H. repeat (apply elem_of_cons in H as [H | H]; [discriminate H |]).
    apply elem_of_nil in H. contradiction.
  - apply Hkeys. cbn [map fst transit_exprs keys example_base].
    repeat (constructor;
            [intros H;
             repeat (apply elem_of_cons in H as [H | H]; [discriminate H |]);
             apply elem_of_nil in H; contradiction |]).
    constructor.
Defined.

Lemma derived_value_within_bounds_witness :
  out_of_range (Parameter_object "e" NInf true (Fin 0) (Fin 1) (Some expr_e) None)
    (param_value example_hyperbolic
       (Parameter_object "e" NInf true (Fin 0) (Fin 1) (Some expr_e) None)) = false.
Proof.
  apply (derived_value_within_bounds example_hyperbolic
           (Parameter_object "e" NInf true (Fin 0) (Fin 1) (Some expr_e) None)
           expr_e eq_refl).
  cbn. apply Rltb_false. lra.
Defined.

(** ** The parameter set built from the keywords *)

Section Statements.

Lemma default_or_keyword_run (name : string) (v : pyval) (default : PS unit)
    (ps : Parameters) :
  default_or_keyword name v default ps =
    match v with
    | PyNone => default ps
    | _ =>
        match _kw_to_Parameter name v with
        | Ret p => (Ret tt, setitem ps name p)
        | Raise e => (Raise e, ps)
        end
    end.
Proof.
  destruct v; try reflexivity;
    unfold default_or_keyword, pbind, plift, params_set;
    match goal with
    | |- context [_kw_to_Parameter ?n ?v] => destruct (_kw_to_Parameter n v)
    end; reflexivity.
Qed.

Lemma kw_to_Parameter_raises (name : string) (v : pyval) (e : exn) :
  _kw_to_Parameter name v = Raise e -> is_ValueError e.
Proof.
  destruct v as [x | z | b | [| x t] | u | p | | str | l];
    cbn [_kw_to_Parameter]; intros H;
    first [ apply Parameter_new_raises in H as ->
          | injection H as <-
          | discriminate ];
    eexists; reflexivity.
Qed.

Lemma kw_to_Parameter_unrecognised (name : string) (v : pyval) :
  recognised v = false -> _kw_to_Parameter name v = Raise (unrecognised_type name).
Proof. destruct v; cbn; try discriminate; reflexivity. Qed.

(** A statement with a default that sets [name] or raises [ValueError]
    does the same for every keyword value. *)
Lemma default_or_keyword_step (name : string) (v : pyval) (default : PS unit) :
  (forall ps, (exists p, default ps = (Ret tt, setitem ps name p)) \/
              (exists msg, default ps = (Raise (ValueError msg), ps))) ->
  forall ps,
    (exists p,
       default_or_keyword name v default ps = (Ret tt, setitem ps name p) /\
       (v <> PyNone -> _kw_to_Parameter name v = Ret p) /\
       (v = PyNone -> default ps = (Ret tt, setitem ps name p))) \/
    (exists msg,
       default_or_keyword name v default ps = (Raise (ValueError msg), ps)).
Proof.
  intros Hd ps. rewrite default_or_keyword_run.
  destruct (_kw_to_Parameter name v) as [p | e] eqn:Hconv.
  - destruct v;
      try (left; exists p; split; [reflexivity | split; [auto | discriminate]]).
    discriminate.
  - destruct (kw_to_Parameter_raises _ _ _ Hconv) as [msg ->].
    destruct v; try (right; exists msg; reflexivity).
    destruct (Hd ps) as [(p & Hp) | (msg' & ->)].
    + left. exists p. rewrite Hp. split; [reflexivity | split; congruence].
    + right. exists msg'. reflexivity.
Qed.

(** A statement on a keyword of a type that is not recognised raises. *)
Lemma default_or_keyword_unrecognised (name : string) (v : pyval)
    (default : PS unit) (ps : Parameters) :
  v <> PyNone -> recognised v = false ->
  default_or_keyword name v default ps = (Raise (unrecognised_type name), ps).
Proof.
  intros Hv Hrec. rewrite default_or_keyword_run.
  rewrite (kw_to_Parameter_unrecognised _ _ Hrec).
  destruct v; try reflexivity. congruence.
Qed.

Lemma params_add_sets (name : string) (value : number) (vary : bool)
    (lo hi : number) (ps : Parameters) :
  (exists p, params_add name value vary lo hi None ps
             = (Ret tt, setitem ps name p)) \/
  (exists msg, params_add name value vary lo hi None ps
               = (Raise (ValueError msg), ps)).
Proof.
  unfold params_add.
  destruct (Parameter_new name value vary lo hi None None) as [p | e] eqn:Hnew.
  - left. exists p. reflexivity.
  - right. apply Parameter_new_raises in Hnew as ->. eexists. reflexivity.
Qed.

Lemma add_literal_sets (name : string) (value : pyfloat) (vary : bool)
    (lo hi : pyfloat) (ps : Parameters) :
  (exists p, add_literal name value vary lo hi ps = (Ret tt, setitem ps name p)) \/
  (exists msg, add_literal name value vary lo hi ps
               = (Raise (ValueError msg), ps)).
Proof. apply params_add_sets. Qed.

Lemma add_literal_run (name : string) (value : pyfloat) (vary : bool)
    (lo hi : pyfloat) (ps : Parameters) :
  fgt lo hi = false -> isclose lo hi = false ->
  add_literal name value vary lo hi ps
    = (Ret tt, setitem ps name (Parameter_object name value vary lo hi None None)).
Proof.
  intros Hord Hclose. unfold add_literal, params_add.
  rewrite Parameter_new_python by assumption. reflexivity.
Qed.

Lemma default_T_0_sets (time : list pyfloat) (ps : Parameters) :
  (exists p, default_T_0 time ps = (Ret tt, setitem ps "T_0" p)) \/
  (exists msg, default_T_0 time ps = (Raise (ValueError msg), ps)).
Proof.
  destruct time as [| t time]; [right; eexists; reflexivity |].
  apply params_add_sets.
Qed.

Lemma default_D_sets (flux : list pyfloat) (ps : Parameters) :
  (exists p, default_D flux ps = (Ret tt, setitem ps "D" p)) \/
  (exists msg, default_D flux ps = (Raise (ValueError msg), ps)).
Proof.
  destruct flux as [| f flux]; [right; eexists; reflexivity |].
  apply params_add_sets.
Qed.

Lemma default_W_sets (time : list pyfloat) (_P : pyfloat) (ps : Parameters) :
  (exists p, default_W time _P ps = (Ret tt, setitem ps "W" p)) \/
  (exists msg, default_W time _P ps = (Raise (ValueError msg), ps)).
Proof.
  destruct time as [| t time]; [right; eexists; reflexivity |].
  apply params_add_sets.
Qed.

Lemma default_c_sets (flux : list pyfloat) (ps : Parameters) :
  (exists p, default_c flux ps = (Ret tt, setitem ps "c" p)) \/
  (exists msg, default_c flux ps = (Raise (ValueError msg), ps)).
Proof.
  destruct flux as [| f flux]; [right; eexists; reflexivity |].
  apply params_add_sets.
Qed.

(** *** Assignments one after the other *)

Lemma set_all_snoc (entries : list (string * Param)) (n : string) (p : Param)
    (ps : Parameters) :
  set_all (entries ++ [(n, p)]) ps = setitem (set_all entries ps) n p.
Proof. unfold set_all. rewrite foldl_snoc. reflexivity. Qed.

Lemma set_all_cons (entries : list (string * Param)) (n : string) (p : Param)
    (ps : Parameters) :
  set_all ((n, p) :: entries) ps = set_all entries (setitem ps n p).
Proof. reflexivity. Qed.

Lemma getitem_set_all_other (entries : list (string * Param)) (k : string) :
  k ∉ map fst entries ->
  forall ps, getitem (set_all entries ps) k = getitem ps k.
Proof.
  induction entries as [| [n p] entries IH]; intros Hnot ps; [reflexivity |].
  cbn [map fst] in Hnot. apply not_elem_of_cons in Hnot as [Hne Hnot].
  rewrite set_all_cons, IH by exact Hnot.
  apply getitem_setitem_ne. congruence.
Qed.

Lemma getitem_set_all_in (entries : list (string * Param)) (k : string)
    (p : Param) :
  NoDup (map fst entries) -> (k, p) ∈ entries ->
  forall ps, getitem (set_all entries ps) k = Some p.
Proof.
  induction entries as [| [n q] entries IH]; intros Hnd Hin ps.
  - apply elem_of_nil in Hin. contradiction.
  - cbn [map fst] in Hnd. apply NoDup_cons in Hnd as [Hnot Hnd].
    rewrite set_all_cons.
    apply elem_of_cons in Hin as [[= -> ->] | Hin].
    + rewrite getitem_set_all_other by exact Hnot. apply getitem_setitem_eq.
    + apply IH; assumption.
Qed.

Lemma keys_set_all_fresh (entries : list (string * Param)) :
  forall ps, NoDup (keys ps ++ map fst entries) ->
             keys (set_all entries ps) = keys ps ++ map fst entries.
Proof.
  induction entries as [| [n p] entries IH]; intros ps Hnd.
  - cbn. rewrite app_nil_r. reflexivity.
  - cbn [map fst] in *. rewrite set_all_cons.
    assert (Hn : n ∉ keys ps).
    { apply NoDup_app in Hnd as (_ & Hdis & _). intros Hin.
      apply (Hdis n Hin). apply list_elem_of_here. }
    rewrite IH; rewrite keys_setitem_new by exact Hn.
    + rewrite <- app_assoc. reflexivity.
    + rewrite <- app_assoc. exact Hnd.
Qed.

Lemma given_spec (kw : Keywords) (n : string) :
  given kw n = false <-> kw n = PyNone.
Proof. unfold given. destruct (kw n); split; congruence. Qed.

Lemma optional_keyword_cases (n : string) (v : pyval) (ps : Parameters) :
  (v = PyNone /\ optional_keyword n v ps = (Ret tt, ps)) \/
  (v <> PyNone /\
   exists p, _kw_to_Parameter n v = Ret p /\
             optional_keyword n v ps = (Ret tt, setitem ps n p)) \/
  (v <> PyNone /\
   exists msg, _kw_to_Parameter n v = Raise (ValueError msg) /\
               optional_keyword n v ps = (Raise (ValueError msg), ps)).
Proof.
  unfold optional_keyword. rewrite default_or_keyword_run.
  destruct (_kw_to_Parameter n v) as [p | e] eqn:Hconv.
  - destruct v; try (right; left; split; [discriminate | eauto]).
    discriminate.
  - destruct (kw_to_Parameter_raises _ _ _ Hconv) as [msg ->].
    destruct v; try (right; right; split; [discriminate | eauto]).
    left. split; reflexivity.
Qed.

(** The optional keywords: the parameters of those that are given are
    assigned in order, each as [_kw_to_Parameter] makes it. *)
Lemma optional_parameters_run (kw : Keywords) (names : list string) :
  forall ps,
    (exists entries,
       optional_parameters kw names ps = (Ret tt, set_all entries ps) /\
       map fst entries = List.filter (given kw) names /\
       Forall (fun np => _kw_to_Parameter (fst np) (kw (fst np)) = Ret (snd np))
              entries) \/
    (exists msg ps',
       optional_parameters kw names ps = (Raise (ValueError msg), ps')).
Proof.
  induction names as [| n names IH]; intros ps.
  - left. exists []. repeat split. constructor.
  - cbn [optional_parameters List.filter]. unfold pbind.
    destruct (optional_keyword_cases n (kw n) ps)
      as [[Hn ->] | [(Hn & p & Hconv & ->) | (Hn & msg & Hconv & ->)]].
    + rewrite (proj2 (given_spec kw n) Hn). apply IH.
    + assert (Hg : given kw n = true).
      { destruct (given kw n) eqn:Hg; [reflexivity |].
        apply given_spec in Hg. contradiction. }
      rewrite Hg.
      destruct (IH (setitem ps n p)) as [(entries & -> & Hfst & Hall)
                                        | (msg & ps' & ->)];
        [left | right; eauto].
      exists ((n, p) :: entries). repeat split.
      * cbn [map fst]. rewrite Hfst. reflexivity.
      * constructor; [exact Hconv | exact Hall].
    + right. eauto.
Qed.

Lemma optional_parameters_unrecognised (kw : Keywords) (names : list string)
    (name : string) :
  name ∈ names -> kw name <> PyNone -> recognised (kw name) = false ->
  forall ps, exists msg ps',
    optional_parameters kw names ps = (Raise (ValueError msg), ps').
Proof.
  intros Hin Hv Hrec. induction names as [| n names IH]; intros ps.
  - apply elem_of_nil in Hin. contradiction.
  - cbn [optional_parameters]. unfold pbind.
    destruct (optional_keyword_cases n (kw n) ps)
      as [[Hn ->] | [(Hn & p & Hconv & ->) | (Hn & msg & Hconv & ->)]].
    + apply elem_of_cons in Hin as [-> | Hin]; [contradiction | apply IH, Hin].
    + apply elem_of_cons in Hin as [-> | Hin]; [| apply IH, Hin].
      rewrite (kw_to_Parameter_unrecognised _ _ Hrec) in Hconv. discriminate.
    + eauto.
Qed.

End Statements.

Section KeywordParameters.

(** One statement [default_or_keyword] of a run recorded in [H]. *)
Ltac step_in H lem :=
  unfold pbind at 1 in H;
  match type of H with
  | context [default_or_keyword ?n ?v ?d ?ps] =>
      let p := fresh "p" in
      let Hp := fresh "Hp" in
      let Hd := fresh "Hd" in
      let msg := fresh "msg" in
      let E := fresh "E" in
      destruct (default_or_keyword_step n v d lem ps)
        as [(p & E & Hp & Hd) | (msg & E)];
      rewrite E in H; clear E;
      [ cbn [setitem String.eqb Ascii.eqb Bool.eqb andb] in H
      | injection H as <- <-; right; eexists _, _; reflexivity ]
  end.

(** The run of the keyword statements of [lmfit_transit] on a new
    parameter set. *)
Lemma transit_keywords_run (time flux : list pyfloat) (kw : Keywords) :
  (exists base entries,
     transit_keywords time flux kw [] = (Ret tt, set_all entries base) /\
     map fst base = transit_names /\
     Forall (fun np => kw (fst np) <> PyNone ->
                       _kw_to_Parameter (fst np) (kw (fst np)) = Ret (snd np))
            base /\
     map fst entries = List.filter (given kw) optional_keywords /\
     Forall (fun np => _kw_to_Parameter (fst np) (kw (fst np)) = Ret (snd np))
            entries /\
     (kw "h_1" = PyNone ->
      getitem base "h_1"
        = Some (Parameter_object "h_1" (Fin 0.7224) false NInf PInf None None))) \/
  (exists msg ps',
     transit_keywords time flux kw [] = (Raise (ValueError msg), ps')).
Proof.
  destruct (transit_keywords time flux kw []) as [r ps] eqn:H.
  unfold transit_keywords in H.
  step_in H (default_T_0_sets time).
  step_in H (add_literal_sets "P" (Fin 1) false NInf PInf).
  unfold pbind at 1 in H. unfold params_value at 1 in H.
  cbn [item getitem String.eqb Ascii.eqb Bool.eqb andb rbind] in H.
  step_in H (default_D_sets flux).
  match type of H with
  | context [default_W time ?x] => step_in H (default_W_sets time x)
  end.
  step_in H (add_literal_sets "b" (Fin 0.5) true (Fin 0) (Fin 1)).
  step_in H (add_literal_sets "f_c" (Fin 0) false NInf PInf).
  step_in H (add_literal_sets "f_s" (Fin 0) false NInf PInf).
  step_in H (add_literal_sets "h_1" (Fin 0.7224) false NInf PInf).
  step_in H (add_literal_sets "h_2" (Fin 0.6713) false NInf PInf).
  step_in H (default_c_sets flux).
  match type of H with
  | optional_parameters kw optional_keywords ?base = _ =>
      destruct (optional_parameters_run kw optional_keywords base)
        as [(entries & E & Hfst & Hall) | (msg & ps' & E)];
      rewrite E in H; injection H as <- <-;
      [left; exists base, entries | right; eauto]
  end.
  repeat split; try assumption.
  - repeat (constructor; [assumption |]). constructor.
  - intros Hnone.
    match goal with
    | Hd : kw "h_1" = PyNone -> _ |- _ =>
        specialize (Hd Hnone);
        rewrite add_literal_run in Hd by reflexivity;
        injection Hd as <-
    end.
    reflexivity.
Qed.

Lemma eclipse_keywords_run (time flux : list pyfloat) (kw : Keywords) :
  (exists base entries,
     eclipse_keywords time flux kw [] = (Ret tt, set_all entries base) /\
     map fst base = eclipse_names /\
     Forall (fun np => kw (fst np) <> PyNone ->
                       _kw_to_Parameter (fst np) (kw (fst np)) = Ret (snd np))
            base /\
     map fst entries = List.filter (given kw) optional_keywords /\
     Forall (fun np => _kw_to_Parameter (fst np) (kw (fst np)) = Ret (snd np))
            entries) \/
  (exists msg ps',
     eclipse_keywords time flux kw [] = (Raise (ValueError msg), ps')).
Proof.
  destruct (eclipse_keywords time flux kw []) as [r ps] eqn:H.
  unfold eclipse_keywords in H.
  step_in H (default_T_0_sets time).
  step_in H (add_literal_sets "P" (Fin 1) false NInf PInf).
  unfold pbind at 1 in H. unfold params_value at 1 in H.
  cbn [item getitem String.eqb Ascii.eqb Bool.eqb andb rbind] in H.
  step_in H (default_D_sets flux).
  match type of H with
  | context [default_W time ?x] => step_in H (default_W_sets time x)
  end.
  step_in H (add_literal_sets "b" (Fin 0.5) true (Fin 0) (Fin 1)).
  step_in H (add_literal_sets "L" (Fin 0.001) true (Fin 0) (Fin 1)).
  step_in H (add_literal_sets "f_c" (Fin 0) false NInf PInf).
  step_in H (add_literal_sets "f_s" (Fin 0) false NInf PInf).
  step_in H (default_c_sets flux).
  step_in H (add_literal_sets "a_c" (Fin 0) false NInf PInf).
  match type of H with
  | optional_parameters kw optional_keywords ?base = _ =>
      destruct (optional_parameters_run kw optional_keywords base)
        as [(entries & E & Hfst & Hall) | (msg & ps' & E)];
      rewrite E in H; injection H as <- <-;
      [left; exists base, entries | right; eauto]
  end.
  repeat split; try assumption.
  repeat (constructor; [assumption |]). constructor.
Qed.

End KeywordParameters.

Section KeywordResults.

Lemma filter_sublist (f : string -> bool) (l : list string) :
  List.filter f l `sublist_of` l.
Proof.
  induction l as [| x l IH]; cbn; [constructor |].
  destruct (f x); [apply sublist_skip | apply sublist_cons]; exact IH.
Qed.

Lemma given_filter (kw : Keywords) (names : list string) (name : string) :
  name ∈ List.filter (given kw) names <-> name ∈ names /\ kw name <> PyNone.
Proof.
  rewrite !list_elem_of_In, filter_In.
  split; intros [Hin Hg]; split; try exact Hin.
  - intros Hn. apply given_spec in Hn. congruence.
  - destruct (given kw name) eqn:E; [reflexivity |].
    apply given_spec in E. contradiction.
Qed.

(** The parameter set that the keyword statements leave, given the
    assignments they made. *)
Lemma keyword_set_facts (kw : Keywords) (names : list string)
    (base entries : list (string * Param)) :
  map fst base = names ->
  NoDup (names ++ optional_keywords) ->
  Forall (fun np => kw (fst np) <> PyNone ->
                    _kw_to_Parameter (fst np) (kw (fst np)) = Ret (snd np))
         base ->
  map fst entries = List.filter (given kw) optional_keywords ->
  Forall (fun np => _kw_to_Parameter (fst np) (kw (fst np)) = Ret (snd np))
         entries ->
  keys (set_all entries base)
    = names ++ List.filter (given kw) optional_keywords /\
  (forall name p,
     name ∈ names ++ optional_keywords -> kw name <> PyNone ->
     _kw_to_Parameter name (kw name) = Ret p ->
     getitem (set_all entries base) name = Some p).
Proof.
  intros Hbase Hnd Hconv Hfst Hall.
  assert (Hnd' : NoDup (keys base ++ map fst entries)).
  { unfold keys. rewrite Hbase, Hfst.
    eapply sublist_NoDup; [exact Hnd |].
    apply sublist_app; [reflexivity | apply filter_sublist]. }
  split.
  - rewrite keys_set_all_fresh by exact Hnd'.
    unfold keys. rewrite Hbase, Hfst. reflexivity.
  - intros name p Hin Hv Hp.
    apply NoDup_app in Hnd' as (Hndb & Hdis & Hnde).
    destruct (decide (name ∈ map fst entries)) as [Hent | Hent].
    + apply list_elem_of_fmap in Hent as ([n q] & Hn & Hent).
      cbn in Hn. subst n.
      rewrite Forall_forall in Hall. specialize (Hall _ Hent). cbn in Hall.
      rewrite Hall in Hp. injection Hp as <-.
      apply getitem_set_all_in; assumption.
    + rewrite getitem_set_all_other by exact Hent.
      assert (Hb : name ∈ map fst base).
      { rewrite Hbase. apply elem_of_app in Hin as [Hin | Hin]; [exact Hin |].
        exfalso. apply Hent. rewrite Hfst. apply given_filter. auto. }
      apply list_elem_of_fmap in Hb as ([n q] & Hn & Hb). cbn in Hn. subst n.
      rewrite Forall_forall in Hconv. specialize (Hconv _ Hb Hv). cbn in Hconv.
      rewrite Hconv in Hp. injection Hp as <-.
      apply elem_getitem; assumption.
Qed.

Lemma NoDup_transit_all :
  NoDup (transit_names ++ optional_keywords ++ map fst transit_exprs).
Proof.
  unfold transit_names, optional_keywords, transit_exprs. cbn [map fst app].
  apply (bool_decide_unpack _). vm_compute. reflexivity.
Qed.

Lemma NoDup_eclipse_all :
  NoDup (eclipse_names ++ optional_keywords ++ map fst eclipse_exprs).
Proof.
  unfold eclipse_names, optional_keywords, eclipse_exprs. cbn [map fst app].
  apply (bool_decide_unpack _). vm_compute. reflexivity.
Qed.

(** The facts that the transit fit and the eclipse fit share: [derive]
    installs the derived parameters [derived] after the others. *)
Lemma keyword_parameters_facts (kw : Keywords) (names derived : list string)
    (derive : Parameters -> Parameters) (base entries : list (string * Param)) :
  NoDup (names ++ optional_keywords ++ derived) ->
  (forall ps, Forall (fun k => k ∉ keys ps) derived ->
              keys (derive ps) = keys ps ++ derived) ->
  (forall ps name, name ∉ derived -> getitem (derive ps) name = getitem ps name) ->
  map fst base = names ->
  Forall (fun np => kw (fst np) <> PyNone ->
                    _kw_to_Parameter (fst np) (kw (fst np)) = Ret (snd np))
         base ->
  map fst entries = List.filter (given kw) optional_keywords ->
  Forall (fun np => _kw_to_Parameter (fst np) (kw (fst np)) = Ret (snd np))
         entries ->
  keys (derive (set_all entries base))
    = names ++ List.filter (given kw) optional_keywords ++ derived /\
  NoDup (keys (derive (set_all entries base))) /\
  (forall name p,
     name ∈ names ++ optional_keywords -> kw name <> PyNone ->
     _kw_to_Parameter name (kw name) = Ret p ->
     getitem (derive (set_all entries base)) name = Some p).
Proof.
  intros Hnd Hkeys Hget Hbase Hconv Hfst Hall.
  assert (Hnd2 : NoDup (names ++ optional_keywords)).
  { rewrite app_assoc in Hnd. apply NoDup_app in Hnd as [Hnd _]. exact Hnd. }
  destruct (keyword_set_facts kw names base entries Hbase Hnd2 Hconv Hfst Hall)
    as [Hk Hg].
  assert (Hsub : (names ++ List.filter (given kw) optional_keywords) ++ derived
                   `sublist_of` (names ++ optional_keywords) ++ derived).
  { apply sublist_app; [| reflexivity].
    apply sublist_app; [reflexivity | apply filter_sublist]. }
  assert (Hnd3 : NoDup ((names ++ List.filter (given kw) optional_keywords)
                          ++ derived)).
  { eapply sublist_NoDup; [| exact Hsub]. rewrite <- app_assoc. exact Hnd. }
  assert (Hfresh : Forall (fun k => k ∉ keys (set_all entries base)) derived).
  { apply Forall_forall. intros k Hk' Hin. rewrite Hk in Hin.
    apply NoDup_app in Hnd3 as (_ & Hdis & _). exact (Hdis k Hin Hk'). }
  assert (Hkeys' : keys (derive (set_all entries base))
                   = names ++ List.filter (given kw) optional_keywords ++ derived).
  { rewrite Hkeys by exact Hfresh. rewrite Hk, <- app_assoc. reflexivity. }
  split; [exact Hkeys' | split].
  - rewrite Hkeys', app_assoc. exact Hnd3.
  - intros name p Hin Hv Hp. rewrite Hget; [apply Hg; assumption |].
    intros Hd. rewrite app_assoc in Hnd.
    apply NoDup_app in Hnd as (_ & Hdis & _). exact (Hdis name Hin Hd).
Qed.

(** When [lmfit_transit] gets as far as the fit, its parameter set has, in
    this order, the ten parameters T_0, P, D, W, b, f_c, f_s, h_1, h_2 and
    c, one parameter for each optional keyword that is given, and the seven
    derived parameters; no name occurs twice; and every keyword that is
    given has become the parameter that [_kw_to_Parameter] makes of it. *)
Theorem transit_parameters_names (time flux : list pyfloat) (kw : Keywords)
    (ps : Parameters) :
  transit_parameters time flux kw = Ret ps ->
  keys ps = transit_names ++ List.filter (given kw) optional_keywords
              ++ map fst transit_exprs /\
  NoDup (keys ps) /\
  (forall name p,
     name ∈ transit_names ++ optional_keywords -> kw name <> PyNone ->
     _kw_to_Parameter name (kw name) = Ret p ->
     getitem ps name = Some p).
Proof.
  unfold transit_parameters.
  destruct (transit_keywords_run time flux kw)
    as [(base & entries & -> & Hbase & Hconv & Hfst & Hall & _)
       | (msg & ps' & ->)];
    [| discriminate].
  intros Hd. apply transit_derived_installed in Hd as ->.
  apply (keyword_parameters_facts kw transit_names (map fst transit_exprs)
           (fun ps => transit_installed ps (prior_of (kw "logrhoprior"))));
    try assumption.
  - exact NoDup_transit_all.
  - intros ps0. apply keys_transit_installed_fresh.
  - intros ps0 name. apply getitem_transit_installed_other.
Qed.

(** The same for [lmfit_eclipse], with the ten parameters T_0, P, D, W, b,
    L, f_c, f_s, c and a_c and the four derived parameters k, aR, sini
    and e. *)
Theorem eclipse_parameters_names (time flux : list pyfloat) (kw : Keywords)
    (ps : Parameters) :
  eclipse_parameters time flux kw = Ret ps ->
  keys ps = eclipse_names ++ List.filter (given kw) optional_keywords
              ++ map fst eclipse_exprs /\
  NoDup (keys ps) /\
  (forall name p,
     name ∈ eclipse_names ++ optional_keywords -> kw name <> PyNone ->
     _kw_to_Parameter name (kw name) = Ret p ->
     getitem ps name = Some p).
Proof.
  unfold eclipse_parameters.
  destruct (eclipse_keywords_run time flux kw)
    as [(base & entries & -> & Hbase & Hconv & Hfst & Hall) | (msg & ps' & ->)];
    [| discriminate].
  intros Hd. apply eclipse_derived_installed in Hd as ->.
  apply (keyword_parameters_facts kw eclipse_names (map fst eclipse_exprs)
           eclipse_installed); try assumption.
  - exact NoDup_eclipse_all.
  - apply keys_eclipse_installed_fresh.
  - apply getitem_eclipse_installed_other.
Qed.
















End KeywordResults.

(** ** The two fits on an example *)

Section KeywordExamples.

#[local] Arguments Rltb : simpl never.
#[local] Arguments Reqb : simpl never.
#[local] Arguments isclose : simpl never.

(** Decide [isclose] on closed reals. *)
Ltac isclose_closed :=
  repeat match goal with
    | |- context [isclose NInf PInf] => change (isclose NInf PInf) with false
    | |- context [isclose (Fin ?a) (Fin ?b)] =>
        rewrite (proj2 (isclose_apart a b)) by apart_closed
    end.

(** Run statements on closed data. *)
Ltac run_closed :=
  repeat (progress (unfold Parameter_new, clip_number; cbv zeta; cbn; rdecide;
                    isclose_closed)).

Ltac run_keywords :=
  unfold pbind, default_or_keyword, optional_keyword, params_value,
    default_T_0, default_D, default_W, default_c, add_literal, params_add,
    params_set, plift, pret;
  run_closed.

Ltac present_inputs :=
  let x := fresh "x" in
  let Hx := fresh "Hx" in
  intros x Hx; unfold transit_inputs, eclipse_inputs in Hx;
  repeat (apply elem_of_cons in Hx as [-> | Hx]);
  [ .. | apply elem_of_nil in Hx; contradiction ];
  cbn; eexists; reflexivity.

Lemma example_transit_parameters :
  exists ps,
    transit_parameters example_time example_flux example_keywords = Ret ps.
Proof.
  eexists. unfold transit_parameters, transit_keywords, example_time,
    example_flux.
  run_keywords.
  eapply transit_derived_succeeds;
    [ present_inputs
    | cbn; reflexivity | reflexivity | cbn; rdecide; reflexivity
    | cbn; reflexivity | reflexivity | cbn; rdecide; reflexivity
    | cbn; reflexivity | reflexivity
    | cbn; reflexivity | reflexivity | cbn; rdecide; reflexivity ].
Qed.

Lemma example_eclipse_parameters :
  exists ps,
    eclipse_parameters example_time example_flux example_keywords = Ret ps.
Proof.
  eexists. unfold eclipse_parameters, eclipse_keywords, example_time,
    example_flux.
  run_keywords.
  apply eclipse_derived_succeeds. present_inputs.
Qed.


End KeywordExamples.


Lemma transit_parameters_names_witness :
  exists ps,
    transit_parameters example_time example_flux example_keywords = Ret ps /\
    keys ps = transit_names ++ ["dfdx"%string] ++ map fst transit_exprs /\
    NoDup (keys ps) /\
    getitem ps "P" = Some (Parameter_object "P" (Fin 2.5) false NInf PInf None None).
Proof.
  destruct example_transit_parameters as [ps Hps].
  exists ps. split; [exact Hps |].
  destruct (transit_parameters_names example_time example_flux example_keywords
              ps Hps) as (Hkeys & Hnd & Hget).
  split; [exact Hkeys | split; [exact Hnd |]].
  apply Hget.
  - apply list_elem_of_In. cbn. tauto.
  - discriminate.
  - apply Parameter_new_unbounded.
Defined.

Lemma eclipse_parameters_names_witness :
  exists ps,
    eclipse_parameters example_time example_flux example_keywords = Ret ps /\
    keys ps = eclipse_names ++ ["dfdx"%string] ++ map fst eclipse_exprs /\
    NoDup (keys ps).
Proof.
  destruct example_eclipse_parameters as [ps Hps].
  exists ps. split; [exact Hps |].
  destruct (eclipse_parameters_names example_time example_flux example_keywords
              ps Hps) as (Hkeys & Hnd & _).
  split; [exact Hkeys | exact Hnd].
Defined.

(** ** The noise parameters of the sampler *)

Section NoiseParameters.

Lemma contains_keys (ps : Parameters) (k : string) :
  contains (keys ps) k = true <-> is_Some (getitem ps k).
Proof.
  unfold contains, keys. induction ps as [| [k' p] ps IH]; cbn.
  - split; [discriminate | intros [x Hx]; discriminate].
  - rewrite String.eqb_sym. destruct (String.eqb k' k); cbn.
    + split; [eexists; reflexivity | reflexivity].
    + exact IH.
Qed.

Lemma contains_keys_false (ps : Parameters) (k : string) :
  contains (keys ps) k = false <-> getitem ps k = None.
Proof.
  rewrite eq_None_not_Some, <- contains_keys.
  destruct (contains (keys ps) k); split; congruence.
Qed.

Lemma setitem_id (ps : Parameters) (k : string) (p : Param) :
  getitem ps k = Some p -> setitem ps k p = ps.
Proof.
  induction ps as [| [k' p'] ps IH]; cbn; [discriminate |].
  destruct (String.eqb_spec k' k) as [-> | Hne].
  - intros [= ->]. reflexivity.
  - intros H. rewrite IH by exact H. reflexivity.
Qed.

Lemma setitem_setitem (ps : Parameters) (k : string) (p q : Param) :
  setitem (setitem ps k p) k q = setitem ps k q.
Proof.
  induction ps as [| [k' p'] ps IH]; cbn.
  - rewrite String.eqb_refl. reflexivity.
  - destruct (String.eqb_spec k' k) as [-> | Hne]; cbn.
    + rewrite String.eqb_refl. reflexivity.
    + destruct (String.eqb_spec k' k); [contradiction |]. rewrite IH. reflexivity.
Qed.

Lemma default_log_sigma_sets (ps : Parameters) :
  exists p, default_log_sigma ps = (Ret tt, setitem ps "log_sigma" p) /\
            (getitem ps "log_sigma" = None -> p = default_log_sigma_parameter).
Proof.
  unfold default_log_sigma, pbind, params_keys.
  destruct (contains (keys ps) "log_sigma") eqn:Hc; cbn [negb].
  - apply contains_keys in Hc as [p Hp]. exists p.
    unfold pret. rewrite (setitem_id _ _ _ Hp). split; [reflexivity | congruence].
  - exists default_log_sigma_parameter.
    rewrite add_literal_run by literal_bounds. unfold params_set_stderr.
    rewrite getitem_setitem_eq, setitem_setitem. split; reflexivity.
Qed.

(** A statement [if <present>: pass elif kw is None: <default> else:
    params[name] = _kw_to_Parameter(name, kw)] whose default sets [name]:
    it changes no other parameter; it does nothing when [present] holds;
    otherwise it sets [name], or raises the [ValueError] of the keyword. *)
Lemma guarded_step (present : bool) (name : string) (v : pyval)
    (default : PS unit) (ps : Parameters) (r : result unit) (ps' : Parameters) :
  (forall ps0, exists p, default ps0 = (Ret tt, setitem ps0 name p)) ->
  (if present then pret tt else default_or_keyword name v default) ps = (r, ps') ->
  (forall k, k <> name -> getitem ps' k = getitem ps k) /\
  (present = true -> r = Ret tt /\ ps' = ps) /\
  (present = false ->
   match r with
   | Ret _ => exists p, ps' = setitem ps name p /\
                        (v = PyNone -> default ps = (Ret tt, ps'))
   | Raise e => is_ValueError e /\ ps' = ps /\ v <> PyNone
   end).
Proof.
  intros Hd. destruct present.
  - intros [= <- <-]. repeat split; try discriminate. 
  - rewrite default_or_keyword_run.
    destruct (_kw_to_Parameter name v) as [p | e] eqn:Hconv.
    + destruct v; try discriminate;
        intros [= <- <-];
        (split; [intros k Hk; apply getitem_setitem_ne; congruence |]);
        (split; [discriminate |]); intros _; exists p;
        (split; [reflexivity | discriminate]).
    + destruct (kw_to_Parameter_raises _ _ _ Hconv) as [msg ->].
      destruct v;
        try (intros [= <- <-]; repeat split; try discriminate;
             eexists; reflexivity).
      destruct (Hd ps) as [p Hp]. rewrite Hp. intros [= <- <-].
      split; [intros k Hk; apply getitem_setitem_ne; congruence |].
      split; [discriminate |]. intros _. exists p. split; [reflexivity | auto].
Qed.

Lemma add_literal_always (name : string) (value : pyfloat) (vary : bool)
    (lo hi : pyfloat) (ps : Parameters) :
  fgt lo hi = false -> isclose lo hi = false ->
  exists p, add_literal name value vary lo hi ps = (Ret tt, setitem ps name p).
Proof. intros Hord Hclose. eexists. apply add_literal_run; assumption. Qed.

Lemma params_add_unbounded_always (name : string) (value : number)
    (vary : bool) (ps : Parameters) :
  exists p, params_add name value vary (python NInf) (python PInf) None ps
            = (Ret tt, setitem ps name p).
Proof.
  unfold params_add. rewrite Parameter_new_ordered by reflexivity.
  eexists. reflexivity.
Qed.

(** The default of a guarded statement always sets its name. *)
Ltac default_sets :=
  intros;
  first [ apply add_literal_always; literal_bounds
        | apply params_add_unbounded_always ].

(** The last statement: the expression of sigma_w names log_sigma only,
    and divides by nothing. *)
Lemma sigma_w_run (ps : Parameters) :
  is_Some (getitem ps "log_sigma") ->
  params_add "sigma_w" (python NInf) true (python NInf) (python PInf)
             (Some expr_sigma_w) ps
    = (Ret tt, setitem ps "sigma_w" sigma_w_parameter).
Proof.
  intros [p Hp]. unfold params_add. rewrite Parameter_new_unbounded.
  unfold expr_sigma_w. cbn [asteval]. rewrite Hp. reflexivity.
Qed.

Lemma default_log_sigma_sets_always (ps : Parameters) :
  exists p, default_log_sigma ps = (Ret tt, setitem ps "log_sigma" p).
Proof. destruct (default_log_sigma_sets ps) as (p & Hp & _). eauto. Qed.

(** The block of [emcee_sampler] under [if add_shoterm]. *)
Lemma shoterm_block (k : list string) (log_omega0 log_S0 log_Q : pyval)
    (ps : Parameters) (r : result unit) (ps' : Parameters) :
  (let+ _ :=
     if contains k "log_S0" then pret tt
     else default_or_keyword "log_S0" log_S0
            (add_literal "log_S0" (Fin (-12)) true (Fin (-30)) (Fin 0)) in
   let+ _ :=
     if contains k "log_omega0" then pret tt
     else default_or_keyword "log_omega0" log_omega0
            (add_literal "log_omega0" (Fin 3) true (Fin (-2.3)) (Fin 8)) in
   let+ names := params_keys in
   if contains names "log_Q" then pret tt
   else default_or_keyword "log_Q" log_Q
          (params_add "log_Q"
                      (numpy (flog (fdiv (Fin 1) (fsqrt (Fin 2))))) false
                      (python NInf) (python PInf) None)) ps = (r, ps') ->
  k = keys ps ->
  (forall n, is_Some (getitem ps n) -> getitem ps' n = getitem ps n) /\
  (forall n, n <> "log_S0"%string -> n <> "log_omega0"%string ->
             n <> "log_Q"%string -> getitem ps' n = getitem ps n) /\
  match r with
  | Ret _ => is_Some (getitem ps' "log_S0") /\
             is_Some (getitem ps' "log_omega0") /\
             is_Some (getitem ps' "log_Q")
  | Raise e => is_ValueError e
  end /\
  (log_omega0 = PyNone -> log_S0 = PyNone -> log_Q = PyNone -> r = Ret tt).
Proof.
  intros H ->. unfold pbind at 1 in H.
  match type of H with
  | context [(if ?b then _ else default_or_keyword ?n ?v ?d) ?s] =>
      destruct ((if b then pret tt else default_or_keyword n v d) s)
        as [r1 ps1] eqn:E1;
      apply guarded_step in E1 as (F1 & P1 & A1);
        [| default_sets]
  end.
  assert (K1 : forall n, is_Some (getitem ps n) -> getitem ps1 n = getitem ps n).
  { intros n Hn. destruct (contains (keys ps) "log_S0") eqn:Hc.
    - destruct (P1 eq_refl) as [_ ->]. reflexivity.
    - apply F1. intros ->. apply contains_keys_false in Hc.
      rewrite Hc in Hn. destruct Hn; discriminate. }
  assert (S1 : forall u, r1 = Ret u -> is_Some (getitem ps1 "log_S0")).
  { intros u ->. destruct (contains (keys ps) "log_S0") eqn:Hc.
    - destruct (P1 eq_refl) as [_ ->]. apply contains_keys, Hc.
    - destruct (A1 eq_refl) as (p & -> & _). rewrite getitem_setitem_eq.
      eexists; reflexivity. }
  destruct r1 as [[] | e1].
  2:{ injection H as <- <-.
      destruct (contains (keys ps) "log_S0") eqn:Hc;
        [destruct (P1 eq_refl); discriminate |].
      destruct (A1 eq_refl) as (He & -> & Hv).
      split; [auto | split; [auto | split; [exact He |]]].
      intros _ HS. contradiction. }
  unfold pbind at 1 in H.
  match type of H with
  | context [(if ?b then _ else default_or_keyword ?n ?v ?d) ?s] =>
      destruct ((if b then pret tt else default_or_keyword n v d) s)
        as [r2 ps2] eqn:E2;
      apply guarded_step in E2 as (F2 & P2 & A2);
        [| default_sets]
  end.
  assert (K2 : forall n, is_Some (getitem ps n) -> getitem ps2 n = getitem ps n).
  { intros n Hn. rewrite <- (K1 n Hn).
    destruct (contains (keys ps) "log_omega0") eqn:Hc.
    - destruct (P2 eq_refl) as [_ ->]. reflexivity.
    - apply F2. intros ->. apply contains_keys_false in Hc.
      rewrite Hc in Hn. destruct Hn; discriminate. }
  assert (S2 : forall u, r2 = Ret u -> is_Some (getitem ps2 "log_omega0")).
  { intros u ->. destruct (contains (keys ps) "log_omega0") eqn:Hc.
    - destruct (P2 eq_refl) as [_ ->].
      rewrite K1 by (apply contains_keys, Hc). apply contains_keys, Hc.
    - destruct (A2 eq_refl) as (p & -> & _). rewrite getitem_setitem_eq.
      eexists; reflexivity. }
  destruct r2 as [[] | e2].
  2:{ injection H as <- <-.
      destruct (contains (keys ps) "log_omega0") eqn:Hc;
        [destruct (P2 eq_refl); discriminate |].
      destruct (A2 eq_refl) as (He & -> & Hv).
      split; [exact K1 | split; [| split; [exact He |]]].
      - intros n H1 H2 H3. apply F1. exact H1.
      - intros Hw. contradiction. }
  unfold pbind at 1 in H. unfold params_keys at 1 in H.
  match type of H with
  | context [(if ?b then _ else default_or_keyword ?n ?v ?d) ?s] =>
      destruct ((if b then pret tt else default_or_keyword n v d) s)
        as [r3 ps3] eqn:E3;
      apply guarded_step in E3 as (F3 & P3 & A3);
        [| default_sets]
  end.
  injection H as <- <-.
  assert (K3 : forall n, is_Some (getitem ps n) -> getitem ps3 n = getitem ps n).
  { intros n Hn. rewrite <- (K2 n Hn).
    destruct (contains (keys ps2) "log_Q") eqn:Hc.
    - destruct (P3 eq_refl) as [_ ->]. reflexivity.
    - apply F3. intros ->. apply contains_keys_false in Hc.
      rewrite <- (K2 _ Hn), Hc in Hn. destruct Hn; discriminate. }
  split; [exact K3 | split; [| split]].
  - intros n H1 H2 H3. rewrite F3, F2, F1 by assumption. reflexivity.
  - destruct r3 as [[] | e3].
    + assert (Hkeep : forall n, n <> "log_Q"%string ->
                is_Some (getitem ps2 n) -> is_Some (getitem ps3 n)).
      { intros n Hn Hs. rewrite F3 by exact Hn. exact Hs. }
      repeat split.
      * apply Hkeep; [discriminate |]. rewrite F2 by discriminate.
        apply (S1 tt eq_refl).
      * apply Hkeep; [discriminate |]. apply (S2 tt eq_refl).
      * destruct (contains (keys ps2) "log_Q") eqn:Hc.
        -- destruct (P3 eq_refl) as [_ ->]. apply contains_keys, Hc.
        -- destruct (A3 eq_refl) as (p & -> & _). rewrite getitem_setitem_eq.
           eexists; reflexivity.
    + destruct (contains (keys ps2) "log_Q") eqn:Hc;
        [destruct (P3 eq_refl); discriminate |].
      destruct (A3 eq_refl) as (He & _). exact He.
  - intros _ _ HQ. destruct r3 as [[] | e3]; [reflexivity |].
    destruct (contains (keys ps2) "log_Q") eqn:Hc;
      [destruct (P3 eq_refl); discriminate |].
    destruct (A3 eq_refl) as (_ & _ & Hv). contradiction.
Qed.

End NoiseParameters.

Section NoiseParametersSpec.

Variables (add_shoterm : bool) (log_sigma log_omega0 log_S0 log_Q : pyval).

(** The statements before the one on log_sigma. *)
Lemma shoterm_part (ps : Parameters) (r : result unit) (ps' : Parameters) :
  (if add_shoterm
   then
     let+ _ :=
       if contains (keys ps) "log_S0" then pret tt
       else default_or_keyword "log_S0" log_S0
              (add_literal "log_S0" (Fin (-12)) true (Fin (-30)) (Fin 0)) in
     let+ _ :=
       if contains (keys ps) "log_omega0" then pret tt
       else default_or_keyword "log_omega0" log_omega0
              (add_literal "log_omega0" (Fin 3) true (Fin (-2.3)) (Fin 8)) in
     let+ names := params_keys in
     if contains names "log_Q" then pret tt
     else default_or_keyword "log_Q" log_Q
            (params_add "log_Q"
                        (numpy (flog (fdiv (Fin 1) (fsqrt (Fin 2))))) false
                        (python NInf) (python PInf) None)
   else pret tt) ps = (r, ps') ->
  (forall n, is_Some (getitem ps n) -> getitem ps' n = getitem ps n) /\
  (forall n,
     (add_shoterm = true ->
      n <> "log_S0"%string /\ n <> "log_omega0"%string /\ n <> "log_Q"%string) ->
     getitem ps' n = getitem ps n) /\
  match r with
  | Ret _ => add_shoterm = true ->
             is_Some (getitem ps' "log_S0") /\
             is_Some (getitem ps' "log_omega0") /\
             is_Some (getitem ps' "log_Q")
  | Raise e => is_ValueError e
  end /\
  (log_omega0 = PyNone -> log_S0 = PyNone -> log_Q = PyNone -> r = Ret tt).
Proof.
  destruct add_shoterm.
  - intros H. apply shoterm_block in H as (K & F & S & N); [| reflexivity].
    split; [exact K | split; [| split; [| exact N]]].
    + intros n Hn. destruct (Hn eq_refl) as (H1 & H2 & H3). apply F; assumption.
    + destruct r; [intros _; exact S | exact S].
  - intros [= <- <-]. repeat split; auto; discriminate.
Qed.

(** The run of the statements of [emcee_sampler] on the parameter set. *)
Lemma noise_parameters_facts (ps : Parameters) :
  let run := emcee_noise_parameters add_shoterm log_sigma log_omega0 log_S0
                                    log_Q ps in
  (forall n, n <> "sigma_w"%string -> is_Some (getitem ps n) ->
             getitem (snd run) n = getitem ps n) /\
  (forall e, fst run = Raise e -> is_ValueError e) /\
  (fst run = Ret tt ->
   is_Some (getitem (snd run) "log_sigma") /\
   getitem (snd run) "sigma_w" = Some sigma_w_parameter /\
   (add_shoterm = true ->
    is_Some (getitem (snd run) "log_S0") /\
    is_Some (getitem (snd run) "log_omega0") /\
    is_Some (getitem (snd run) "log_Q"))) /\
  (fst run = Ret tt -> getitem ps "log_sigma" = None -> log_sigma = PyNone ->
   getitem (snd run) "log_sigma" = Some default_log_sigma_parameter /\
   walker_scale default_log_sigma_parameter = Fin 1) /\
  (log_sigma = PyNone -> log_omega0 = PyNone -> log_S0 = PyNone ->
   log_Q = PyNone -> fst run = Ret tt) /\
  (fst run = Ret tt ->
   forall n, n <> "sigma_w"%string -> n <> "log_sigma"%string ->
     (add_shoterm = true ->
      n <> "log_S0"%string /\ n <> "log_omega0"%string /\ n <> "log_Q"%string) ->
     getitem (snd run) n = getitem ps n).
Proof.
  cbv zeta.
  destruct (emcee_noise_parameters add_shoterm log_sigma log_omega0 log_S0
              log_Q ps) as [r ps'] eqn:H.
  cbn [fst snd]. unfold emcee_noise_parameters in H.
  unfold pbind at 1 in H. unfold params_keys at 1 in H.
  unfold pbind at 1 in H.
  match type of H with
  | context [(if add_shoterm then ?a else ?b) ps] =>
      destruct ((if add_shoterm then a else b) ps) as [r1 ps1] eqn:E1
  end.
  apply shoterm_part in E1 as (K1 & F1 & S1 & N1).
  destruct r1 as [[] | e1].
  2:{ injection H as <- <-.
      split; [intros; apply K1; assumption |].
      split; [intros e [= <-]; exact S1 |].
      split; [discriminate | split; [discriminate |]].
      split; [| discriminate].
      intros _ Hw HS HQ. apply N1; assumption. }
  unfold pbind at 1 in H.
  match type of H with
  | context [(if ?b then _ else default_or_keyword ?n ?v ?d) ?s] =>
      destruct ((if b then pret tt else default_or_keyword n v d) s)
        as [r2 ps2] eqn:E2
  end.
  apply guarded_step in E2 as (F2 & P2 & A2);
    [| apply default_log_sigma_sets_always].
  assert (K2 : forall n, is_Some (getitem ps n) -> getitem ps2 n = getitem ps n).
  { intros n Hn. rewrite <- (K1 n Hn).
    destruct (contains (keys ps) "log_sigma") eqn:Hc.
    - destruct (P2 eq_refl) as [_ ->]. reflexivity.
    - apply F2. intros ->. apply contains_keys_false in Hc.
      rewrite Hc in Hn. destruct Hn; discriminate. }
  destruct r2 as [[] | e2].
  2:{ injection H as <- <-.
      destruct (contains (keys ps) "log_sigma") eqn:Hc;
        [destruct (P2 eq_refl); discriminate |].
      destruct (A2 eq_refl) as (He & -> & Hv).
      split; [intros; apply K1; assumption |].
      split; [intros e [= <-]; exact He |].
      split; [discriminate | split; [discriminate |]].
      split; [| discriminate].
      intros Hs. contradiction. }
  assert (Hsig : is_Some (getitem ps2 "log_sigma")).
  { destruct (contains (keys ps) "log_sigma") eqn:Hc.
    - rewrite K2 by (apply contains_keys, Hc). apply contains_keys, Hc.
    - destruct (A2 eq_refl) as (p & -> & _). rewrite getitem_setitem_eq.
      eexists; reflexivity. }
  rewrite (sigma_w_run ps2 Hsig) in H. injection H as <- <-.
  split; [| split; [discriminate | split; [| split; [| split; [reflexivity |]]]]].
  - intros n Hne Hn. rewrite getitem_setitem_ne by congruence. apply K2, Hn.
  - intros _.
    split; [rewrite getitem_setitem_ne by discriminate; exact Hsig |].
    split; [apply getitem_setitem_eq |].
    intros Hadd. destruct (S1 Hadd) as (HS & Hw & HQ).
    repeat split; rewrite getitem_setitem_ne by discriminate;
      rewrite F2 by discriminate; assumption.
  - intros _ Hnone Hv. split; [| reflexivity].
    rewrite getitem_setitem_ne by discriminate.
    assert (Hc : contains (keys ps) "log_sigma" = false)
      by (apply contains_keys_false, Hnone).
    destruct (A2 Hc) as (p & -> & Hd). specialize (Hd Hv).
    assert (Hnone1 : getitem ps1 "log_sigma" = None).
    { rewrite F1; [exact Hnone |]. intros _. repeat split; discriminate. }
    destruct (default_log_sigma_sets ps1) as (p' & Hp' & Hdef).
    rewrite Hp' in Hd. injection Hd as Hd.
    rewrite (Hdef Hnone1) in Hd. rewrite <- Hd. apply getitem_setitem_eq.
  - intros _ n Hn1 Hn2 Hn3.
    rewrite getitem_setitem_ne by congruence.
    rewrite F2 by exact Hn2. apply F1, Hn3.
Qed.


End NoiseParametersSpec.

(** ** The parameters object and the target function of the sampler *)

Section EmceeParameters.

Variables (add_shoterm : bool) (log_sigma log_omega0 log_S0 log_Q : pyval).

Lemma at_loc_run {A : Type} (l : loc) (m : PS A) (s : store) (ps : Parameters) :
  pheap s !! l = Some ps ->
  at_loc l m s = (fst (m ps), mkStore (<[l := snd (m ps)]> (pheap s)) (gheap s)).
Proof. intros H. unfold at_loc. rewrite H. reflexivity. Qed.

Lemma emcee_parameters_given (lmfit_params l : loc) (s : store)
    (ps : Parameters) :
  pheap s !! l = Some ps ->
  emcee_parameters (Some l) lmfit_params add_shoterm log_sigma log_omega0 log_S0
                   log_Q s
  = (match fst (emcee_noise_parameters add_shoterm log_sigma log_omega0 log_S0
                  log_Q ps) with
     | Ret _ => Ret l
     | Raise e => Raise e
     end,
     mkStore (<[l := snd (emcee_noise_parameters add_shoterm log_sigma
                            log_omega0 log_S0 log_Q ps)]> (pheap s))
             (gheap s)).
Proof.
  intros Hl. unfold emcee_parameters, bind, ret.
  rewrite (at_loc_run _ _ _ _ Hl).
  destruct (fst (emcee_noise_parameters _ _ _ _ _ ps)); reflexivity.
Qed.

Lemma emcee_parameters_copy (lmfit_params : loc) (s : store) (ps : Parameters) :
  pheap s !! lmfit_params = Some ps ->
  emcee_parameters None lmfit_params add_shoterm log_sigma log_omega0 log_S0
                   log_Q s
  = (match fst (emcee_noise_parameters add_shoterm log_sigma log_omega0 log_S0
                  log_Q ps) with
     | Ret _ => Ret (fresh (dom (pheap s)))
     | Raise e => Raise e
     end,
     mkStore (<[fresh (dom (pheap s)) :=
                  snd (emcee_noise_parameters add_shoterm log_sigma log_omega0
                         log_S0 log_Q ps)]> (pheap s))
             (gheap s)).
Proof.
  intros Hl. unfold emcee_parameters. unfold bind at 1.
  rewrite (Parameters_copy_run _ _ _ Hl).
  unfold bind, ret.
  rewrite (at_loc_run _ _ _ ps) by (cbn; apply lookup_insert_eq).
  cbn [pheap gheap]. rewrite insert_insert_eq.
  destruct (fst (emcee_noise_parameters _ _ _ _ _ ps)); reflexivity.
Qed.

(** Called without [params], [emcee_sampler] works on a copy of the
    parameters of the last least-squares fit: the copy gets the noise
    parameters and the fit result keeps its parameters as they were.
    Called with a [Parameters] object, it adds the noise parameters to
    that object itself, also when a later keyword then raises; given the
    parameters of the fit result, it is the fit result that gains
    sigma_w. *)
Theorem emcee_parameters_aliasing (lmfit_params : loc) (s : store)
    (ps : Parameters) :
  pheap s !! lmfit_params = Some ps ->
  (pheap (snd (emcee_parameters None lmfit_params add_shoterm log_sigma
                 log_omega0 log_S0 log_Q s)) !! lmfit_params = Some ps /\
   pheap (snd (emcee_parameters None lmfit_params add_shoterm log_sigma
                 log_omega0 log_S0 log_Q s)) !! fresh (dom (pheap s))
     = Some (snd (emcee_noise_parameters add_shoterm log_sigma log_omega0
                    log_S0 log_Q ps)) /\
   forall l, fst (emcee_parameters None lmfit_params add_shoterm log_sigma
                    log_omega0 log_S0 log_Q s) = Ret l ->
             l = fresh (dom (pheap s)) /\ l <> lmfit_params) /\
  (forall l ps_l, pheap s !! l = Some ps_l ->
     pheap (snd (emcee_parameters (Some l) lmfit_params add_shoterm log_sigma
                   log_omega0 log_S0 log_Q s))
       = <[l := snd (emcee_noise_parameters add_shoterm log_sigma log_omega0
                       log_S0 log_Q ps_l)]> (pheap s) /\
     (fst (emcee_noise_parameters add_shoterm log_sigma log_omega0 log_S0 log_Q
             ps_l) = Ret tt ->
      fst (emcee_parameters (Some l) lmfit_params add_shoterm log_sigma
             log_omega0 log_S0 log_Q s) = Ret l)) /\
  (fst (emcee_noise_parameters add_shoterm log_sigma log_omega0 log_S0 log_Q ps)
     = Ret tt ->
   exists ps',
     pheap (snd (emcee_parameters (Some lmfit_params) lmfit_params add_shoterm
                   log_sigma log_omega0 log_S0 log_Q s)) !! lmfit_params
       = Some ps' /\
     getitem ps' "sigma_w" = Some sigma_w_parameter).
Proof.
  intros Hl.
  assert (Hfresh : fresh (dom (pheap s)) <> lmfit_params).
  { intros E. pose proof (fresh_not_allocated s) as Hf. rewrite E in Hf.
    congruence. }
  split; [| split].
  - rewrite (emcee_parameters_copy _ _ _ Hl). cbn [fst snd pheap].
    split; [rewrite lookup_insert_ne by exact Hfresh; exact Hl |].
    split; [apply lookup_insert_eq |].
    intros l Hr.
    destruct (fst (emcee_noise_parameters _ _ _ _ _ ps)); [| discriminate].
    injection Hr as <-. split; [reflexivity | exact Hfresh].
  - intros l ps_l Hps. rewrite (emcee_parameters_given _ _ _ _ Hps).
    cbn [fst snd pheap]. split; [reflexivity |]. intros ->. reflexivity.
  - intros Hok. rewrite (emcee_parameters_given _ _ _ _ Hl). cbn [snd pheap].
    eexists. split; [apply lookup_insert_eq |].
    pose proof (noise_parameters_facts add_shoterm log_sigma log_omega0 log_S0
                  log_Q ps) as F.
    cbv zeta in F. destruct F as (_ & _ & F & _).
    destruct (F Hok) as (_ & Hw & _). exact Hw.
Qed.

End EmceeParameters.

Lemma emcee_parameters_aliasing_witness :
  pheap (snd (emcee_parameters None 0%nat false PyNone PyNone PyNone PyNone
                example_store)) !! 0%nat = Some example_params /\
  exists ps',
    pheap (snd (emcee_parameters (Some 0%nat) 0%nat false PyNone PyNone PyNone
                  PyNone example_store)) !! 0%nat = Some ps' /\
    getitem ps' "sigma_w" = Some sigma_w_parameter.
Proof.
  destruct (emcee_parameters_aliasing false PyNone PyNone PyNone PyNone 0%nat
              example_store example_params eq_refl) as ((H1 & _) & _ & H3).
  split; [exact H1 | apply H3; reflexivity].
Defined.

Section EmceeTarget.

Variable celerite
  : list pyfloat -> list pyfloat -> GPstate -> list pyfloat -> pyfloat.
Variables (model : Model) (time flux flux_err : list pyfloat).
Variables (params : loc) (vn : list string).

Lemma emcee_target_SHOTerm (s : store) (ps : Parameters) :
  pheap s !! params = Some ps ->
  is_Some (getitem ps "log_S0") -> is_Some (getitem ps "log_omega0") ->
  is_Some (getitem ps "log_Q") -> is_Some (getitem ps "log_sigma") ->
  emcee_target celerite model time flux flux_err params vn s =
    (Ret (fun pos =>
            _log_posterior_SHOTerm pos model time flux flux_err params vn
              (mkGP (fresh (dom (gheap s))) (celerite time flux_err)) false,
          Some (mkGP (fresh (dom (gheap s))) (celerite time flux_err))),
     mkStore (pheap s)
             (<[fresh (dom (gheap s)) := kernel_parameters ps ∅]> (gheap s))).
Proof.
  intros Hps HS Hw HQ Hsig. unfold emcee_target. unfold bind at 1.
  unfold read_params. rewrite Hps.
  rewrite (proj2 (contains_keys ps "log_S0") HS).
  rewrite (proj2 (contains_keys ps "log_omega0") Hw).
  rewrite (proj2 (contains_keys ps "log_Q") HQ). cbn [andb].
  unfold bind at 1. rewrite (value_at_item_value _ _ _ _ Hps HS).
  unfold bind at 1. rewrite (value_at_item_value _ _ _ _ Hps HQ).
  unfold bind at 1. rewrite (value_at_item_value _ _ _ _ Hps Hw).
  unfold bind at 1. rewrite (value_at_item_value _ _ _ _ Hps Hsig).
  reflexivity.
Qed.

Lemma emcee_target_jitter (s : store) (ps : Parameters) :
  pheap s !! params = Some ps ->
  getitem ps "log_S0" = None \/ getitem ps "log_omega0" = None \/
  getitem ps "log_Q" = None ->
  emcee_target celerite model time flux flux_err params vn s =
    (Ret (fun pos =>
            _log_posterior_jitter pos model time flux flux_err params vn false,
          None), s).
Proof.
  intros Hps Hnone. unfold emcee_target. unfold bind at 1.
  unfold read_params. rewrite Hps.
  assert (Hc : contains (keys ps) "log_S0" && contains (keys ps) "log_omega0"
               && contains (keys ps) "log_Q" = false).
  { destruct Hnone as [H | [H | H]]; apply contains_keys_false in H; rewrite H;
      rewrite ?andb_false_r; reflexivity. }
  rewrite Hc. reflexivity.
Qed.

(** The target function that [emcee_sampler] hands to the sampler, after
    the noise parameters were added to the parameter set [ps0].  With
    [add_shoterm], or when [ps0] had log_S0, log_omega0 and log_Q already,
    it is the GP target function, bound to a new GP object whose kernel
    parameters are the current values of log_S0, log_Q, log_omega0 and
    log_sigma; the [Parameters] objects are left as they are.  Without
    [add_shoterm], when [ps0] lacked one of the three, it is the
    independent-noise function, no GP object is made and the store is left
    as it is.  In both cases [return_fit] is bound to false. *)
Theorem emcee_target_choice (add_shoterm : bool)
    (log_sigma log_omega0 log_S0 log_Q : pyval) (ps0 ps : Parameters)
    (s : store) :
  emcee_noise_parameters add_shoterm log_sigma log_omega0 log_S0 log_Q ps0
    = (Ret tt, ps) ->
  pheap s !! params = Some ps ->
  (add_shoterm = true \/
   (is_Some (getitem ps0 "log_S0") /\ is_Some (getitem ps0 "log_omega0") /\
    is_Some (getitem ps0 "log_Q")) ->
   emcee_target celerite model time flux flux_err params vn s =
     (Ret (fun pos =>
             _log_posterior_SHOTerm pos model time flux flux_err params vn
               (mkGP (fresh (dom (gheap s))) (celerite time flux_err)) false,
           Some (mkGP (fresh (dom (gheap s))) (celerite time flux_err))),
      mkStore (pheap s)
              (<[fresh (dom (gheap s)) := kernel_parameters ps ∅]> (gheap s)))) /\
  (add_shoterm = false ->
   getitem ps0 "log_S0" = None \/ getitem ps0 "log_omega0" = None \/
   getitem ps0 "log_Q" = None ->
   emcee_target celerite model time flux flux_err params vn s =
     (Ret (fun pos =>
             _log_posterior_jitter pos model time flux flux_err params vn false,
           None), s)).
Proof.
  intros Hrun Hps.
  pose proof (noise_parameters_facts add_shoterm log_sigma log_omega0 log_S0
                log_Q ps0) as F.
  cbv zeta in F. rewrite Hrun in F. cbn [fst snd] in F.
  destruct F as (K & _ & P & _ & _ & Fr).
  destruct (P eq_refl) as (Hsig & _ & Hsho). split.
  - intros Hcase. assert (H3 : is_Some (getitem ps "log_S0") /\
                               is_Some (getitem ps "log_omega0") /\
                               is_Some (getitem ps "log_Q")).
    { destruct Hcase as [Hadd | (HS & Hw & HQ)]; [apply Hsho, Hadd |].
      repeat split; rewrite K by (assumption || discriminate); assumption. }
    destruct H3 as (HS & Hw & HQ). apply (emcee_target_SHOTerm s ps); assumption.
  - intros Hadd Hnone. apply (emcee_target_jitter s ps); [exact Hps |].
    assert (Hsame : forall n, n <> "sigma_w"%string -> n <> "log_sigma"%string ->
                              getitem ps n = getitem ps0 n).
    { intros n H1 H2. apply (Fr eq_refl n H1 H2). rewrite Hadd. discriminate. }
    rewrite !Hsame by discriminate. exact Hnone.
Qed.

End EmceeTarget.

Lemma example_emcee_run :
  emcee_noise_parameters true PyNone PyNone PyNone PyNone example_params
    = (Ret tt, example_emcee_params).
Proof.
  pose proof (noise_parameters_facts true PyNone PyNone PyNone PyNone
                example_params) as F.
  cbv zeta in F. destruct F as (_ & _ & _ & _ & Hrun & _).
  unfold example_emcee_params.
  destruct (emcee_noise_parameters true PyNone PyNone PyNone PyNone
              example_params) as [r ps].
  cbn [fst snd] in *. rewrite Hrun by reflexivity. reflexivity.
Qed.

Lemma emcee_target_choice_witness :
  emcee_target zero_likelihood unit_model [Fin 0] [Fin 1] [Fin 1] 0%nat
               example_vn example_emcee_store =
    (Ret (fun pos =>
            _log_posterior_SHOTerm pos unit_model [Fin 0] [Fin 1] [Fin 1] 0%nat
              example_vn
              (mkGP (fresh (dom (gheap example_emcee_store)))
                    (zero_likelihood [Fin 0] [Fin 1])) false,
          Some (mkGP (fresh (dom (gheap example_emcee_store)))
                     (zero_likelihood [Fin 0] [Fin 1]))),
     mkStore (pheap example_emcee_store)
             (<[fresh (dom (gheap example_emcee_store)) :=
                  kernel_parameters example_emcee_params ∅]>
                (gheap example_emcee_store))).
Proof.
  apply (proj1 (emcee_target_choice zero_likelihood unit_model [Fin 0] [Fin 1]
                  [Fin 1] 0%nat example_vn true PyNone PyNone PyNone PyNone
                  example_params example_emcee_params example_emcee_store
                  example_emcee_run eq_refl)).
  left. reflexivity.
Defined.

(** ** Masking and clipping the light curve *)

Section Masking.

Lemma length_select (m : list bool) :
  forall a, length a = length m -> length (select m a) = count_true m.
Proof.
  unfold count_true. induction m as [| b m IH]; intros a Hlen.
  - destruct a; reflexivity.
  - destruct a as [| x a]; [discriminate |]. cbn in Hlen.
    destruct b; cbn; rewrite IH by lia; reflexivity.
Qed.

Lemma select_all_false (m : list bool) :
  Forall (fun b => b = false) m -> forall a, select m a = [].
Proof.
  induction 1 as [| b m -> _ IH]; intros a; [destruct a; reflexivity |].
  destruct a as [| x a]; [reflexivity | apply IH].
Qed.

(** A kept entry is an entry of the array at a place where the mask is
    true, and every such entry is kept, in order. *)
Lemma select_spec (m : list bool) :
  forall a, length a = length m ->
    select m a = map fst (List.filter snd (zip a m)).
Proof.
  induction m as [| b m IH]; intros a Hlen.
  - destruct a; reflexivity.
  - destruct a as [| x a]; [discriminate |]. cbn in Hlen.
    cbn. destruct b; cbn; rewrite IH by lia; reflexivity.
Qed.

(** The loop over the dictionary when every array has the length of the
    Boolean array. *)
Lemma index_arrays_aligned (m : list bool) (todo : LightCurve) :
  arrays_of_length (length m) todo ->
  forall done,
    index_arrays m done todo = (Ret tt, done ++ indexed m todo).
Proof.
  induction todo as [| [k v] todo IH]; intros Hal done.
  - cbn. rewrite app_nil_r. reflexivity.
  - assert (Hal' : arrays_of_length (length m) todo).
    { intros k' a' Hin. apply (Hal k' a'). apply elem_of_cons. auto. }
    destruct v as [a | v]; cbn [index_arrays].
    + unfold bool_index.
      rewrite (Hal k a) by (apply elem_of_cons; auto).
      rewrite Nat.eqb_refl. rewrite IH by exact Hal'.
      rewrite <- app_assoc. reflexivity.
    + rewrite IH by exact Hal'. rewrite <- app_assoc. reflexivity.
Qed.

(** The loop stops with [IndexError] at the first array whose length is not
    that of the Boolean array. *)
Lemma index_arrays_mismatch (m : list bool) (todo : LightCurve) :
  (exists k a, (k, LcArray a) ∈ todo /\ length a <> length m) ->
  forall done, fst (index_arrays m done todo) = Raise IndexError.
Proof.
  induction todo as [| [k v] todo IH]; intros (k0 & a0 & Hin & Hne) done.
  - apply elem_of_nil in Hin. contradiction.
  - destruct v as [a | v]; cbn [index_arrays].
    + unfold bool_index. destruct (Nat.eqb_spec (length a) (length m)) as [E | E];
        [| reflexivity].
      apply IH. apply elem_of_cons in Hin as [[= -> ->] | Hin];
        [contradiction | eauto].
    + apply IH. apply elem_of_cons in Hin as [[=] | Hin]. eauto.
Qed.

Lemma arrays_of_length_indexed (m : list bool) (lc : LightCurve) :
  arrays_of_length (length m) lc ->
  arrays_of_length (count_true m) (indexed m lc).
Proof.
  intros Hal k a Hin. unfold indexed in Hin.
  apply list_elem_of_fmap in Hin as ([k' v] & Heq & Hin). cbn in Heq.
  destruct v as [a' | v]; [| discriminate].
  injection Heq as -> ->. apply length_select. apply (Hal k' a'), Hin.
Qed.

Lemma keys_indexed (m : list bool) (lc : LightCurve) :
  map fst (indexed m lc) = map fst lc.
Proof.
  unfold indexed. rewrite map_map. apply map_ext.
  intros [k [a | v]]; reflexivity.
Qed.

(** [mask_data] on a light curve whose arrays all have the length of the
    mask: every array keeps exactly its entries at the places where the
    mask is false, in order, so that the arrays stay aligned, with as many
    entries as the mask has false places; the other entries of the
    dictionary and the order of its keys are unchanged; and [lc_unmask]
    holds the light curve as it was just before this call, so that after
    a second call it holds the light curve masked once and the data
    removed by the first call are no longer stored.  A mask of another
    length raises [IndexError], after [lc_unmask] was overwritten. *)
Theorem mask_data_spec (mask : list bool) (ds : Dataset) :
  (arrays_of_length (length mask) (ds_lc ds) ->
   ds_lc (snd (mask_data mask ds)) = indexed (map negb mask) (ds_lc ds) /\
   fst (mask_data mask ds)
     = light_curve_triple (indexed (map negb mask) (ds_lc ds)) /\
   arrays_of_length (count_true (map negb mask)) (ds_lc (snd (mask_data mask ds))) /\
   map fst (ds_lc (snd (mask_data mask ds))) = map fst (ds_lc ds)) /\
  ds_lc_unmask (snd (mask_data mask ds)) = Some (ds_lc ds) /\
  (forall mask2,
     ds_lc_unmask (snd (mask_data mask2 (snd (mask_data mask ds))))
       = Some (ds_lc (snd (mask_data mask ds)))) /\
  ((exists k a, (k, LcArray a) ∈ ds_lc ds /\ length a <> length mask) ->
   fst (mask_data mask ds) = Raise IndexError).
Proof.
  assert (Hun : forall m d, ds_lc_unmask (snd (mask_data m d)) = Some (ds_lc d)).
  { intros m d. unfold mask_data. cbv zeta.
    destruct (fst (index_arrays (map negb m) [] (ds_lc d))); reflexivity. }
  split; [| split; [apply Hun | split; [intros; apply Hun |]]].
  - intros Hal. unfold mask_data. cbv zeta.
    assert (Hal' : arrays_of_length (length (map negb mask)) (ds_lc ds))
      by (rewrite length_map; exact Hal).
    rewrite (index_arrays_aligned _ _ Hal' []). cbn [fst snd app ds_lc].
    repeat split.
    + apply arrays_of_length_indexed, Hal'.
    + apply keys_indexed.
  - intros Hbad. unfold mask_data. cbv zeta.
    rewrite index_arrays_mismatch; [reflexivity |].
    destruct Hbad as (k & a & Hin & Hne). exists k, a.
    rewrite length_map. auto.
Qed.

End Masking.

Section Clipping.

Variable medfilt : list pyfloat -> nat -> list pyfloat.
Hypothesis length_medfilt : forall x width, length (medfilt x width) = length x.

Lemma length_deviations (flux : list pyfloat) (width : nat) :
  length (deviations medfilt flux width) = length flux.
Proof.
  unfold deviations.
  rewrite length_map, length_zip_with, length_map, length_medfilt, length_map.
  lia.
Qed.

Lemma fsub_NaN_r (x : pyfloat) : fsub x NaN = NaN.
Proof. destruct x; reflexivity. Qed.

(** A NaN flux gives a NaN deviation at the same place. *)
Lemma deviations_NaN (flux : list pyfloat) (width : nat) :
  NaN ∈ flux -> NaN ∈ deviations medfilt flux width.
Proof.
  intros Hin. apply list_elem_of_lookup in Hin as [i Hi].
  unfold deviations.
  set (f := map (fun x => fadd x (Fin 1))
                (medfilt (map (fun x => fsub x (Fin 1)) flux) width)).
  assert (Hlen : length f = length flux).
  { unfold f. rewrite length_map, length_medfilt, length_map. reflexivity. }
  destruct (lookup_lt_is_Some_2 f i) as [y Hy].
  { rewrite Hlen. eapply lookup_lt_Some. exact Hi. }
  apply list_elem_of_lookup. exists i.
  rewrite list_lookup_fmap, lookup_zip_with, Hy, Hi. cbn.
  rewrite fsub_NaN_r. reflexivity.
Qed.

Lemma foldl_fadd_NaN (l : list pyfloat) : foldl fadd NaN l = NaN.
Proof. induction l as [| x l IH]; [reflexivity | exact IH]. Qed.

Lemma arr_sum_NaN (l : list pyfloat) : NaN ∈ l -> arr_sum l = NaN.
Proof.
  unfold arr_sum. generalize (Fin 0).
  induction l as [| x l IH]; intros acc Hin.
  - apply elem_of_nil in Hin. contradiction.
  - cbn [foldl]. apply elem_of_cons in Hin as [<- | Hin].
    + replace (fadd acc NaN) with NaN by (destruct acc; reflexivity).
      apply foldl_fadd_NaN.
    + apply IH, Hin.
Qed.

Lemma arr_mean_NaN (l : list pyfloat) : NaN ∈ l -> arr_mean l = NaN.
Proof. intros Hin. unfold arr_mean. rewrite arr_sum_NaN by exact Hin. reflexivity. Qed.

Lemma flt_NaN_r (x : pyfloat) : flt x NaN = false.
Proof. destruct x; reflexivity. Qed.

(** [clip_outliers] keeps the points whose deviation from the
    median-smoothed light curve is below [clip] times the mean deviation,
    in every array of the light curve alike, and does not touch
    [lc_unmask]; when the flux has a NaN entry the mean deviation is NaN,
    no point passes the test and every array of the light curve is left
    empty. *)
Theorem clip_outliers_spec (clip : pyfloat) (width : nat) (ds : Dataset)
    (flux : list pyfloat) :
  lc_get (ds_lc ds) "flux" = Ret (LcArray flux) ->
  arrays_of_length (length flux) (ds_lc ds) ->
  ds_lc (snd (clip_outliers medfilt clip width ds))
    = indexed (map (fun x => flt x (fmul clip
                                      (arr_mean (deviations medfilt flux width))))
                   (deviations medfilt flux width))
              (ds_lc ds) /\
  ds_lc_unmask (snd (clip_outliers medfilt clip width ds)) = ds_lc_unmask ds /\
  (exists n, arrays_of_length n (ds_lc (snd (clip_outliers medfilt clip width ds)))) /\
  (NaN ∈ flux ->
   arrays_of_length 0 (ds_lc (snd (clip_outliers medfilt clip width ds)))).
Proof.
  intros Hflux Hal. unfold clip_outliers. rewrite Hflux. cbv zeta.
  set (d := deviations medfilt flux width).
  set (ok := map (fun x => flt x (fmul clip (arr_mean d))) d).
  assert (Hok : length ok = length flux).
  { unfold ok, d. rewrite length_map. apply length_deviations. }
  assert (Hal' : arrays_of_length (length ok) (ds_lc ds))
    by (rewrite Hok; exact Hal).
  rewrite (index_arrays_aligned _ _ Hal' []). cbn [fst snd app ds_lc ds_lc_unmask].
  split; [reflexivity | split; [reflexivity | split]].
  - exists (count_true ok). apply arrays_of_length_indexed, Hal'.
  - intros Hnan.
    assert (Hfalse : Forall (fun b => b = false) ok).
    { unfold ok. rewrite (arr_mean_NaN d) by (apply deviations_NaN, Hnan).
      apply Forall_forall. intros b Hb.
      apply list_elem_of_fmap in Hb as (x & -> & _).
      replace (fmul clip NaN) with NaN by (destruct clip; reflexivity).
      apply flt_NaN_r. }
    intros k a Hin. unfold indexed in Hin.
    apply list_elem_of_fmap in Hin as ([k' v] & Heq & Hin). cbn in Heq.
    destruct v as [a' | v]; [| discriminate].
    injection Heq as -> ->. rewrite select_all_false by exact Hfalse. reflexivity.
Qed.

End Clipping.

Lemma example_lc_nan_aligned : arrays_of_length 3 example_lc_nan.
Proof.
  intros k a Hin. unfold example_lc_nan in Hin.
  repeat (apply elem_of_cons in Hin as [[= -> ->] | Hin]; [reflexivity |]);
    try (apply elem_of_cons in Hin as [[=] | Hin]);
    apply elem_of_nil in Hin; contradiction.
Qed.

Lemma clip_outliers_spec_witness :
  ds_lc (snd (clip_outliers identity_filter (Fin 5) 11
                (mkDataset example_lc_nan None)))
    = [ ("time", LcArray []); ("flux", LcArray []); ("flux_err", LcArray []);
        ("aperture", LcOther "OPTIMAL") ]%string /\
  ds_lc_unmask (snd (clip_outliers identity_filter (Fin 5) 11
                       (mkDataset example_lc_nan None))) = None.
Proof.
  destruct (clip_outliers_spec identity_filter (fun _ _ => eq_refl) (Fin 5) 11
              (mkDataset example_lc_nan None) [Fin 1; NaN; Fin 1] eq_refl
              example_lc_nan_aligned) as (Heq & Hun & _).
  split; [| exact Hun]. rewrite Heq. reflexivity.
Defined.

(** ** Labels *)

Section Labels.

Lemma labels_loop_spec (plotkeys : list string) (bjd_ref : Z) :
  forall labels,
    labels_loop plotkeys bjd_ref labels
      = labels ++ map (fun key => label_of key bjd_ref) plotkeys.
Proof.
  induction plotkeys as [| key rest IH]; intros labels; cbn.
  - rewrite app_nil_r. reflexivity.
  - rewrite IH, <- app_assoc. reflexivity.
Qed.

Lemma label_of_other (key : string) (bjd_ref : Z) :
  key ∉ labelled_keys -> label_of key bjd_ref = key.
Proof.
  intros Hnot. unfold labelled_keys in Hnot.
  repeat (apply not_elem_of_cons in Hnot as [? Hnot]).
  unfold label_of.
  repeat match goal with
         | |- context [String.eqb key ?k] =>
             destruct (String.eqb_spec key k); [contradiction |]
         end.
  reflexivity.
Qed.

Lemma append_char_inj (c : Ascii.ascii) (s s' : string) :
  String.app s (String c "") = String.app s' (String c "") -> s = s'.
Proof.
  revert s'. induction s as [| a s IH]; intros [| a' s'] H; cbn in H.
  - reflexivity.
  - injection H as _ H. destruct s'; discriminate.
  - injection H as _ H. destruct s; discriminate.
  - injection H as -> H. f_equal. apply IH, H.
Qed.

(** [_make_labels] returns one label for each key, in the order of the
    keys: the label of a key does not depend on the other keys; a key
    outside the twenty-five that have a label of their own is its own
    label; and the label of T_0 is [T$_0-<bjd_ref>$] with the reference
    time in decimal, so that different reference times give different
    labels. *)
Theorem make_labels_spec (plotkeys : list string) (bjd_ref : Z) :
  length (_make_labels plotkeys bjd_ref) = length plotkeys /\
  (forall i key, plotkeys !! i = Some key ->
     _make_labels plotkeys bjd_ref !! i = Some (label_of key bjd_ref) /\
     _make_labels [key] bjd_ref = [label_of key bjd_ref]) /\
  (forall key, key ∉ labelled_keys -> _make_labels [key] bjd_ref = [key]) /\
  _make_labels ["T_0"%string] bjd_ref = ["T$_0-" ++ pretty bjd_ref ++ "$"]%string /\
  (forall bjd_ref', _make_labels ["T_0"%string] bjd_ref
                      = _make_labels ["T_0"%string] bjd_ref' ->
                    bjd_ref = bjd_ref').
Proof.
  unfold _make_labels. rewrite labels_loop_spec. cbn [app].
  split; [apply length_map | split; [| split; [| split]]].
  - intros i key Hi. rewrite list_lookup_fmap, Hi. split; reflexivity.
  - intros key Hnot. cbn. rewrite label_of_other by exact Hnot. reflexivity.
  - reflexivity.
  - intros b' H.
    pose proof (f_equal (fun l => List.hd ""%string l) H) as H'.
    change (("T$_0-" ++ (pretty bjd_ref ++ "$"))%string
            = ("T$_0-" ++ (pretty b' ++ "$"))%string) in H'.
    apply (inj (String.app "T$_0-")) in H'.
    apply append_char_inj in H'.
    apply (inj pretty) in H'. exact H'.
Qed.

End Labels.

(** ** Edge cases of the sampling phases *)

Section SamplingEdges.

Variables (nwalkers n_varys : nat) (move : Move).

(** With [burn=0] the burn-in run yields no state, [run_mcmc] returns
    [None] and the unpacking [pos, _, _ = ...] raises [TypeError]; with a
    positive [burn] and [thin=0] the production run raises [ValueError];
    and starting positions that are not [nwalkers] rows of one column per
    free parameter make the burn-in run raise [ValueError]. *)
Theorem sampling_edge_cases (pos : Ensemble) (steps len_vn : nat) :
  (shape_ok nwalkers n_varys pos = true ->
   forall thin,
     sampling_phases nwalkers n_varys move pos 0 steps thin len_vn
       = Raise (TypeError "cannot unpack non-iterable NoneType object")) /\
  (shape_ok nwalkers n_varys pos = true ->
   keeps_shape nwalkers n_varys move ->
   forall burn, (0 < burn)%nat ->
     sampling_phases nwalkers n_varys move pos burn steps 0 len_vn
       = Raise (ValueError "Invalid thinning argument")) /\
  (shape_ok nwalkers n_varys pos = false ->
   forall burn thin,
     sampling_phases nwalkers n_varys move pos burn steps thin len_vn
       = Raise (ValueError "incompatible input dimensions")).
Proof.
  split; [| split].
  - intros Hpos thin. unfold sampling_phases, run_mcmc, EnsembleSampler.
    cbn [smp_nwalkers smp_ndim]. rewrite Hpos. reflexivity.
  - intros Hpos Hmove burn Hburn. unfold sampling_phases.
    destruct (run_mcmc_spec nwalkers n_varys move Hmove false 1 burn
                (EnsembleSampler nwalkers n_varys move) pos
                ltac:(lia) eq_refl eq_refl eq_refl Hpos ltac:(constructor))
      as (r1 & sm1 & -> & Hres1 & Hmv1 & Hnw1 & Hnd1 & _).
    cbn [rbind fst snd].
    destruct (Hres1 Hburn) as (pos1 & -> & Hpos1).
    unfold run_mcmc, sampler_reset. cbn [smp_nwalkers smp_ndim].
    rewrite Hnw1, Hnd1, Hpos1. reflexivity.
  - intros Hpos burn thin. unfold sampling_phases, run_mcmc, EnsembleSampler.
    cbn [smp_nwalkers smp_ndim]. rewrite Hpos. reflexivity.
Qed.

End SamplingEdges.

(** ** Scaling of the decorrelation quantities *)

Section MakeInterp.

Lemma div_bounds (a d l h : R) :
  (0 < d)%R -> (l * d <= a <= h * d)%R -> (l <= a / d <= h)%R.
Proof.
  intros Hd [Hl Hh]. unfold Rdiv.
  assert (Hinv : (0 < / d)%R) by (apply Rinv_0_lt_compat; exact Hd).
  split.
  - apply (Rmult_le_reg_r d); [exact Hd |].
    rewrite Rmult_assoc, Rinv_l by lra. lra.
  - apply (Rmult_le_reg_r d); [exact Hd |].
    rewrite Rmult_assoc, Rinv_l by lra. lra.
Qed.

Lemma least_unique (l : list R) (a b : R) : least a l -> least b l -> a = b.
Proof.
  intros [Ha Hla] [Hb Hlb]. specialize (Hla b Hb). specialize (Hlb a Ha). lra.
Qed.

Lemma greatest_unique (l : list R) (a b : R) :
  greatest a l -> greatest b l -> a = b.
Proof.
  intros [Ha Hla] [Hb Hlb]. specialize (Hla b Hb). specialize (Hlb a Ha). lra.
Qed.

Lemma builtin_min_least (x0 : R) (rest : list R) (lo : R) :
  least lo (x0 :: rest) ->
  builtin_min (map Fin (x0 :: rest)) = Ret (Fin lo).
Proof.
  intros Hlo. cbn [map builtin_min].
  destruct (py_min_finite rest x0) as (lo' & -> & Hin & Hle).
  rewrite (least_unique _ lo lo' Hlo (conj Hin Hle)). reflexivity.
Qed.

Lemma np_ptp_finite (x0 : R) (rest : list R) (lo hi : R) :
  least lo (x0 :: rest) -> greatest hi (x0 :: rest) ->
  np_ptp (map Fin (x0 :: rest)) = Ret (Fin (hi - lo)).
Proof.
  intros Hlo Hhi.
  pose proof (existsb_isnan_finite (x0 :: rest)) as Hnan.
  cbn [map] in *. unfold np_ptp. rewrite Hnan.
  destruct (py_min_finite rest x0) as (lo' & -> & Hin & Hle).
  destruct (py_max_finite rest x0) as (hi' & -> & Hin' & Hge).
  rewrite (least_unique _ lo lo' Hlo (conj Hin Hle)).
  rewrite (greatest_unique _ hi hi' Hhi (conj Hin' Hge)). reflexivity.
Qed.

(** The interpolating function made from ordinates [z] that are not
    empty. *)
Lemma interp_of_ordinates (t z : list pyfloat) :
  length t = length z -> z <> [] ->
  (let? z0 := first_entry z in
   let? z1 := last_entry z in
   interp1d t z (z0, z1))
  = Ret (mkInterp t z (hd NaN z, default NaN (last z))).
Proof.
  intros Hlen Hne. destruct z as [| x z]; [congruence |].
  cbn [first_entry rbind hd]. unfold last_entry.
  destruct (last (x :: z)) as [y |] eqn:Hlast.
  - cbn [rbind default]. unfold interp1d. rewrite Hlen, Nat.eqb_refl. reflexivity.
  - apply last_None in Hlast. discriminate.
Qed.

(** [_make_interp] on finite values [x] that are not empty, with as many
    abscissae.  A scale other than [None], ['max'] and ['range'] raises
    [ValueError], whatever the values.  Without scale the ordinates are
    the values.  When the values are not all equal, ['max'] maps each value
    [v] to [(v - min)/(max - min)], between 0 and 1, and ['range'] maps it
    to [(v - median)/(max - min)], between -1 and 1.  When the values are
    all equal both scales divide zero by zero and every ordinate is NaN.
    The fill values are the first and the last ordinate. *)
Theorem make_interp_scaling (t : list pyfloat) (x0 : R) (rest : list R)
    (lo hi : R) :
  length t = S (length rest) ->
  least lo (x0 :: rest) -> greatest hi (x0 :: rest) ->
  (forall t' x' s, s <> "max"%string -> s <> "range"%string ->
     _make_interp t' x' (Some s)
       = Raise (ValueError "scale must be None, max or range")) /\
  _make_interp t (map Fin (x0 :: rest)) None
    = Ret (mkInterp t (map Fin (x0 :: rest))
             (Fin x0, default NaN (last (map Fin (x0 :: rest))))) /\
  ((lo < hi)%R ->
   (_make_interp t (map Fin (x0 :: rest)) (Some "max"%string)
      = Ret (mkInterp t
               (map (fun v => Fin ((v - lo) / (hi - lo))) (x0 :: rest))
               (Fin ((x0 - lo) / (hi - lo)),
                default NaN
                  (last (map (fun v => Fin ((v - lo) / (hi - lo)))
                             (x0 :: rest))))) /\
    forall v, v ∈ x0 :: rest -> (0 <= (v - lo) / (hi - lo) <= 1)%R) /\
   (exists m,
      np_median (map Fin (x0 :: rest)) = Fin m /\ (lo <= m <= hi)%R /\
      _make_interp t (map Fin (x0 :: rest)) (Some "range"%string)
        = Ret (mkInterp t
                 (map (fun v => Fin ((v - m) / (hi - lo))) (x0 :: rest))
                 (Fin ((x0 - m) / (hi - lo)),
                  default NaN
                    (last (map (fun v => Fin ((v - m) / (hi - lo)))
                               (x0 :: rest))))) /\
      forall v, v ∈ x0 :: rest -> (-1 <= (v - m) / (hi - lo) <= 1)%R)) /\
  (lo = hi ->
   forall s, s = "max"%string \/ s = "range"%string ->
     exists r, _make_interp t (map Fin (x0 :: rest)) (Some s) = Ret r /\
               interp_t r = t /\
               interp_z r = map (fun _ => NaN) (x0 :: rest)).
Proof.
  intros Hlen Hlo Hhi.
  assert (Hb : forall y, y ∈ x0 :: rest -> (lo <= y <= hi)%R).
  { intros y Hy. split; [apply Hlo, Hy | apply Hhi, Hy]. }
  destruct (np_median_finite (x0 :: rest) lo hi ltac:(discriminate) Hb)
    as (m & Hmed & Hm).
  split; [| split; [| split]].
  - intros t' x' s H1 H2. unfold _make_interp.
    destruct (String.eqb_spec s "max"); [contradiction |].
    destruct (String.eqb_spec s "range"); [contradiction |]. reflexivity.
  - unfold _make_interp. cbn [rbind].
    rewrite interp_of_ordinates;
      [reflexivity | rewrite length_map; exact Hlen | discriminate].
  - intros Hlt. split; [split |].
    + unfold _make_interp. cbn [String.eqb Ascii.eqb Bool.eqb andb].
      rewrite (builtin_min_least _ _ _ Hlo), (np_ptp_finite _ _ _ _ Hlo Hhi).
      cbn [rbind].
      assert (Hz : map (fun v => fdiv (fsub v (Fin lo)) (Fin (hi - lo)))
                       (map Fin (x0 :: rest))
                   = map (fun v => Fin ((v - lo) / (hi - lo))) (x0 :: rest)).
      { rewrite map_map. apply map_ext. intros v. cbn [fsub fneg fadd fdiv].
        rewrite Reqb_false by lra. reflexivity. }
      rewrite Hz. rewrite interp_of_ordinates;
        [reflexivity | rewrite length_map; exact Hlen | discriminate].
    + intros v Hv. specialize (Hb v Hv). apply div_bounds; lra.
    + exists m. split; [exact Hmed | split; [exact Hm |]]. split.
      * unfold _make_interp. cbn [String.eqb Ascii.eqb Bool.eqb andb].
        rewrite Hmed, (np_ptp_finite _ _ _ _ Hlo Hhi). cbn [rbind].
        assert (Hz : map (fun v => fdiv (fsub v (Fin m)) (Fin (hi - lo)))
                         (map Fin (x0 :: rest))
                     = map (fun v => Fin ((v - m) / (hi - lo))) (x0 :: rest)).
        { rewrite map_map. apply map_ext. intros v. cbn [fsub fneg fadd fdiv].
          rewrite Reqb_false by lra. reflexivity. }
        rewrite Hz. rewrite interp_of_ordinates;
          [reflexivity | rewrite length_map; exact Hlen | discriminate].
      * intros v Hv. specialize (Hb v Hv). apply div_bounds; lra.
  - intros Heq s Hs. subst hi.
    assert (Hall : forall v, v ∈ x0 :: rest -> v = lo).
    { intros v Hv. specialize (Hb v Hv). lra. }
    assert (Hmlo : m = lo) by lra. subst m.
    assert (Hz : map (fun v => fdiv (fsub v (Fin lo)) (Fin (lo - lo)))
                     (map Fin (x0 :: rest))
                 = map (fun _ => NaN) (x0 :: rest)).
    { rewrite map_map. apply map_ext_in. intros v Hv.
      apply list_elem_of_In in Hv. rewrite (Hall v Hv).
      cbn [fsub fneg fadd fdiv]. rewrite Reqb_true by lra.
      unfold signed_inf. rewrite !Rltb_false by lra. reflexivity. }
    unfold _make_interp.
    destruct Hs as [-> | ->]; cbn [String.eqb Ascii.eqb Bool.eqb andb].
    + rewrite (builtin_min_least _ _ _ Hlo), (np_ptp_finite _ _ _ _ Hlo Hhi).
      cbn [rbind]. rewrite Hz. rewrite interp_of_ordinates;
        [| rewrite length_map; exact Hlen | discriminate].
      eexists. split; [reflexivity | split; reflexivity].
    + rewrite Hmed, (np_ptp_finite _ _ _ _ Hlo Hhi).
      cbn [rbind]. rewrite Hz. rewrite interp_of_ordinates;
        [| rewrite length_map; exact Hlen | discriminate].
      eexists. split; [reflexivity | split; reflexivity].
Qed.

End MakeInterp.

Lemma least_example : least 1%R [1%R; 3%R].
Proof.
  split; [apply list_elem_of_here |].
  intros y Hy. repeat (apply elem_of_cons in Hy as [-> | Hy]; [lra |]).
  apply elem_of_nil in Hy. contradiction.
Qed.

Lemma greatest_example : greatest 3%R [1%R; 3%R].
Proof.
  split; [apply list_elem_of_further, list_elem_of_here |].
  intros y Hy. repeat (apply elem_of_cons in Hy as [-> | Hy]; [lra |]).
  apply elem_of_nil in Hy. contradiction.
Qed.

Lemma make_interp_scaling_witness :
  _make_interp [Fin 0; Fin 1] (map Fin [1%R; 3%R]) (Some "max"%string)
    = Ret (mkInterp [Fin 0; Fin 1]
             (map (fun v => Fin ((v - 1) / (3 - 1))) [1%R; 3%R])
             (Fin ((1 - 1) / (3 - 1)),
              default NaN
                (last (map (fun v => Fin ((v - 1) / (3 - 1))) [1%R; 3%R])))) /\
  _make_interp [Fin 0; Fin 1] (map Fin [1%R; 3%R]) (Some "mean"%string)
    = Raise (ValueError "scale must be None, max or range").
Proof.
  destruct (make_interp_scaling [Fin 0; Fin 1] 1%R [3%R] 1%R 3%R eq_refl
              least_example greatest_example) as (Hbad & _ & Hscaled & _).
  split.
  - apply Hscaled. lra.
  - apply Hbad; discriminate.
Defined.

(** ** The arrays of the light curve *)

Section LightCurveArrays.

Lemma select_column (f : Row -> pyfloat) (table : Table) :
  select (map event_free table) (map f table) = map f (rows_ok table).
Proof.
  unfold rows_ok. induction table as [| r table IH]; [reflexivity |].
  cbn. destruct (event_free r); cbn; rewrite IH; reflexivity.
Qed.

Lemma getitems_column (f : Row -> pyfloat) (table : Table) :
  getitems (column f table) (BoolIndex (map event_free table))
    = Ret (map f (rows_ok table)).
Proof.
  unfold getitems, bool_index, column. rewrite !length_map, Nat.eqb_refl.
  rewrite select_column. reflexivity.
Qed.

Lemma nonzero_from_bound (m : list bool) :
  forall i, Forall (fun j => (j < i + length m)%nat) (nonzero_from i m).
Proof.
  induction m as [| b m IH]; intros i; [constructor |].
  cbn [nonzero_from length].
  assert (Forall (fun j => (j < i + S (length m))%nat) (nonzero_from (S i) m))
    as Hrest.
  { eapply Forall_impl; [apply (IH (S i)) |]. cbn. intros j Hj. lia. }
  destruct b; [constructor; [lia | exact Hrest] | exact Hrest].
Qed.

Lemma int_index_rows (f : Row -> pyfloat) (rows : Table) (places : list nat) :
  Forall (fun i => (i < length rows)%nat) places ->
  int_index (map f rows) places = Ret (at_places f rows places).
Proof.
  unfold at_places.
  induction 1 as [| i places Hi _ IH]; [reflexivity |].
  cbn [int_index omap list_omap].
  destruct (lookup_lt_is_Some_2 rows i Hi) as [r Hr].
  change (map f rows) with (f <$> rows) in *.
  rewrite list_lookup_fmap, Hr. cbn [fmap option_fmap option_map rbind].
  rewrite IH. cbn [rbind]. unfold Table in *. rewrite Hr. reflexivity.
Qed.

Lemma arr_sub_columns (f g : Row -> pyfloat) (rows : Table) :
  arr_sub (map f rows) (map g rows) = map (fun r => fsub (f r) (g r)) rows.
Proof.
  unfold arr_sub. induction rows as [| r rows IH]; [reflexivity |].
  cbn. rewrite IH. reflexivity.
Qed.

Lemma at_places_map {A B : Type} (f : Row -> A) (g : A -> B) (rows : Table)
    (places : list nat) :
  map g (at_places f rows places) = at_places (fun r => g (f r)) rows places.
Proof.
  unfold at_places. induction places as [| i places IH]; [reflexivity |].
  cbn [omap list_omap]. destruct (rows !! i); cbn; rewrite <- IH; reflexivity.
Qed.

Lemma kept_places_bound (rows : Table) :
  Forall (fun i => (i < length rows)%nat) (kept_places rows).
Proof.
  unfold kept_places, nonzero.
  eapply Forall_impl; [apply nonzero_from_bound |].
  cbn. intros i Hi. rewrite length_map in Hi. exact Hi.
Qed.

Lemma length_rows_ok (table : Table) :
  (length (rows_ok table) <= length table)%nat.
Proof.
  unfold rows_ok. induction table as [| r table IH]; [cbn; lia |].
  cbn. destruct (event_free r); cbn; lia.
Qed.

Lemma lightcurve_arrays_plain (table : Table) (bjd_ref : Z)
    (aperture : string) :
  let rows := rows_ok table in
  let fluxmed := np_nanmedian (map FLUX rows) in
  lightcurve_arrays table bjd_ref false aperture
    = Ret [ ("time", LcArray
               (map (fun r => fsub (BJD_TIME r) (float_of_int bjd_ref)) rows));
            ("flux", LcArray (map (fun r => fdiv (FLUX r) fluxmed) rows));
            ("flux_err", LcArray (map (fun r => fdiv (FLUXERR r) fluxmed) rows));
            ("bjd_ref", LcOther (pretty bjd_ref));
            ("table", LcOther "table"); ("header", LcOther "header");
            ("xoff", LcArray (map x_offset rows));
            ("yoff", LcArray (map y_offset rows));
            ("bg", LcArray (map BACKGROUND rows));
            ("contam", LcArray (map CONTA_LC rows));
            ("centroid_x", LcArray (map CENTROID_X rows));
            ("centroid_y", LcArray (map CENTROID_Y rows));
            ("roll_angle", LcArray (map ROLL_ANGLE rows));
            ("aperture", LcOther aperture) ]%string.
Proof.
  intros rows fluxmed. unfold lightcurve_arrays.
  change (map (fun r => (EVENT r =? 0)%Z || (EVENT r =? 100)%Z) table)
    with (map event_free table).
  rewrite !getitems_column. cbn [rbind fst snd a_time a_flux a_flux_err a_xoff
    a_yoff a_roll_angle a_bg a_contam].
  rewrite !getitems_column. cbn [rbind].
  rewrite !arr_sub_columns, !map_map. reflexivity.
Qed.

Lemma lightcurve_arrays_cut (table : Table) (bjd_ref : Z)
    (aperture : string) :
  let rows := rows_ok table in
  let fluxmed := np_nanmedian (map FLUX rows) in
  let kept := kept_places rows in
  rows <> [] ->
  lightcurve_arrays table bjd_ref true aperture
    = Ret [ ("time", LcArray
               (at_places (fun r => fsub (BJD_TIME r) (float_of_int bjd_ref))
                          rows kept));
            ("flux", LcArray
               (at_places (fun r => fdiv (FLUX r) fluxmed) rows kept));
            ("flux_err", LcArray
               (at_places (fun r => fdiv (FLUXERR r) fluxmed) rows kept));
            ("bjd_ref", LcOther (pretty bjd_ref));
            ("table", LcOther "table"); ("header", LcOther "header");
            ("xoff", LcArray (at_places x_offset rows kept));
            ("yoff", LcArray (at_places y_offset rows kept));
            ("bg", LcArray (at_places BACKGROUND rows kept));
            ("contam", LcArray (at_places CONTA_LC rows kept));
            ("centroid_x", LcArray (at_places CENTROID_X table kept));
            ("centroid_y", LcArray (at_places CENTROID_Y table kept));
            ("roll_angle", LcArray (at_places ROLL_ANGLE rows kept));
            ("aperture", LcOther aperture) ]%string.
Proof.
  intros rows fluxmed kept Hrows. unfold lightcurve_arrays.
  change (map (fun r => (EVENT r =? 0)%Z || (EVENT r =? 100)%Z) table)
    with (map event_free table).
  rewrite !getitems_column. cbn [rbind].
  fold rows. rewrite !arr_sub_columns, !map_map.
  assert (np_nanmin (map FLUX rows)
            = Ret (match List.filter (fun x => negb (isnan x)) (map FLUX rows)
                   with [] => NaN | x :: rest => py_min x rest end)) as ->.
  { destruct rows; [contradiction | reflexivity]. }
  cbn [rbind].
  change (nonzero (map (fun f => flt f (fsub (fmul (Fin 2)
            (np_nanmedian (map FLUX rows))) _)) (map FLUX rows)))
    with (nonzero (map (fun f => flt f (flux_cut rows)) (map FLUX rows))).
  rewrite map_map. fold (kept_places rows). fold kept.
  pose proof (kept_places_bound rows) as Hkept. fold kept in Hkept.
  assert (Forall (fun i => (i < length table)%nat) kept) as Hkept'.
  { eapply Forall_impl; [exact Hkept |]. cbn. intros i Hi.
    pose proof (length_rows_ok table). fold rows in H. lia. }
  unfold cut_arrays, getitems, column.
  cbn [a_time a_flux a_flux_err a_xoff a_yoff a_roll_angle a_bg a_contam].
  rewrite !int_index_rows by assumption. cbn [rbind fst snd a_time a_flux
    a_flux_err a_xoff a_yoff a_roll_angle a_bg a_contam].
  rewrite !int_index_rows by assumption. cbn [rbind].
  rewrite !at_places_map. reflexivity.
Qed.

#[local] Arguments Rltb : simpl never.

Lemma kept_places_example :
  kept_places (rows_ok example_table) = [0; 1]%nat.
Proof.
  change (rows_ok example_table)
    with [example_row 0 1 20; example_row 0 2 30; example_row 0 3 40].
  unfold kept_places, flux_cut, np_nanmedian, np_median, np_sort, py_min,
    example_row.
  cbn.
  repeat (first [rewrite Rltb_true by lra | rewrite Rltb_false by lra]; cbn).
  reflexivity.
Qed.

(** [get_lightcurve], from the selection of the rows to [self.lc], when
    some row of the table has no event flag (EVENT 0 or 100; otherwise
    [bjd[0]] has already raised).  Without [reject_highpoints] the arrays
    hold the rows without event flag, in order, and [centroid_x] belongs to
    the same rows as [xoff].  With [reject_highpoints] the arrays hold,
    among the rows without event flag, those whose flux is below twice the
    median minus the minimum, with the flux divided by the median taken
    before the cut; but [centroid_x] and [centroid_y] are read at the same
    places of the whole table, flagged rows included, so they belong to
    other rows than [xoff] and [time] as soon as a flagged row comes
    before a kept one. *)
Theorem lightcurve_centroids (table : Table) (bjd_ref : Z)
    (aperture : string) :
  rows_ok table <> [] ->
  (exists lc,
     lightcurve_arrays table bjd_ref false aperture = Ret lc /\
     lc_get lc "time"
       = Ret (LcArray (map (fun r => fsub (BJD_TIME r) (float_of_int bjd_ref))
                           (rows_ok table))) /\
     lc_get lc "xoff" = Ret (LcArray (map x_offset (rows_ok table))) /\
     lc_get lc "centroid_x"
       = Ret (LcArray (map CENTROID_X (rows_ok table)))) /\
  (exists lc,
     lightcurve_arrays table bjd_ref true aperture = Ret lc /\
     lc_get lc "time"
       = Ret (LcArray
           (at_places (fun r => fsub (BJD_TIME r) (float_of_int bjd_ref))
                      (rows_ok table) (kept_places (rows_ok table)))) /\
     lc_get lc "flux"
       = Ret (LcArray
           (at_places
              (fun r => fdiv (FLUX r) (np_nanmedian (map FLUX (rows_ok table))))
              (rows_ok table) (kept_places (rows_ok table)))) /\
     lc_get lc "xoff"
       = Ret (LcArray
           (at_places x_offset (rows_ok table) (kept_places (rows_ok table)))) /\
     lc_get lc "centroid_x"
       = Ret (LcArray
           (at_places CENTROID_X table (kept_places (rows_ok table)))) /\
     lc_get lc "centroid_y"
       = Ret (LcArray
           (at_places CENTROID_Y table (kept_places (rows_ok table))))).
Proof.
  intros Hrows. split.
  - eexists. split; [apply lightcurve_arrays_plain |].
    split; [reflexivity | split; reflexivity].
  - eexists. split; [apply lightcurve_arrays_cut; exact Hrows |].
    split; [reflexivity |]. split; [reflexivity |]. split; [reflexivity |].
    split; reflexivity.
Qed.

Lemma lightcurve_centroids_witness :
  rows_ok example_table <> [] /\
  exists lc,
    lightcurve_arrays example_table 2458000 true "DEFAULT" = Ret lc /\
    lc_get lc "xoff"
      = Ret (LcArray
          (map x_offset [example_row 0 1 20; example_row 0 2 30])) /\
    lc_get lc "centroid_x"
      = Ret (LcArray
          (map CENTROID_X [example_row 1 1 10; example_row 0 1 20])).
Proof.
  assert (rows_ok example_table <> []) as Hrows by discriminate.
  split; [exact Hrows |].
  destruct (lightcurve_centroids example_table 2458000 "DEFAULT" Hrows)
    as (_ & lc & Hrun & _ & _ & Hx & Hcx & _).
  exists lc. rewrite kept_places_example in Hx, Hcx.
  split; [exact Hrun | split; [exact Hx | exact Hcx]].
Defined.

End LightCurveArrays.
